(** * The Redis metadata engine of JuiceFS (pkg/meta/redis.go)

    A shallow embedding of the transactional metadata state machine: the
    error mapping and the transaction runner, the inode attribute
    operations, the chunk/slice log with slice resolution, copy-file-range,
    compaction, the directory transactions and the extended attributes.

    Conventions.  Go's fixed-width integers are integers of [Z] with the
    wrap-around written out ([u8], [u16], [u32], [u64], [i64]).  A Go [error]
    is an [option error] ([None] is [nil]).  The Redis server is a finite map
    from keys to values; a pipeline is a list of commands run in order. *)

From Stdlib Require Import ZArith Lia List Bool.
From stdpp Require Import gmap strings list fin_maps.

Local Open Scope Z_scope.

(* ===================================================================== *)
(** * Part I: definitions                                                 *)
(* ===================================================================== *)

(** ** Machine integers *)

Definition u8 (x : Z) : Z := x mod 2 ^ 8.
Definition u16 (x : Z) : Z := x mod 2 ^ 16.
Definition u32 (x : Z) : Z := x mod 2 ^ 32.
Definition u64 (x : Z) : Z := x mod 2 ^ 64.
(** Two's complement: the signed reading of the low 64 bits. *)
Definition i64 (x : Z) : Z := (x + 2 ^ 63) mod 2 ^ 64 - 2 ^ 63.

(** ** Errors *)

(** The dynamic type of a non-nil Go [error] as the engine tells them apart:
    a [syscall.Errno], the sentinel [redis.Nil] (key missing), the sentinel
    [redis.TxFailedErr] (a watched key changed), or anything else. *)
Inductive error : Type :=
| Errno (eno : Z)
| RedisNil
| TxFailedErr
| OtherErr (msg : string).

#[global] Instance error_eq_dec : EqDecision error.
Proof. solve_decision. Defined.

(** POSIX error numbers of package [syscall] (Linux). *)
Definition EPERM : Z := 1.
Definition ENOENT : Z := 2.
Definition EIO : Z := 5.
Definition EAGAIN : Z := 11.
Definition EACCES : Z := 13.
Definition EEXIST : Z := 17.
Definition ENOTDIR : Z := 20.
Definition EINVAL : Z := 22.
Definition EPIPE : Z := 32.
Definition ENOTEMPTY : Z := 39.
Definition ENOTSUP : Z := 95.

(** [errno]: the cases in the order of the source. *)
Definition errno (err : option error) : Z :=
  match err with
  | None => 0
  | Some (Errno eno) => eno
  | Some RedisNil => ENOENT
  | Some _ => EIO
  end.

(** ** The transaction runner *)

(** [time.Microsecond] in nanoseconds, the unit of [time.Duration]. *)
Definition Microsecond : Z := 1000.

(** What one call of [txn] does, as far as its caller and the clock see it:
    the error number returned, the number of calls of [rdb.Watch], and the
    durations slept, in order. *)
Record txn_result : Type := mk_txn_result {
  txn_errno : Z;
  txn_attempts : nat;
  txn_sleeps : list Z
}.

(** The loop [for i := 0; i < 50; i++] of [txn].  [watch i] is the error
    returned by the call of [r.rdb.Watch(ctx, txf, keys...)] in iteration
    [i]; [rnd i] is the value of [rand.Int()] drawn there (never negative).
    [n] counts the iterations left, [err] is the variable [err]. *)
Fixpoint txn_loop (watch : nat -> option error) (rnd : nat -> N)
    (n : nat) (i : nat) (err : option error) (sleeps : list Z) : txn_result :=
  match n with
  | O => mk_txn_result (errno err) i sleeps
  | S n' =>
      let err := watch i in
      if decide (err = Some TxFailedErr) then
        txn_loop watch rnd n' (S i) err
          (sleeps ++ [Microsecond * 100 * Z.rem (Z.of_N (rnd i)) (Z.of_nat i + 1)])
      else mk_txn_result (errno err) (S i) sleeps
  end.

Definition txn (watch : nat -> option error) (rnd : nat -> N) : txn_result :=
  txn_loop watch rnd 50 0 None [].

(** ** Constants declared outside [redis.go]

    The file types, the [SetAttr] flags, the chunk size, [ENOATTR] and the
    message numbers are constants of package [meta] declared in other files:
    they are parameters here. *)
Class Consts : Type := {
  ChunkSize : Z;
  TypeFile : Z;
  TypeDirectory : Z;
  TypeSymlink : Z;
  TypeFIFO : Z;
  SetAttrMode : Z;
  SetAttrUID : Z;
  SetAttrGID : Z;
  SetAttrAtime : Z;
  SetAttrMtime : Z;
  SetAttrAtimeNow : Z;
  SetAttrMtimeNow : Z;
  ENOATTR : Z
}.

(** The values these constants have in the project (64 MiB chunks, Linux
    numbering); only concrete examples use them. *)
Definition juicefs_consts : Consts := {|
  ChunkSize := 2 ^ 26;
  TypeFile := 1;
  TypeDirectory := 2;
  TypeSymlink := 3;
  TypeFIFO := 4;
  SetAttrMode := 1;
  SetAttrUID := 2;
  SetAttrGID := 4;
  SetAttrAtime := 16;
  SetAttrMtime := 32;
  SetAttrAtimeNow := 128;
  SetAttrMtimeNow := 256;
  ENOATTR := 61
|}.

(** ** Inode attributes *)

(** [Attr], with the fields [redis.go] reads and writes. *)
Record Attr : Type := mkAttr {
  Flags : Z;      (* uint8 *)
  Typ : Z;        (* uint8 *)
  Mode : Z;       (* uint16 *)
  Uid : Z;        (* uint32 *)
  Gid : Z;        (* uint32 *)
  Atime : Z;      (* int64 *)
  Mtime : Z;      (* int64 *)
  Ctime : Z;      (* int64 *)
  Atimensec : Z;  (* uint32 *)
  Mtimensec : Z;  (* uint32 *)
  Ctimensec : Z;  (* uint32 *)
  Nlink : Z;      (* uint32 *)
  Length : Z;     (* uint64 *)
  Rdev : Z;       (* uint32 *)
  Parent : Z;     (* Ino *)
  Full : bool
}.

(** The zero value [Attr{}]. *)
Definition Attr0 : Attr := mkAttr 0 0 0 0 0 0 0 0 0 0 0 0 0 0 0 false.

Definition set_Typ (a : Attr) (v : Z) : Attr :=
  mkAttr (Flags a) v (Mode a) (Uid a) (Gid a) (Atime a) (Mtime a) (Ctime a)
    (Atimensec a) (Mtimensec a) (Ctimensec a) (Nlink a) (Length a) (Rdev a) (Parent a) (Full a).
Definition set_Mode (a : Attr) (v : Z) : Attr :=
  mkAttr (Flags a) (Typ a) v (Uid a) (Gid a) (Atime a) (Mtime a) (Ctime a)
    (Atimensec a) (Mtimensec a) (Ctimensec a) (Nlink a) (Length a) (Rdev a) (Parent a) (Full a).
Definition set_Uid (a : Attr) (v : Z) : Attr :=
  mkAttr (Flags a) (Typ a) (Mode a) v (Gid a) (Atime a) (Mtime a) (Ctime a)
    (Atimensec a) (Mtimensec a) (Ctimensec a) (Nlink a) (Length a) (Rdev a) (Parent a) (Full a).
Definition set_Gid (a : Attr) (v : Z) : Attr :=
  mkAttr (Flags a) (Typ a) (Mode a) (Uid a) v (Atime a) (Mtime a) (Ctime a)
    (Atimensec a) (Mtimensec a) (Ctimensec a) (Nlink a) (Length a) (Rdev a) (Parent a) (Full a).
Definition set_Atime (a : Attr) (sec nsec : Z) : Attr :=
  mkAttr (Flags a) (Typ a) (Mode a) (Uid a) (Gid a) sec (Mtime a) (Ctime a)
    nsec (Mtimensec a) (Ctimensec a) (Nlink a) (Length a) (Rdev a) (Parent a) (Full a).
Definition set_Mtime (a : Attr) (sec nsec : Z) : Attr :=
  mkAttr (Flags a) (Typ a) (Mode a) (Uid a) (Gid a) (Atime a) sec (Ctime a)
    (Atimensec a) nsec (Ctimensec a) (Nlink a) (Length a) (Rdev a) (Parent a) (Full a).
Definition set_Ctime (a : Attr) (sec nsec : Z) : Attr :=
  mkAttr (Flags a) (Typ a) (Mode a) (Uid a) (Gid a) (Atime a) (Mtime a) sec
    (Atimensec a) (Mtimensec a) nsec (Nlink a) (Length a) (Rdev a) (Parent a) (Full a).
Definition set_Nlink (a : Attr) (v : Z) : Attr :=
  mkAttr (Flags a) (Typ a) (Mode a) (Uid a) (Gid a) (Atime a) (Mtime a) (Ctime a)
    (Atimensec a) (Mtimensec a) (Ctimensec a) v (Length a) (Rdev a) (Parent a) (Full a).
Definition set_Length (a : Attr) (v : Z) : Attr :=
  mkAttr (Flags a) (Typ a) (Mode a) (Uid a) (Gid a) (Atime a) (Mtime a) (Ctime a)
    (Atimensec a) (Mtimensec a) (Ctimensec a) (Nlink a) v (Rdev a) (Parent a) (Full a).
Definition set_Rdev (a : Attr) (v : Z) : Attr :=
  mkAttr (Flags a) (Typ a) (Mode a) (Uid a) (Gid a) (Atime a) (Mtime a) (Ctime a)
    (Atimensec a) (Mtimensec a) (Ctimensec a) (Nlink a) (Length a) v (Parent a) (Full a).
Definition set_Parent (a : Attr) (v : Z) : Attr :=
  mkAttr (Flags a) (Typ a) (Mode a) (Uid a) (Gid a) (Atime a) (Mtime a) (Ctime a)
    (Atimensec a) (Mtimensec a) (Ctimensec a) (Nlink a) (Length a) (Rdev a) v (Full a).

(** The attribute blob stored under [i$inode], field by field as [marshal]
    writes it: flags (1 byte), type and mode packed (2), uid (4), gid (4),
    atime (8+4), mtime (8+4), ctime (8+4), nlink (4), length (8), rdev (4)
    and the parent (8), which blobs written before the field existed lack.
    The bytes of each field (big endian, [utils.Buffer]) are not modelled. *)
Record blob : Type := mkBlob {
  b_flags : Z;
  b_typmode : Z;
  b_uid : Z;
  b_gid : Z;
  b_atime : Z;
  b_atimensec : Z;
  b_mtime : Z;
  b_mtimensec : Z;
  b_ctime : Z;
  b_ctimensec : Z;
  b_nlink : Z;
  b_length : Z;
  b_rdev : Z;
  b_parent : option Z
}.

Definition marshal (attr : Attr) : blob :=
  mkBlob (Flags attr)
    (Z.lor (u16 (Z.shiftl (Typ attr) 12)) (Z.land (Mode attr) 0xfff))
    (Uid attr) (Gid attr)
    (u64 (Atime attr)) (Atimensec attr)
    (u64 (Mtime attr)) (Mtimensec attr)
    (u64 (Ctime attr)) (Ctimensec attr)
    (Nlink attr) (Length attr) (Rdev attr)
    (Some (Parent attr)).

(** [parseAttr buf attr] for a non-nil [attr]: every field is overwritten,
    the parent only when the blob has one. *)
Definition parseAttr (buf : blob) (attr : Attr) : Attr :=
  mkAttr (b_flags buf)
    (u8 (Z.shiftr (b_typmode buf) 12))
    (Z.land (b_typmode buf) 0xfff)
    (b_uid buf) (b_gid buf)
    (i64 (b_atime buf)) (i64 (b_mtime buf)) (i64 (b_ctime buf))
    (b_atimensec buf) (b_mtimensec buf) (b_ctimensec buf)
    (b_nlink buf) (b_length buf) (b_rdev buf)
    (match b_parent buf with Some p => p | None => Parent attr end)
    true.

Definition align4K (length : Z) : Z :=
  if length =? 0 then 0
  else i64 (u64 (Z.shiftl (u64 (Z.shiftr (u64 (length - 1)) 12 + 1)) 12)).

(** The caller's identity carried by a [Context]: [ctx.Uid()], [ctx.Gid()]
    and whether [ctx.Value(CtxKey("behavior")) == "Hadoop"]. *)
Record Ctx : Type := mkCtx {
  ctx_uid : Z;
  ctx_gid : Z;
  ctx_hadoop : bool
}.

(** [time.Now()]: seconds ([now.Unix()]) and nanoseconds ([now.Nanosecond()]). *)
Record Time : Type := mkTime {
  Unix : Z;
  Nanosecond : Z
}.

(** ** The Redis server *)

(** A 24-byte slice record of a chunk log: in-chunk position, chunk id,
    declared size, offset within the slice, length. *)
Record srec : Type := mkSrec {
  r_pos : Z;      (* uint32 *)
  r_chunkid : Z;  (* uint64 *)
  r_size : Z;     (* uint32 *)
  r_off : Z;      (* uint32 *)
  r_len : Z       (* uint32 *)
}.

#[global] Instance srec_eq_dec : EqDecision srec.
Proof. solve_decision. Defined.

(** The keys of the schema and the values they hold, one finite map per
    kind of key (the key names are injective: a letter, then decimal numbers
    separated by an underscore):
    - [i$inode]: the attribute blob;
    - [d$inode]: a hash from entry names to (type, inode) ([packEntry]);
    - [c$inode_$indx]: the list of slice records of a chunk;
    - [s$inode]: the target of a symlink;
    - [x$inode]: a hash from attribute names to values;
    - [k$chunkid_$size]: the reference count of a slice;
    - [usedSpace], [totalInodes]: counters (a missing counter reads as 0);
    - [delfiles]: a sorted set, member to score; a member [inode:length]
      ([toDelete]) is kept as the pair of its two numbers;
    - [session$sid]: the set of sustained inodes of a session, each member
      (the inode in decimal) kept as the number.
    A Redis hash or list that becomes empty is removed with its key. *)
Record Store : Type := mkStore {
  inodes : gmap Z blob;
  entries : gmap Z (gmap string (Z * Z));
  chunks : gmap (Z * Z) (list srec);
  symlinks : gmap Z string;
  xattrs : gmap Z (gmap string string);
  slicerefs : gmap (Z * Z) Z;
  usedSpace : Z;
  totalInodes : Z;
  delfiles : gmap (Z * Z) Z;
  sessions : gmap Z (gset Z)
}.

Definition set_inodes (s : Store) (v : gmap Z blob) : Store :=
  mkStore v (entries s) (chunks s) (symlinks s) (xattrs s) (slicerefs s)
    (usedSpace s) (totalInodes s) (delfiles s) (sessions s).
Definition set_entries (s : Store) (v : gmap Z (gmap string (Z * Z))) : Store :=
  mkStore (inodes s) v (chunks s) (symlinks s) (xattrs s) (slicerefs s)
    (usedSpace s) (totalInodes s) (delfiles s) (sessions s).
Definition set_chunks (s : Store) (v : gmap (Z * Z) (list srec)) : Store :=
  mkStore (inodes s) (entries s) v (symlinks s) (xattrs s) (slicerefs s)
    (usedSpace s) (totalInodes s) (delfiles s) (sessions s).
Definition set_symlinks (s : Store) (v : gmap Z string) : Store :=
  mkStore (inodes s) (entries s) (chunks s) v (xattrs s) (slicerefs s)
    (usedSpace s) (totalInodes s) (delfiles s) (sessions s).
Definition set_xattrs (s : Store) (v : gmap Z (gmap string string)) : Store :=
  mkStore (inodes s) (entries s) (chunks s) (symlinks s) v (slicerefs s)
    (usedSpace s) (totalInodes s) (delfiles s) (sessions s).
Definition set_slicerefs (s : Store) (v : gmap (Z * Z) Z) : Store :=
  mkStore (inodes s) (entries s) (chunks s) (symlinks s) (xattrs s) v
    (usedSpace s) (totalInodes s) (delfiles s) (sessions s).
Definition set_usedSpace (s : Store) (v : Z) : Store :=
  mkStore (inodes s) (entries s) (chunks s) (symlinks s) (xattrs s) (slicerefs s)
    v (totalInodes s) (delfiles s) (sessions s).
Definition set_totalInodes (s : Store) (v : Z) : Store :=
  mkStore (inodes s) (entries s) (chunks s) (symlinks s) (xattrs s) (slicerefs s)
    (usedSpace s) v (delfiles s) (sessions s).
Definition set_delfiles (s : Store) (v : gmap (Z * Z) Z) : Store :=
  mkStore (inodes s) (entries s) (chunks s) (symlinks s) (xattrs s) (slicerefs s)
    (usedSpace s) (totalInodes s) v (sessions s).
Definition set_sessions (s : Store) (v : gmap Z (gset Z)) : Store :=
  mkStore (inodes s) (entries s) (chunks s) (symlinks s) (xattrs s) (slicerefs s)
    (usedSpace s) (totalInodes s) (delfiles s) v.

Definition empty_store : Store := mkStore ∅ ∅ ∅ ∅ ∅ ∅ 0 0 ∅ ∅.

(** A hash written back: Redis drops the key of a hash left empty. *)
Definition put_hash {V : Type} `{EqDecision V} (k : Z) (h : gmap string V)
    (m : gmap Z (gmap string V)) : gmap Z (gmap string V) :=
  if decide (h = ∅) then delete k m else <[k := h]> m.

(** A list written back, likewise. *)
Definition put_list (k : Z * Z) (l : list srec)
    (m : gmap (Z * Z) (list srec)) : gmap (Z * Z) (list srec) :=
  match l with
  | [] => delete k m
  | _ => <[k := l]> m
  end.

(** [LRANGE key start stop] and the part of the list [LTRIM key start stop]
    keeps: both ends inclusive, a negative index counts from the end. *)
Definition lrange {A : Type} (l : list A) (start stop : Z) : list A :=
  let n := Z.of_nat (length l) in
  let start := if start <? 0 then Z.max 0 (n + start) else start in
  let stop := if stop <? 0 then n + stop else stop in
  let stop := Z.min stop (n - 1) in
  if (stop <? start) || (n <=? start) then []
  else take (Z.to_nat (stop - start + 1)) (drop (Z.to_nat start) l).

(** The commands the engine queues on a pipeline, by the key they address.
    [Set] and [Del] of [i$inode], [HSet]/[HDel] of [d$parent], [Set]/[Del]
    of [s$inode], [Del] of [x$inode], [RPush]/[RPushX]/[LPush]/[LTrim] of
    [c$inode_$indx], [Incr]/[Decr]/[IncrBy] of [k$chunkid_$size], [IncrBy]
    of the two counters, [ZAdd] of [delfiles], [SAdd] of [session$sid]. *)
Inductive cmd : Type :=
| SetInode (inode : Z) (v : blob)
| DelInode (inode : Z)
| HSetEntry (parent : Z) (name : string) (typ ino : Z)
| HDelEntry (parent : Z) (name : string)
| SetSym (inode : Z) (path : string)
| DelSym (inode : Z)
| DelXattr (inode : Z)
| RPush (inode indx : Z) (v : srec)
| RPushX (inode indx : Z) (v : srec)
| LPush (inode indx : Z) (v : srec)
| LTrim (inode indx : Z) (start stop : Z)
| IncrBySlice (chunkid size : Z) (n : Z)
| IncrByUsedSpace (n : Z)
| IncrByTotalInodes (n : Z)
| ZAddDelfiles (score : Z) (inode length : Z)
| SAddSession (sid : Z) (inode : Z).

(** [Incr] and [Decr] are [IncrBy] of 1 and -1. *)
Definition IncrSlice (chunkid size : Z) : cmd := IncrBySlice chunkid size 1.
Definition DecrSlice (chunkid size : Z) : cmd := IncrBySlice chunkid size (-1).

(** The effect of one command on the server.  The counters are far from
    the 64-bit limit of Redis integers, which is not modelled. *)
Definition exec (s : Store) (c : cmd) : Store :=
  match c with
  | SetInode inode v => set_inodes s (<[inode := v]> (inodes s))
  | DelInode inode => set_inodes s (delete inode (inodes s))
  | HSetEntry parent name typ ino =>
      set_entries s (<[parent := <[name := (typ, ino)]> (default ∅ (entries s !! parent))]> (entries s))
  | HDelEntry parent name =>
      set_entries s (put_hash parent (delete name (default ∅ (entries s !! parent))) (entries s))
  | SetSym inode path => set_symlinks s (<[inode := path]> (symlinks s))
  | DelSym inode => set_symlinks s (delete inode (symlinks s))
  | DelXattr inode => set_xattrs s (delete inode (xattrs s))
  | RPush inode indx v =>
      set_chunks s (<[(inode, indx) := default [] (chunks s !! (inode, indx)) ++ [v]]> (chunks s))
  | RPushX inode indx v =>
      match chunks s !! (inode, indx) with
      | Some l => set_chunks s (<[(inode, indx) := l ++ [v]]> (chunks s))
      | None => s
      end
  | LPush inode indx v =>
      set_chunks s (<[(inode, indx) := v :: default [] (chunks s !! (inode, indx))]> (chunks s))
  | LTrim inode indx start stop =>
      set_chunks s (put_list (inode, indx)
                      (lrange (default [] (chunks s !! (inode, indx))) start stop) (chunks s))
  | IncrBySlice chunkid size n =>
      set_slicerefs s (<[(chunkid, size) := default 0 (slicerefs s !! (chunkid, size)) + n]> (slicerefs s))
  | IncrByUsedSpace n => set_usedSpace s (usedSpace s + n)
  | IncrByTotalInodes n => set_totalInodes s (totalInodes s + n)
  | ZAddDelfiles score inode length =>
      set_delfiles s (<[(inode, length) := score]> (delfiles s))
  | SAddSession sid inode =>
      set_sessions s (<[sid := {[inode]} ∪ default ∅ (sessions s !! sid)]> (sessions s))
  end.

(** A pipeline runs its commands in the order they were queued. *)
Definition pipeline (cmds : list cmd) (s : Store) : Store := foldl exec s cmds.

(** The keys of the schema: [inodeKey], [entryKey], [chunkKey], [sliceKey],
    [symKey], [xattrKey] and [sessionKey] as the functions of the source
    name them, and the four fixed keys. *)
Inductive key : Type :=
| inodeKey (inode : Z)
| entryKey (parent : Z)
| chunkKey (inode indx : Z)
| sliceKey (chunkid size : Z)
| symKey (inode : Z)
| xattrKey (inode : Z)
| sessionKey (sid : Z)
| usedSpaceKey
| totalInodesKey
| delfilesKey.

#[global] Instance key_eq_dec : EqDecision key.
Proof. solve_decision. Defined.

(** What a key holds. *)
Inductive rvalue : Type :=
| VBlob (v : blob)
| VEntries (v : gmap string (Z * Z))
| VList (v : list srec)
| VString (v : string)
| VHash (v : gmap string string)
| VInt (v : Z)
| VZSet (v : gmap (Z * Z) Z)
| VSet (v : gset Z).

(** The value stored under a key, [None] when the key does not exist. *)
Definition get (s : Store) (k : key) : option rvalue :=
  match k with
  | inodeKey inode => VBlob <$> inodes s !! inode
  | entryKey parent => VEntries <$> entries s !! parent
  | chunkKey inode indx => VList <$> chunks s !! (inode, indx)
  | sliceKey chunkid size => VInt <$> slicerefs s !! (chunkid, size)
  | symKey inode => VString <$> symlinks s !! inode
  | xattrKey inode => VHash <$> xattrs s !! inode
  | sessionKey sid => VSet <$> sessions s !! sid
  | usedSpaceKey => Some (VInt (usedSpace s))
  | totalInodesKey => Some (VInt (totalInodes s))
  | delfilesKey => Some (VZSet (delfiles s))
  end.

(** The key a command addresses. *)
Definition cmd_key (c : cmd) : key :=
  match c with
  | SetInode inode _ | DelInode inode => inodeKey inode
  | HSetEntry parent _ _ _ | HDelEntry parent _ => entryKey parent
  | SetSym inode _ | DelSym inode => symKey inode
  | DelXattr inode => xattrKey inode
  | RPush inode indx _ | RPushX inode indx _ | LPush inode indx _
  | LTrim inode indx _ _ => chunkKey inode indx
  | IncrBySlice chunkid size _ => sliceKey chunkid size
  | IncrByUsedSpace _ => usedSpaceKey
  | IncrByTotalInodes _ => totalInodesKey
  | ZAddDelfiles _ _ _ => delfilesKey
  | SAddSession sid _ => sessionKey sid
  end.

(** The file a key belongs to: its attribute blob, its chunk logs, its
    symlink target, its extended attributes and, for a directory, its
    entries. *)
Definition key_inode (k : key) : option Z :=
  match k with
  | inodeKey inode | entryKey inode | chunkKey inode _ | symKey inode
  | xattrKey inode => Some inode
  | _ => None
  end.

(** ** The engine's in-process state *)

Record redisMeta : Type := mkMeta {
  sid : Z;
  openFiles : gmap Z Z;      (* map[Ino]int *)
  removedFiles : gmap Z bool (* map[Ino]bool *)
}.

(** [time.Millisecond] in nanoseconds. *)
Definition Millisecond : Z := 1000000.

(** The connection, as a call sees it: given the deadline the call's
    context adds ([None]: no deadline of its own), the transport error of
    the call, if any (a timeout, a lost connection).  Such an error is
    neither a [syscall.Errno] nor a sentinel of the client library; a call
    that fails this way is taken not to have reached the server. *)
Definition Net : Type := option Z -> option string.

(** [r.rdb.Get(c, r.inodeKey(inode)).Bytes()]: the blob, or the transport's
    error, or [redis.Nil] when the key is missing. *)
Definition rdb_Get_inode (net : Net) (deadline : option Z) (s : Store) (inode : Z)
    : blob + error :=
  match net deadline with
  | Some msg => inr (OtherErr msg)
  | None =>
      match inodes s !! inode with
      | Some a => inl a
      | None => inr RedisNil
      end
  end.

(** ** Transactions *)

(** What a transaction function does in one attempt: it returns an error
    before queueing anything, or it queues commands with [TxPipelined] (run
    atomically at [EXEC]) and returns [nil] with its results. *)
Inductive tx (A : Type) : Type :=
| Abort (err : error)
| Commit (cmds : list cmd) (out : A).
Arguments Abort {A} err.
Arguments Commit {A} cmds out.

(** An attempt that does not conflict: the error number [txn] returns and
    the server afterwards. *)
Definition committed {A : Type} (s : Store) (t : tx A) : Z * Store :=
  match t with
  | Abort err => (errno (Some err), s)
  | Commit cmds _ => (0, pipeline cmds s)
  end.

(** [tx.Get(ctx, r.inodeKey(inode)).Bytes()] inside a transaction. *)
Definition tx_Get_inode (s : Store) (inode : Z) : blob + error :=
  match inodes s !! inode with
  | Some a => inl a
  | None => inr RedisNil
  end.

Section Engine.
Context {C : Consts}.

(** [GetAttr], called with a non-nil [attr] (as all callers do: it stores
    through the pointer).  Returns the error number and [*attr]. *)
Definition GetAttr (net : Net) (s : Store) (inode : Z) (attr : Attr) : Z * Attr :=
  let c := if inode =? 1 then Some (Millisecond * 300) else None in
  match rdb_Get_inode net c s inode with
  | inl a => (errno None, parseAttr a attr)
  | inr err =>
      if inode =? 1 then
        (errno None,
         set_Length (set_Nlink (set_Mode (set_Typ attr TypeDirectory) 0x1ff (* 0777 *)) 2) (Z.shiftl 4 10))
      else (errno (Some err), attr)
  end.

(** [Open]: [attr] is [None] for a nil pointer.  Returns the error number,
    [*attr] and the engine's state. *)
Definition Open (net : Net) (s : Store) (r : redisMeta) (inode : Z) (flags : Z)
    (attr : option Attr) : Z * option Attr * redisMeta :=
  let '(err, attr) :=
    match attr with
    | Some a => let '(e, a') := GetAttr net s inode a in (e, Some a')
    | None => (0, None)
    end in
  let r :=
    if err =? 0 then
      mkMeta (sid r)
        (<[inode := i64 (default 0 (openFiles r !! inode) + 1)]> (openFiles r))
        (removedFiles r)
    else r in
  (0, attr, r).

(** *** Extended attributes *)

(** [GetXattr]: the error number and [*vbuff] ([None] for nil). *)
Definition GetXattr (net : Net) (s : Store) (inode : Z) (name : string)
    : Z * option string :=
  let '(vbuff, err) :=
    match net None with
    | Some msg => (None, Some (OtherErr msg))
    | None =>
        match default ∅ (xattrs s !! inode) !! name with
        | Some v => (Some v, None)
        | None => (None, Some RedisNil)
        end
    end in
  let err := if decide (err = Some RedisNil) then Some (Errno ENOATTR) else err in
  (errno err, vbuff).

Definition SetXattr (net : Net) (s : Store) (inode : Z) (name : string) (value : string)
    : Z * Store :=
  match net None with
  | Some msg => (errno (Some (OtherErr msg)), s)
  | None =>
      (errno None,
       set_xattrs s (<[inode := <[name := value]> (default ∅ (xattrs s !! inode))]> (xattrs s)))
  end.

(** [RemoveXattr]: [n] is the number of fields [HDel] removed, 0 when the
    call failed. *)
Definition RemoveXattr (net : Net) (s : Store) (inode : Z) (name : string) : Z * Store :=
  let '(n, err, s') :=
    match net None with
    | Some msg => (0, Some (OtherErr msg), s)
    | None =>
        let h := default ∅ (xattrs s !! inode) in
        match h !! name with
        | Some _ => (1, None, set_xattrs s (put_hash inode (delete name h) (xattrs s)))
        | None => (0, None, s)
        end
    end in
  let err := if n =? 0 then Some (Errno ENOATTR) else err in
  (errno err, s').

(** *** SetAttr *)

(** The attribute [SetAttr] writes back: the body of its transaction
    function between the read and the pipeline, from the stored attribute
    [cur] and the caller's [attr]. *)
Definition SetAttr_cur (ctx : Ctx) (now : Time) (set : Z) (cur attr : Attr) : Attr :=
  let attr :=
    if negb (Z.land set (Z.lor SetAttrUID SetAttrGID) =? 0)
       && negb (Z.land set SetAttrMode =? 0)
    then set_Mode attr (Z.lor (Mode attr) (Z.land (Mode cur) 0xC00 (* 06000 *)))
    else attr in
  let '(cur, attr) :=
    if negb (Z.land (Mode cur) 0xC00 =? 0)
       && negb (Z.land set (Z.lor SetAttrUID SetAttrGID) =? 0)
    then (set_Mode cur (Z.land (Mode cur) 0x3FF (* 01777 *)),
          set_Mode attr (Z.land (Mode attr) 0x3FF))
    else (cur, attr) in
  let cur := if negb (Z.land set SetAttrUID =? 0) then set_Uid cur (Uid attr) else cur in
  let cur := if negb (Z.land set SetAttrGID =? 0) then set_Gid cur (Gid attr) else cur in
  let '(cur, attr) :=
    if negb (Z.land set SetAttrMode =? 0) then
      let attr :=
        if negb (ctx_uid ctx =? 0) && negb (Z.land (Mode attr) 0x400 (* 02000 *) =? 0)
        then
          if negb (ctx_gid ctx =? Gid cur)
          then set_Mode attr (Z.land (Mode attr) 0xBFF (* 05777 *))
          else attr
        else attr in
      (set_Mode cur (Mode attr), attr)
    else (cur, attr) in
  let cur :=
    if negb (Z.land set SetAttrAtime =? 0)
    then set_Atime cur (Atime attr) (Atimensec attr) else cur in
  let cur :=
    if negb (Z.land set SetAttrAtimeNow =? 0)
    then set_Atime cur (Unix now) (u32 (Nanosecond now)) else cur in
  let cur :=
    if negb (Z.land set SetAttrMtime =? 0)
    then set_Mtime cur (Mtime attr) (Mtimensec attr) else cur in
  let cur :=
    if negb (Z.land set SetAttrMtimeNow =? 0)
    then set_Mtime cur (Unix now) (u32 (Nanosecond now)) else cur in
  set_Ctime cur (Unix now) (u32 (Nanosecond now)).

(** The transaction function of [SetAttr]; the result is the new [*attr]. *)
Definition SetAttr_txf (ctx : Ctx) (now : Time) (s : Store)
    (inode : Z) (set : Z) (sugidclearmode : Z) (attr : Attr) : tx Attr :=
  match tx_Get_inode s inode with
  | inr err => Abort err
  | inl a =>
      let cur := SetAttr_cur ctx now set (parseAttr a Attr0) attr in
      Commit [SetInode inode (marshal cur)] cur
  end.

(** *** Truncate *)

(** A hole: a slice record of chunk id 0. *)
Definition hole (pos len : Z) : srec := mkSrec pos 0 0 0 len.

(** The chunks strictly between the first and the last chunk of the grown
    range.  When the file grows by 100 chunks or more they are taken from a
    [SCAN] of the keys [c$inode_*]: [scanned] lists the chunk indices of
    the keys the scan returned, in its order ([strconv.Atoi] of the text
    after the underscore); otherwise they are enumerated. *)
Definition zeroChunks (scanned : list Z) (old length : Z) : list Z :=
  if u64 (length - old) / ChunkSize >=? 100 then
    map u32
      (filter (fun indx => old / ChunkSize < u64 indx /\ u64 indx < length / ChunkSize)
         scanned)
  else
    map u32 (seqZ (old / ChunkSize + 1) (length / ChunkSize - (old / ChunkSize + 1))).

(** The commands [Truncate] queues, for the attribute [t] it writes back. *)
Definition Truncate_cmds (scanned : list Z) (inode old length : Z) (t : Attr) : list cmd :=
  [SetInode inode (marshal t)]
  ++ (if old <? length then
        [RPush inode (u32 (old / ChunkSize))
           (hole (u32 (old mod ChunkSize))
              (if u64 ((old / ChunkSize + 1) * ChunkSize) <? length
               then u32 (ChunkSize - u32 (old mod ChunkSize))
               else u32 (length - old)))]
        ++ map (fun indx => RPushX inode indx (hole 0 (u32 ChunkSize)))
             (zeroChunks scanned old length)
        ++ (if (u64 ((old / ChunkSize + 1) * ChunkSize) <? length)
               && (0 <? length mod ChunkSize)
            then [RPush inode (u32 (length / ChunkSize)) (hole 0 (u32 (length mod ChunkSize)))]
            else [])
      else [])
  ++ [IncrByUsedSpace (i64 (align4K length - align4K old))].

(** The transaction function of [Truncate]; the result is the new [*attr]. *)
Definition Truncate_txf (ctx : Ctx) (now : Time) (scanned : list Z) (s : Store)
    (inode : Z) (flags : Z) (length : Z) : tx Attr :=
  match tx_Get_inode s inode with
  | inr err => Abort err
  | inl a =>
      let t := parseAttr a Attr0 in
      if negb (Typ t =? TypeFile) then Abort (Errno EPERM)
      else
        let old := Length t in
        let t := set_Length t length in
        let t := set_Mtime t (Unix now) (u32 (Nanosecond now)) in
        let t := set_Ctime t (Unix now) (u32 (Nanosecond now)) in
        Commit (Truncate_cmds scanned inode old length t) t
  end.

End Engine.

(** ** Directories *)

(** What [Rename] does after its pipeline when it has replaced a file:
    nothing, [r.removedFiles[dino] = true], or [go r.deleteFile(dino,
    length, "")]. *)
Inductive cleanup : Type :=
| NoCleanup
| MarkRemoved (dino : Z)
| DeleteFile (dino length : Z).

Section Directories.
Context {C : Consts}.

(** [tx.HGet(ctx, r.entryKey(parent), name).Bytes()] and [parseEntry]: the
    type and the inode of the entry, or [redis.Nil]. *)
Definition tx_HGet_entry (s : Store) (parent : Z) (name : string) : (Z * Z) + error :=
  match default ∅ (entries s !! parent) !! name with
  | Some e => inl e
  | None => inr RedisNil
  end.

(** The same read outside a transaction. *)
Definition rdb_HGet_entry (net : Net) (deadline : option Z) (s : Store) (parent : Z)
    (name : string) : (Z * Z) + error :=
  match net deadline with
  | Some msg => inr (OtherErr msg)
  | None => tx_HGet_entry s parent name
  end.

(** [tx.HLen(ctx, r.entryKey(inode)).Result()]. *)
Definition tx_HLen (s : Store) (inode : Z) : Z :=
  Z.of_nat (size (default ∅ (entries s !! inode))).

(** [now] written to the three pairs of time fields. *)
Definition touch_mc (now : Time) (a : Attr) : Attr :=
  set_Ctime (set_Mtime a (Unix now) (u32 (Nanosecond now))) (Unix now) (u32 (Nanosecond now)).

Definition touch_amc (now : Time) (a : Attr) : Attr :=
  touch_mc now (set_Atime a (Unix now) (u32 (Nanosecond now))).

(** *** mknod *)

(** The attribute [mknod] fills in before its transaction; [attr] is the
    caller's [*attr], or [Attr{}]. *)
Definition mknod_attr (ctx : Ctx) (parent : Z) (_type mode cumask rdev : Z)
    (path : string) (attr : Attr) : Attr :=
  let attr := set_Typ attr _type in
  let attr := set_Mode attr (Z.land mode (u16 (Z.lnot cumask))) in
  let attr := set_Uid attr (ctx_uid ctx) in
  let attr := set_Gid attr (ctx_gid ctx) in
  let attr :=
    if _type =? TypeDirectory then set_Length (set_Nlink attr 2) (Z.shiftl 4 10)
    else
      let attr := set_Nlink attr 1 in
      if _type =? TypeSymlink then set_Length attr (Z.of_nat (String.length path))
      else set_Rdev (set_Length attr 0) rdev in
  set_Parent attr parent.

(** The transaction function of [mknod]; [ino] is the inode [nextInode]
    returned and [attr] the attribute prepared; the result is [*attr]. *)
Definition mknod_txf (ctx : Ctx) (now : Time) (s : Store) (parent : Z) (name : string)
    (_type : Z) (path : string) (ino : Z) (attr : Attr) : tx Attr :=
  match tx_Get_inode s parent with
  | inr err => Abort err
  | inl a =>
      let pattr := parseAttr a Attr0 in
      if negb (Typ pattr =? TypeDirectory) then Abort (Errno ENOTDIR)
      else
        match tx_HGet_entry s parent name with
        | inl _ => Abort (Errno EEXIST)
        | inr _ =>
            let pattr :=
              if _type =? TypeDirectory then set_Nlink pattr (u32 (Nlink pattr + 1))
              else pattr in
            let pattr := touch_mc now pattr in
            let attr := touch_amc now attr in
            let attr := if ctx_hadoop ctx then set_Gid attr (Gid pattr) else attr in
            Commit
              ([HSetEntry parent name _type ino;
                SetInode parent (marshal pattr);
                SetInode ino (marshal attr)]
               ++ (if _type =? TypeSymlink then [SetSym ino path]
                   else if _type =? TypeFile then [IncrByUsedSpace (align4K 0)]
                   else [])
               ++ [IncrByTotalInodes 1])
              attr
        end
  end.

(** [mknod] from the return of [nextInode] on, [ino] being the number it
    returned: the attribute is prepared and the transaction run. *)
Definition mknod_ino (ctx : Ctx) (now : Time) (s : Store) (parent : Z) (name : string)
    (_type mode cumask rdev : Z) (path : string) (ino : Z) (attr : Attr) : Z * Store :=
  committed s
    (mknod_txf ctx now s parent name _type path ino
       (mknod_attr ctx parent _type mode cumask rdev path attr)).

(** [r.rdb.Incr(Background, "nextinode")]: the value and the error of the
    command, and the counter after it.  The key [nextinode] of the server
    is no part of [Store]; its value (0 for a key that is not there) is
    passed beside it. *)
Definition Incr_nextinode (net : Net) (nextinode : Z) : Z * option error * Z :=
  match net None with
  | Some msg => (0, Some (OtherErr msg), nextinode)
  | None => (nextinode + 1, None, nextinode + 1)
  end.

(** [nextInode]: the inode number, the error and the counter after it.
    The number 1 is the root's and is skipped. *)
Definition nextInode (net : Net) (nextinode : Z) : Z * option error * Z :=
  let '(v, err, nextinode) := Incr_nextinode net nextinode in
  let ino := u64 v in
  if ino =? 1 then
    let '(v, err, nextinode) := Incr_nextinode net nextinode in
    (u64 v, err, nextinode)
  else (ino, err, nextinode).

(** [mknod], called with a non-nil [inode]: the error number, [*inode]
    ([None] when it is not assigned), the server and its counter
    [nextinode] after the call. *)
Definition mknod (net : Net) (ctx : Ctx) (now : Time) (s : Store) (nextinode : Z)
    (parent : Z) (name : string) (_type mode cumask rdev : Z) (path : string)
    (attr : Attr) : Z * option Z * Store * Z :=
  let '(ino, err, nextinode) := nextInode net nextinode in
  match err with
  | Some _ => (errno err, None, s, nextinode)
  | None =>
      let '(err, s) := mknod_ino ctx now s parent name _type mode cumask rdev path ino attr in
      (err, Some ino, s, nextinode)
  end.

(** *** Rmdir *)

Definition Rmdir_txf (now : Time) (s : Store) (parent : Z) (name : string) : tx unit :=
  match tx_Get_inode s parent with
  | inr err => Abort err
  | inl a =>
      let pattr := parseAttr a Attr0 in
      if negb (Typ pattr =? TypeDirectory) then Abort (Errno ENOTDIR)
      else
        let pattr := set_Nlink pattr (u32 (Nlink pattr - 1)) in
        let pattr := touch_mc now pattr in
        match tx_HGet_entry s parent name with
        | inr err => Abort err
        | inl (typ, inode) =>
            if negb (typ =? TypeDirectory) then Abort (Errno ENOTDIR)
            else if tx_HLen s inode >? 0 then Abort (Errno ENOTEMPTY)
            else
              Commit
                [HDelEntry parent name;
                 SetInode parent (marshal pattr);
                 DelInode inode;
                 DelXattr inode;
                 IncrByTotalInodes (-1)]
                tt
        end
  end.

Definition Rmdir (net : Net) (now : Time) (s : Store) (parent : Z) (name : string)
    : Z * Store :=
  if decide (name = ".") then (EINVAL, s)
  else if decide (name = "..") then (ENOTEMPTY, s)
  else
    match rdb_HGet_entry net None s parent name with
    | inr err => (errno (Some err), s)
    | inl (typ, inode) =>
        if negb (typ =? TypeDirectory) then (ENOTDIR, s)
        else committed s (Rmdir_txf now s parent name)
    end.

(** *** Rename *)

(** [tx.Get(ctx, r.inodeKey(inode))] as one result of [tx.MGet]: [nil] for
    a missing key. *)
Definition tx_MGet_inode (s : Store) (inode : Z) : option blob := inodes s !! inode.

(** What the transaction function of [Rename] finds at the destination.
    [dst0] is the entry read before the transaction ([dtyp], [dino]; both
    are 0 when there was none).  The result is [dino] as the function
    leaves it, [tattr] and [opened]. *)
Definition Rename_target (ctx : Ctx) (now : Time) (r : redisMeta) (s : Store)
    (parentDst : Z) (nameDst : string) (dtyp dino : Z) : error + (Z * Attr * bool) :=
  match tx_HGet_entry s parentDst nameDst with
  | inr _ => inr (0, Attr0, false)                       (* dino = 0 *)
  | inl (typ1, dino1) =>
      if ctx_hadoop ctx then inl (Errno EEXIST)
      else if negb (dino1 =? dino) || negb (typ1 =? dtyp) then inl (Errno EAGAIN)
      else if typ1 =? TypeDirectory then
        if negb (tx_HLen s dino =? 0) then inl (Errno ENOTEMPTY)
        else inr (dino, Attr0, false)
      else
        match tx_Get_inode s dino with
        | inr err => inl err
        | inl a =>
            let tattr := parseAttr a Attr0 in
            let tattr := set_Nlink tattr (u32 (Nlink tattr - 1)) in
            if Nlink tattr >? 0 then
              inr (dino, set_Ctime tattr (Unix now) (u32 (Nanosecond now)), false)
            else if dtyp =? TypeFile then
              inr (dino, tattr, default 0 (openFiles r !! dino) >? 0)
            else inr (dino, tattr, false)
        end
  end.

(** The commands [Rename] queues for the replaced inode, and [dattr] as
    they leave it. *)
Definition Rename_replace (now : Time) (r : redisMeta) (parentDst : Z) (nameDst : string)
    (dtyp dino : Z) (tattr dattr : Attr) (opened : bool) : list cmd * Attr :=
  if dino >? 0 then
    let '(cmds, dattr) :=
      if negb (dtyp =? TypeDirectory) && (Nlink tattr >? 0) then
        ([SetInode dino (marshal tattr)], dattr)
      else
        let '(cmds, dattr) :=
          if dtyp =? TypeDirectory then
            ([DelInode dino], set_Nlink dattr (u32 (Nlink dattr - 1)))
          else if dtyp =? TypeSymlink then ([DelSym dino; DelInode dino], dattr)
          else if dtyp =? TypeFile then
            if opened then
              ([SetInode dino (marshal tattr); SAddSession (sid r) (i64 dino)], dattr)
            else
              ([ZAddDelfiles (Unix now) dino (i64 (Length dattr));
                DelInode dino;
                IncrByUsedSpace (i64 (- align4K (Length tattr)))], dattr)
          else ([], dattr) in
        (cmds ++ [IncrByTotalInodes (-1); DelXattr dino], dattr) in
    (cmds ++ [HDelEntry parentDst nameDst], dattr)
  else ([], dattr).

(** The transaction function of [Rename].  [typ] and [ino] are the entry of
    the source, [dtyp] and [dino] the entry of the destination, as read
    before the transaction.  The result is [iattr] and what is done after
    the pipeline. *)
Definition Rename_txf (ctx : Ctx) (now : Time) (r : redisMeta) (s : Store)
    (parentSrc : Z) (nameSrc : string) (parentDst : Z) (nameDst : string)
    (typ ino dtyp dino : Z) : tx (Attr * cleanup) :=
  match Rename_target ctx now r s parentDst nameDst dtyp dino with
  | inl err => Abort err
  | inr (dino, tattr, opened) =>
      match tx_HGet_entry s parentSrc nameSrc with
      | inr err => Abort err
      | inl (typ1, ino1) =>
          if negb (ino =? ino1) then Abort (Errno EAGAIN)
          else
            match tx_MGet_inode s parentSrc, tx_MGet_inode s parentDst,
                  tx_MGet_inode s ino with
            | Some rs0, Some rs1, Some rs2 =>
                let sattr := parseAttr rs0 Attr0 in
                if negb (Typ sattr =? TypeDirectory) then Abort (Errno ENOTDIR)
                else
                  let sattr := touch_mc now sattr in
                  let dattr := parseAttr rs1 Attr0 in
                  if negb (Typ dattr =? TypeDirectory) then Abort (Errno ENOTDIR)
                  else
                    let dattr := touch_mc now dattr in
                    let iattr := parseAttr rs2 Attr0 in
                    let iattr := set_Parent iattr parentDst in
                    let iattr := set_Ctime iattr (Unix now) (u32 (Nanosecond now)) in
                    let moved := (typ =? TypeDirectory) && negb (parentSrc =? parentDst) in
                    let sattr := if moved then set_Nlink sattr (u32 (Nlink sattr - 1))
                                 else sattr in
                    let dattr := if moved then set_Nlink dattr (u32 (Nlink dattr + 1))
                                 else dattr in
                    let '(replace, dattr') :=
                      Rename_replace now r parentDst nameDst dtyp dino tattr dattr opened in
                    Commit
                      ([HDelEntry parentSrc nameSrc;
                        SetInode parentSrc (marshal sattr)]
                       ++ replace
                       ++ [HSetEntry parentDst nameDst typ1 ino1]
                       ++ (if negb (parentDst =? parentSrc)
                           then [SetInode parentDst (marshal dattr')] else [])
                       ++ [SetInode ino (marshal iattr)])
                      (iattr,
                       if (dino >? 0) && (dtyp =? TypeFile) then
                         if opened then MarkRemoved dino
                         else DeleteFile dino (Length dattr')
                       else NoCleanup)
            | _, _, _ => Abort RedisNil
            end
      end
  end.

(** [Rename]: the error number, the server and the engine afterwards, the
    new [*inode] and [*attr] where they are set, and the clean-up started. *)
Definition Rename (net : Net) (ctx : Ctx) (now : Time) (r : redisMeta) (s : Store)
    (parentSrc : Z) (nameSrc : string) (parentDst : Z) (nameDst : string)
    : Z * Store * redisMeta * option Z * option Attr * cleanup :=
  match rdb_HGet_entry net None s parentSrc nameSrc with
  | inr err => (errno (Some err), s, r, None, None, NoCleanup)
  | inl (typ, ino) =>
      if decide (parentSrc = parentDst /\ nameSrc = nameDst)
      then (0, s, r, Some ino, None, NoCleanup)
      else
        match rdb_HGet_entry net None s parentDst nameDst with
        | inr (OtherErr msg) => (errno (Some (OtherErr msg)), s, r, None, None, NoCleanup)
        | dst =>
            let '(dtyp, dino) := match dst with inl e => e | inr _ => (0, 0) end in
            match Rename_txf ctx now r s parentSrc nameSrc parentDst nameDst
                    typ ino dtyp dino with
            | Abort err => (errno (Some err), s, r, None, None, NoCleanup)
            | Commit cmds (iattr, after) =>
                (0, pipeline cmds s,
                 match after with
                 | MarkRemoved dino =>
                     mkMeta (sid r) (openFiles r) (<[dino := true]> (removedFiles r))
                 | _ => r
                 end,
                 None, Some iattr, after)
            end
        end
  end.

(** *** The link count of a directory *)

(** The number of entries of the directory [D] that are directories. *)
Definition subdirs (s : Store) (D : Z) : Z :=
  Z.of_nat (size (filter (fun e : string * (Z * Z) => e.2.1 = TypeDirectory)
                    (default ∅ (entries s !! D)))).

(** The inode [D], if it is a directory, has 2 links plus one for each
    entry of it that is a directory. *)
Definition nlink_ok (s : Store) (D : Z) : Prop :=
  forall a : blob,
    inodes s !! D = Some a ->
    Typ (parseAttr a Attr0) = TypeDirectory ->
    b_nlink a = 2 + subdirs s D.

End Directories.

(** ** Slice resolution *)

(** A [*slice]: [nil], or a node with the fields of a record and the two
    subtrees [lt] ([left]) and [rt] ([right]).  [readSlices] makes one node without
    subtrees from each value of a chunk log; no node is shared. *)
Inductive slice : Type :=
| nil_slice
| node (lt : slice) (v : srec) (rt : slice).

(** A [Slice] as [Read] returns it. *)
Record Slice : Type := mkSlice {
  Chunkid : Z;  (* uint64 *)
  Size : Z;     (* uint32 *)
  Off : Z;      (* uint32 *)
  Len : Z       (* uint32 *)
}.

(** Modelled from the spec: [readSlices], which is not in [redis.go].  It
    decodes the 24-byte values of a chunk log ("in-chunk offset u32,
    chunk-id u64, declared size u32, intra-slice offset u32, length u32");
    the values being kept decoded here, it returns them as they are. *)
Definition readSlices (vals : list srec) : list srec := vals.

(** Modelled from the spec: the method [cut] of [*slice], which is not in
    [redis.go]: "insert slices in append order into an interval tree keyed
    by in-chunk position.  Each insert cuts any overlapping portion of
    previously inserted slices".  [cut s pos] splits the tree into the part
    before [pos] and the part from [pos] on; a slice that [pos] falls into
    is cut in two, the second piece starting [pos - s.pos] further into the
    data. *)
Fixpoint cut (s : slice) (pos : Z) : slice * slice :=
  match s with
  | nil_slice => (nil_slice, nil_slice)
  | node lt v rt =>
      if pos <=? r_pos v then
        let '(l, r) := cut lt pos in (l, node r v rt)
      else if pos <? u32 (r_pos v + r_len v) then
        let l := u32 (pos - r_pos v) in
        (node lt (mkSrec (r_pos v) (r_chunkid v) (r_size v) (r_off v) l) nil_slice,
         node nil_slice
           (mkSrec pos (r_chunkid v) (r_size v) (u32 (r_off v + l)) (u32 (r_len v - l)))
           rt)
      else
        let '(l, r) := cut rt pos in (node lt v l, r)
  end.

(** Modelled from the spec: the method [visit] of [*slice], which is not in
    [redis.go]: "the final in-order traversal emits the visible slices".
    The nodes in the order the callback is applied to them. *)
Fixpoint visit (s : slice) : list srec :=
  match s with
  | nil_slice => []
  | node lt v rt => visit lt ++ v :: visit rt
  end.

(** The first loop of [buildSlice]: the root after the slices [ss]. *)
Definition insert_slice (root : slice) (s : srec) : slice :=
  match root with
  | nil_slice => node nil_slice s nil_slice
  | _ =>
      let '(lt, rt) := cut root (r_pos s) in
      let '(_, rt) := cut rt (u32 (r_pos s + r_len s)) in
      node lt s rt
  end.

Definition build_root (ss : list srec) : slice := foldl insert_slice nil_slice ss.

(** The callback of [buildSlice] on one node: [pos] and [chunks] before and
    after. *)
Definition emit (st : Z * list Slice) (s : srec) : Z * list Slice :=
  let '(pos, chunks) := st in
  let '(pos, chunks) :=
    if pos <? r_pos s
    then (r_pos s, chunks ++ [mkSlice 0 (u32 (r_pos s - pos)) 0 (u32 (r_pos s - pos))])
    else (pos, chunks) in
  (u32 (pos + r_len s),
   chunks ++ [mkSlice (r_chunkid s) (r_size s) (r_off s) (r_len s)]).

Definition buildSlice (ss : list srec) : list Slice :=
  (foldl emit (0, []) (visit (build_root ss))).2.

(** *** What a sequence of slices shows *)

(** Where a byte comes from: byte [idx] of the object of a chunk id and
    size, or nowhere (a zero byte of a hole, chunk id 0). *)
Inductive source : Type :=
| Zero
| Data (chunkid size idx : Z).

Definition byte_of (chunkid size idx : Z) : source :=
  if chunkid =? 0 then Zero else Data chunkid size idx.

(** The byte layout of what [Read] returns: the slices lie one after the
    other from position [p] on; [None] beyond the last one. *)
Fixpoint layout_from (p : Z) (chunks : list Slice) (q : Z) : option source :=
  match chunks with
  | [] => None
  | c :: chunks =>
      if (p <=? q) && (q <? p + Len c)
      then Some (byte_of (Chunkid c) (Size c) (Off c + (q - p)))
      else layout_from (p + Len c) chunks q
  end.

Definition layout (chunks : list Slice) (q : Z) : option source := layout_from 0 chunks q.

Definition total_len (chunks : list Slice) : Z := foldr (fun c n => Len c + n) 0 chunks.

(** The overlay of a log: a record covers the positions from [r_pos] to
    [r_pos + r_len], and the last record covering a position wins. *)
Definition covers (s : srec) (q : Z) : bool := (r_pos s <=? q) && (q <? r_pos s + r_len s).

Definition source_at (s : srec) (q : Z) : source :=
  byte_of (r_chunkid s) (r_size s) (r_off s + (q - r_pos s)).

Definition overlay1 (f : Z -> option source) (s : srec) : Z -> option source :=
  fun q => if covers s q then Some (source_at s q) else f q.

Definition overlay (ss : list srec) : Z -> option source :=
  foldl overlay1 (fun _ => None) ss.

(** The highest position a record of the log ends at. *)
Definition extent (ss : list srec) : Z :=
  foldl (fun e s => Z.max e (r_pos s + r_len s)) 0 ss.

(** What the log shows: its overlay up to [extent], zero bytes where no
    record covers, nothing beyond. *)
Definition visible (ss : list srec) (q : Z) : option source :=
  if (0 <=? q) && (q <? extent ss) then Some (default Zero (overlay ss q)) else None.

(** A record as [Write] appends it: position and length within 32 bits,
    as is the end of the data it names. *)
Definition wf_rec (s : srec) : Prop :=
  0 <= r_pos s /\ 0 <= r_len s /\ r_pos s + r_len s < 2 ^ 32 /\
  0 <= r_off s /\ r_off s + r_len s < 2 ^ 32.

(** Nodes in increasing position that do not overlap, between [lo] and
    [hi]. *)
Fixpoint ordered (lo : Z) (l : list srec) (hi : Z) : Prop :=
  match l with
  | [] => lo <= hi
  | v :: l => lo <= r_pos v /\ 0 <= r_len v /\ ordered (r_pos v + r_len v) l hi
  end.

(** The tree as a search structure: the source of position [q] in it. *)
Fixpoint find (t : slice) (q : Z) : option source :=
  match t with
  | nil_slice => None
  | node l v r =>
      if q <? r_pos v then find l q
      else if q <? r_pos v + r_len v then Some (source_at v q)
      else find r q
  end.

(** The invariant of the tree: a search tree of disjoint intervals within
    [lo .. hi], each naming data within 32 bits. *)
Fixpoint bst (lo hi : Z) (t : slice) : Prop :=
  match t with
  | nil_slice => lo <= hi
  | node l v r =>
      bst lo (r_pos v) l /\ 0 <= r_len v /\
      0 <= r_off v /\ r_off v + r_len v < 2 ^ 32 /\
      bst (r_pos v + r_len v) hi r
  end.

(** Where the rightmost node ends ([e] for the empty tree). *)
Fixpoint tree_end (e : Z) (t : slice) : Z :=
  match t with
  | nil_slice => e
  | node _ v r => tree_end (r_pos v + r_len v) r
  end.

(** The overlay of one more slice on what was visible before: the slice
    where it covers, what was there elsewhere, zero bytes in the gap between
    the old end and the slice. *)
Definition overlay_on (prev : Z -> option source) (s : srec) (q : Z) : option source :=
  if covers s q then Some (source_at s q)
  else match prev q with
       | Some b => Some b
       | None => if (0 <=? q) && (q <? r_pos s) then Some Zero else None
       end.

(** ** The chunk log: [Write] and [Read] *)

Section ChunkLog.
Context {C : Consts}.

(** The record [Write] appends for [slice] at in-chunk offset [off]. *)
Definition slice_record (off : Z) (slice : Slice) : srec :=
  mkSrec off (Chunkid slice) (Size slice) (Off slice) (Len slice).

(** The transaction function of [Write]; the result is the value of the
    [RPush], the length of the list after it.  (When that is a multiple of
    20 the caller starts a compaction in the background.) *)
Definition Write_txf (ctx : Ctx) (now : Time) (s : Store)
    (inode indx off : Z) (slice : Slice) : tx Z :=
  match tx_Get_inode s inode with
  | inr err => Abort err
  | inl a =>
      let attr := parseAttr a Attr0 in
      let newleng := u64 (u64 (u64 (indx * ChunkSize) + off) + Len slice) in
      let added :=
        if Length attr <? newleng
        then i64 (align4K newleng - align4K (Length attr)) else 0 in
      let attr := if Length attr <? newleng then set_Length attr newleng else attr in
      let attr := set_Mtime attr (Unix now) (u32 (Nanosecond now)) in
      let attr := set_Ctime attr (Unix now) (u32 (Nanosecond now)) in
      Commit
        ([RPush inode indx (slice_record off slice); SetInode inode (marshal attr)]
         ++ (if 0 <? added then [IncrByUsedSpace added] else []))
        (Z.of_nat (length (default [] (chunks s !! (inode, indx)))) + 1)
  end.

(** [Read]: the error number, [*chunks] ([None] when it is not assigned)
    and whether a compaction is started in the background. *)
Definition Read (net : Net) (s : Store) (inode indx : Z) : Z * option (list Slice) * bool :=
  match net None with
  | Some msg => (errno (Some (OtherErr msg)), None, false)
  | None =>
      let vals := lrange (default [] (chunks s !! (inode, indx))) 0 1000000 in
      let ss := readSlices vals in
      (0, Some (buildSlice ss), 5 <=? Z.of_nat (length vals))
  end.

(** *** CopyFileRange *)

(** The part of a source slice within the copied range.  The slice [s]
    starts at in-chunk position [pos] of the source chunk that starts at
    file offset [coff].  [None] when it lies outside [offIn .. offIn+size];
    otherwise its offset within its object, its in-chunk position and its
    length after the two adjustments of the source. *)
Definition clip (offIn size coff pos : Z) (s : Slice) : option (Z * Z * Z) :=
  if (u64 (coff + pos) <? u64 (offIn + size))
     && (offIn <? u64 (u64 (coff + pos) + Len s))
  then
    let '(s_off, pos, s_len) :=
      if u64 (coff + pos) <? offIn then
        let dec := u32 (u64 (u64 (offIn - coff) - pos)) in
        (u32 (Off s + dec), u32 (pos + dec), u32 (Len s - dec))
      else (Off s, pos, Len s) in
    let s_len :=
      if u64 (offIn + size) <? u64 (u64 (coff + pos) + s_len) then
        let dec := u32 (u64 (u64 (offIn + size) - u64 (u64 (coff + pos) + s_len))) in
        u32 (s_len - dec)
      else s_len in
    Some (s_off, pos, s_len)
  else None.

(** The reference count of a slice that is used once more. *)
Definition incr_ref (chunkid size : Z) : list cmd :=
  if 0 <? chunkid then [IncrSlice chunkid size] else [].

(** The records for one piece of data at destination offset [doff]: one
    record, or two when it crosses the end of the destination chunk. *)
Definition place (fout doff chunkid size s_off s_len : Z) : list cmd :=
  let indx := u32 (doff / ChunkSize) in
  let dpos := u32 (doff mod ChunkSize) in
  if ChunkSize <? u32 (dpos + s_len) then
    let skip := u32 (ChunkSize - dpos) in
    [RPush fout indx (mkSrec dpos chunkid size s_off (u32 (ChunkSize - dpos)))]
    ++ incr_ref chunkid size
    ++ [RPush fout (u32 (indx + 1))
          (mkSrec 0 chunkid size (u32 (s_off + skip)) (u32 (s_len - skip)))]
    ++ incr_ref chunkid size
  else
    [RPush fout indx (mkSrec dpos chunkid size s_off s_len)]
    ++ incr_ref chunkid size.

(** The body of the loop over the slices [cs] of one source chunk. *)
Definition copy_slice (fout offIn offOut size coff pos : Z) (s : Slice) : list cmd :=
  match clip offIn size coff pos s with
  | Some (s_off, pos, s_len) =>
      let doff := u64 (u64 (u64 (coff + pos) - offIn) + offOut) in
      place fout doff (Chunkid s) (Size s) s_off s_len
  | None => []
  end.

Fixpoint copy_chunk (fout offIn offOut size coff tpos : Z) (cs : list Slice) : list cmd :=
  match cs with
  | [] => []
  | s :: cs =>
      copy_slice fout offIn offOut size coff tpos s
      ++ copy_chunk fout offIn offOut size coff (u32 (tpos + Len s)) cs
  end.

(** The loop over the source chunks read: [vals] are their logs, [coff] the
    file offset the first one starts at.  Each log is resolved behind a
    full-chunk hole. *)
Fixpoint copy_chunks (fout offIn offOut size coff : Z) (vals : list (list srec))
    : list cmd :=
  match vals with
  | [] => []
  | sv :: vals =>
      let ss := mkSrec 0 0 0 0 (u32 ChunkSize) :: readSlices sv in
      let cs := buildSlice ss in
      copy_chunk fout offIn offOut size coff 0 cs
      ++ copy_chunks fout offIn offOut size (u64 (coff + ChunkSize)) vals
  end.

(** The logs of the source chunks [offIn/ChunkSize .. (offIn+size)/ChunkSize]. *)
Definition source_logs (s : Store) (fin offIn size : Z) : list (list srec) :=
  map (fun i => lrange (default [] (chunks s !! (fin, u32 i))) 0 1000000)
    (seqZ (offIn / ChunkSize) (u64 (offIn + size) / ChunkSize - offIn / ChunkSize + 1)).

(** The transaction function of [CopyFileRange]; the result is [*copied]. *)
Definition CopyFileRange_txf (ctx : Ctx) (now : Time) (s : Store)
    (fin offIn fout offOut size flags : Z) : tx Z :=
  match inodes s !! fin, inodes s !! fout with
  | Some a_in, Some a_out =>
      let sattr := parseAttr a_in Attr0 in
      if negb (Typ sattr =? TypeFile) then Abort (Errno EINVAL)
      else if Length sattr <=? offIn then Commit [] 0
      else
        let size :=
          if Length sattr <? u64 (offIn + size) then u64 (Length sattr - offIn)
          else size in
        let attr := parseAttr a_out Attr0 in
        if negb (Typ attr =? TypeFile) then Abort (Errno EINVAL)
        else
          let newleng := u64 (offOut + size) in
          let added :=
            if Length attr <? newleng
            then i64 (align4K newleng - align4K (Length attr)) else 0 in
          let attr := if Length attr <? newleng then set_Length attr newleng else attr in
          let attr := set_Mtime attr (Unix now) (u32 (Nanosecond now)) in
          let attr := set_Ctime attr (Unix now) (u32 (Nanosecond now)) in
          let vals := source_logs s fin offIn size in
          Commit
            (copy_chunks fout offIn offOut size
               (u64 (offIn / ChunkSize * ChunkSize)) vals
             ++ [SetInode fout (marshal attr)]
             ++ (if 0 <? added then [IncrByUsedSpace added] else []))
            size
  | _, _ => Abort RedisNil
  end.

End ChunkLog.

(** *** What a copy does to the destination *)

(** The commands of a copy into [fout]: a record appended to a chunk log
    of [fout], the reference count of a slice with a chunk id above 0
    advanced by one, the attribute of [fout] written, [usedSpace] advanced. *)
Definition dest_cmd (fout : Z) (c : cmd) : Prop :=
  match c with
  | RPush inode _ _ => inode = fout
  | IncrBySlice chunkid _ n => n = 1 /\ 0 < chunkid
  | SetInode inode _ => inode = fout
  | IncrByUsedSpace _ => True
  | _ => False
  end.

(** The records a pipeline appends to the chunk log [k], in order. *)
Fixpoint pushed_to (k : Z * Z) (cmds : list cmd) : list srec :=
  match cmds with
  | [] => []
  | RPush inode indx v :: cmds =>
      if decide ((inode, indx) = k) then v :: pushed_to k cmds else pushed_to k cmds
  | _ :: cmds => pushed_to k cmds
  end.

(** The number of records a pipeline appends, to any log, that name the
    slice [(chunkid, size)] with a chunk id above 0. *)
Fixpoint pushed_refs (chunkid size : Z) (cmds : list cmd) : Z :=
  match cmds with
  | [] => 0
  | RPush _ _ v :: cmds =>
      (if (r_chunkid v =? chunkid) && (r_size v =? size) && (0 <? chunkid) then 1 else 0)
      + pushed_refs chunkid size cmds
  | _ :: cmds => pushed_refs chunkid size cmds
  end.

(** By how much a pipeline advances the reference count [k$chunkid_$size]. *)
Fixpoint incr_total (chunkid size : Z) (cmds : list cmd) : Z :=
  match cmds with
  | [] => 0
  | IncrBySlice c z n :: cmds =>
      (if (c =? chunkid) && (z =? size) then n else 0) + incr_total chunkid size cmds
  | _ :: cmds => incr_total chunkid size cmds
  end.

(** ** Compaction *)

(** What [compactChunk] does besides its transaction, in order: reads and
    writes of single keys, messages to the data plane, warnings, and the
    start of another compaction. *)
Inductive event : Type :=
| EvGet (k : key)
| EvDecr (k : key)
| EvDel (k : key)
| EvLLen (k : key)
| EvDeleteChunk (chunkid size : Z)   (* newMsg(DeleteChunk, chunkid, size) *)
| EvWarn
| EvCompactAgain.

#[global] Instance event_eq_dec : EqDecision event.
Proof. solve_decision. Defined.

(** How [compactChunk] ends: it treats the commit as done ([errno == 0]),
    as failed ([errno == syscall.EINVAL]), leaves it undecided with a
    warning, or indexes [rs] out of range. *)
Inductive verdict : Type :=
| Succeeded
| Failed
| Undecided
| Panicked.

(** The result of a queued [Decr]: its error and its value. *)
Definition IntCmd : Type := (option error * Z)%type.

(** How the transaction of a compaction reaches the server and the client:
    as it should; applied by the server while the client gets a transport
    error (the false negative of the source's comment); or not applied,
    with a transport error. *)
Inductive delivery : Type :=
| Delivered
| AppliedButLost (msg : string)
| NotApplied (msg : string).

Section Compaction.

(** The values the queued [Decr]s of the slices [ss] return, run in order
    on the server [s]. *)
Fixpoint decr_results (s : Store) (ss : list srec) : list IntCmd :=
  match ss with
  | [] => []
  | x :: ss =>
      let s' := exec s (DecrSlice (r_chunkid x) (r_size x)) in
      (None, default 0 (slicerefs s' !! (r_chunkid x, r_size x))) :: decr_results s' ss
  end.

(** The commands the transaction of a compaction queues. *)
Definition compact_cmds (inode indx : Z) (vals ss : list srec) (chunkid size : Z) : list cmd :=
  [LTrim inode indx (Z.of_nat (length vals)) (-1);
   LPush inode indx (mkSrec 0 chunkid size 0 size);
   IncrBySlice chunkid size 0]
  ++ map (fun x => DecrSlice (r_chunkid x) (r_size x)) ss.

(** The transaction function of [compactChunk]: the log must still start
    with the values [vals] read before; the result is [rs]. *)
Definition compact_txf (s : Store) (inode indx : Z) (vals ss : list srec)
    (chunkid size : Z) : tx (list IntCmd) :=
  let vals2 :=
    lrange (default [] (chunks s !! (inode, indx))) 0 (Z.of_nat (length vals) - 1) in
  if decide (vals2 = vals) then
    let cmds := compact_cmds inode indx vals ss chunkid size in
    Commit cmds
      (decr_results
         (pipeline [LTrim inode indx (Z.of_nat (length vals)) (-1);
                    LPush inode indx (mkSrec 0 chunkid size 0 size);
                    IncrBySlice chunkid size 0] s) ss)
  else Abort (Errno EINVAL).

(** [txn] around the transaction function: the error number, the server
    afterwards and [rs]. *)
Definition run_compact_txn (d : delivery) (s : Store) (t : tx (list IntCmd))
    : Z * Store * list IntCmd :=
  match t with
  | Abort err => (errno (Some err), s, [])
  | Commit cmds rs =>
      match d with
      | Delivered => (0, pipeline cmds s, rs)
      | AppliedButLost msg =>
          (errno (Some (OtherErr msg)), pipeline cmds s,
           map (fun _ => (Some (OtherErr msg), 0)) rs)
      | NotApplied msg =>
          (errno (Some (OtherErr msg)), s, map (fun _ => (Some (OtherErr msg), 0)) rs)
      end
  end.

(** [deleteSlice]: the message to the data plane and, when it succeeds
    ([deleted chunkid size]), the [Del] of the reference count, whose error
    is dropped: the key stays when the connection fails. *)
Definition deleteSlice (net : Net) (deleted : Z -> Z -> bool) (s : Store)
    (chunkid size : Z) : Store * list event :=
  if deleted chunkid size
  then (match net None with
        | Some _ => s
        | None => set_slicerefs s (delete (chunkid, size) (slicerefs s))
        end,
        [EvDeleteChunk chunkid size; EvDel (sliceKey chunkid size)])
  else (s, [EvDeleteChunk chunkid size; EvWarn]).

(** The loop over [ss] after a commit: the slices whose [Decr] returned a
    negative count are deleted.  [None] when [rs] is too short. *)
Fixpoint delete_garbage (net : Net) (deleted : Z -> Z -> bool) (s : Store) (rs : list IntCmd)
    (i : nat) (ss : list srec) : option (Store * list event) :=
  match ss with
  | [] => Some (s, [])
  | x :: ss =>
      match rs !! i with
      | None => None
      | Some (err, val) =>
          let '(s, ev) :=
            if match err with None => val <? 0 | Some _ => false end
            then deleteSlice net deleted s (r_chunkid x) (r_size x)
            else (s, []) in
          match delete_garbage net deleted s rs (S i) ss with
          | Some (s, ev') => Some (s, ev ++ ev')
          | None => None
          end
      end
  end.

(** [compactChunk] from the end of its transaction on.  [errno] is what
    [txn] returned, [s] the server then. *)
Definition compact_finish (net : Net) (deleted : Z -> Z -> bool) (s : Store)
    (errno : Z) (rs : list IntCmd) (inode indx : Z) (ss : list srec)
    (chunkid size : Z) : verdict * Store * list event :=
  let k := sliceKey chunkid size in
  (* there could be false-negative that the compaction is successful, double-check *)
  let '(errno, ev0) :=
    if negb (errno =? 0) && negb (errno =? EINVAL) then
      match net None with
      | Some _ => (errno, [EvGet k])
      | None =>
          match slicerefs s !! (chunkid, size) with
          | None => (EINVAL, [EvGet k])   (* failed *)
          | Some _ => (0, [EvGet k])      (* successful *)
          end
      end
    else (errno, []) in
  if errno =? EINVAL then
    let s := match net None with
             | Some _ => s
             | None => exec s (DecrSlice chunkid size)
             end in
    let '(s, ev) := deleteSlice net deleted s chunkid size in
    (Failed, s, ev0 ++ [EvDecr k] ++ ev)
  else if errno =? 0 then
    match delete_garbage net deleted s rs 0 ss with
    | None => (Panicked, s, ev0)
    | Some (s, ev) =>
        let llen :=
          match net None with
          | Some _ => 0
          | None => Z.of_nat (length (default [] (chunks s !! (inode, indx))))
          end in
        (Succeeded, s,
         ev0 ++ ev ++ [EvLLen (chunkKey inode indx)]
         ++ (if 5 <? llen then [EvCompactAgain] else []))
    end
  else (Undecided, s, ev0 ++ [EvWarn]).

(** [size += s.Len] over the resolved slices, in 32 bits. *)
Definition total_size (chunks : list Slice) : Z :=
  foldl (fun size c => u32 (size + Len c)) 0 chunks.

(** [compactChunk] from its transaction on: [vals] are the values read
    from the log, [chunkid] the chunk the data plane has compacted them
    into. *)
Definition compact_commit (net : Net) (deleted : Z -> Z -> bool) (d : delivery)
    (s : Store) (inode indx : Z) (vals : list srec) (chunkid : Z)
    : verdict * Store * list event :=
  let ss := readSlices vals in
  let chunks := buildSlice ss in
  let size := total_size chunks in
  let '(errno, s, rs) :=
    run_compact_txn d s (compact_txf s inode indx vals ss chunkid size) in
  compact_finish net deleted s errno rs inode indx ss chunkid size.

End Compaction.

(** ** Names, links and open files *)

Section Names.
Context {C : Consts}.

(** [Mknod], [Mkdir] and [Symlink] are [mknod] with fixed arguments. *)
Definition Mknod (net : Net) (ctx : Ctx) (now : Time) (s : Store) (nextinode : Z)
    (parent : Z) (name : string) (_type mode cumask rdev : Z) (attr : Attr)
    : Z * option Z * Store * Z :=
  mknod net ctx now s nextinode parent name _type mode cumask rdev "" attr.

Definition Mkdir (net : Net) (ctx : Ctx) (now : Time) (s : Store) (nextinode : Z)
    (parent : Z) (name : string) (mode cumask copysgid : Z) (attr : Attr)
    : Z * option Z * Store * Z :=
  Mknod net ctx now s nextinode parent name TypeDirectory mode cumask 0 attr.

Definition Symlink (net : Net) (ctx : Ctx) (now : Time) (s : Store) (nextinode : Z)
    (parent : Z) (name : string) (path : string) (attr : Attr)
    : Z * option Z * Store * Z :=
  mknod net ctx now s nextinode parent name TypeSymlink 0x1A4 (* 0644 *) 0x12 (* 022 *)
    0 path attr.

(** [Create], called with a non-nil [inode]: the new file counts as opened
    once. *)
Definition Create (net : Net) (ctx : Ctx) (now : Time) (r : redisMeta) (s : Store)
    (nextinode : Z) (parent : Z) (name : string) (mode cumask : Z) (attr : Attr)
    : Z * option Z * Store * Z * redisMeta :=
  let '(err, inode, s', nextinode') :=
    Mknod net ctx now s nextinode parent name TypeFile mode cumask 0 attr in
  (err, inode, s', nextinode',
   match inode with
   | Some ino =>
       if err =? 0 then mkMeta (sid r) (<[ino := 1]> (openFiles r)) (removedFiles r) else r
   | None => r
   end).

(** The same from the return of [nextInode] on, [ino] being the number it
    returned. *)
Definition Mknod_ino (ctx : Ctx) (now : Time) (s : Store) (parent : Z) (name : string)
    (_type mode cumask rdev : Z) (ino : Z) (attr : Attr) : Z * Store :=
  mknod_ino ctx now s parent name _type mode cumask rdev "" ino attr.

Definition Mkdir_ino (ctx : Ctx) (now : Time) (s : Store) (parent : Z) (name : string)
    (mode cumask copysgid : Z) (ino : Z) (attr : Attr) : Z * Store :=
  Mknod_ino ctx now s parent name TypeDirectory mode cumask 0 ino attr.

Definition Symlink_ino (ctx : Ctx) (now : Time) (s : Store) (parent : Z) (name : string)
    (path : string) (ino : Z) (attr : Attr) : Z * Store :=
  mknod_ino ctx now s parent name TypeSymlink 0x1A4 (* 0644 *) 0x12 (* 022 *) 0 path ino attr.

(** [ReadLink]: [cache] is [r.symlinks], the targets already read.  Returns
    the error number, [*path] where it is assigned, and the cache. *)
Definition ReadLink (net : Net) (cache : gmap Z string) (s : Store) (inode : Z)
    : Z * option string * gmap Z string :=
  match cache !! inode with
  | Some target => (0, Some target, cache)
  | None =>
      match net None with
      | Some msg => (errno (Some (OtherErr msg)), None, cache)
      | None =>
          match symlinks s !! inode with
          | Some target => (errno None, Some target, <[inode := target]> cache)
          | None => (errno (Some RedisNil), None, cache)
          end
      end
  end.

(** *** Unlink *)

(** The commands [Unlink] queues for the inode once its last link is gone. *)
Definition Unlink_last (now : Time) (r : redisMeta) (_type inode : Z) (attr : Attr)
    (opened : bool) : list cmd :=
  (if _type =? TypeSymlink then [DelSym inode; DelInode inode]
   else if _type =? TypeFile then
     if opened then [SetInode inode (marshal attr); SAddSession (sid r) (i64 inode)]
     else [ZAddDelfiles (Unix now) inode (i64 (Length attr));
           DelInode inode;
           IncrByUsedSpace (i64 (- align4K (Length attr)))]
   else [])
  ++ [IncrByTotalInodes (-1)].

(** The transaction function of [Unlink]; [_type] and [inode] are the entry
    read before the transaction.  The result is what is done after the
    pipeline. *)
Definition Unlink_txf (now : Time) (r : redisMeta) (s : Store) (parent : Z)
    (name : string) (_type inode : Z) : tx cleanup :=
  match tx_MGet_inode s parent, tx_MGet_inode s inode with
  | Some rs0, Some rs1 =>
      let pattr := parseAttr rs0 Attr0 in
      if negb (Typ pattr =? TypeDirectory) then Abort (Errno ENOTDIR)
      else
        let pattr := touch_mc now pattr in
        let attr := parseAttr rs1 Attr0 in
        let attr := set_Ctime attr (Unix now) (u32 (Nanosecond now)) in
        match tx_HGet_entry s parent name with
        | inr err => Abort err
        | inl (_type2, inode2) =>
            if negb (_type2 =? _type) || negb (inode2 =? inode) then Abort (Errno EAGAIN)
            else
              let attr := set_Nlink attr (u32 (Nlink attr - 1)) in
              let opened :=
                if (_type =? TypeFile) && (Nlink attr =? 0)
                then default 0 (openFiles r !! inode) >? 0 else false in
              Commit
                ([HDelEntry parent name; SetInode parent (marshal pattr); DelXattr inode]
                 ++ (if Nlink attr >? 0 then [SetInode inode (marshal attr)]
                     else Unlink_last now r _type inode attr opened))
                (if (_type =? TypeFile) && (Nlink attr =? 0) then
                   if opened then MarkRemoved inode else DeleteFile inode (Length attr)
                 else NoCleanup)
        end
  | _, _ => Abort RedisNil
  end.

(** [Unlink]: the error number, the server and the engine afterwards, and
    the clean-up started. *)
Definition Unlink (net : Net) (now : Time) (r : redisMeta) (s : Store) (parent : Z)
    (name : string) : Z * Store * redisMeta * cleanup :=
  match rdb_HGet_entry net None s parent name with
  | inr err => (errno (Some err), s, r, NoCleanup)
  | inl (_type, inode) =>
      if _type =? TypeDirectory then (EPERM, s, r, NoCleanup)
      else
        match Unlink_txf now r s parent name _type inode with
        | Abort err => (errno (Some err), s, r, NoCleanup)
        | Commit cmds after =>
            (0, pipeline cmds s,
             match after with
             | MarkRemoved inode =>
                 mkMeta (sid r) (openFiles r) (<[inode := true]> (removedFiles r))
             | _ => r
             end,
             after)
        end
  end.

(** *** Link *)

(** The transaction function of [Link]; the result is [*attr]. *)
Definition Link_txf (now : Time) (s : Store) (inode parent : Z) (name : string)
    : tx Attr :=
  match tx_MGet_inode s parent, tx_MGet_inode s inode with
  | Some rs0, Some rs1 =>
      let pattr := parseAttr rs0 Attr0 in
      if negb (Typ pattr =? TypeDirectory) then Abort (Errno ENOTDIR)
      else
        let pattr := touch_mc now pattr in
        let iattr := parseAttr rs1 Attr0 in
        if Typ iattr =? TypeDirectory then Abort (Errno EPERM)
        else
          let iattr := set_Ctime iattr (Unix now) (u32 (Nanosecond now)) in
          let iattr := set_Nlink iattr (u32 (Nlink iattr + 1)) in
          match tx_HGet_entry s parent name with
          | inl _ => Abort (Errno EEXIST)
          | inr _ =>
              Commit
                [HSetEntry parent name (Typ iattr) inode;
                 SetInode parent (marshal pattr);
                 SetInode inode (marshal iattr)]
                iattr
          end
  | _, _ => Abort RedisNil
  end.

Definition Link (now : Time) (s : Store) (inode parent : Z) (name : string) : Z * Store :=
  committed s (Link_txf now s inode parent name).

(** *** Close and the deferred deletion *)

(** [Close]: the error number, the engine afterwards, and whether the
    deletion of the inode is started in the background. *)
Definition Close (r : redisMeta) (inode : Z) : Z * redisMeta * bool :=
  let refs := default 0 (openFiles r !! inode) in
  if refs <=? 1 then
    if default false (removedFiles r !! inode)
    then (0, mkMeta (sid r) (delete inode (openFiles r)) (delete inode (removedFiles r)),
          true)
    else (0, mkMeta (sid r) (delete inode (openFiles r)) (removedFiles r), false)
  else
    (0, mkMeta (sid r) (<[inode := i64 (refs - 1)]> (openFiles r)) (removedFiles r), false).

(** [deleteInode]: the error, the server afterwards, and the deletion of
    the chunks started in the background. *)
Definition deleteInode (net : Net) (now : Time) (s : Store) (inode : Z)
    : option error * Store * cleanup :=
  match rdb_Get_inode net None s inode with
  | inr RedisNil => (None, s, NoCleanup)
  | inr err => (Some err, s, NoCleanup)
  | inl a =>
      let attr := parseAttr a Attr0 in
      (None,
       pipeline
         [ZAddDelfiles (Unix now) inode (i64 (Length attr));
          DelInode inode;
          IncrByUsedSpace (i64 (- align4K (Length attr)))] s,
       DeleteFile inode (Length attr))
  end.

End Names.

(** ** Permissions and file-system statistics *)

Section Permissions.
Context {C : Consts}.

(** [accessMode]: the three permission bits that apply to the caller. *)
Definition accessMode (attr : Attr) (uid gid : Z) : Z :=
  if uid =? 0 then 0x7
  else
    let mode := Mode attr in
    if uid =? Uid attr then Z.land (u8 (Z.shiftr mode 6)) 7
    else if gid =? Gid attr then Z.land (u8 (Z.shiftr mode 3)) 7
    else u8 (Z.land mode 7).

(** [Access]: [attr] is [None] for a nil pointer.  Returns the error
    number. *)
Definition Access (net : Net) (ctx : Ctx) (s : Store) (inode mmask : Z)
    (attr : option Attr) : Z :=
  if ctx_uid ctx =? 0 then 0
  else
    let '(err, attr) :=
      match attr with
      | Some a => if Full a then (0, a) else GetAttr net s inode a
      | None => GetAttr net s inode Attr0
      end in
    if negb (err =? 0) then err
    else
      let mode := accessMode attr (ctx_uid ctx) (ctx_gid ctx) in
      if negb (Z.land mode mmask =? mmask) then EACCES else 0.

(** [StatFS]: the error number and [*totalspace], [*availspace], [*iused],
    [*iavail].  The two counters are read with a deadline of 300 ms; a read
    that fails gives 0. *)
Definition StatFS (net : Net) (s : Store) : Z * (Z * Z * Z * Z) :=
  let totalspace := Z.shiftl 1 50 in
  let c := Some (Millisecond * 300) in
  let used := match net c with Some _ => 0 | None => usedSpace s end in
  let used := i64 (Z.shiftl (i64 (Z.shiftr used 16 + 1)) 16) in (* aligned to 64K *)
  let availspace := u64 (totalspace - u64 used) in
  let inodes := match net c with Some _ => 0 | None => totalInodes s end in
  (0, (totalspace, availspace, u64 inodes, Z.shiftl 10 20)).

End Permissions.

(** ** Predicates and scenarios of the properties *)

Section TxnSpec.
Variable watch : nat -> option error.
Variable rnd : nat -> N.

(** The sleep before retry [i + 1]: 100 microseconds times a number drawn
    from [0 .. i]. *)
Definition backoff (i : nat) : Z :=
  Microsecond * 100 * (Z.of_N (rnd i) mod (Z.of_nat i + 1)).

(** What [txn] returns: between 1 and 50 attempts, all but the last in
    conflict, the last in conflict only when it is the 50th; the error
    number of the last attempt; a sleep of [backoff] after every conflict. *)
Definition txn_post (r : txn_result) : Prop :=
  (1 <= txn_attempts r <= 50)%nat /\
  (forall j, (j < pred (txn_attempts r))%nat -> watch j = Some TxFailedErr) /\
  (watch (pred (txn_attempts r)) = Some TxFailedErr -> txn_attempts r = 50%nat) /\
  txn_errno r = errno (watch (pred (txn_attempts r))) /\
  (forall j, (j < length (txn_sleeps r))%nat ->
             txn_sleeps r !! j = Some (backoff j)) /\
  length (txn_sleeps r) =
    (if decide (watch (pred (txn_attempts r)) = Some TxFailedErr)
     then txn_attempts r else pred (txn_attempts r)).

End TxnSpec.

(** The same [RPushX] to each of the chunks [idxs]. *)
Definition pushx_all (inode : Z) (v : srec) (idxs : list Z) : list cmd :=
  map (fun indx => RPushX inode indx v) idxs.

(** The open-file counter of [inode] advanced by one. *)
Definition opened_once (r : redisMeta) (inode : Z) : redisMeta :=
  mkMeta (sid r)
    (<[inode := i64 (default 0 (openFiles r !! inode) + 1)]> (openFiles r))
    (removedFiles r).

(** Every length is non-negative. *)
Definition nonneg_lens (a : list Slice) : Prop := Forall (fun c => 0 <= Len c) a.

(** A trace without a read of a key. *)
Definition no_Get (ev : list event) : Prop := forall k, EvGet k ∉ ev.

Section Predicates.
Context {C : Consts}.

(** Whether [Open] fetched the attribute without error, or was asked for
    none. *)
Definition Open_fetched (net : Net) (s : Store) (inode : Z) (attr : option Attr) : Prop :=
  match attr with
  | None => True
  | Some a => fst (GetAttr net s inode a) = 0
  end.

(** The sizes [Truncate] is used with: a chunk size that fits 32 bits, and
    a new length whose chunk indices fit 32 bits and which is far from the
    64-bit limit. *)
Definition grow_range (old length : Z) : Prop :=
  0 < ChunkSize < 2 ^ 32 /\ 0 <= old < length /\
  length < 2 ^ 32 * ChunkSize /\ length < 2 ^ 62.

(** The hole a growing [Truncate] appends to the chunk of the old end, with
    the arithmetic in range. *)
Definition grow_first (old length : Z) : srec :=
  hole (old mod ChunkSize)
    (if (old / ChunkSize + 1) * ChunkSize <? length
     then ChunkSize - old mod ChunkSize else length - old).

(** The command of a growing [Truncate] for the chunk of the new end, when
    it is another chunk and the new end is inside it. *)
Definition grow_tail (inode old length : Z) : list cmd :=
  if ((old / ChunkSize + 1) * ChunkSize <? length) && (0 <? length mod ChunkSize)
  then [RPush inode (length / ChunkSize) (hole 0 (length mod ChunkSize))]
  else [].

(** A pushed record names the chunk id and the size of the slice [sl]. *)
Definition names (sl : Slice) (c : cmd) : Prop :=
  match c with
  | RPush _ _ v => r_chunkid v = Chunkid sl /\ r_size v = Size sl
  | _ => True
  end.

(** A pushed record names one of the slices [cs]. *)
Definition names_one (cs : list Slice) (c : cmd) : Prop :=
  match c with
  | RPush _ _ v => exists sl, sl ∈ cs /\ r_chunkid v = Chunkid sl /\ r_size v = Size sl
  | _ => True
  end.

(** A pushed record names a slice of the resolution of one of the logs. *)
Definition names_source (vals : list (list srec)) (c : cmd) : Prop :=
  match c with
  | RPush _ _ v =>
      exists sv sl, sv ∈ vals /\
        sl ∈ buildSlice (mkSrec 0 0 0 0 (u32 ChunkSize) :: readSlices sv) /\
        r_chunkid v = Chunkid sl /\ r_size v = Size sl
  | _ => True
  end.

End Predicates.

(** The scenario of the specification: chunks of 4 MiB, an empty regular
    file (inode 7), truncated to 10 MiB. *)
Definition consts_4MiB : Consts := {|
  ChunkSize := 2 ^ 22;
  TypeFile := 1;
  TypeDirectory := 2;
  TypeSymlink := 3;
  TypeFIFO := 4;
  SetAttrMode := 1;
  SetAttrUID := 2;
  SetAttrGID := 4;
  SetAttrAtime := 16;
  SetAttrMtime := 32;
  SetAttrAtimeNow := 128;
  SetAttrMtimeNow := 256;
  ENOATTR := 61
|}.

(** A regular file of mode 0644 with one link and no data. *)
Definition empty_file : Attr := set_Nlink (set_Mode (set_Typ Attr0 1) 0x1A4 (* 0644 *)) 1.

Definition one_empty_file : Store := set_inodes empty_store {[ 7 := marshal empty_file ]}.

(** A log of two overlapping writes and a third one into the middle. *)
Definition two_writes : Store :=
  set_chunks one_empty_file {[ (7, 0) := [mkSrec 0 101 10 0 10; mkSrec 20 102 5 0 5] ]}.

(** A log as long as the range [Read] fetches, [LRange 0 1000000]:
    1,000,001 writes of the first byte of chunk 0 of file 7. *)
Definition full_log : list srec := replicate (Z.to_nat 1000001) (mkSrec 0 101 1 0 1).

Definition full_window : Store := set_chunks one_empty_file {[ (7, 0) := full_log ]}.

(** The scenario of the specification: file 7 holds 8 MiB in one slice of
    chunk 101, file 8 is empty; 3 MiB are copied from offset 1 MiB of file 7
    to offset 0 of file 8. *)
Definition MiB : Z := 2 ^ 20.

Definition two_files : Store :=
  set_chunks
    (set_inodes empty_store
       {[ 7 := marshal (set_Length empty_file (8 * MiB)); 8 := marshal empty_file ]})
    {[ (7, 0) := [mkSrec 0 101 (8 * MiB) 0 (8 * MiB)] ]}.

Definition copy_1_3 : tx Z :=
  CopyFileRange_txf (C := juicefs_consts) (mkCtx 0 0 false) (mkTime 1600000000 0)
    two_files 7 MiB 8 0 (3 * MiB) 0.

(** The copy of the 7 MiB from offset 1 MiB to the end of file 7. *)
Definition copy_1_7 : tx Z :=
  CopyFileRange_txf (C := juicefs_consts) (mkCtx 0 0 false) (mkTime 1600000000 0)
    two_files 7 MiB 8 0 (7 * MiB) 0.

(** A scenario: chunk 0 of file 7 holds two overlapping slices of 100 bytes,
    at 0 and at 50; they are compacted into chunk 104, of 150 bytes. *)
Definition two_slices : list srec :=
  [mkSrec 0 101 100 0 100; mkSrec 50 102 100 0 100].

Definition uncompacted : Store :=
  set_chunks empty_store {[ (7, 0) := two_slices ]}.

(** The server after the transaction of the compaction was applied. *)
Definition compacted : Store :=
  pipeline (compact_cmds 7 0 two_slices (readSlices two_slices) 104 150) uncompacted.

(** Another client has compacted the same two slices, into chunk 103. *)
Definition compacted_by_other : Store :=
  set_chunks empty_store {[ (7, 0) := [mkSrec 0 103 150 0 150] ]}.

(** A directory as [mknod] writes it. *)
Definition dir_blob (parent nlink : Z) : blob :=
  marshal
    (set_Parent
       (set_Nlink
          (set_Length
             (set_Mode (set_Typ Attr0 (TypeDirectory (Consts := juicefs_consts)))
                0x1ed (* 0755 *))
             4096)
          nlink)
       parent).

(** The root with two empty directories, [a] (inode 2) and [b] (inode 3). *)
Definition two_dirs : Store :=
  set_entries
    (set_inodes empty_store
       {[ 1 := dir_blob 1 4; 2 := dir_blob 1 2; 3 := dir_blob 1 2 ]})
    {[ 1 := {[ "a" := (2, 2); "b" := (2, 3) ]} ]}.

(** An engine of session 1 with no file open. *)
Definition engine0 : redisMeta := mkMeta 1 ∅ ∅.

(** The fields of an attribute that [marshal] packs or converts fit their
    width: the type 4 bits, the mode 12 bits, the three times 64 bits
    signed. *)
Definition packable (a : Attr) : Prop :=
  0 <= Typ a < 16 /\ 0 <= Mode a < 4096 /\
  - 2 ^ 63 <= Atime a < 2 ^ 63 /\ - 2 ^ 63 <= Mtime a < 2 ^ 63 /\
  - 2 ^ 63 <= Ctime a < 2 ^ 63.

(** The root, readable and searchable by its owner (uid 1000) only. *)
Definition private_dir : Attr :=
  mkAttr 0 2 0x1C0 (* 0700 *) 1000 1000 0 0 0 0 0 0 2 4096 0 1 true.

(** A volume as [Init] leaves it: the root directory alone. *)
Definition fresh_volume : Store :=
  set_inodes empty_store {[ 1 := dir_blob 1 2 ]}.

(** The root holding the regular file [f] (inode 7) of 5000 bytes. *)
Definition one_file : Store :=
  set_entries
    (set_inodes empty_store
       {[ 1 := dir_blob 1 2; 7 := marshal (set_Length empty_file 5000) ]})
    {[ 1 := {[ "f" := (1, 7) ]} ]}.

(** An engine of session 1 that holds inode 7 open once. *)
Definition engine_open : redisMeta := mkMeta 1 {[ 7 := 1 ]} ∅.

(** ** The deletion [Close] starts in the background *)

(** [SRem] of one member of the set of a session. *)
Definition SRem (s : Store) (sid member : Z) : Store :=
  let m := default ∅ (sessions s !! sid) ∖ {[member]} in
  set_sessions s
    (if decide (m = ∅) then delete sid (sessions s) else <[sid := m]> (sessions s)).

(** The function [Close] starts for a removed file: [deleteInode] and, when
    it returns no error, the [SRem] of the inode from the set of the
    session. *)
Definition Close_background (net : Net) (now : Time) (r : redisMeta) (s : Store)
    (inode : Z) : Store * cleanup :=
  match deleteInode net now s inode with
  | (None, s', after) =>
      (match net None with
       | Some _ => s'
       | None => SRem s' (sid r) (i64 inode)
       end, after)
  | (Some _, s', after) => (s', after)
  end.

(** A command of the data path: it writes an attribute, appends a record to
    a chunk log, or advances a counter by an amount that is not negative
    ([usedSpace] apart, which [Truncate] also lowers). *)
Definition appends_only (c : cmd) : Prop :=
  match c with
  | SetInode _ _ | RPush _ _ _ | RPushX _ _ _ | IncrByUsedSpace _ => True
  | IncrBySlice _ _ n => 0 <= n
  | _ => False
  end.

(** The server [s'] has all the data of [s]: every chunk log of [s] with
    its records in place, possibly followed by more; every reference count
    of [s], not lowered; every inode of [s]; and the same directories,
    symlinks, extended attributes, pending deletions, sessions and inode
    count. *)
Definition keeps_data (s s' : Store) : Prop :=
  (forall k l, chunks s !! k = Some l -> exists l', chunks s' !! k = Some (l ++ l')) /\
  (forall k n, slicerefs s !! k = Some n ->
     exists n', slicerefs s' !! k = Some n' /\ n <= n') /\
  (forall i, is_Some (inodes s !! i) -> is_Some (inodes s' !! i)) /\
  entries s' = entries s /\ symlinks s' = symlinks s /\ xattrs s' = xattrs s /\
  delfiles s' = delfiles s /\ sessions s' = sessions s /\
  totalInodes s' = totalInodes s.

(** A command on a chunk log or on a slice reference count. *)
Definition log_or_ref (c : cmd) : Prop :=
  match c with
  | RPush _ _ _ | RPushX _ _ _ | IncrBySlice _ _ _ => True
  | _ => False
  end.

(** The value of the extended attribute [name] of [inode] on the server. *)
Definition xattr_of (s : Store) (inode : Z) (name : string) : option string :=
  default ∅ (xattrs s !! inode) !! name.

(** The number of records of [ss] that name the slice of [chunkid] and
    [size]. *)
Definition refs_of (chunkid size : Z) (ss : list srec) : Z :=
  Z.of_nat (length (List.filter
                      (fun x => (r_chunkid x =? chunkid) && (r_size x =? size)) ss)).

(** The entry [name] of the directory [parent] on the server: its type and
    its inode. *)
Definition entry_of (s : Store) (parent : Z) (name : string) : option (Z * Z) :=
  default ∅ (entries s !! parent) !! name.

(** A command that is no [HSet] and no [HDel] of a directory entry. *)
Definition no_entry_cmd (c : cmd) : Prop :=
  match c with
  | HSetEntry _ _ _ _ | HDelEntry _ _ => False
  | _ => True
  end.

Section SetAttrKeeps.
Context {C : Consts}.

(** What [SetAttr] under the flags [set] keeps of the stored attribute
    [old] in the attribute [cur] it writes back: always the type, the link
    count, the length, the device, the parent and the flags; the owner, the
    group and the access and modification times unless their flag is set;
    the mode unless the mode, the owner or the group is set. *)
Definition SetAttr_keeps (set : Z) (old cur : Attr) : Prop :=
  Typ cur = Typ old /\ Nlink cur = Nlink old /\ Length cur = Length old /\
  Rdev cur = Rdev old /\ Parent cur = Parent old /\ Flags cur = Flags old /\
  (Z.land set SetAttrUID = 0 -> Uid cur = Uid old) /\
  (Z.land set SetAttrGID = 0 -> Gid cur = Gid old) /\
  (Z.land set SetAttrMode = 0 -> Z.land set (Z.lor SetAttrUID SetAttrGID) = 0 ->
   Mode cur = Mode old) /\
  (Z.land set SetAttrAtime = 0 -> Z.land set SetAttrAtimeNow = 0 ->
   Atime cur = Atime old /\ Atimensec cur = Atimensec old) /\
  (Z.land set SetAttrMtime = 0 -> Z.land set SetAttrMtimeNow = 0 ->
   Mtime cur = Mtime old /\ Mtimensec cur = Mtimensec old).

End SetAttrKeeps.

(** ** Fallocate *)

(** The modes of [Fallocate]. *)
Definition fallocKeepSize : Z := 0x01.
Definition fallocPunchHole : Z := 0x02.
Definition fallocCollapesRange : Z := 0x08.
Definition fallocZeroRange : Z := 0x10.
Definition fallocInsertRange : Z := 0x20.

Section Fallocate.
Context {C : Consts}.

(** The loop [for size > 0] of the pipeline of [Fallocate]: one hole per
    chunk of the range, from [off] on.  [n] bounds the iterations. *)
Fixpoint fallocate_holes (n : nat) (inode off size : Z) : list cmd :=
  match n with
  | O => []
  | S n =>
      if 0 <? size then
        let indx := u32 (off / ChunkSize) in
        let coff := off mod ChunkSize in
        let l := if ChunkSize <? u64 (coff + size) then u64 (ChunkSize - coff) else size in
        RPush inode indx (hole (u32 coff) (u32 l))
        :: fallocate_holes n inode (u64 (off + l)) (u64 (size - l))
      else []
  end.

(** The transaction function of [Fallocate].  The loop gets two iterations
    more than the range has whole chunks: every iteration but the first and
    the last takes a whole chunk. *)
Definition Fallocate_txf (ctx : Ctx) (now : Time) (s : Store)
    (inode mode off size : Z) : tx unit :=
  match tx_Get_inode s inode with
  | inr err => Abort err
  | inl a =>
      let t := parseAttr a Attr0 in
      if Typ t =? TypeFIFO then Abort (Errno EPIPE)
      else if negb (Typ t =? TypeFile) then Abort (Errno EPERM)
      else
        let length :=
          if (Length t <? u64 (off + size)) && (Z.land mode fallocKeepSize =? 0)
          then u64 (off + size) else Length t in
        let old := Length t in
        let t := set_Length t length in
        let t := set_Ctime t (Unix now) (u32 (Nanosecond now)) in
        Commit
          ([SetInode inode (marshal t)]
           ++ (if negb (Z.land mode (Z.lor fallocZeroRange fallocPunchHole) =? 0) then
                 let size := if old <? u64 (off + size) then u64 (old - off) else size in
                 fallocate_holes (Z.to_nat (size / ChunkSize + 2)) inode off size
               else [])
           ++ [IncrByUsedSpace (i64 (align4K length - align4K old))])
          tt
  end.

(** [Fallocate]: the error number and the server afterwards. *)
Definition Fallocate (ctx : Ctx) (now : Time) (s : Store) (inode mode off size : Z)
    : Z * Store :=
  if negb (Z.land mode fallocCollapesRange =? 0) && negb (mode =? fallocCollapesRange)
  then (EINVAL, s)
  else if negb (Z.land mode fallocInsertRange =? 0) && negb (mode =? fallocInsertRange)
  then (EINVAL, s)
  else if (mode =? fallocInsertRange) || (mode =? fallocCollapesRange)
  then (ENOTSUP, s)
  else if negb (Z.land mode fallocPunchHole =? 0) && (Z.land mode fallocKeepSize =? 0)
  then (EINVAL, s)
  else if size =? 0 then (EINVAL, s)
  else committed s (Fallocate_txf ctx now s inode mode off size).

(** The holes [cmds] tile the bytes [from .. to] of the file [inode]: each
    is a record of chunk id 0 appended to the log of the chunk it lies in,
    none is empty or crosses the end of its chunk, and each starts where
    the one before ends. *)
Fixpoint tiles (inode from : Z) (cmds : list cmd) (to : Z) : Prop :=
  match cmds with
  | [] => from = to
  | RPush i indx v :: cmds =>
      i = inode /\ r_chunkid v = 0 /\ indx * ChunkSize + r_pos v = from /\
      0 < r_len v /\ r_pos v + r_len v <= ChunkSize /\
      tiles inode (from + r_len v) cmds to
  | _ => False
  end.

End Fallocate.

(** ** Lookup *)

(** [strings.Contains(s, sub)]. *)
Fixpoint contains (sub s : string) : bool :=
  if String.prefix sub s then true
  else match s with
       | EmptyString => false
       | String _ s' => contains sub s'
       end.

(** What [EvalSha] of the lookup script gives back (the script itself runs
    on the server and is not modelled): [redis.Nil], whose text
    ("redis: nil") has neither of the two phrases [Lookup] looks for; another
    error, with its text; a result that is not a list of an integer and a
    string (a list of fewer than two elements, which the source would index
    out of range, is left out); or the inode and the attribute blob. *)
Inductive script_reply : Type :=
| ReplyNil
| ReplyErr (msg : string)
| ReplyInvalid
| ReplyFound (ino : Z) (attr : blob).

(** The branch of [Lookup] that does not use the script: [HGet] of the
    entry, then [Get] of the attribute when one is asked for. *)
Definition Lookup_plain (net : Net) (s : Store) (parent : Z) (name : string)
    (inode : option Z) (attr : option Attr) : Z * option Z * option Attr :=
  match rdb_HGet_entry net None s parent name with
  | inr err => (errno (Some err), inode, attr)
  | inl (_, foundIno) =>
      let inode := match inode with Some _ => Some foundIno | None => None end in
      match attr with
      | Some a =>
          match rdb_Get_inode net None s foundIno with
          | inl b => (errno None, inode, Some (parseAttr b a))
          | inr err => (errno (Some err), inode, Some a)
          end
      | None => (errno None, inode, None)
      end
  end.

(** [Lookup]: [inode] and [attr] are [None] for nil pointers, [shaLookup]
    is [r.shaLookup] and [reply] what [EvalSha] returns when it is called.
    Returns the error number, [*inode], [*attr] and [r.shaLookup]. *)
Definition Lookup (net : Net) (reply : script_reply) (shaLookup : string) (s : Store)
    (parent : Z) (name : string) (inode : option Z) (attr : option Attr)
    : Z * option Z * option Attr * string :=
  match attr with
  | Some a =>
      if (0 <? String.length shaLookup)%nat then
        match reply with
        | ReplyNil => (errno (Some RedisNil), inode, attr, shaLookup)
        | ReplyErr msg =>
            if contains "NOSCRIPT" msg || contains "Error running script" msg
            then (Lookup_plain net s parent name inode attr, ""%string)
            else (errno (Some (OtherErr msg)), inode, attr, shaLookup)
        | ReplyInvalid => (EIO, inode, attr, shaLookup)
        | ReplyFound ino b =>
            (errno None, match inode with Some _ => Some ino | None => None end,
             Some (parseAttr b a), shaLookup)
        end
      else (Lookup_plain net s parent name inode attr, shaLookup)
  | None => (Lookup_plain net s parent name inode attr, shaLookup)
  end.

(** ** The deletion of the chunks of a file *)

(** [LPOP] of the log of a chunk. *)
Definition LPop (s : Store) (inode indx : Z) : Store :=
  set_chunks s
    (put_list (inode, indx) (tail (default [] (chunks s !! (inode, indx)))) (chunks s)).

(** The pipeline of [deleteChunk]: for each value read, an [LPop] of the
    log and a [Decr] of the reference count of its slice.  Returns the
    server afterwards and [rs], the results of the [Decr]s. *)
Fixpoint pop_decr (s : Store) (inode indx : Z) (vals : list srec) : Store * list IntCmd :=
  match vals with
  | [] => (s, [])
  | v :: vals =>
      let s := exec (LPop s inode indx) (DecrSlice (r_chunkid v) (r_size v)) in
      let r := (None, default 0 (slicerefs s !! (r_chunkid v, r_size v))) in
      let '(s', rs) := pop_decr s inode indx vals in
      (s', r :: rs)
  end.

(** The loop of [deleteChunk] after its transaction: the slices whose
    [Decr] returned a negative count are deleted ([rs] has one result per
    slice). *)
Fixpoint delete_negative (net : Net) (deleted : Z -> Z -> bool) (s : Store) (rs : list IntCmd)
    (slices : list srec) {struct slices} : Store * list event :=
  match slices, rs with
  | x :: slices, (_, val) :: rs =>
      let '(s, ev) :=
        if val <? 0 then deleteSlice net deleted s (r_chunkid x) (r_size x) else (s, []) in
      let '(s', ev') := delete_negative net deleted s rs slices in
      (s', ev ++ ev')
  | _, _ => (s, [])
  end.

(** The loop [for] of [deleteChunk], each transaction without conflict:
    the first 101 records of the log are taken in one round, and the loop
    ends with the first round of less than 100.  [n] bounds the rounds;
    [None] when it is used up. *)
Fixpoint deleteChunk_loop (n : nat) (net : Net) (deleted : Z -> Z -> bool) (s : Store)
    (inode indx : Z) : option (Store * list event) :=
  match n with
  | O => None
  | S n =>
      let vals := lrange (default [] (chunks s !! (inode, indx))) 0 100 in
      let '(s1, rs) := pop_decr s inode indx vals in
      let '(s2, ev) := delete_negative net deleted s1 rs vals in
      if (length vals <? 100)%nat then Some (s2, ev)
      else
        match deleteChunk_loop n net deleted s2 inode indx with
        | Some (s3, ev') => Some (s3, ev ++ ev')
        | None => None
        end
  end.

(** [deleteChunk] on a working connection.  A round that goes on has taken
    100 records at least, so one round more than the log has records is
    enough. *)
Definition deleteChunk (net : Net) (deleted : Z -> Z -> bool) (s : Store) (inode indx : Z)
    : option (Store * list event) :=
  deleteChunk_loop (S (length (default [] (chunks s !! (inode, indx))))) net deleted s
    inode indx.

Section DeleteFile.
Context {C : Consts}.

(** The inner loop of [deleteFile]: the chunk indices of one batch of at
    most [n] keys from [indx] on, and [indx] after it. *)
Fixpoint batch_keys (n : nat) (indx length : Z) : list Z * Z :=
  match n with
  | O => ([], indx)
  | S n =>
      if u64 (indx * ChunkSize) <? length then
        let '(keys, indx') := batch_keys n (u32 (indx + 1)) length in
        (indx :: keys, indx')
      else ([], indx)
  end.

(** The loop over the results of the [LLen]s of a batch: the chunks whose
    log is not empty are deleted. *)
Fixpoint delete_chunks (net : Net) (deleted : Z -> Z -> bool) (s : Store) (inode : Z)
    (cmds : list (Z * Z)) : option (Store * list event) :=
  match cmds with
  | [] => Some (s, [])
  | (idx, val) :: cmds =>
      if val =? 0 then delete_chunks net deleted s inode cmds
      else
        match deleteChunk net deleted s inode (u32 idx) with
        | None => None
        | Some (s', ev) =>
            match delete_chunks net deleted s' inode cmds with
            | Some (s'', ev') => Some (s'', ev ++ ev')
            | None => None
            end
        end
  end.

(** The outer loop of [deleteFile], batch by batch; [n] bounds the
    batches. *)
Fixpoint deleteFile_loop (n : nat) (net : Net) (deleted : Z -> Z -> bool) (s : Store)
    (inode indx length : Z) : option (Store * list event) :=
  match n with
  | O => None
  | S n =>
      if u64 (indx * ChunkSize) <? length then
        let '(keys, indx') := batch_keys 1000 indx length in
        let llens :=
          map (fun i => (i, Z.of_nat (List.length (default [] (chunks s !! (inode, i))))))
            keys in
        match delete_chunks net deleted s inode llens with
        | None => None
        | Some (s', ev) =>
            match deleteFile_loop n net deleted s' inode indx' length with
            | Some (s'', ev') => Some (s'', ev ++ ev')
            | None => None
            end
        end
      else Some (s, [])
  end.

(** [deleteFile] with an empty [tracking], as [Unlink], [Rename] and
    [deleteInode] start it.  When the connection fails the first batch
    fails, with a warning, and nothing is done; otherwise the chunks below
    [length] are deleted and the file is taken out of [delfiles].  Every
    batch takes a chunk at least, so one batch more than there are chunks
    is enough. *)
Definition deleteFile (net : Net) (deleted : Z -> Z -> bool) (s : Store)
    (inode length : Z) : option (Store * list event) :=
  match net None with
  | Some _ => Some (s, if 0 <? length then [EvWarn] else [])
  | None =>
      match deleteFile_loop (S (Z.to_nat (length / ChunkSize + 1))) net deleted s inode 0
              length with
      | None => None
      | Some (s', ev) =>
          Some (set_delfiles s' (delete (inode, i64 length) (delfiles s')), ev)
      end
  end.

End DeleteFile.

(** The servers [s] and [s'] differ in chunk logs and reference counts
    only. *)
Definition same_but_chunks (s s' : Store) : Prop :=
  inodes s' = inodes s /\ entries s' = entries s /\ symlinks s' = symlinks s /\
  xattrs s' = xattrs s /\ usedSpace s' = usedSpace s /\
  totalInodes s' = totalInodes s /\ delfiles s' = delfiles s /\
  sessions s' = sessions s.

(** *** Reprojection *)

Section Reproject.
Context {C : Consts}.

(** The slices of a resolved chunk, each with the value of [pos] in its
    iteration of the loop of [CopyFileRange]: the in-chunk position it
    starts at. *)
Fixpoint positioned (tpos : Z) (cs : list Slice) : list (Z * Slice) :=
  match cs with
  | [] => []
  | s :: cs => (tpos, s) :: positioned (u32 (tpos + Len s)) cs
  end.

(** The slices [CopyFileRange] goes through, in order: those of the source
    chunks [offIn/ChunkSize .. (offIn+size)/ChunkSize], each chunk resolved
    behind a full-chunk hole, each slice with the file offset it starts
    at. *)
Definition source_slices (s : Store) (fin offIn size : Z) : list (Z * Slice) :=
  flat_map
    (fun i =>
       map (fun x => (i * ChunkSize + x.1, x.2))
         (positioned 0
            (buildSlice
               (mkSrec 0 0 0 0 (u32 ChunkSize)
                :: readSlices (lrange (default [] (chunks s !! (fin, u32 i))) 0 1000000)))))
    (seqZ (offIn / ChunkSize) (u64 (offIn + size) / ChunkSize - offIn / ChunkSize + 1)).

(** A record of a chunk log that lies within the chunk. *)
Definition in_chunk (v : srec) : Prop := wf_rec v /\ r_pos v + r_len v <= ChunkSize.

(** In the words of the specification: a piece of data of [s_len] bytes,
    [s_off] bytes into the object [(chunkid, size)], placed at file offset
    [doff] of [fout].  One record, with one more reference to the object
    when its chunk id is above 0; a piece "that crosses a destination chunk
    boundary" is split: one record up to the end of the chunk and one at
    the start of the next chunk with the rest, each with its reference. *)
Definition records (fout doff chunkid size s_off s_len : Z) : list cmd :=
  let indx := doff / ChunkSize in
  let dpos := doff mod ChunkSize in
  if ChunkSize <? dpos + s_len then
    [RPush fout indx (mkSrec dpos chunkid size s_off (ChunkSize - dpos))]
    ++ incr_ref chunkid size
    ++ [RPush fout (indx + 1)
          (mkSrec 0 chunkid size (s_off + (ChunkSize - dpos))
             (s_len - (ChunkSize - dpos)))]
    ++ incr_ref chunkid size
  else
    [RPush fout indx (mkSrec dpos chunkid size s_off s_len)] ++ incr_ref chunkid size.

(** In the words of the specification: a source slice [x.2] that starts at
    file offset [x.1] is "reprojected into the destination chunks at the
    shifted offset".  Nothing when it lies outside of the range
    [offIn .. offIn+size]; otherwise its part within the range, which
    starts at [lo] and ends at [hi], placed at [lo - offIn + offOut]. *)
Definition reproject (fout offIn offOut size : Z) (x : Z * Slice) : list cmd :=
  let start := x.1 in
  let sl := x.2 in
  if (start <? offIn + size) && (offIn <? start + Len sl) then
    let lo := Z.max start offIn in
    let hi := Z.min (start + Len sl) (offIn + size) in
    records fout (lo - offIn + offOut) (Chunkid sl) (Size sl)
      (Off sl + (lo - start)) (hi - lo)
  else [].

(** What is proved of the commands [piece] queued for the slice [x]: when
    the slice does not reach beyond the end of the range copied, they are
    its reprojection. *)
Definition reprojected (fout offIn offOut size : Z) (x : Z * Slice) (piece : list cmd)
    : Prop :=
  x.1 + Len x.2 <= offIn + size \/ offIn + size <= x.1 ->
  piece = reproject fout offIn offOut size x.

End Reproject.

(* ===================================================================== *)
(** * Part II: properties                                                 *)
(* ===================================================================== *)

(** ** The transaction runner *)

Section TxnRunner.
Variable watch : nat -> option error.
Variable rnd : nat -> N.

Lemma backoff_range (i : nat) :
  0 <= backoff rnd i <= Microsecond * 100 * Z.of_nat i.
Proof.
  unfold backoff, Microsecond.
  pose proof (Z.mod_pos_bound (Z.of_N (rnd i)) (Z.of_nat i + 1)). lia.
Qed.

(** What the loop returns from iteration [i] on, with [n] iterations left,
    when the [i] attempts so far all conflicted. *)
Lemma txn_loop_post (n : nat) : forall (i : nat) (err : option error) (sleeps : list Z),
  (i + n = 50)%nat ->
  (forall j, (j < i)%nat -> watch j = Some TxFailedErr) ->
  (forall j, (j < i)%nat -> sleeps !! j = Some (backoff rnd j)) ->
  length sleeps = i ->
  (n = 0%nat -> err = watch (pred i)) ->
  txn_post watch rnd (txn_loop watch rnd n i err sleeps).
Proof.
  induction n as [|n IH]; intros i err sleeps Hin Hconf Hsl Hlen Herr.
  - simpl. unfold txn_post; simpl.
    assert (Hlast : watch (pred i) = Some TxFailedErr) by (apply Hconf; lia).
    repeat split; try lia.
    + intros j Hj. apply Hconf. lia.
    + now rewrite Herr.
    + intros j Hj. apply Hsl. lia.
    + rewrite Hlast. now rewrite decide_True.
  - simpl. destruct (decide (watch i = Some TxFailedErr)) as [Hc|Hc].
    + apply IH.
      * lia.
      * intros j Hj. destruct (decide (j = i)) as [->|]; [exact Hc|apply Hconf; lia].
      * intros j Hj. destruct (decide (j = i)) as [->|].
        -- rewrite lookup_app_r by lia. rewrite Hlen, Nat.sub_diag. simpl.
           unfold backoff. rewrite Z.rem_mod_nonneg by lia. reflexivity.
        -- rewrite lookup_app_l by lia. apply Hsl. lia.
      * rewrite length_app. simpl. lia.
      * intros _. reflexivity.
    + unfold txn_post; simpl. repeat split; try lia.
      * exact Hconf.
      * intros Hlast. contradiction.
      * intros j Hj. apply Hsl. lia.
      * now rewrite decide_False.
Qed.

(** C7.  The transaction runner calls [Watch] at least once and at most 50
    times.  It retries a transaction in conflict: an attempt is repeated
    after a conflict ([redis.TxFailedErr]) and only then, so the runner
    stops at the first attempt that is not in conflict, or after the 50th
    attempt when all 50 are: as long as every attempt so far was in
    conflict and fewer than 50 were made, one more is made.  After the
    conflict of attempt [j] (counted from 0) it sleeps 100 microseconds
    times [rand.Int() % (j+1)], a number of [0 .. j]; it returns [errno] of
    the last attempt's error, and [errno] maps [nil] to 0, [redis.Nil] to
    ENOENT, a [syscall.Errno] to itself and any other error (a last
    conflict included) to EIO. *)
Theorem txn_bounded_retry_errno :
  let r := txn watch rnd in
  ((1 <= txn_attempts r <= 50)%nat /\
   (forall j, (j < pred (txn_attempts r))%nat -> watch j = Some TxFailedErr) /\
   (watch (pred (txn_attempts r)) = Some TxFailedErr -> txn_attempts r = 50%nat) /\
   (forall k, (k < 50)%nat ->
      (forall j, (j < k)%nat -> watch j = Some TxFailedErr) ->
      (k < txn_attempts r)%nat) /\
   (forall k, (k < 50)%nat ->
      (forall j, (j < k)%nat -> watch j = Some TxFailedErr) ->
      watch k <> Some TxFailedErr ->
      txn_attempts r = S k /\ txn_errno r = errno (watch k) /\
      length (txn_sleeps r) = k) /\
   ((forall j, (j < 50)%nat -> watch j = Some TxFailedErr) ->
    txn_attempts r = 50%nat /\ txn_errno r = EIO /\ length (txn_sleeps r) = 50%nat) /\
   txn_errno r = errno (watch (pred (txn_attempts r))) /\
   (forall j, (j < length (txn_sleeps r))%nat ->
      txn_sleeps r !! j =
        Some (Microsecond * 100 * (Z.of_N (rnd j) mod (Z.of_nat j + 1))) /\
      0 <= Z.of_N (rnd j) mod (Z.of_nat j + 1) < Z.of_nat j + 1) /\
   length (txn_sleeps r) =
     (if decide (watch (pred (txn_attempts r)) = Some TxFailedErr)
      then txn_attempts r else pred (txn_attempts r))) /\
  (errno None = 0 /\
   errno (Some RedisNil) = ENOENT /\
   (forall eno, errno (Some (Errno eno)) = eno) /\
   (forall msg, errno (Some (OtherErr msg)) = EIO) /\
   errno (Some TxFailedErr) = EIO).
Proof.
  intros r. split.
  - assert (Hpost : txn_post watch rnd r).
    { apply txn_loop_post; try (intros; lia); reflexivity. }
    destruct Hpost as (Ha & Hc & Hr & He & Hs & Hl).
    assert (Hmore : forall k, (k < 50)%nat ->
              (forall j, (j < k)%nat -> watch j = Some TxFailedErr) ->
              (k < txn_attempts r)%nat).
    { intros k Hk Hall.
      destruct (decide (k < txn_attempts r)%nat) as [|Hge]; [assumption|].
      assert (Hlast : watch (pred (txn_attempts r)) = Some TxFailedErr)
        by (apply Hall; lia).
      specialize (Hr Hlast). lia. }
    assert (Hstop : forall k, (k < 50)%nat ->
              (forall j, (j < k)%nat -> watch j = Some TxFailedErr) ->
              watch k <> Some TxFailedErr -> txn_attempts r = S k).
    { intros k Hk Hall Hnc. specialize (Hmore k Hk Hall).
      destruct (decide (txn_attempts r = S k)) as [|Hne]; [assumption|].
      exfalso. apply Hnc, Hc. lia. }
    split; [exact Ha|]. split; [exact Hc|]. split; [exact Hr|].
    split; [exact Hmore|]. split.
    { intros k Hk Hall Hnc. specialize (Hstop k Hk Hall Hnc).
      rewrite Hstop in He, Hl. simpl in He, Hl.
      rewrite decide_False in Hl by exact Hnc. now repeat split. }
    split.
    { intros Hall.
      assert (H50 : txn_attempts r = 50%nat) by (apply Hr, Hall; lia).
      rewrite H50 in He, Hl. simpl in He, Hl.
      rewrite decide_True in Hl by (apply Hall; lia).
      rewrite (Hall 49%nat) in He by lia. now repeat split. }
    split; [exact He|]. split; [|exact Hl].
    intros j Hj. split; [now apply Hs|]. apply Z.mod_pos_bound. lia.
  - repeat split; reflexivity.
Qed.

End TxnRunner.

(** ** The inode store: [GetAttr] and [Open] *)

Section InodeStore.
Context {C : Consts}.

(** The attribute [GetAttr] makes up for the root when the read fails: only
    these four fields are assigned, the others keep what [*attr] held. *)
Lemma GetAttr_root_failure (net : Net) (s : Store) (attr : Attr) :
  is_Some (net (Some (Millisecond * 300))) \/ inodes s !! 1 = None ->
  GetAttr net s 1 attr =
    (0, set_Length (set_Nlink (set_Mode (set_Typ attr TypeDirectory) 0x1ff) 2) 4096).
Proof.
  intros H. unfold GetAttr, rdb_Get_inode. simpl.
  destruct (net (Some (Millisecond * 300))) as [e|]; [reflexivity|].
  destruct H as [[e He]|H]; [discriminate|]. now rewrite H.
Qed.

(** C8.  [GetAttr] of the root (inode 1) returns 0 whatever the connection
    and the server do; its read is issued under a 300 ms deadline (the
    connection is consulted for that deadline only); when the read fails,
    by a transport error or because the key is absent, [*attr] gets type
    directory, mode 0777, nlink 2 and length 4096; for every other inode a
    missing record, on a working connection, gives ENOENT. *)
Theorem GetAttr_root_never_fails (net : Net) (s : Store) (attr : Attr) :
  fst (GetAttr net s 1 attr) = 0 /\
  (forall net' : Net,
     net' (Some (300 * Millisecond)) = net (Some (300 * Millisecond)) ->
     GetAttr net' s 1 attr = GetAttr net s 1 attr) /\
  (is_Some (net (Some (300 * Millisecond))) \/ inodes s !! 1 = None ->
   let a := snd (GetAttr net s 1 attr) in
   Typ a = TypeDirectory /\ Mode a = 0x1ff /\ Nlink a = 2 /\ Length a = 4096) /\
  (forall inode, inode <> 1 -> net None = None -> inodes s !! inode = None ->
     GetAttr net s inode attr = (ENOENT, attr)).
Proof.
  repeat split.
  - unfold GetAttr. simpl. destruct (rdb_Get_inode _ _ _ _); reflexivity.
  - intros net' Hnet. unfold GetAttr, rdb_Get_inode. simpl.
    change (Millisecond * 300) with (300 * Millisecond). now rewrite Hnet.
  - rewrite GetAttr_root_failure by assumption. reflexivity.
  - rewrite GetAttr_root_failure by assumption. reflexivity.
  - rewrite GetAttr_root_failure by assumption. reflexivity.
  - rewrite GetAttr_root_failure by assumption. reflexivity.
  - intros inode Hne Hnet Hnone. unfold GetAttr, rdb_Get_inode.
    destruct (inode =? 1) eqn:E; [lia|]. now rewrite Hnet, Hnone.
Qed.

(** C10.  [Open] returns 0 for every inode, flags and attribute pointer;
    it advances the open-file counter of the inode exactly when no
    attribute was asked for or the attribute was fetched without error, and
    leaves the engine's state alone otherwise; in particular for a missing
    inode other than the root it returns 0 with [*attr] and the counter
    untouched. *)
Theorem Open_returns_zero (net : Net) (s : Store) (r : redisMeta)
    (inode flags : Z) (attr : option Attr) :
  fst (fst (Open net s r inode flags attr)) = 0 /\
  (Open_fetched net s inode attr ->
     snd (Open net s r inode flags attr) = opened_once r inode) /\
  (~ Open_fetched net s inode attr ->
     snd (Open net s r inode flags attr) = r) /\
  (forall a, attr = Some a -> inode <> 1 -> net None = None ->
     inodes s !! inode = None ->
     Open net s r inode flags attr = (0, Some a, r)).
Proof.
  unfold Open, Open_fetched, opened_once.
  destruct attr as [a|].
  - destruct (GetAttr net s inode a) as [e a'] eqn:HG. simpl.
    repeat split.
    + intros ->. reflexivity.
    + intros He. destruct (e =? 0) eqn:E; [lia|reflexivity].
    + intros a0 [= <-] Hne Hnet Hnone.
      destruct (GetAttr_root_never_fails net s a) as (_ & _ & _ & H).
      rewrite (H inode Hne Hnet Hnone) in HG. injection HG as <- <-.
      reflexivity.
  - simpl. repeat split; try tauto. intros a [=].
Qed.

End InodeStore.

Lemma GetAttr_root_never_fails_witness :
  GetAttr (C := juicefs_consts) (fun _ => None) empty_store 2 Attr0 = (ENOENT, Attr0) /\
  Nlink (snd (GetAttr (C := juicefs_consts) (fun _ => None) empty_store 1 Attr0)) = 2.
Proof.
  destruct (GetAttr_root_never_fails (C := juicefs_consts) (fun _ => None) empty_store Attr0)
    as (_ & _ & Hroot & Hother).
  split.
  - apply Hother; [lia | reflexivity | reflexivity].
  - apply Hroot. right. reflexivity.
Defined.

Lemma Open_returns_zero_witness :
  Open (C := juicefs_consts) (fun _ => None) empty_store (mkMeta 1 ∅ ∅) 7 0 (Some Attr0)
  = (0, Some Attr0, mkMeta 1 ∅ ∅).
Proof.
  destruct (Open_returns_zero (C := juicefs_consts) (fun _ => None) empty_store
              (mkMeta 1 ∅ ∅) 7 0 (Some Attr0)) as (_ & _ & _ & H).
  apply (H Attr0); [reflexivity | lia | reflexivity | reflexivity].
Defined.

(** ** Extended attributes *)

Section Xattr.
Context {C : Consts}.

Lemma SetXattr_ok (net : Net) (s s' : Store) (inode : Z) (name value : string) :
  SetXattr net s inode name value = (0, s') ->
  default ∅ (xattrs s' !! inode) !! name = Some value.
Proof.
  unfold SetXattr. destruct (net None) as [msg|].
  - simpl. unfold EIO. intros [=].
  - intros [= <-]. simpl. rewrite lookup_insert_eq. simpl.
    apply lookup_insert_eq.
Qed.

Lemma lookup_put_hash {V : Type} `{EqDecision V} (k : Z) (h : gmap string V)
    (m : gmap Z (gmap string V)) :
  default ∅ (put_hash k h m !! k) = h.
Proof.
  unfold put_hash. destruct (decide (h = ∅)) as [->|].
  - now rewrite lookup_delete_eq.
  - now rewrite lookup_insert_eq.
Qed.

Lemma lookup_put_hash_ne {V : Type} `{EqDecision V} (k k' : Z) (h : gmap string V)
    (m : gmap Z (gmap string V)) :
  k <> k' -> put_hash k h m !! k' = m !! k'.
Proof.
  intros Hne. unfold put_hash. destruct (decide (h = ∅)).
  - now rewrite lookup_delete_ne.
  - now rewrite lookup_insert_ne.
Qed.

Lemma GetXattr_missing (net : Net) (s : Store) (inode : Z) (name : string) :
  net None = None ->
  default ∅ (xattrs s !! inode) !! name = None ->
  GetXattr net s inode name = (ENOATTR, None).
Proof.
  intros Hnet Hnone. unfold GetXattr. now rewrite Hnet, Hnone.
Qed.

(** C9.  On a working connection: after [SetXattr inode name value] has
    returned 0, [GetXattr inode name] returns 0 and exactly [value]; for a
    name the hash of the inode does not hold, [GetXattr] returns ENOATTR;
    and [RemoveXattr] of a name that is set returns 0, after which
    [GetXattr] returns ENOATTR. *)
Theorem xattr_set_get_roundtrip (net net' : Net) (s : Store) (inode : Z)
    (name value : string) :
  net' None = None ->
  (forall s', SetXattr net s inode name value = (0, s') ->
     GetXattr net' s' inode name = (0, Some value)) /\
  (default ∅ (xattrs s !! inode) !! name = None ->
     GetXattr net' s inode name = (ENOATTR, None)) /\
  (net None = None -> is_Some (default ∅ (xattrs s !! inode) !! name) ->
     fst (RemoveXattr net s inode name) = 0 /\
     GetXattr net' (snd (RemoveXattr net s inode name)) inode name = (ENOATTR, None)).
Proof.
  intros Hnet'. repeat split.
  - intros s' Hset. apply SetXattr_ok in Hset.
    unfold GetXattr. now rewrite Hnet', Hset.
  - now apply GetXattr_missing.
  - destruct H0 as [v Hv]. unfold RemoveXattr. now rewrite H, Hv.
  - destruct H0 as [v Hv]. unfold RemoveXattr. rewrite H, Hv. simpl.
    apply GetXattr_missing; [assumption|]. simpl.
    rewrite lookup_put_hash. apply lookup_delete_eq.
Qed.

End Xattr.

Lemma xattr_set_get_roundtrip_witness :
  GetXattr (C := juicefs_consts) (fun _ => None)
    (snd (SetXattr (fun _ => None) empty_store 5 "user.k" "v")) 5 "user.k"
  = (0, Some "v"%string).
Proof.
  destruct (xattr_set_get_roundtrip (C := juicefs_consts) (fun _ => None) (fun _ => None)
              empty_store 5 "user.k" "v" eq_refl) as (H & _ & _).
  apply H. reflexivity.
Defined.

(** ** SetAttr and the setuid and setgid bits *)

Section SetAttrBits.
Context {C : Consts}.

Lemma land_land_zero (x a b : Z) : Z.land a b = 0 -> Z.land (Z.land x a) b = 0.
Proof. intros H. now rewrite <- Z.land_assoc, H, Z.land_0_r. Qed.

(** Case analysis on the tests of the function, one comparison at a time. *)
Ltac split_ifs :=
  repeat match goal with
         | |- context [?x =? ?y] => destruct (x =? y) eqn:?; simpl
         end.

(** [x & a & b] with constant masks [a] and [b] whose intersection is empty. *)
Ltac mask_bits :=
  rewrite <- ?Z.land_assoc;
  repeat match goal with
         | |- context [Z.land (Zpos ?p) (Zpos ?q)] =>
             let v := eval vm_compute in (Z.land (Zpos p) (Zpos q)) in
             change (Z.land (Zpos p) (Zpos q)) with v
         end;
  rewrite ?Z.land_0_r; try reflexivity; try lia.

(** C4 as amended.  For an inode that exists, [SetAttr] writes back one
    attribute blob, and
    - when the owner or the group is set ([SetAttrUID] or [SetAttrGID]) and
      the stored mode has the setuid or the setgid bit, the resulting mode
      has neither, whoever the caller is (root included);
    - when the mode is set ([SetAttrMode]) by a caller who is not root and
      whose gid differs from the file's gid (as this call leaves it), the
      resulting mode has no setgid bit. *)
Theorem SetAttr_clears_sugid (ctx : Ctx) (now : Time) (s : Store)
    (inode set sugidclearmode : Z) (attr : Attr) (a : blob) :
  inodes s !! inode = Some a ->
  exists out : Attr,
    SetAttr_txf ctx now s inode set sugidclearmode attr
      = Commit [SetInode inode (marshal out)] out /\
    (Z.land set (Z.lor SetAttrUID SetAttrGID) <> 0 ->
     Z.land (Mode (parseAttr a Attr0)) 0xC00 <> 0 ->
     Z.land (Mode out) 0xC00 = 0) /\
    (Z.land set SetAttrMode <> 0 -> ctx_uid ctx <> 0 -> ctx_gid ctx <> Gid out ->
     Z.land (Mode out) 0x400 = 0).
Proof.
  intros Hget. unfold SetAttr_txf, tx_Get_inode. rewrite Hget.
  eexists. split; [reflexivity|].
  unfold SetAttr_cur. split.
  - intros Hset Hcur.
    destruct (Z.land set (Z.lor SetAttrUID SetAttrGID) =? 0) eqn:E1; [lia|].
    destruct (Z.land (Mode (parseAttr a Attr0)) 0xC00 =? 0) eqn:E2; [lia|].
    split_ifs; mask_bits.
  - intros Hset Huid Hgid.
    destruct (Z.land set SetAttrMode =? 0) eqn:E1; [lia|].
    destruct (ctx_uid ctx =? 0) eqn:E2; [lia|].
    revert Hgid. simpl.
    split_ifs; intros Hgid; simpl in *; try lia; mask_bits.

Qed.

End SetAttrBits.

Lemma SetAttr_clears_sugid_witness :
  exists out : Attr,
    SetAttr_txf (C := juicefs_consts) (mkCtx 1000 1000 false) (mkTime 1600000000 0)
      (set_inodes empty_store {[ 7 := marshal (set_Mode (set_Typ Attr0 1) 0x9ED) ]})
      7 2 0 (set_Uid Attr0 1001)
    = Commit [SetInode 7 (marshal out)] out /\ Z.land (Mode out) 0xC00 = 0.
Proof.
  assert (Hget : inodes (set_inodes empty_store
                          {[ 7 := marshal (set_Mode (set_Typ Attr0 1) 0x9ED) ]}) !! 7
                 = Some (marshal (set_Mode (set_Typ Attr0 1) 0x9ED)))
    by (vm_compute; reflexivity).
  destruct (SetAttr_clears_sugid (C := juicefs_consts) (mkCtx 1000 1000 false)
              (mkTime 1600000000 0) _ 7 2 0 (set_Uid Attr0 1001) _ Hget)
    as (out & Heq & Hclear & _).
  exists out. split; [exact Heq|]. apply Hclear; vm_compute; discriminate.
Defined.

(** C4, the claim as stated fails: the caller is root (uid 0) and changes
    the owner of a file of mode 04755; the mode written back is 0755, the
    setuid bit is cleared for root as for everyone. *)
Lemma SetAttr_root_chown_clears_setuid :
  let ctx := mkCtx 0 0 false in
  let now := mkTime 1600000000 0 in
  let cur := set_Nlink (set_Mode (set_Typ Attr0 1) 0x9ED (* 04755 *)) 1 in
  let s := set_inodes empty_store {[ 7 := marshal cur ]} in
  let out := set_Ctime (set_Uid (set_Mode (parseAttr (marshal cur) Attr0) 0x1ED (* 0755 *)) 1001)
               1600000000 0 in
  ctx_uid ctx = 0 /\
  Mode (parseAttr (marshal cur) Attr0) = 0x9ED /\
  SetAttr_txf (C := juicefs_consts) ctx now s 7
      (SetAttrUID (Consts := juicefs_consts)) 0 (set_Uid Attr0 1001)
    = Commit [SetInode 7 (marshal out)] out /\
  Mode out = 0x1ED /\
  Z.land (b_typmode (marshal out)) 0xC00 = 0.
Proof.
  cbv zeta. split; [reflexivity|]. split; [reflexivity|].
  split; [|split; reflexivity].
  unfold SetAttr_txf, tx_Get_inode.
  change (inodes (set_inodes empty_store {[7 := marshal (set_Nlink (set_Mode (set_Typ Attr0 1) 2541) 1)]}))
    with ({[7 := marshal (set_Nlink (set_Mode (set_Typ Attr0 1) 2541) 1)]} : gmap Z blob).
  rewrite lookup_singleton_eq.
  reflexivity.
Qed.

(** ** The server: frame lemmas *)

Lemma pipeline_app (c1 c2 : list cmd) (s : Store) :
  pipeline (c1 ++ c2) s = pipeline c2 (pipeline c1 s).
Proof. unfold pipeline. apply foldl_app. Qed.

Lemma pipeline_cons (c : cmd) (cs : list cmd) (s : Store) :
  pipeline (c :: cs) s = pipeline cs (exec s c).
Proof. reflexivity. Qed.

(** A command changes nothing but the key it addresses. *)
Lemma exec_frame (s : Store) (c : cmd) (k : key) :
  cmd_key c <> k -> get (exec s c) k = get s k.
Proof.
  intros Hne.
  destruct c; simpl;
    try match goal with
        | |- context [match chunks s !! ?x with _ => _ end] =>
            destruct (chunks s !! x) eqn:?
        end;
    unfold put_list;
    try match goal with
        | |- context [match lrange ?l ?a ?b with _ => _ end] => destruct (lrange l a b)
        end;
    destruct k; simpl in *; try reflexivity; try congruence;
    first [ rewrite lookup_insert_ne by congruence
          | rewrite lookup_delete_ne by congruence
          | rewrite lookup_put_hash_ne by congruence ];
    reflexivity.
Qed.

Lemma pipeline_frame (cmds : list cmd) (s : Store) (k : key) :
  Forall (fun c => cmd_key c <> k) cmds -> get (pipeline cmds s) k = get s k.
Proof.
  revert s. induction cmds as [|c cmds IH]; intros s Hall; [reflexivity|].
  inversion Hall; subst. rewrite pipeline_cons, IH by assumption.
  now apply exec_frame.
Qed.

Lemma get_chunkKey (s : Store) (inode indx : Z) :
  chunks s !! (inode, indx) =
    match get s (chunkKey inode indx) with Some (VList l) => Some l | _ => None end.
Proof. simpl. now destruct (chunks s !! (inode, indx)). Qed.

Lemma get_inodeKey (s : Store) (inode : Z) :
  inodes s !! inode =
    match get s (inodeKey inode) with Some (VBlob l) => Some l | _ => None end.
Proof. simpl. now destruct (inodes s !! inode). Qed.

(** ** Machine arithmetic within range *)

Lemma u32_small (x : Z) : 0 <= x < 2 ^ 32 -> u32 x = x.
Proof. intros H. unfold u32. now apply Z.mod_small. Qed.

Lemma u64_small (x : Z) : 0 <= x < 2 ^ 64 -> u64 x = x.
Proof. intros H. unfold u64. now apply Z.mod_small. Qed.

Lemma i64_small (x : Z) : - 2 ^ 63 <= x < 2 ^ 63 -> i64 x = x.
Proof. intros H. unfold i64. rewrite Z.mod_small; lia. Qed.

(** [align4K] rounds up to a multiple of 4096. *)
Lemma align4K_round (x : Z) :
  0 <= x < 2 ^ 62 -> align4K x = 4096 * ((x + 4095) / 4096).
Proof.
  intros Hx. unfold align4K.
  destruct (x =? 0) eqn:E.
  - apply Z.eqb_eq in E. subst x. reflexivity.
  - apply Z.eqb_neq in E.
    assert (Hdiv : (x + 4095) / 4096 = (x - 1) / 4096 + 1).
    { replace (x + 4095) with (x - 1 + 1 * 4096) by lia.
      now rewrite Z.div_add by lia. }
    assert (Hq : 0 <= (x - 1) / 4096 < 2 ^ 50).
    { split; [apply Z.div_pos; lia|]. apply Z.div_lt_upper_bound; lia. }
    rewrite (u64_small (x - 1)) by lia.
    rewrite Z.shiftr_div_pow2 by lia. change (2 ^ 12) with 4096.
    rewrite (u64_small ((x - 1) / 4096 + 1)) by lia.
    rewrite Z.shiftl_mul_pow2 by lia. change (2 ^ 12) with 4096.
    rewrite u64_small by lia. rewrite i64_small by lia. lia.
Qed.

Lemma align4K_bounds (x : Z) : 0 <= x < 2 ^ 62 -> x <= align4K x < x + 4096.
Proof.
  intros Hx. rewrite align4K_round by assumption.
  pose proof (Z.div_mod (x + 4095) 4096 ltac:(lia)).
  pose proof (Z.mod_pos_bound (x + 4095) 4096 ltac:(lia)). lia.
Qed.

(** ** Chunk logs under [RPush] and [RPushX] *)

Lemma chunks_exec_other (s : Store) (c : cmd) (k : Z * Z) :
  cmd_key c <> chunkKey k.1 k.2 -> chunks (exec s c) !! k = chunks s !! k.
Proof.
  intros Hne. destruct k as [i x]. rewrite !get_chunkKey.
  now rewrite exec_frame.
Qed.

Lemma chunks_pipeline_other (cmds : list cmd) (s : Store) (k : Z * Z) :
  Forall (fun c => cmd_key c <> chunkKey k.1 k.2) cmds ->
  chunks (pipeline cmds s) !! k = chunks s !! k.
Proof.
  intros Hall. destruct k as [i x]. rewrite !get_chunkKey.
  now rewrite pipeline_frame.
Qed.

Lemma chunks_RPush (s : Store) (inode indx : Z) (v : srec) :
  chunks (exec s (RPush inode indx v)) !! (inode, indx)
  = Some (default [] (chunks s !! (inode, indx)) ++ [v]).
Proof. simpl. apply lookup_insert_eq. Qed.

Section RPushX.
Variables (inode : Z) (v : srec).

(** [RPushX] never creates a list. *)
Lemma RPushX_absent (idxs : list Z) : forall (s : Store) (k : Z * Z),
  chunks s !! k = None -> chunks (pipeline (pushx_all inode v idxs) s) !! k = None.
Proof.
  induction idxs as [|i idxs IH]; intros s k Hk; [exact Hk|].
  change (pushx_all inode v (i :: idxs)) with (RPushX inode i v :: pushx_all inode v idxs).
  rewrite pipeline_cons. apply IH. simpl.
  destruct (chunks s !! (inode, i)) eqn:E; [|exact Hk]. simpl.
  rewrite lookup_insert_ne; [exact Hk|]. intros <-. congruence.
Qed.

Lemma RPushX_notin (idxs : list Z) (s : Store) (ino j : Z) :
  ino <> inode \/ j ∉ idxs ->
  chunks (pipeline (pushx_all inode v idxs) s) !! (ino, j) = chunks s !! (ino, j).
Proof.
  intros H. apply chunks_pipeline_other. simpl.
  unfold pushx_all. rewrite Forall_map. apply Forall_forall.
  intros i Hi. simpl. intros [= -> ->]. destruct H as [H|H]; [now apply H|].
  apply H. now apply list_elem_of_In.
Qed.

(** A list that exists gets one record for one occurrence of its index. *)
Lemma RPushX_once (idxs : list Z) : forall (s : Store) (j : Z) (l : list srec),
  NoDup idxs -> j ∈ idxs -> chunks s !! (inode, j) = Some l ->
  chunks (pipeline (pushx_all inode v idxs) s) !! (inode, j) = Some (l ++ [v]).
Proof.
  induction idxs as [|i idxs IH]; intros s j l Hnd Hin Hl.
  - now apply elem_of_nil in Hin.
  - apply NoDup_cons in Hnd as [Hni Hnd].
    change (pushx_all inode v (i :: idxs)) with (RPushX inode i v :: pushx_all inode v idxs).
    rewrite pipeline_cons.
    apply elem_of_cons in Hin as [->|Hin].
    + rewrite RPushX_notin by now right.
      simpl. rewrite Hl. simpl. apply lookup_insert_eq.
    + apply IH; [assumption..|].
      assert (i <> j) by (intros ->; contradiction).
      simpl. destruct (chunks s !! (inode, i)); [|exact Hl]. simpl.
      rewrite lookup_insert_ne by congruence. exact Hl.
Qed.

End RPushX.

(** ** Truncate that grows a file *)

Section TruncateGrow.
Context {C : Consts}.

Lemma grow_range_facts (old length : Z) :
  grow_range old length ->
  0 <= old / ChunkSize <= length / ChunkSize /\ length / ChunkSize < 2 ^ 32 /\
  0 <= old mod ChunkSize < ChunkSize /\ 0 <= length mod ChunkSize < ChunkSize /\
  old = ChunkSize * (old / ChunkSize) + old mod ChunkSize /\
  length = ChunkSize * (length / ChunkSize) + length mod ChunkSize.
Proof.
  intros (Hcs & Hold & Hlen & Hlen').
  assert (Hnz : ChunkSize <> 0) by lia.
  assert (Hpos : 0 < ChunkSize) by lia.
  pose proof (Z.div_mod old _ Hnz).
  pose proof (Z.div_mod length _ Hnz).
  pose proof (Z.mod_pos_bound old _ Hpos).
  pose proof (Z.mod_pos_bound length _ Hpos).
  assert (0 <= old / ChunkSize) by (apply Z.div_pos; lia).
  assert (old / ChunkSize <= length / ChunkSize) by (apply Z.div_le_mono; lia).
  assert (length / ChunkSize < 2 ^ 32) by (apply Z.div_lt_upper_bound; lia).
  repeat split; lia.
Qed.

(** The middle chunks lie strictly between the first and the last one. *)
Lemma zeroChunks_between (scanned : list Z) (old length j : Z) :
  grow_range old length ->
  j ∈ zeroChunks scanned old length ->
  old / ChunkSize < j < length / ChunkSize.
Proof.
  intros Hr Hj. pose proof (grow_range_facts _ _ Hr) as (H1 & H2 & _).
  unfold zeroChunks in Hj.
  destruct (u64 (length - old) / ChunkSize >=? 100).
  - apply list_elem_of_fmap in Hj as (x & -> & Hx).
    apply list_elem_of_filter in Hx as [[Hlo Hhi] _].
    assert (Hu : u32 x = u64 x).
    { unfold u32, u64 in *.
      pose proof (Z.div_mod x (2 ^ 64) ltac:(lia)) as Hx.
      set (y := x mod 2 ^ 64) in *.
      rewrite Hx. replace (2 ^ 64 * (x / 2 ^ 64) + y)
        with (y + (2 ^ 32 * (x / 2 ^ 64)) * 2 ^ 32) by lia.
      rewrite Z.mod_add by lia. apply Z.mod_small. lia. }
    rewrite Hu. lia.
  - apply list_elem_of_fmap in Hj as (x & -> & Hx).
    apply elem_of_seqZ in Hx. rewrite u32_small by lia. lia.
Qed.

(** Below 100 chunks of growth every middle chunk is listed, once. *)
Lemma zeroChunks_dense (scanned : list Z) (old length : Z) :
  grow_range old length ->
  (length - old) / ChunkSize < 100 ->
  NoDup (zeroChunks scanned old length) /\
  forall j, old / ChunkSize < j < length / ChunkSize ->
            j ∈ zeroChunks scanned old length.
Proof.
  intros Hr Hd. pose proof (grow_range_facts _ _ Hr) as (H1 & H2 & _).
  destruct Hr as (Hcs & Hold & Hlen & Hlen').
  unfold zeroChunks. rewrite u64_small by lia.
  destruct (_ >=? 100) eqn:E; [lia|].
  assert (Hid : map u32 (seqZ (old / ChunkSize + 1)
                           (length / ChunkSize - (old / ChunkSize + 1)))
                = seqZ (old / ChunkSize + 1) (length / ChunkSize - (old / ChunkSize + 1))).
  { rewrite <- (map_id (seqZ _ _)) at 2. apply map_ext_in.
    intros x Hx. apply list_elem_of_In, elem_of_seqZ in Hx.
    apply u32_small. lia. }
  rewrite Hid. split; [apply NoDup_seqZ|].
  intros j Hj. apply elem_of_seqZ. lia.
Qed.

Lemma Truncate_cmds_grow (scanned : list Z) (inode old length : Z) (t : Attr) :
  grow_range old length ->
  Truncate_cmds scanned inode old length t =
    [SetInode inode (marshal t); RPush inode (old / ChunkSize) (grow_first old length)]
    ++ pushx_all inode (hole 0 ChunkSize) (zeroChunks scanned old length)
    ++ grow_tail inode old length
    ++ [IncrByUsedSpace (align4K length - align4K old)].
Proof.
  intros Hr. pose proof (grow_range_facts _ _ Hr) as (H1 & H2 & H3 & H4 & H5 & H6).
  destruct Hr as (Hcs & Hold & Hlen & Hlen').
  pose proof (align4K_bounds old ltac:(lia)).
  pose proof (align4K_bounds length ltac:(lia)).
  unfold Truncate_cmds, grow_first, grow_tail, pushx_all.
  destruct (old <? length) eqn:E; [|lia].
  assert (Hb : 0 <= (old / ChunkSize + 1) * ChunkSize < 2 ^ 64) by nia.
  rewrite (u64_small _ Hb).
  rewrite !(u32_small (old / ChunkSize)) by lia.
  rewrite !(u32_small (old mod ChunkSize)) by lia.
  rewrite (u32_small (length / ChunkSize)) by lia.
  rewrite (u32_small (length mod ChunkSize)) by lia.
  rewrite (u32_small ChunkSize) by lia.
  rewrite (u32_small (ChunkSize - old mod ChunkSize)) by lia.
  rewrite i64_small by lia.
  rewrite <- !app_assoc. simpl.
  destruct ((old / ChunkSize + 1) * ChunkSize <? length) eqn:E2.
  - reflexivity.
  - rewrite u32_small; [reflexivity|]. apply Z.ltb_ge in E2. nia.
Qed.

Lemma usedSpace_pipeline_frame (cmds : list cmd) (s : Store) :
  Forall (fun c => cmd_key c <> usedSpaceKey) cmds ->
  usedSpace (pipeline cmds s) = usedSpace s.
Proof.
  intros Hall. pose proof (pipeline_frame cmds s usedSpaceKey Hall) as H.
  simpl in H. congruence.
Qed.

Lemma inodes_pipeline_frame (cmds : list cmd) (s : Store) (inode : Z) :
  Forall (fun c => cmd_key c <> inodeKey inode) cmds ->
  inodes (pipeline cmds s) !! inode = inodes s !! inode.
Proof.
  intros Hall. rewrite !get_inodeKey. now rewrite pipeline_frame.
Qed.

Lemma Forall_pushx_all (P : cmd -> Prop) (inode : Z) (v : srec) (idxs : list Z) :
  (forall indx, P (RPushX inode indx v)) -> Forall P (pushx_all inode v idxs).
Proof.
  intros H. unfold pushx_all. rewrite Forall_map. apply Forall_forall. auto.
Qed.

Lemma Forall_grow_tail (P : cmd -> Prop) (inode old length : Z) :
  (forall v, P (RPush inode (length / ChunkSize) v)) ->
  Forall P (grow_tail inode old length).
Proof.
  intros H. unfold grow_tail. destruct (_ && _); repeat constructor. apply H.
Qed.

(** The server after the commands of a growing [Truncate], stage by stage. *)
Lemma grow_stages (scanned : list Z) (s : Store) (inode old length : Z) (t : Attr) :
  pipeline ([SetInode inode (marshal t);
             RPush inode (old / ChunkSize) (grow_first old length)]
            ++ pushx_all inode (hole 0 ChunkSize) (zeroChunks scanned old length)
            ++ grow_tail inode old length
            ++ [IncrByUsedSpace (align4K length - align4K old)]) s
  = exec (pipeline (grow_tail inode old length)
            (pipeline (pushx_all inode (hole 0 ChunkSize) (zeroChunks scanned old length))
               (exec (exec s (SetInode inode (marshal t)))
                  (RPush inode (old / ChunkSize) (grow_first old length)))))
      (IncrByUsedSpace (align4K length - align4K old)).
Proof. now rewrite !pipeline_app. Qed.

Lemma grow_tail_lookup (s : Store) (inode old length : Z) (k : Z * Z) :
  chunks (pipeline (grow_tail inode old length) s) !! k =
    if decide (k = (inode, length / ChunkSize)
               /\ (old / ChunkSize + 1) * ChunkSize < length
               /\ 0 < length mod ChunkSize)
    then Some (default [] (chunks s !! k) ++ [hole 0 (length mod ChunkSize)])
    else chunks s !! k.
Proof.
  unfold grow_tail.
  destruct (Z.ltb_spec ((old / ChunkSize + 1) * ChunkSize) length) as [E1|E1];
    destruct (Z.ltb_spec 0 (length mod ChunkSize)) as [E2|E2]; simpl;
    try (rewrite decide_False by lia; reflexivity).
  destruct (decide (k = (inode, length / ChunkSize))) as [->|Hne].
  - rewrite decide_True by tauto. apply lookup_insert_eq.
  - rewrite decide_False by tauto. now rewrite lookup_insert_ne.
Qed.

(** C5.  [Truncate] of a regular file to a greater length, within
    [grow_range], commits and
    - appends a hole to the chunk the old end lies in, from the old end to
      the end of that chunk or to the new length, whichever comes first;
    - when the new length lies beyond that chunk and is not a multiple of
      the chunk size, appends a hole of [length mod ChunkSize] at position
      0 to the last chunk;
    - creates no log for a chunk strictly in between (append only if the
      list exists, whatever the scan returns), and, when the file grows by
      less than 100 chunks, appends one full-chunk hole to each such log
      that exists;
    - leaves every other chunk log alone;
    - adds [align4K length - align4K old] to [usedSpace] and stores the new
      length. *)
Theorem Truncate_grow_appends_holes (ctx : Ctx) (now : Time) (scanned : list Z)
    (s : Store) (inode flags length : Z) (a : blob) :
  inodes s !! inode = Some a ->
  Typ (parseAttr a Attr0) = TypeFile ->
  grow_range (b_length a) length ->
  let old := b_length a in
  let first := old / ChunkSize in
  let last := length / ChunkSize in
  let r := committed s (Truncate_txf ctx now scanned s inode flags length) in
  r.1 = 0 /\
  chunks r.2 !! (inode, first)
    = Some (default [] (chunks s !! (inode, first))
            ++ [hole (old mod ChunkSize)
                  (if (first + 1) * ChunkSize <? length
                   then ChunkSize - old mod ChunkSize else length - old)]) /\
  ((first + 1) * ChunkSize < length -> 0 < length mod ChunkSize ->
   chunks r.2 !! (inode, last)
     = Some (default [] (chunks s !! (inode, last)) ++ [hole 0 (length mod ChunkSize)])) /\
  (forall i, first < i < last -> chunks s !! (inode, i) = None ->
     chunks r.2 !! (inode, i) = None) /\
  ((length - old) / ChunkSize < 100 ->
   forall i l, first < i < last -> chunks s !! (inode, i) = Some l ->
     chunks r.2 !! (inode, i) = Some (l ++ [hole 0 ChunkSize])) /\
  (forall ino i,
     ino <> inode \/ i < first \/ last < i
     \/ (first < i /\ i = last /\ length mod ChunkSize = 0) ->
     chunks r.2 !! (ino, i) = chunks s !! (ino, i)) /\
  usedSpace r.2 = usedSpace s + (align4K length - align4K old) /\
  (exists t, inodes r.2 !! inode = Some (marshal t) /\ Length t = length).
Proof.
  intros Hget Htyp Hr old first last r.
  pose proof (grow_range_facts _ _ Hr) as (H1 & H2 & H3 & H4 & H5 & H6).
  fold old first last in H1, H2, H3, H4, H5, H6.
  assert (Hrs : r = (0, pipeline (Truncate_cmds scanned inode old length
                      (set_Ctime (set_Mtime (set_Length (parseAttr a Attr0) length)
                         (Unix now) (u32 (Nanosecond now))) (Unix now) (u32 (Nanosecond now)))) s)).
  { unfold r, Truncate_txf, tx_Get_inode. rewrite Hget, Htyp, Z.eqb_refl. reflexivity. }
  rewrite Hrs. cbn [fst snd]. rewrite Truncate_cmds_grow by exact Hr.
  rewrite grow_stages.
  set (t := set_Ctime _ _ _).
  set (s1 := exec s (SetInode inode (marshal t))).
  set (s2 := exec s1 (RPush inode (old / ChunkSize) (grow_first old length))).
  set (s3 := pipeline (pushx_all _ _ _) s2).
  set (s4 := pipeline (grow_tail _ _ _) s3).
  assert (Hc1 : forall k, chunks s1 !! k = chunks s !! k) by reflexivity.
  assert (Hc5 : forall k, chunks (exec s4 (IncrByUsedSpace (align4K length - align4K old))) !! k
                          = chunks s4 !! k) by reflexivity.
  assert (Hzc : forall j, j ∈ zeroChunks scanned old length -> first < j < last).
  { intros j Hj. now apply zeroChunks_between in Hj. }
  assert (Hc2 : chunks s2 !! (inode, first)
                = Some (default [] (chunks s !! (inode, first)) ++ [grow_first old length])).
  { unfold s2. rewrite chunks_RPush. now rewrite Hc1. }
  assert (Hc2' : forall k, k <> (inode, first) -> chunks s2 !! k = chunks s !! k).
  { intros k Hk. unfold s2. simpl. now rewrite lookup_insert_ne. }
  split; [reflexivity|].
  split.
  { rewrite Hc5. unfold s4. rewrite grow_tail_lookup.
    rewrite decide_False.
    2:{ intros ([= Heq] & Hlt & _). fold first last in Heq, Hlt. nia. }
    unfold s3. rewrite RPushX_notin.
    2:{ right. intros Hin. apply Hzc in Hin. lia. }
    exact Hc2. }
  split.
  { intros Hlt Hmod. rewrite Hc5. unfold s4. rewrite grow_tail_lookup.
    rewrite decide_True by (fold first; tauto).
    unfold s3. rewrite RPushX_notin.
    2:{ right. intros Hin. apply Hzc in Hin. fold last in Hin. lia. }
    rewrite Hc2'; [reflexivity|]. intros [= Heq]. fold last first in Heq. nia. }
  split.
  { intros i Hi Hnone. rewrite Hc5. unfold s4. rewrite grow_tail_lookup.
    rewrite decide_False.
    2:{ intros ([= Heq] & _). fold last in Heq. lia. }
    unfold s3. apply RPushX_absent. rewrite Hc2'; [exact Hnone|].
    intros [= Heq]. lia. }
  split.
  { intros Hd i l Hi Hl.
    destruct (zeroChunks_dense scanned old length Hr Hd) as [Hnd Hall].
    rewrite Hc5. unfold s4. rewrite grow_tail_lookup.
    rewrite decide_False.
    2:{ intros ([= Heq] & _). fold last in Heq. lia. }
    unfold s3. apply RPushX_once; [exact Hnd|now apply Hall|].
    rewrite Hc2'; [exact Hl|]. intros [= Heq]. lia. }
  split.
  { intros ino i Hi. rewrite Hc5. unfold s4. rewrite grow_tail_lookup.
    rewrite decide_False.
    2:{ intros ([= -> ->] & Hlt & Hmod). fold last first in Hi, Hlt. lia. }
    unfold s3. rewrite RPushX_notin.
    2:{ destruct (decide (ino = inode)) as [->|]; [right|now left].
        intros Hin. apply Hzc in Hin. lia. }
    apply Hc2'. intros [= -> ->]. lia. }
  split.
  { simpl. f_equal. unfold s4. rewrite usedSpace_pipeline_frame.
    2:{ apply Forall_grow_tail. intros v. discriminate. }
    unfold s3. rewrite usedSpace_pipeline_frame.
    2:{ apply Forall_pushx_all. intros v. discriminate. }
    reflexivity. }
  exists t. split; [|reflexivity].
  change (inodes (exec s4 _)) with (inodes s4).
  unfold s4. rewrite inodes_pipeline_frame.
  2:{ apply Forall_grow_tail. intros v. discriminate. }
  unfold s3. rewrite inodes_pipeline_frame.
  2:{ apply Forall_pushx_all. intros v. discriminate. }
  simpl. apply lookup_insert_eq.
Qed.

End TruncateGrow.

Lemma Truncate_grow_appends_holes_witness :
  let r := committed one_empty_file
             (Truncate_txf (C := consts_4MiB) (mkCtx 0 0 false) (mkTime 1600000000 0) []
                one_empty_file 7 0 (10 * 2 ^ 20)) in
  r.1 = 0 /\
  chunks r.2 !! (7, 0) = Some [hole 0 (4 * 2 ^ 20)] /\
  chunks r.2 !! (7, 1) = None /\
  chunks r.2 !! (7, 2) = Some [hole 0 (2 * 2 ^ 20)] /\
  usedSpace r.2 = 10 * 2 ^ 20.
Proof.
  assert (Hget : inodes one_empty_file !! 7 = Some (marshal empty_file))
    by apply lookup_singleton_eq.
  assert (Hr : grow_range (C := consts_4MiB) (b_length (marshal empty_file)) (10 * 2 ^ 20)).
  { unfold grow_range. simpl. lia. }
  destruct (Truncate_grow_appends_holes (C := consts_4MiB) (mkCtx 0 0 false)
              (mkTime 1600000000 0) [] one_empty_file 7 0 (10 * 2 ^ 20)
              (marshal empty_file) Hget eq_refl Hr)
    as (H0 & Hfirst & Hlast & Hmid & _ & _ & Hused & _).
  split; [exact H0|]. split; [exact Hfirst|]. split.
  - apply Hmid; [vm_compute; split; reflexivity | reflexivity].
  - split; [apply Hlast; reflexivity | exact Hused].
Defined.

(** ** Slice resolution: [buildSlice] is the overlay of the log *)

Lemma bst_le (t : slice) : forall lo hi, bst lo hi t -> lo <= hi.
Proof.
  induction t as [|l IHl v r IHr]; intros lo hi H; simpl in H; [exact H|].
  destruct H as (Hl & Hlen & _ & _ & Hr).
  apply IHl in Hl. apply IHr in Hr. lia.
Qed.

Lemma bst_weaken (t : slice) : forall lo hi lo' hi',
  bst lo hi t -> lo' <= lo -> hi <= hi' -> bst lo' hi' t.
Proof.
  induction t as [|l IHl v r IHr]; intros lo hi lo' hi' H Hlo Hhi; simpl in *; [lia|].
  destruct H as (Hl & Hlen & Ho1 & Ho2 & Hr).
  repeat split; try assumption.
  - eapply IHl; [exact Hl|lia|lia].
  - eapply IHr; [exact Hr|lia|lia].
Qed.

Lemma find_outside (t : slice) : forall lo hi q,
  bst lo hi t -> q < lo \/ hi <= q -> find t q = None.
Proof.
  induction t as [|l IHl v r IHr]; intros lo hi q H Hq; simpl in *; [reflexivity|].
  destruct H as (Hl & Hlen & _ & _ & Hr).
  pose proof (bst_le _ _ _ Hl). pose proof (bst_le _ _ _ Hr).
  destruct (Z.ltb_spec q (r_pos v)).
  - destruct Hq; [|lia]. eapply IHl; [exact Hl|lia].
  - destruct (Z.ltb_spec q (r_pos v + r_len v)); [lia|].
    eapply IHr; [exact Hr|lia].
Qed.

Lemma tree_end_bounds (t : slice) : forall lo hi e,
  bst lo hi t -> e <= lo -> e <= tree_end e t <= hi.
Proof.
  induction t as [|l IHl v r IHr]; intros lo hi e H He; simpl in *; [lia|].
  destruct H as (Hl & Hlen & _ & _ & Hr).
  pose proof (bst_le _ _ _ Hl).
  pose proof (IHr _ _ (r_pos v + r_len v) Hr ltac:(lia)). lia.
Qed.

Lemma find_after_end (t : slice) : forall lo hi e q,
  bst lo hi t -> e <= lo -> tree_end e t <= q -> find t q = None.
Proof.
  induction t as [|l IHl v r IHr]; intros lo hi e q H He Hq; simpl in *; [reflexivity|].
  destruct H as (Hl & Hlen & _ & _ & Hr).
  pose proof (bst_le _ _ _ Hl).
  pose proof (tree_end_bounds _ _ _ (r_pos v + r_len v) Hr ltac:(lia)).
  destruct (Z.ltb_spec q (r_pos v)); [lia|].
  destruct (Z.ltb_spec q (r_pos v + r_len v)); [lia|].
  apply (IHr (r_pos v + r_len v) hi (r_pos v + r_len v)); [exact Hr|lia|lia].
Qed.

(** [cut] splits the tree at [p]: both parts are search trees, each shows
    its side of what the tree showed, and the right part ends where the
    tree ended. *)
Lemma cut_spec (t : slice) : forall lo hi p,
  bst lo hi t -> 0 <= lo -> hi < 2 ^ 32 -> lo <= p <= hi ->
  bst lo p (cut t p).1 /\ bst p hi (cut t p).2 /\
  (forall q, find (cut t p).1 q = if q <? p then find t q else None) /\
  (forall q, find (cut t p).2 q = if q <? p then None else find t q) /\
  tree_end p (cut t p).2 = Z.max p (tree_end lo t).
Proof.
  induction t as [|l IHl v r IHr]; intros lo hi p H Hlo Hhi Hp; simpl in H.
  - simpl. repeat split; try lia; intros q; now destruct (q <? p).
  - destruct H as (Hl & Hlen & Ho1 & Ho2 & Hr).
    pose proof (bst_le _ _ _ Hl) as Hle1. pose proof (bst_le _ _ _ Hr) as Hle2.
    pose proof (tree_end_bounds _ _ _ (r_pos v + r_len v) Hr ltac:(lia)) as Hte.
    simpl. destruct (Z.leb_spec p (r_pos v)) as [Hc|Hc].
    + destruct (IHl lo (r_pos v) p Hl Hlo ltac:(lia) ltac:(lia)) as (B1 & B2 & F1 & F2 & E).
      destruct (cut l p) as [a b] eqn:Hcut. simpl in *.
      repeat split; try assumption; try lia.
      * intros q. rewrite F1. destruct (Z.ltb_spec q p); [|reflexivity].
        destruct (Z.ltb_spec q (r_pos v)); [reflexivity|lia].
      * intros q. rewrite F2. destruct (Z.ltb_spec q p).
        -- destruct (Z.ltb_spec q (r_pos v)); [reflexivity|lia].
        -- reflexivity.
    + rewrite (u32_small (r_pos v + r_len v)) by lia.
      destruct (Z.ltb_spec p (r_pos v + r_len v)) as [Hm|Hm].
      * rewrite (u32_small (p - r_pos v)) by lia.
        rewrite (u32_small (r_off v + (p - r_pos v))) by lia.
        rewrite (u32_small (r_len v - (p - r_pos v))) by lia.
        simpl. repeat split; try assumption; try lia.
        -- replace (p + (r_len v - (p - r_pos v))) with (r_pos v + r_len v) by lia.
           exact Hr.
        -- intros q. replace (r_pos v + (p - r_pos v)) with p by lia.
           destruct (Z.ltb_spec q (r_pos v)).
           ++ destruct (Z.ltb_spec q p); [reflexivity|lia].
           ++ destruct (Z.ltb_spec q p).
              ** destruct (Z.ltb_spec q (r_pos v + r_len v)); [reflexivity|lia].
              ** reflexivity.
        -- intros q.
           replace (p + (r_len v - (p - r_pos v))) with (r_pos v + r_len v) by lia.
           destruct (Z.ltb_spec q p).
           ++ reflexivity.
           ++ destruct (Z.ltb_spec q (r_pos v)); [lia|].
              destruct (Z.ltb_spec q (r_pos v + r_len v)); [|reflexivity].
              unfold source_at. simpl. do 2 f_equal. lia.
        -- replace (p + (r_len v - (p - r_pos v))) with (r_pos v + r_len v) by lia. lia.
      * destruct (IHr (r_pos v + r_len v) hi p Hr ltac:(lia) Hhi ltac:(lia))
          as (B1 & B2 & F1 & F2 & E).
        destruct (cut r p) as [a b] eqn:Hcut. simpl in *.
        repeat split; try assumption; try lia.
        -- intros q. rewrite F1.
           destruct (Z.ltb_spec q (r_pos v)).
           ++ destruct (Z.ltb_spec q p); [reflexivity|lia].
           ++ destruct (Z.ltb_spec q (r_pos v + r_len v)).
              ** destruct (Z.ltb_spec q p); [reflexivity|lia].
              ** reflexivity.
        -- intros q. rewrite F2. destruct (Z.ltb_spec q p); [reflexivity|].
           destruct (Z.ltb_spec q (r_pos v)); [lia|].
           destruct (Z.ltb_spec q (r_pos v + r_len v)); [lia|reflexivity].
Qed.

Lemma insert_slice_eq (t : slice) (s : srec) :
  insert_slice t s =
    node (cut t (r_pos s)).1 s (cut (cut t (r_pos s)).2 (u32 (r_pos s + r_len s))).2.
Proof.
  destruct t as [|l v r]; [reflexivity|].
  unfold insert_slice.
  destruct (cut (node l v r) (r_pos s)) as [a b]. cbn [fst snd].
  destruct (cut b (u32 (r_pos s + r_len s))) as [c d]. reflexivity.
Qed.

(** One insertion: the new slice lies over what the tree showed. *)
Lemma insert_slice_spec (t : slice) (s : srec) (hi : Z) :
  bst 0 hi t -> wf_rec s -> r_pos s + r_len s <= hi -> hi < 2 ^ 32 ->
  bst 0 hi (insert_slice t s) /\
  (forall q, find (insert_slice t s) q = overlay1 (find t) s q) /\
  tree_end 0 (insert_slice t s) = Z.max (tree_end 0 t) (r_pos s + r_len s).
Proof.
  intros Hb (Hp & Hl & He & Ho1 & Ho2) Hend Hhi.
  rewrite insert_slice_eq. rewrite (u32_small (r_pos s + r_len s)) by lia.
  destruct (cut_spec t 0 hi (r_pos s) Hb ltac:(lia) Hhi ltac:(lia))
    as (B1 & B2 & F1 & F2 & E1).
  destruct (cut_spec (cut t (r_pos s)).2 (r_pos s) hi (r_pos s + r_len s) B2
              ltac:(lia) Hhi ltac:(lia)) as (_ & B4 & _ & F4 & E2).
  pose proof (tree_end_bounds _ _ _ 0 Hb ltac:(lia)) as Hte.
  simpl. repeat split; try assumption.
  - intros q. unfold overlay1, covers. rewrite F1, F4, F2.
    destruct (Z.ltb_spec q (r_pos s)).
    + destruct (Z.leb_spec (r_pos s) q); [lia|]. reflexivity.
    + destruct (Z.leb_spec (r_pos s) q); [|lia].
      destruct (Z.ltb_spec q (r_pos s + r_len s)); reflexivity.
  - rewrite E2, E1. lia.
Qed.

Lemma build_root_snoc (ss : list srec) (s : srec) :
  build_root (ss ++ [s]) = insert_slice (build_root ss) s.
Proof. unfold build_root. now rewrite foldl_app. Qed.

Lemma extent_snoc (ss : list srec) (s : srec) :
  extent (ss ++ [s]) = Z.max (extent ss) (r_pos s + r_len s).
Proof. unfold extent. now rewrite foldl_app. Qed.

Lemma overlay_snoc (ss : list srec) (s : srec) :
  overlay (ss ++ [s]) = overlay1 (overlay ss) s.
Proof. unfold overlay. now rewrite foldl_app. Qed.

Lemma extent_range (ss : list srec) :
  Forall wf_rec ss -> 0 <= extent ss < 2 ^ 32.
Proof.
  induction ss as [|s ss IH] using rev_ind; intros Hwf.
  - unfold extent. simpl. lia.
  - apply Forall_app in Hwf as [Hss Hs]. inversion Hs as [|? ? Hw _]; subst.
    rewrite extent_snoc. destruct Hw as (? & ? & ? & ? & ?).
    specialize (IH Hss). lia.
Qed.

(** The tree after the whole log: a search tree up to [extent], showing the
    overlay of the log, ending at [extent]. *)
Lemma build_root_spec (ss : list srec) :
  Forall wf_rec ss ->
  bst 0 (extent ss) (build_root ss) /\
  (forall q, find (build_root ss) q = overlay ss q) /\
  tree_end 0 (build_root ss) = extent ss.
Proof.
  induction ss as [|s ss IH] using rev_ind; intros Hwf.
  - unfold build_root, extent, overlay. simpl. repeat split; try lia.
  - pose proof (extent_range _ Hwf) as Hrange.
    apply Forall_app in Hwf as [Hss Hs]. inversion Hs as [|? ? Hw _]; subst.
    destruct (IH Hss) as (B & F & E).
    rewrite build_root_snoc, overlay_snoc. rewrite extent_snoc in *.
    destruct (insert_slice_spec (build_root ss) s
                (Z.max (extent ss) (r_pos s + r_len s))) as (B' & F' & E');
      [eapply bst_weaken; [exact B|lia|lia] | exact Hw | lia | lia |].
    repeat split; [exact B'| |lia].
    intros q. rewrite F'. unfold overlay1. now rewrite F.
Qed.

(** *** The layout of the emitted slices *)

Lemma total_len_app (a b : list Slice) :
  total_len (a ++ b) = total_len a + total_len b.
Proof.
  induction a as [|c a IH]; simpl; [reflexivity|].
  unfold total_len in *. simpl. rewrite IH. lia.
Qed.

Lemma total_len_nonneg (a : list Slice) :
  Forall (fun c => 0 <= Len c) a -> 0 <= total_len a.
Proof.
  induction 1 as [|c a Hc Ha IH]; [reflexivity|].
  change (total_len (c :: a)) with (Len c + total_len a). lia.
Qed.

Lemma layout_from_outside (a : list Slice) : forall p q,
  Forall (fun c => 0 <= Len c) a ->
  q < p \/ p + total_len a <= q -> layout_from p a q = None.
Proof.
  induction a as [|c a IH]; intros p q Hpos Hq; [reflexivity|].
  inversion Hpos as [|? ? Hc Ha]; subst.
  pose proof (total_len_nonneg _ Ha).
  change (total_len (c :: a)) with (Len c + total_len a) in Hq.
  simpl. destruct (Z.leb_spec p q); destruct (Z.ltb_spec q (p + Len c)); simpl;
    try lia; apply IH; try assumption; lia.
Qed.

Lemma layout_from_app (a b : list Slice) : forall p q,
  Forall (fun c => 0 <= Len c) a -> Forall (fun c => 0 <= Len c) b ->
  layout_from p (a ++ b) q =
    if q <? p + total_len a then layout_from p a q
    else layout_from (p + total_len a) b q.
Proof.
  induction a as [|c a IH]; intros p q Ha Hb.
  - simpl. change (total_len []) with 0. rewrite Z.add_0_r.
    destruct (Z.ltb_spec q p); [|reflexivity].
    apply layout_from_outside; [assumption|lia].
  - inversion Ha as [|? ? Hc Ha']; subst.
    pose proof (total_len_nonneg _ Ha').
    change (total_len (c :: a)) with (Len c + total_len a).
    simpl. rewrite IH by assumption.
    replace (p + Len c + total_len a) with (p + (Len c + total_len a)) by lia.
    destruct (Z.leb_spec p q); destruct (Z.ltb_spec q (p + Len c)); simpl;
      try reflexivity.
    all: destruct (Z.ltb_spec q (p + (Len c + total_len a))); try reflexivity; lia.
Qed.

(** One call of the callback: a hole for the gap before the node, if any,
    then the node. *)
Lemma emit_step (pos1 : Z) (acc1 : list Slice) (v : srec) :
  total_len acc1 = pos1 -> nonneg_lens acc1 ->
  pos1 <= r_pos v -> 0 <= r_len v -> r_pos v + r_len v < 2 ^ 32 ->
  (emit (pos1, acc1) v).1 = r_pos v + r_len v /\
  total_len (emit (pos1, acc1) v).2 = r_pos v + r_len v /\
  nonneg_lens (emit (pos1, acc1) v).2 /\
  forall q, layout (emit (pos1, acc1) v).2 q =
    if q <? pos1 then layout acc1 q
    else if q <? r_pos v then Some Zero
    else if q <? r_pos v + r_len v then Some (source_at v q)
    else None.
Proof.
  intros Htot Hnn Hle Hlen Hend.
  pose proof (total_len_nonneg _ Hnn) as H0.
  unfold emit. destruct (Z.ltb_spec pos1 (r_pos v)) as [Hgap|Hgap]; cbv beta iota zeta.
  - rewrite (u32_small (r_pos v - pos1)) by lia.
    rewrite (u32_small (r_pos v + r_len v)) by lia.
    set (h := mkSlice 0 (r_pos v - pos1) 0 (r_pos v - pos1)).
    set (c := mkSlice (r_chunkid v) (r_size v) (r_off v) (r_len v)).
    assert (Hnn1 : nonneg_lens (acc1 ++ [h])).
    { apply Forall_app. split; [exact Hnn|]. repeat constructor. simpl. lia. }
    assert (Htot1 : total_len (acc1 ++ [h]) = r_pos v).
    { rewrite total_len_app. unfold total_len at 2. simpl. lia. }
    cbn [fst snd]. repeat split.
    + rewrite total_len_app, Htot1. unfold total_len. simpl. lia.
    + apply Forall_app. split; [exact Hnn1|]. repeat constructor. simpl. lia.
    + intros q. unfold layout.
      rewrite layout_from_app; [|exact Hnn1|repeat constructor; simpl; lia].
      rewrite Htot1, Z.add_0_l.
      rewrite layout_from_app; [|exact Hnn|repeat constructor; simpl; lia].
      rewrite Htot, Z.add_0_l. simpl.
      destruct (Z.ltb_spec q pos1); destruct (Z.ltb_spec q (r_pos v)); try lia;
        try reflexivity.
      * destruct (Z.leb_spec pos1 q); [|lia].
        destruct (Z.ltb_spec q (pos1 + (r_pos v - pos1))); [|lia]. reflexivity.
      * destruct (Z.leb_spec (r_pos v) q); [|lia].
        destruct (Z.ltb_spec q (r_pos v + r_len v)); reflexivity.
  - assert (Heq : pos1 = r_pos v) by lia.
    rewrite (u32_small (pos1 + r_len v)) by lia.
    set (c := mkSlice (r_chunkid v) (r_size v) (r_off v) (r_len v)).
    cbn [fst snd]. repeat split.
    + lia.
    + rewrite total_len_app, Htot. unfold total_len. simpl. lia.
    + apply Forall_app. split; [exact Hnn|]. repeat constructor. simpl. lia.
    + intros q. unfold layout.
      rewrite layout_from_app; [|exact Hnn|repeat constructor; simpl; lia].
      rewrite Htot, Z.add_0_l. simpl.
      destruct (Z.ltb_spec q pos1); [reflexivity|].
      destruct (Z.ltb_spec q (r_pos v)); [lia|].
      destruct (Z.leb_spec pos1 q); [|lia].
      rewrite Heq.
      destruct (Z.ltb_spec q (r_pos v + r_len v)); reflexivity.
Qed.

(** The traversal of a tree: from [pos0] on, the slices emitted show the
    tree, with zero bytes in the gaps, up to the end of its last node. *)
Lemma emit_tree (t : slice) : forall lo hi pos0 acc,
  bst lo hi t -> hi < 2 ^ 32 -> 0 <= pos0 <= lo ->
  total_len acc = pos0 -> nonneg_lens acc ->
  (foldl emit (pos0, acc) (visit t)).1 = tree_end pos0 t /\
  total_len (foldl emit (pos0, acc) (visit t)).2 = tree_end pos0 t /\
  nonneg_lens (foldl emit (pos0, acc) (visit t)).2 /\
  forall q, layout (foldl emit (pos0, acc) (visit t)).2 q =
    if q <? pos0 then layout acc q
    else if q <? tree_end pos0 t then Some (default Zero (find t q))
    else None.
Proof.
  induction t as [|l IHl v r IHr]; intros lo hi pos0 acc Hb Hhi Hpos Htot Hnn.
  - simpl. repeat split; try assumption.
    intros q. destruct (Z.ltb_spec q pos0); [reflexivity|].
    apply layout_from_outside; [exact Hnn|]. lia.
  - simpl in Hb. destruct Hb as (Hl & Hlen & Ho1 & Ho2 & Hr).
    pose proof (bst_le _ _ _ Hl) as Hle1. pose proof (bst_le _ _ _ Hr) as Hle2.
    destruct (IHl lo (r_pos v) pos0 acc Hl ltac:(lia) Hpos Htot Hnn)
      as (P1 & T1 & N1 & L1).
    pose proof (tree_end_bounds _ _ _ pos0 Hl ltac:(lia)) as Hte1.
    change (visit (node l v r)) with (visit l ++ v :: visit r).
    rewrite foldl_app. cbn [foldl].
    destruct (foldl emit (pos0, acc) (visit l)) as [pos1 acc1] eqn:Hst1.
    cbn [fst snd] in P1, T1, N1, L1.
    destruct (emit_step pos1 acc1 v ltac:(lia) N1 ltac:(lia) Hlen ltac:(lia))
      as (P2 & T2 & N2 & L2).
    destruct (emit (pos1, acc1) v) as [pos2 acc2] eqn:Hst2.
    cbn [fst snd] in P2, T2, N2, L2.
    destruct (IHr (r_pos v + r_len v) hi pos2 acc2 Hr Hhi ltac:(lia) ltac:(lia) N2)
      as (P3 & T3 & N3 & L3).
    subst pos2.
    pose proof (tree_end_bounds _ _ _ (r_pos v + r_len v) Hr ltac:(lia)) as Hte2.
    change (tree_end pos0 (node l v r)) with (tree_end (r_pos v + r_len v) r).
    repeat split; try assumption.
    intros q. rewrite L3, L2, L1. simpl.
    destruct (Z.ltb_spec q pos0).
    + destruct (Z.ltb_spec q (r_pos v + r_len v)); [|lia].
      destruct (Z.ltb_spec q pos1); [reflexivity|lia].
    + destruct (Z.ltb_spec q (r_pos v + r_len v)).
      * destruct (Z.ltb_spec q (tree_end (r_pos v + r_len v) r)); [|lia].
        destruct (Z.ltb_spec q pos1).
        -- rewrite P1 in *. destruct (Z.ltb_spec q (tree_end pos0 l)); [|lia].
           destruct (Z.ltb_spec q (r_pos v)); [reflexivity|lia].
        -- destruct (Z.ltb_spec q (r_pos v)).
           ++ rewrite (find_after_end l lo (r_pos v) pos0 q Hl ltac:(lia) ltac:(lia)).
              reflexivity.
           ++ reflexivity.
      * destruct (Z.ltb_spec q (tree_end (r_pos v + r_len v) r)); [|reflexivity].
        destruct (Z.ltb_spec q (r_pos v)); [lia|reflexivity].
Qed.

Lemma ordered_weaken (l : list srec) : forall lo lo' hi,
  ordered lo l hi -> lo' <= lo -> ordered lo' l hi.
Proof.
  destruct l as [|v l]; intros lo lo' hi H Hle; simpl in *; [lia|].
  destruct H as (? & ? & ?). repeat split; try assumption; lia.
Qed.

Lemma ordered_app (a : list srec) : forall lo mid hi b,
  ordered lo a mid -> ordered mid b hi -> ordered lo (a ++ b) hi.
Proof.
  induction a as [|v a IH]; intros lo mid hi b Ha Hb; simpl in *.
  - eapply ordered_weaken; [exact Hb|exact Ha].
  - destruct Ha as (? & ? & Ha). repeat split; try assumption.
    eapply IH; [exact Ha|exact Hb].
Qed.

(** The in-order traversal of a search tree is in position order. *)
Lemma bst_ordered (t : slice) : forall lo hi, bst lo hi t -> ordered lo (visit t) hi.
Proof.
  induction t as [|l IHl v r IHr]; intros lo hi H; simpl in *; [exact H|].
  destruct H as (Hl & Hlen & _ & _ & Hr).
  eapply ordered_app; [apply IHl; exact Hl|].
  simpl. repeat split; try lia. now apply IHr.
Qed.

(** [buildSlice] shows the overlay of the log. *)
Lemma buildSlice_visible (ss : list srec) :
  Forall wf_rec ss ->
  ordered 0 (visit (build_root ss)) (extent ss) /\
  total_len (buildSlice ss) = extent ss /\
  forall q, layout (buildSlice ss) q = visible ss q.
Proof.
  intros Hwf. destruct (build_root_spec ss Hwf) as (B & F & E).
  pose proof (extent_range ss Hwf) as Hrange.
  assert (Hnil : nonneg_lens []) by constructor.
  destruct (emit_tree (build_root ss) 0 (extent ss) 0 [] B ltac:(lia) ltac:(lia)
              eq_refl Hnil) as (P & T & N & L).
  split; [now apply bst_ordered|]. split.
  - unfold buildSlice. now rewrite T, E.
  - intros q. unfold buildSlice, visible. rewrite L, E, F.
    destruct (Z.ltb_spec q 0); destruct (Z.leb_spec 0 q); try lia; reflexivity.
Qed.

Lemma lrange_all {A : Type} (l : list A) (stop : Z) :
  0 <= stop -> Z.of_nat (length l) <= stop + 1 -> lrange l 0 stop = l.
Proof.
  intros Hstop Hlen. unfold lrange. simpl.
  destruct (Z.ltb_spec stop 0); [lia|].
  destruct l as [|x l].
  { change (Z.of_nat (length [])) with 0. now rewrite Z.leb_refl, orb_true_r. }
  set (n := Z.of_nat (length (x :: l))) in *.
  assert (0 < n) by (unfold n; simpl; lia).
  rewrite Z.min_r by lia.
  destruct (Z.ltb_spec (n - 1) 0); [lia|].
  destruct (Z.leb_spec n 0); [lia|]. simpl orb. cbv iota.
  change (Z.to_nat 0) with 0%nat. rewrite drop_0.
  apply take_ge. unfold n in *. lia.
Qed.

Lemma overlay_beyond (ss : list srec) (q : Z) :
  Forall wf_rec ss -> extent ss <= q -> overlay ss q = None.
Proof.
  intros Hwf Hq. destruct (build_root_spec ss Hwf) as (B & F & _).
  rewrite <- F. eapply find_outside; [exact B|]. now right.
Qed.

(** Appending a record to the log overlays it on what the log showed. *)
Lemma visible_snoc (ss : list srec) (s : srec) (q : Z) :
  Forall wf_rec ss -> wf_rec s ->
  visible (ss ++ [s]) q = overlay_on (visible ss) s q.
Proof.
  intros Hwf Hs. pose proof (extent_range _ Hwf) as Hr.
  pose proof (overlay_beyond ss q Hwf) as Hbeyond.
  destruct Hs as (Hp & Hl & He & _).
  unfold visible, overlay_on. rewrite extent_snoc, overlay_snoc.
  unfold overlay1, covers.
  destruct (Z.leb_spec (r_pos s) q); destruct (Z.ltb_spec q (r_pos s + r_len s));
    simpl andb; cbv iota.
  - destruct (Z.leb_spec 0 q); [|lia].
    destruct (Z.ltb_spec q (Z.max (extent ss) (r_pos s + r_len s))); [|lia].
    reflexivity.
  - destruct (Z.leb_spec 0 q); [|lia]. simpl andb.
    destruct (Z.ltb_spec q (extent ss));
      destruct (Z.ltb_spec q (Z.max (extent ss) (r_pos s + r_len s))); try lia;
      try reflexivity.
    destruct (Z.ltb_spec q (r_pos s)); [lia|reflexivity].
  - destruct (Z.leb_spec 0 q); simpl andb; cbv iota; [|reflexivity].
    destruct (Z.ltb_spec q (extent ss));
      destruct (Z.ltb_spec q (Z.max (extent ss) (r_pos s + r_len s))); try lia;
      try reflexivity.
    destruct (Z.ltb_spec q (r_pos s)); [|lia]. now rewrite Hbeyond by lia.
  - lia.
Qed.

Section ReadWrite.
Context {C : Consts}.

Lemma Write_appends (ctx : Ctx) (now : Time) (s : Store) (inode indx off : Z)
    (slice : Slice) (a : blob) :
  inodes s !! inode = Some a ->
  (committed s (Write_txf ctx now s inode indx off slice)).1 = 0 /\
  chunks (committed s (Write_txf ctx now s inode indx off slice)).2 !! (inode, indx)
    = Some (default [] (chunks s !! (inode, indx)) ++ [slice_record off slice]).
Proof.
  intros Hget. unfold Write_txf, tx_Get_inode. rewrite Hget.
  cbv zeta. unfold committed. split; [reflexivity|]. cbn [snd].
  rewrite pipeline_app, pipeline_cons, pipeline_cons.
  rewrite chunks_pipeline_other.
  2:{ destruct (0 <? _); repeat constructor. discriminate. }
  change (pipeline [] ?x) with x.
  rewrite chunks_exec_other by discriminate.
  apply chunks_RPush.
Qed.

(** C1 as amended.  For every log of well-formed records, [buildSlice]
    visits the slices in position order, without overlap, and what it
    returns shows the overlay of the records in append order: at each
    position below the highest end of a record the byte of the last record
    covering it, a zero byte (a hole, chunk id 0) where none does, and
    nothing beyond; its total length is that highest end.  Hence, for a log
    that [Read] fetches whole ([LRange 0 1000000]: at most 1,000,000
    records before the write), [Read] after a committed [Write] returns
    slices whose layout is the new slice laid over the layout [Read]
    returned before. *)
Theorem Read_after_Write_overlay (ctx : Ctx) (now : Time) (net : Net) (s : Store)
    (inode indx off : Z) (slice : Slice) (a : blob) :
  let log := default [] (chunks s !! (inode, indx)) in
  let new := slice_record off slice in
  let w := committed s (Write_txf ctx now s inode indx off slice) in
  inodes s !! inode = Some a ->
  net None = None ->
  Forall wf_rec log -> wf_rec new -> Z.of_nat (length log) <= 1000000 ->
  (forall ss, Forall wf_rec ss ->
     ordered 0 (visit (build_root ss)) (extent ss) /\
     total_len (buildSlice ss) = extent ss /\
     forall q, layout (buildSlice ss) q = visible ss q) /\
  w.1 = 0 /\
  exists before after,
    (Read net s inode indx).1 = (0, Some before) /\
    (Read net w.2 inode indx).1 = (0, Some after) /\
    before = buildSlice log /\
    after = buildSlice (log ++ [new]) /\
    forall q, layout after q = overlay_on (layout before) new q.
Proof.
  intros log new w Hget Hnet Hlog Hnew Hlen.
  destruct (Write_appends ctx now s inode indx off slice a Hget) as [Hw1 Hw2].
  fold w in Hw1, Hw2. fold log new in Hw2.
  split; [exact buildSlice_visible|]. split; [exact Hw1|].
  exists (buildSlice log), (buildSlice (log ++ [new])).
  assert (Hall : Forall wf_rec (log ++ [new])).
  { apply Forall_app. split; [exact Hlog|]. constructor; [exact Hnew|constructor]. }
  repeat split.
  - unfold Read. rewrite Hnet. fold log. cbv zeta. unfold readSlices.
    rewrite lrange_all by lia. reflexivity.
  - unfold Read. rewrite Hnet, Hw2. cbv zeta. unfold readSlices. simpl default.
    rewrite lrange_all; [reflexivity|lia|]. rewrite length_app. simpl length. lia.
  - intros q.
    destruct (buildSlice_visible _ Hall) as (_ & _ & La).
    destruct (buildSlice_visible _ Hlog) as (_ & _ & Lb).
    rewrite La, visible_snoc by assumption.
    unfold overlay_on. rewrite Lb. reflexivity.
Qed.

End ReadWrite.

Lemma Read_after_Write_overlay_witness :
  let w := committed two_writes
             (Write_txf (C := juicefs_consts) (mkCtx 0 0 false) (mkTime 1600000000 0)
                two_writes 7 0 2 (mkSlice 103 3 0 3)) in
  w.1 = 0 /\
  exists after,
    (Read (fun _ => None) w.2 7 0).1 = (0, Some after) /\
    layout after 1 = Some (Data 101 10 1) /\
    layout after 3 = Some (Data 103 3 1) /\
    layout after 6 = Some (Data 101 10 6) /\
    layout after 12 = Some Zero /\
    layout after 24 = Some (Data 102 5 4) /\
    layout after 25 = None.
Proof.
  assert (Hget : inodes two_writes !! 7 = Some (marshal empty_file))
    by apply lookup_singleton_eq.
  assert (Hlog : default [] (chunks two_writes !! (7, 0))
                 = [mkSrec 0 101 10 0 10; mkSrec 20 102 5 0 5]).
  { unfold two_writes. simpl. now rewrite lookup_singleton_eq. }
  assert (Hwf : Forall wf_rec (default [] (chunks two_writes !! (7, 0)))).
  { rewrite Hlog. repeat constructor; simpl; lia. }
  assert (Hnew : wf_rec (slice_record 2 (mkSlice 103 3 0 3))).
  { repeat split; simpl; lia. }
  assert (Hlen : Z.of_nat (length (default [] (chunks two_writes !! (7, 0)))) <= 1000000).
  { rewrite Hlog. simpl. lia. }
  destruct (Read_after_Write_overlay (C := juicefs_consts) (mkCtx 0 0 false)
              (mkTime 1600000000 0) (fun _ => None) two_writes 7 0 2 (mkSlice 103 3 0 3)
              (marshal empty_file) Hget eq_refl Hwf Hnew Hlen)
    as (_ & H0 & before & after & Hb & Ha & Eb & Ea & Hlay).
  split; [exact H0|]. exists after. split; [exact Ha|].
  rewrite Hlog in Eb. subst before.
  repeat split; rewrite Hlay; reflexivity.
Defined.

(** [LRange 0 stop] of a list of more than [stop + 1] values is its first
    [stop + 1] values. *)
Lemma lrange_window {A : Type} (l t : list A) (stop : Z) :
  0 <= stop -> Z.of_nat (length l) = stop + 1 -> lrange (l ++ t) 0 stop = l.
Proof.
  intros Hstop Hlen. unfold lrange. rewrite length_app.
  change (0 <? 0) with false. cbv iota.
  destruct (Z.ltb_spec stop 0); [lia|]. cbv zeta.
  destruct (Z.ltb_spec (Z.min stop (Z.of_nat (length l + length t) - 1)) 0); [lia|].
  destruct (Z.leb_spec (Z.of_nat (length l + length t)) 0); [lia|].
  simpl orb. cbv iota. change (Z.to_nat 0) with 0%nat. rewrite drop_0.
  replace (Z.to_nat (Z.min stop (Z.of_nat (length l + length t) - 1) - 0 + 1))
    with (length l) by lia.
  apply take_app_length.
Qed.

(** What [Read] resolves of a log of more than 1,000,001 records: the
    first 1,000,001 of them. *)
Lemma Read_window (net : Net) (s : Store) (inode indx : Z) (log rest : list srec) :
  net None = None ->
  chunks s !! (inode, indx) = Some (log ++ rest) ->
  Z.of_nat (length log) = 1000001 ->
  (Read net s inode indx).1 = (0, Some (buildSlice log)).
Proof.
  intros Hnet Hlog Hlen. unfold Read. rewrite Hnet, Hlog. cbv zeta.
  unfold readSlices. change (default [] (Some (log ++ rest))) with (log ++ rest).
  rewrite lrange_window by lia. reflexivity.
Qed.

Lemma overlay_on_covered (prev : Z -> option source) (v : srec) (q : Z) :
  covers v q = true -> overlay_on prev v q = Some (source_at v q).
Proof. intros H. unfold overlay_on. now rewrite H. Qed.

Lemma full_log_length : Z.of_nat (length full_log) = 1000001.
Proof. unfold full_log. rewrite length_replicate. apply Z2Nat.id. discriminate. Qed.

Lemma full_log_shows : layout (buildSlice full_log) 0 = Some (Data 101 1 0).
Proof. vm_compute. reflexivity. Qed.

(** C1, the claim as stated fails for a log longer than [Read] fetches.
    The log of chunk 0 of file 7 holds 1,000,001 well-formed records, each
    the first byte of chunk 101; a [Write] of one byte of chunk 102 at
    position 0 commits and appends the 1,000,002nd record.  [Read] fetches
    [LRange 0 1000000], the first 1,000,001 records: position 0 still shows
    chunk 101, where the overlay of the new slice on what was visible shows
    chunk 102. *)
Lemma Read_after_Write_beyond_window :
  let slice := mkSlice 102 1 0 1 in
  let new := slice_record 0 slice in
  let w := committed full_window
             (Write_txf (C := juicefs_consts) (mkCtx 0 0 false) (mkTime 1600000000 0)
                full_window 7 0 0 slice) in
  Forall wf_rec full_log /\ wf_rec new /\
  Z.of_nat (length full_log) = 1000001 /\
  w.1 = 0 /\
  chunks w.2 !! (7, 0) = Some (full_log ++ [new]) /\
  exists before after,
    (Read (fun _ => None) full_window 7 0).1 = (0, Some before) /\
    (Read (fun _ => None) w.2 7 0).1 = (0, Some after) /\
    layout after 0 = Some (Data 101 1 0) /\
    overlay_on (layout before) new 0 = Some (Data 102 1 0) /\
    layout after 0 <> overlay_on (layout before) new 0.
Proof.
  intros slice new w.
  assert (Hlog : chunks full_window !! (7, 0) = Some full_log)
    by apply lookup_singleton_eq.
  assert (Hw : w.1 = 0 /\ chunks w.2 !! (7, 0) = Some (full_log ++ [new])).
  { pose proof (Write_appends (C := juicefs_consts) (mkCtx 0 0 false)
                  (mkTime 1600000000 0) full_window 7 0 0 slice (marshal empty_file)
                  (lookup_singleton_eq _ _)) as H.
    rewrite Hlog in H. exact H. }
  destruct Hw as [Hw1 Hw2].
  assert (Hover : overlay_on (layout (buildSlice full_log)) new 0 = Some (Data 102 1 0)).
  { rewrite overlay_on_covered; reflexivity. }
  split; [apply Forall_replicate; repeat split; discriminate|].
  split; [repeat split; discriminate|].
  split; [exact full_log_length|]. split; [exact Hw1|]. split; [exact Hw2|].
  exists (buildSlice full_log), (buildSlice full_log).
  split.
  { apply (Read_window _ _ _ _ full_log []); [reflexivity| |exact full_log_length].
    rewrite app_nil_r. exact Hlog. }
  split.
  { apply (Read_window _ _ _ _ full_log [new]);
      [reflexivity|exact Hw2|exact full_log_length]. }
  split; [exact full_log_shows|]. split; [exact Hover|].
  rewrite full_log_shows, Hover. discriminate.
Qed.

(** ** CopyFileRange *)

Lemma pushed_to_app (k : Z * Z) (a b : list cmd) :
  pushed_to k (a ++ b) = pushed_to k a ++ pushed_to k b.
Proof.
  induction a as [|c a IH]; [reflexivity|].
  destruct c; simpl; try exact IH.
  destruct (decide ((inode, indx) = k)); simpl; now rewrite IH.
Qed.

Lemma pushed_refs_app (chunkid size : Z) (a b : list cmd) :
  pushed_refs chunkid size (a ++ b) = pushed_refs chunkid size a + pushed_refs chunkid size b.
Proof.
  induction a as [|c a IH]; [reflexivity|].
  destruct c; simpl; try exact IH. rewrite IH. lia.
Qed.

Lemma incr_total_app (chunkid size : Z) (a b : list cmd) :
  incr_total chunkid size (a ++ b) = incr_total chunkid size a + incr_total chunkid size b.
Proof.
  induction a as [|c a IH]; [reflexivity|].
  destruct c; simpl; try exact IH. rewrite IH. lia.
Qed.

Lemma incr_total_nonneg (fout chunkid size : Z) (cmds : list cmd) :
  Forall (dest_cmd fout) cmds -> 0 <= incr_total chunkid size cmds.
Proof.
  induction 1 as [|c cmds Hc _ IH]; [reflexivity|].
  destruct c; simpl in *; try exact IH; try contradiction.
  destruct Hc as [-> _]. destruct (_ && _); lia.
Qed.

(** The logs only grow, by the records pushed to them. *)
Lemma chunks_pipeline_pushed (fout : Z) (cmds : list cmd) : forall (s : Store) (k : Z * Z),
  Forall (dest_cmd fout) cmds ->
  default [] (chunks (pipeline cmds s) !! k) = default [] (chunks s !! k) ++ pushed_to k cmds.
Proof.
  induction cmds as [|c cmds IH]; intros s k Hall.
  - simpl. now rewrite app_nil_r.
  - inversion Hall as [|? ? Hc Hrest]; subst.
    rewrite pipeline_cons, IH by exact Hrest.
    destruct c; simpl in Hc; try contradiction; simpl pushed_to.
    + now rewrite chunks_exec_other by discriminate.
    + destruct (decide ((inode, indx) = k)) as [<-|Hne].
      * rewrite chunks_RPush. simpl. now rewrite <- app_assoc.
      * rewrite chunks_exec_other; [reflexivity|].
        destruct k. simpl. congruence.
    + now rewrite chunks_exec_other by discriminate.
    + now rewrite chunks_exec_other by discriminate.
Qed.

(** A reference count moves by the total of the increments addressed to it,
    and stays as it is, absent or not, when there is none. *)
Lemma slicerefs_pipeline_incr (fout : Z) (cmds : list cmd) :
  forall (s : Store) (chunkid size : Z),
  Forall (dest_cmd fout) cmds ->
  slicerefs (pipeline cmds s) !! (chunkid, size) =
    if incr_total chunkid size cmds =? 0 then slicerefs s !! (chunkid, size)
    else Some (default 0 (slicerefs s !! (chunkid, size)) + incr_total chunkid size cmds).
Proof.
  induction cmds as [|c cmds IH]; intros s chunkid size Hall; [reflexivity|].
  inversion Hall as [|? ? Hc Hrest]; subst.
  pose proof (incr_total_nonneg fout chunkid size cmds Hrest) as Hnn.
  rewrite pipeline_cons, IH by exact Hrest.
  destruct c; simpl in Hc; try contradiction; simpl incr_total; try reflexivity.
  destruct Hc as [-> Hpos].
  destruct (Z.eqb_spec chunkid0 chunkid) as [->|Hne1];
    [destruct (Z.eqb_spec size0 size) as [->|Hne2]|]; simpl andb; cbv iota.
  - simpl. rewrite lookup_insert_eq. simpl.
    destruct (Z.eqb_spec (incr_total chunkid size cmds) 0) as [->|];
      destruct (Z.eqb_spec (1 + incr_total chunkid size cmds) 0); try lia;
      f_equal; lia.
  - simpl. rewrite lookup_insert_ne by congruence. reflexivity.
  - simpl. rewrite lookup_insert_ne by congruence. reflexivity.
Qed.

Lemma elem_of_pushed_to (k : Z * Z) (v : srec) (cmds : list cmd) :
  v ∈ pushed_to k cmds -> RPush k.1 k.2 v ∈ cmds.
Proof.
  induction cmds as [|c cmds IH]; simpl; intros Hin.
  - now apply elem_of_nil in Hin.
  - destruct c; try (apply elem_of_cons; right; now apply IH).
    destruct (decide ((inode, indx) = k)) as [<-|Hne].
    + apply elem_of_cons in Hin as [->|Hin]; [now left|right; now apply IH].
    + right. now apply IH.
Qed.

Section CopyFileRange.
Context {C : Consts}.

Lemma incr_ref_dest (fout chunkid size : Z) :
  Forall (dest_cmd fout) (incr_ref chunkid size).
Proof.
  unfold incr_ref. destruct (Z.ltb_spec 0 chunkid); repeat constructor. exact H.
Qed.

Lemma place_dest (fout doff chunkid size s_off s_len : Z) :
  Forall (dest_cmd fout) (place fout doff chunkid size s_off s_len).
Proof.
  unfold place. destruct (_ <? _);
    repeat first [apply Forall_app; split | apply incr_ref_dest
                 | apply Forall_cons; split; [reflexivity|] | apply Forall_nil_2].
Qed.

Lemma place_names (fout doff s_off s_len : Z) (sl : Slice) :
  Forall (names sl) (place fout doff (Chunkid sl) (Size sl) s_off s_len).
Proof.
  unfold place, incr_ref.
  destruct (_ <? _); destruct (0 <? Chunkid sl); repeat constructor.
Qed.

(** Each record that names a slice with a chunk id above 0 comes with one
    increment of its reference count, and there is no other increment. *)
Lemma place_refs (fout doff chunkid size s_off s_len c z : Z) :
  incr_total c z (place fout doff chunkid size s_off s_len)
  = pushed_refs c z (place fout doff chunkid size s_off s_len).
Proof.
  unfold place, incr_ref.
  destruct (_ <? _); destruct (Z.ltb_spec 0 chunkid) as [Hpos|Hpos]; simpl;
    destruct (Z.eqb_spec chunkid c) as [->|]; simpl; try reflexivity;
    destruct (Z.eqb_spec size z) as [->|]; simpl; try reflexivity;
    destruct (Z.ltb_spec 0 c); simpl; try reflexivity; lia.
Qed.

Lemma copy_slice_dest (fout offIn offOut size coff pos : Z) (sl : Slice) :
  Forall (dest_cmd fout) (copy_slice fout offIn offOut size coff pos sl) /\
  Forall (names sl) (copy_slice fout offIn offOut size coff pos sl) /\
  forall c z, incr_total c z (copy_slice fout offIn offOut size coff pos sl)
              = pushed_refs c z (copy_slice fout offIn offOut size coff pos sl).
Proof.
  unfold copy_slice. destruct (clip offIn size coff pos sl) as [[[o p] l]|].
  - split; [apply place_dest|]. split; [apply place_names|]. intros c z. apply place_refs.
  - repeat split; constructor.
Qed.

Lemma names_one_intro (cs : list Slice) (sl : Slice) (c : cmd) :
  sl ∈ cs -> names sl c -> names_one cs c.
Proof. intros Hin H. destruct c; simpl in *; try exact I. now exists sl. Qed.

Lemma names_one_mono (cs cs' : list Slice) (c : cmd) :
  (forall sl, sl ∈ cs -> sl ∈ cs') -> names_one cs c -> names_one cs' c.
Proof.
  intros Hsub H. destruct c; simpl in *; try exact I.
  destruct H as (sl & Hin & H). exists sl. split; [now apply Hsub|exact H].
Qed.

Lemma copy_chunk_dest (fout offIn offOut size coff : Z) (cs : list Slice) : forall tpos,
  Forall (dest_cmd fout) (copy_chunk fout offIn offOut size coff tpos cs) /\
  Forall (names_one cs) (copy_chunk fout offIn offOut size coff tpos cs) /\
  forall c z, incr_total c z (copy_chunk fout offIn offOut size coff tpos cs)
              = pushed_refs c z (copy_chunk fout offIn offOut size coff tpos cs).
Proof.
  induction cs as [|sl cs IH]; intros tpos; simpl.
  - repeat split; constructor.
  - destruct (copy_slice_dest fout offIn offOut size coff tpos sl) as (D1 & N1 & R1).
    destruct (IH (u32 (tpos + Len sl))) as (D2 & N2 & R2).
    split; [apply Forall_app; now split|]. split.
    + apply Forall_app. split.
      * eapply Forall_impl; [exact N1|]. intros c Hc.
        eapply names_one_intro; [|exact Hc]. now left.
      * eapply Forall_impl; [exact N2|]. intros c Hc.
        eapply names_one_mono; [|exact Hc]. intros sl' Hin. now right.
    + intros c z. now rewrite incr_total_app, pushed_refs_app, R1, R2.
Qed.

Lemma copy_chunks_dest (fout offIn offOut size : Z) (vals : list (list srec)) : forall coff,
  Forall (dest_cmd fout) (copy_chunks fout offIn offOut size coff vals) /\
  Forall (names_source vals) (copy_chunks fout offIn offOut size coff vals) /\
  forall c z, incr_total c z (copy_chunks fout offIn offOut size coff vals)
              = pushed_refs c z (copy_chunks fout offIn offOut size coff vals).
Proof.
  induction vals as [|sv vals IH]; intros coff; simpl.
  - repeat split; constructor.
  - destruct (copy_chunk_dest fout offIn offOut size coff
                (buildSlice (mkSrec 0 0 0 0 (u32 ChunkSize) :: readSlices sv)) 0)
      as (D1 & N1 & R1).
    destruct (IH (u64 (coff + ChunkSize))) as (D2 & N2 & R2).
    split; [apply Forall_app; now split|]. split.
    + apply Forall_app. split.
      * eapply Forall_impl; [exact N1|]. intros c Hc.
        destruct c; simpl in *; try exact I.
        destruct Hc as (sl & Hin & H). exists sv, sl. split; [now left|]. now split.
      * eapply Forall_impl; [exact N2|]. intros c Hc.
        destruct c; simpl in *; try exact I.
        destruct Hc as (sv' & sl & Hin & H). exists sv', sl. split; [now right|exact H].
    + intros c z. now rewrite incr_total_app, pushed_refs_app, R1, R2.
Qed.

(** A piece of data that fits the destination chunk gives one record; one
    that crosses its end gives two, the first up to the end of the chunk,
    the second at the start of the next chunk with the rest. *)
Lemma place_split (fout doff chunkid size s_off s_len : Z) :
  0 < ChunkSize < 2 ^ 31 -> 0 <= doff -> doff + s_len < 2 ^ 32 * ChunkSize ->
  0 <= s_len < 2 ^ 31 -> 0 <= s_off -> s_off + s_len < 2 ^ 32 ->
  let indx := doff / ChunkSize in
  let dpos := doff mod ChunkSize in
  place fout doff chunkid size s_off s_len =
    if ChunkSize <? dpos + s_len then
      [RPush fout indx (mkSrec dpos chunkid size s_off (ChunkSize - dpos))]
      ++ incr_ref chunkid size
      ++ [RPush fout (indx + 1)
            (mkSrec 0 chunkid size (s_off + (ChunkSize - dpos))
               (s_len - (ChunkSize - dpos)))]
      ++ incr_ref chunkid size
    else
      [RPush fout indx (mkSrec dpos chunkid size s_off s_len)] ++ incr_ref chunkid size.
Proof.
  intros Hcs Hd Hend Hlen Ho1 Ho2 indx dpos.
  assert (Hnz : ChunkSize <> 0) by lia.
  assert (Hpos : 0 < ChunkSize) by lia.
  pose proof (Z.div_mod doff _ Hnz) as Hdm.
  pose proof (Z.mod_pos_bound doff _ Hpos) as Hm.
  assert (Hi : 0 <= indx) by (apply Z.div_pos; lia).
  fold indx dpos in Hdm, Hm.
  assert (Hi2 : indx < 2 ^ 32) by (apply Z.div_lt_upper_bound; lia).
  unfold place. fold indx dpos.
  rewrite (u32_small indx) by lia. rewrite (u32_small dpos) by lia.
  rewrite (u32_small (dpos + s_len)) by lia.
  destruct (Z.ltb_spec ChunkSize (dpos + s_len)) as [Hx|Hx]; [|reflexivity].
  assert (indx + 1 < 2 ^ 32) by nia.
  rewrite (u32_small (ChunkSize - dpos)) by lia.
  rewrite (u32_small (indx + 1)) by lia.
  rewrite (u32_small (s_off + _)) by lia.
  rewrite (u32_small (s_len - _)) by lia.
  reflexivity.
Qed.

(** *** Reprojection of the source slices *)

(** The nodes of a search tree name data within 32 bits. *)
Lemma bst_visit_bounds (t : slice) : forall lo hi,
  bst lo hi t ->
  Forall (fun v => 0 <= r_len v /\ 0 <= r_off v /\ r_off v + r_len v < 2 ^ 32) (visit t).
Proof.
  induction t as [|l IHl v r IHr]; intros lo hi H; simpl in *; [constructor|].
  destruct H as (Hl & Hlen & Ho1 & Ho2 & Hr).
  apply Forall_app. split; [eapply IHl; exact Hl|].
  constructor; [now repeat split|eapply IHr; exact Hr].
Qed.

Lemma emit_bounds (l : list srec) : forall pos acc,
  Forall (fun v => 0 <= r_len v /\ 0 <= r_off v /\ r_off v + r_len v < 2 ^ 32) l ->
  Forall (fun c => 0 <= Len c /\ 0 <= Off c /\ Off c + Len c < 2 ^ 32) acc ->
  Forall (fun c => 0 <= Len c /\ 0 <= Off c /\ Off c + Len c < 2 ^ 32)
    (foldl emit (pos, acc) l).2.
Proof.
  induction l as [|v l IH]; intros pos acc Hl Hacc; [exact Hacc|].
  inversion Hl as [|? ? Hv Hrest]; subst.
  change (foldl emit (pos, acc) (v :: l)) with (foldl emit (emit (pos, acc) v) l).
  destruct (emit (pos, acc) v) as [p a] eqn:E.
  apply IH; [exact Hrest|].
  unfold emit in E. destruct (pos <? r_pos v); injection E as _ <-.
  - apply Forall_app. split.
    + apply Forall_app. split; [exact Hacc|]. constructor; [|constructor]. simpl.
      pose proof (Z.mod_pos_bound (r_pos v - pos) (2 ^ 32)). unfold u32. lia.
    + constructor; [|constructor]. simpl. exact Hv.
  - apply Forall_app. split; [exact Hacc|]. constructor; [|constructor]. simpl. exact Hv.
Qed.

(** The slices [buildSlice] returns have a length and name data within 32
    bits. *)
Lemma buildSlice_bounds (ss : list srec) :
  Forall wf_rec ss ->
  Forall (fun c => 0 <= Len c /\ 0 <= Off c /\ Off c + Len c < 2 ^ 32) (buildSlice ss).
Proof.
  intros Hwf. unfold buildSlice.
  destruct (build_root_spec ss Hwf) as (B & _ & _).
  apply emit_bounds; [|constructor]. eapply bst_visit_bounds. exact B.
Qed.

Lemma extent_le (ss : list srec) (M : Z) :
  0 <= M -> Forall (fun v => r_pos v + r_len v <= M) ss -> extent ss <= M.
Proof.
  intros HM. induction ss as [|v ss IH] using rev_ind; intros H.
  - unfold extent. simpl. exact HM.
  - apply Forall_app in H as [Hss Hv]. inversion Hv; subst.
    rewrite extent_snoc. specialize (IH Hss). lia.
Qed.

Lemma extent_ge_foldl (ss : list srec) : forall e,
  e <= foldl (fun e s => Z.max e (r_pos s + r_len s)) e ss.
Proof.
  induction ss as [|v ss IH]; intros e; simpl; [lia|].
  specialize (IH (Z.max e (r_pos v + r_len v))). lia.
Qed.

(** A source chunk resolved behind the full-chunk hole: its slices tile
    the chunk. *)
Lemma resolved_chunk (log : list srec) :
  0 < ChunkSize < 2 ^ 31 -> Forall in_chunk log ->
  let cs := buildSlice (mkSrec 0 0 0 0 (u32 ChunkSize) :: readSlices log) in
  Forall (fun c => 0 <= Len c /\ 0 <= Off c /\ Off c + Len c < 2 ^ 32) cs /\
  total_len cs = ChunkSize.
Proof.
  intros Hcs Hlog cs. subst cs. unfold readSlices.
  rewrite (u32_small ChunkSize) by lia.
  assert (Hwf : Forall wf_rec (mkSrec 0 0 0 0 ChunkSize :: log)).
  { constructor; [repeat split; simpl; lia|].
    eapply Forall_impl; [exact Hlog|]. now intros v [Hv _]. }
  split; [now apply buildSlice_bounds|].
  destruct (buildSlice_visible _ Hwf) as (_ & -> & _).
  apply Z.le_antisymm.
  - apply extent_le; [lia|]. constructor; [simpl; lia|].
    eapply Forall_impl; [exact Hlog|]. now intros v [_ Hv].
  - unfold extent. simpl.
    etransitivity; [|apply extent_ge_foldl]. lia.
Qed.

(** The positions of the slices of a chunk are the lengths before them. *)
Lemma positioned_bounds (cs : list Slice) : forall tpos,
  0 <= tpos -> Forall (fun c => 0 <= Len c) cs -> tpos + total_len cs < 2 ^ 32 ->
  Forall (fun x => tpos <= x.1 /\ x.1 + Len x.2 <= tpos + total_len cs /\ x.2 ∈ cs)
    (positioned tpos cs).
Proof.
  induction cs as [|c cs IH]; intros tpos H0 Hnn Htot; simpl; [constructor|].
  inversion Hnn as [|? ? Hc Hrest]; subst.
  pose proof (total_len_nonneg cs Hrest) as Hge.
  change (total_len (c :: cs)) with (Len c + total_len cs) in *.
  constructor.
  - simpl. split; [lia|]. split; [lia|]. now left.
  - rewrite u32_small by lia.
    eapply Forall_impl; [apply IH; [lia|exact Hrest|lia]|].
    intros x (H1 & H2 & H3). split; [lia|]. split; [lia|]. now right.
Qed.

(** [place] in plain arithmetic. *)
Lemma place_records (fout doff chunkid size s_off s_len : Z) :
  0 < ChunkSize < 2 ^ 31 -> 0 <= doff -> doff + s_len < 2 ^ 32 * ChunkSize ->
  0 <= s_len < 2 ^ 31 -> 0 <= s_off -> s_off + s_len < 2 ^ 32 ->
  place fout doff chunkid size s_off s_len = records fout doff chunkid size s_off s_len.
Proof. intros. now apply place_split. Qed.

(** One iteration of the loop: a slice that does not reach beyond the end
    of the range is reprojected. *)
Lemma copy_slice_reproject (fout offIn offOut size coff pos : Z) (sl : Slice) :
  0 < ChunkSize < 2 ^ 31 ->
  0 <= offIn -> 0 <= offOut -> 0 <= size ->
  offIn + size < 2 ^ 63 -> offOut + size < 2 ^ 32 * ChunkSize ->
  0 <= coff < 2 ^ 63 -> 0 <= pos -> pos + Len sl <= ChunkSize ->
  0 <= Len sl -> 0 <= Off sl -> Off sl + Len sl < 2 ^ 32 ->
  coff + pos + Len sl <= offIn + size \/ offIn + size <= coff + pos ->
  copy_slice fout offIn offOut size coff pos sl
  = reproject fout offIn offOut size (coff + pos, sl).
Proof.
  intros Hcs HoI HoO Hsz HI HO Hcoff Hpos Hin Hlen Hoff1 Hoff2 Hend.
  unfold copy_slice, clip, reproject. cbn [fst snd].
  rewrite (u64_small (coff + pos)) by lia.
  rewrite (u64_small (offIn + size)) by lia.
  rewrite (u64_small (coff + pos + Len sl)) by lia.
  destruct (Z.ltb_spec (coff + pos) (offIn + size)) as [H1|H1]; [|reflexivity].
  destruct (Z.ltb_spec offIn (coff + pos + Len sl)) as [H2|H2]; [|reflexivity].
  cbn [andb]. destruct Hend as [Hend|Hend]; [|lia].
  destruct (Z.ltb_spec (coff + pos) offIn) as [H3|H3].
  - rewrite (u64_small (offIn - coff)) by lia.
    rewrite (u64_small (offIn - coff - pos)) by lia.
    rewrite (u32_small (offIn - coff - pos)) by lia.
    rewrite (u32_small (Off sl + _)) by lia.
    rewrite (u32_small (pos + _)) by lia.
    rewrite (u32_small (Len sl - _)) by lia.
    cbv zeta.
    replace (coff + (pos + (offIn - coff - pos))) with offIn by lia.
    rewrite (u64_small offIn) by lia.
    rewrite (u64_small (offIn + _)) by lia.
    destruct (Z.ltb_spec (offIn + size) (offIn + (Len sl - (offIn - coff - pos))));
      [lia|].
    rewrite (u64_small (offIn - offIn)) by lia.
    rewrite (u64_small (offIn - offIn + offOut)) by lia.
    rewrite place_records by lia.
    rewrite Z.max_r, Z.min_l by lia.
    f_equal; lia.
  - cbv zeta.
    rewrite (u64_small (coff + pos)) by lia.
    rewrite (u64_small (coff + pos + Len sl)) by lia.
    destruct (Z.ltb_spec (offIn + size) (coff + pos + Len sl)); [lia|].
    rewrite (u64_small (coff + pos - offIn)) by lia.
    rewrite (u64_small (coff + pos - offIn + offOut)) by lia.
    rewrite place_records by lia.
    rewrite Z.max_l, Z.min_l by lia.
    f_equal; lia.
Qed.

Lemma copy_chunk_pieces (fout offIn offOut size coff : Z) (cs : list Slice) : forall tpos,
  copy_chunk fout offIn offOut size coff tpos cs
  = concat (map (fun x => copy_slice fout offIn offOut size coff x.1 x.2)
              (positioned tpos cs)).
Proof.
  induction cs as [|c cs IH]; intros tpos; simpl; [reflexivity|]. now rewrite IH.
Qed.

Lemma Forall_lrange {A : Type} (P : A -> Prop) (l : list A) (start stop : Z) :
  Forall P l -> Forall P (lrange l start stop).
Proof.
  intros H. unfold lrange. cbv zeta. destruct (_ || _); [constructor|].
  now apply Forall_take, Forall_drop.
Qed.

(** The loop over the slices of one source chunk. *)
Lemma copy_chunk_reprojects (fout offIn offOut size i : Z) (log : list srec) :
  0 < ChunkSize < 2 ^ 31 ->
  0 <= offIn -> 0 <= offOut -> 0 <= size ->
  offIn + size < 2 ^ 63 -> offOut + size < 2 ^ 32 * ChunkSize ->
  0 <= i -> i * ChunkSize <= offIn + size -> Forall in_chunk log ->
  let cs := buildSlice (mkSrec 0 0 0 0 (u32 ChunkSize) :: readSlices log) in
  Forall2 (reprojected fout offIn offOut size)
    (map (fun x => (i * ChunkSize + x.1, x.2)) (positioned 0 cs))
    (map (fun x => copy_slice fout offIn offOut size (i * ChunkSize) x.1 x.2)
       (positioned 0 cs)).
Proof.
  intros Hcs HoI HoO Hsz HI HO Hi Hle Hlog cs.
  destruct (resolved_chunk log Hcs Hlog) as [Hb Htot]. fold cs in Hb, Htot.
  assert (Hnn : Forall (fun c => 0 <= Len c) cs).
  { eapply Forall_impl; [exact Hb|]. now intros c [H _]. }
  pose proof (positioned_bounds cs 0 ltac:(lia) Hnn ltac:(lia)) as Hp.
  apply Forall2_fmap, Forall_Forall2_diag.
  eapply Forall_impl; [exact Hp|].
  intros x (H1 & H2 & H3) Hend. cbn [fst snd] in Hend.
  rewrite Forall_forall in Hb. destruct (Hb _ H3) as (Hl & Ho1 & Ho2).
  apply copy_slice_reproject; try assumption; lia.
Qed.

(** The loop over the source chunks [i0 .. i0 + n - 1]. *)
Lemma copy_chunks_reprojects (fout offIn offOut size : Z) (logf : Z -> list srec)
    (n : nat) : forall i0,
  0 < ChunkSize < 2 ^ 31 ->
  0 <= offIn -> 0 <= offOut -> 0 <= size ->
  offIn + size < 2 ^ 63 -> offOut + size < 2 ^ 32 * ChunkSize ->
  0 <= i0 -> (i0 + Z.of_nat n - 1) * ChunkSize <= offIn + size ->
  (forall i, Forall in_chunk (logf i)) ->
  exists pieces,
    copy_chunks fout offIn offOut size (i0 * ChunkSize)
      (map logf (seqZ i0 (Z.of_nat n))) = concat pieces /\
    Forall2 (reprojected fout offIn offOut size)
      (flat_map
         (fun i =>
            map (fun x => (i * ChunkSize + x.1, x.2))
              (positioned 0
                 (buildSlice (mkSrec 0 0 0 0 (u32 ChunkSize) :: readSlices (logf i)))))
         (seqZ i0 (Z.of_nat n)))
      pieces.
Proof.
  induction n as [|n IH]; intros i0 Hcs HoI HoO Hsz HI HO Hi Hle Hlog.
  - exists []. split; [reflexivity|constructor].
  - rewrite seqZ_cons by lia.
    replace (Z.pred (Z.of_nat (S n))) with (Z.of_nat n) by lia.
    destruct (IH (Z.succ i0) Hcs HoI HoO Hsz HI HO ltac:(lia) ltac:(lia) Hlog)
      as (pieces & Heq & HF).
    assert (Hi0 : i0 * ChunkSize <= offIn + size) by nia.
    exists (map (fun x => copy_slice fout offIn offOut size (i0 * ChunkSize) x.1 x.2)
              (positioned 0
                 (buildSlice (mkSrec 0 0 0 0 (u32 ChunkSize) :: readSlices (logf i0))))
            ++ pieces).
    split.
    + cbn [map copy_chunks]. cbv zeta.
      rewrite copy_chunk_pieces, concat_app.
      rewrite (u64_small (i0 * ChunkSize + ChunkSize)) by nia.
      replace (i0 * ChunkSize + ChunkSize) with (Z.succ i0 * ChunkSize) by lia.
      now rewrite Heq.
    + cbn [flat_map]. apply Forall2_app; [|exact HF].
      apply copy_chunk_reprojects; try assumption. apply Hlog.
Qed.

Lemma concat_nils {A B : Type} (l : list B) :
  concat (map (fun _ => @nil A) l) = [].
Proof. induction l as [|x l IH]; [reflexivity|exact IH]. Qed.

(** The commands of a copy, slice by slice. *)
Lemma CopyFileRange_pieces (ctx : Ctx) (now : Time) (s : Store)
    (fin offIn fout offOut size flags : Z) (cmds : list cmd) (copied : Z) :
  CopyFileRange_txf ctx now s fin offIn fout offOut size flags = Commit cmds copied ->
  0 < ChunkSize < 2 ^ 31 ->
  0 <= offIn -> 0 <= offOut -> 0 <= size ->
  offIn + size < 2 ^ 63 -> offOut + size < 2 ^ 32 * ChunkSize ->
  (forall i, Forall in_chunk (default [] (chunks s !! (fin, i)))) ->
  0 <= copied <= size /\
  exists pieces tail,
    cmds = concat pieces ++ tail /\
    (forall k, pushed_to k tail = []) /\
    Forall2 (reprojected fout offIn offOut copied) (source_slices s fin offIn copied) pieces.
Proof.
  intros Hrun Hcs HoI HoO Hsz HI HO Hlog.
  unfold CopyFileRange_txf in Hrun.
  destruct (inodes s !! fin) as [a_in|]; [|discriminate].
  destruct (inodes s !! fout) as [a_out|]; [|discriminate].
  destruct (negb (Typ (parseAttr a_in Attr0) =? TypeFile)); [discriminate|].
  destruct (Z.leb_spec (Length (parseAttr a_in Attr0)) offIn) as [Hearly|Hlate].
  { injection Hrun as <- <-. split; [lia|].
    exists (map (fun _ => []) (source_slices s fin offIn 0)), [].
    split; [now rewrite concat_nils|]. split; [reflexivity|].
    apply Forall2_fmap_r, Forall_Forall2_diag, Forall_forall.
    intros x _ Hend. unfold reproject.
    destruct (Z.ltb_spec x.1 (offIn + 0)); [|reflexivity].
    destruct (Z.ltb_spec offIn (x.1 + Len x.2)); [lia|reflexivity]. }
  cbv zeta in Hrun.
  destruct (negb (Typ (parseAttr a_out Attr0) =? TypeFile)); [discriminate|].
  injection Hrun as <- <-.
  rewrite (u64_small (offIn + size)) by lia.
  set (size' := if Length (parseAttr a_in Attr0) <? offIn + size
                then u64 (Length (parseAttr a_in Attr0) - offIn) else size).
  assert (Hsz' : 0 <= size' <= size).
  { subst size'. destruct (Z.ltb_spec (Length (parseAttr a_in Attr0)) (offIn + size));
      [rewrite u64_small by lia|]; lia. }
  split; [exact Hsz'|].
  assert (Hnz : ChunkSize <> 0) by lia.
  assert (Hpos : 0 < ChunkSize) by lia.
  pose proof (Z.div_mod offIn _ Hnz) as Hdm.
  pose proof (Z.mod_pos_bound offIn _ Hpos) as Hm.
  pose proof (Z.div_mod (offIn + size') _ Hnz) as Hdm'.
  pose proof (Z.mod_pos_bound (offIn + size') _ Hpos) as Hm'.
  assert (Hi0 : 0 <= offIn / ChunkSize) by (apply Z.div_pos; lia).
  assert (Hmono : offIn / ChunkSize <= (offIn + size') / ChunkSize)
    by (apply Z.div_le_mono; lia).
  set (n := (offIn + size') / ChunkSize - offIn / ChunkSize + 1).
  assert (Hn : Z.of_nat (Z.to_nat n) = n) by (subst n; lia).
  assert (Hlast : (offIn / ChunkSize + Z.of_nat (Z.to_nat n) - 1) * ChunkSize
                  <= offIn + size') by (rewrite Hn; subst n; nia).
  assert (Hlogs : forall i, Forall in_chunk
                    (lrange (default [] (chunks s !! (fin, u32 i))) 0 1000000))
    by (intros i; apply Forall_lrange, Hlog).
  destruct (copy_chunks_reprojects fout offIn offOut size'
              (fun i => lrange (default [] (chunks s !! (fin, u32 i))) 0 1000000)
              (Z.to_nat n) (offIn / ChunkSize) Hcs HoI HoO ltac:(lia) ltac:(lia)
              ltac:(lia) Hi0 Hlast Hlogs)
    as (pieces & Heq & HF).
  rewrite Hn in Heq, HF.
  change (if b_length a_in <? offIn + size then u64 (b_length a_in - offIn) else size)
    with size'.
  eexists pieces, _. split; [|split; [|]].
  - unfold source_logs. rewrite (u64_small (offIn + size')) by lia.
    rewrite (u64_small (offIn / ChunkSize * ChunkSize)) by nia.
    fold n. rewrite Heq. reflexivity.
  - intros k. destruct (0 <? _); reflexivity.
  - unfold source_slices. rewrite (u64_small (offIn + size')) by lia. exact HF.
Qed.

(** C6 as amended.  A [CopyFileRange] that commits queues nothing but
    appends to chunk logs of the destination [fout], increments by one of
    reference counts of slices with a chunk id above 0, the attribute of
    [fout] and [usedSpace].  Hence, when source and destination are
    different files, every key of the source [fin] (attribute, and so
    length, chunk logs, symlink, extended attributes) holds what it held;
    the chunk logs of [fout] grow by the records pushed; each record pushed
    names the chunk id and size of a slice of a resolved source chunk; a
    reference count is advanced by the number of records pushed that name
    it with a chunk id above 0; and a piece of data crossing the end of a
    destination chunk is placed as two records.

    The reprojection: for offsets and a size within range and source logs
    of records that lie within their chunk, the commands queued are, in
    the order of the source, one piece for each slice of the resolved
    source chunks, followed by commands that append nothing.  The piece of
    a slice that does not reach beyond the end of the range copied is its
    reprojection [reproject]: nothing for a slice outside of the range;
    otherwise the records [records], one or, across a chunk boundary of
    the destination, two, that place the part of the slice within the range
    (same chunk id and size, the offset into the data advanced by what is
    cut off at the head) at its file offset less [offIn] plus [offOut],
    each record with its reference.  Of the piece of the one slice that
    reaches beyond the end of the range nothing is said. *)
Theorem CopyFileRange_source_unchanged (ctx : Ctx) (now : Time) (s : Store)
    (fin offIn fout offOut size flags : Z) (cmds : list cmd) (copied : Z) :
  CopyFileRange_txf ctx now s fin offIn fout offOut size flags = Commit cmds copied ->
  Forall (dest_cmd fout) cmds /\
  (fin <> fout ->
   forall k, key_inode k = Some fin -> get (pipeline cmds s) k = get s k) /\
  (forall indx,
     default [] (chunks (pipeline cmds s) !! (fout, indx))
     = default [] (chunks s !! (fout, indx)) ++ pushed_to (fout, indx) cmds) /\
  (forall indx v, v ∈ pushed_to (fout, indx) cmds ->
     exists i sl,
       sl ∈ buildSlice (mkSrec 0 0 0 0 (u32 ChunkSize)
                          :: lrange (default [] (chunks s !! (fin, i))) 0 1000000) /\
       r_chunkid v = Chunkid sl /\ r_size v = Size sl) /\
  (forall chunkid sz,
     slicerefs (pipeline cmds s) !! (chunkid, sz) =
       if pushed_refs chunkid sz cmds =? 0 then slicerefs s !! (chunkid, sz)
       else Some (default 0 (slicerefs s !! (chunkid, sz)) + pushed_refs chunkid sz cmds)) /\
  (forall doff chunkid sz s_off s_len,
     0 < ChunkSize < 2 ^ 31 -> 0 <= doff -> doff + s_len < 2 ^ 32 * ChunkSize ->
     0 <= s_len < 2 ^ 31 -> 0 <= s_off -> s_off + s_len < 2 ^ 32 ->
     ChunkSize < doff mod ChunkSize + s_len ->
     pushed_to (fout, doff / ChunkSize) (place fout doff chunkid sz s_off s_len)
       = [mkSrec (doff mod ChunkSize) chunkid sz s_off (ChunkSize - doff mod ChunkSize)] /\
     pushed_to (fout, doff / ChunkSize + 1) (place fout doff chunkid sz s_off s_len)
       = [mkSrec 0 chunkid sz (s_off + (ChunkSize - doff mod ChunkSize))
            (s_len - (ChunkSize - doff mod ChunkSize))]) /\
  (0 < ChunkSize < 2 ^ 31 ->
   0 <= offIn -> 0 <= offOut -> 0 <= size ->
   offIn + size < 2 ^ 63 -> offOut + size < 2 ^ 32 * ChunkSize ->
   (forall i, Forall in_chunk (default [] (chunks s !! (fin, i)))) ->
   0 <= copied <= size /\
   exists pieces tail,
     cmds = concat pieces ++ tail /\
     (forall k, pushed_to k tail = []) /\
     Forall2 (reprojected fout offIn offOut copied)
       (source_slices s fin offIn copied) pieces).
Proof.
  intros Hrun.
  pose proof (CopyFileRange_pieces ctx now s fin offIn fout offOut size flags cmds copied
                Hrun) as Hpieces.
  assert (Hshape : exists vals size' coff tail,
             cmds = copy_chunks fout offIn offOut size' coff vals ++ tail /\
             (forall sv, sv ∈ vals ->
                exists i, sv = lrange (default [] (chunks s !! (fin, i))) 0 1000000) /\
             Forall (dest_cmd fout) tail /\
             (forall c z, incr_total c z tail = 0) /\
             (forall c z, pushed_refs c z tail = 0) /\
             (forall k, pushed_to k tail = [])).
  { unfold CopyFileRange_txf in Hrun.
    destruct (inodes s !! fin) as [a_in|]; [|discriminate].
    destruct (inodes s !! fout) as [a_out|]; [|discriminate].
    destruct (negb (Typ (parseAttr a_in Attr0) =? TypeFile)); [discriminate|].
    destruct (Length (parseAttr a_in Attr0) <=? offIn).
    { injection Hrun as <- <-. exists [], size, 0, []. simpl.
      repeat split; try constructor. intros sv Hsv. now apply elem_of_nil in Hsv. }
    cbv zeta in Hrun.
    destruct (negb (Typ (parseAttr a_out Attr0) =? TypeFile)); [discriminate|].
    injection Hrun as <- <-.
    eexists _, _, _, _. split; [reflexivity|]. split.
    { intros sv Hsv. unfold source_logs in Hsv.
      apply list_elem_of_fmap in Hsv as (i & -> & _). now exists (u32 i). }
    destruct (0 <? _); repeat split; repeat constructor. }
  destruct Hshape as (vals & size' & coff & tail & -> & Hvals & Dt & It & Rt & Pt).
  destruct (copy_chunks_dest fout offIn offOut size' vals coff) as (D & N & R).
  assert (Hall : Forall (dest_cmd fout)
                   (copy_chunks fout offIn offOut size' coff vals ++ tail)).
  { apply Forall_app. now split. }
  split; [exact Hall|]. split.
  { intros Hne k Hk. apply pipeline_frame.
    eapply Forall_impl; [exact Hall|]. intros c Hc Heq. subst k.
    destruct c; simpl in *; try contradiction; try discriminate; congruence. }
  split; [intros indx; now apply (chunks_pipeline_pushed fout)|]. split.
  { intros indx v Hin. rewrite pushed_to_app, Pt, app_nil_r in Hin.
    apply elem_of_pushed_to in Hin.
    rewrite Forall_forall in N. specialize (N _ Hin).
    simpl in N. destruct N as (sv & sl & Hsv & Hsl & Hn).
    destruct (Hvals _ Hsv) as (i & ->). now exists i, sl. }
  split.
  { intros chunkid sz.
    rewrite (slicerefs_pipeline_incr fout) by exact Hall.
    now rewrite incr_total_app, pushed_refs_app, It, Rt, R. }
  split; [|exact Hpieces].
  intros doff chunkid sz s_off s_len Hcs Hd Hend Hlen Ho1 Ho2 Hx.
  pose proof (place_split fout doff chunkid sz s_off s_len Hcs Hd Hend Hlen Ho1 Ho2) as Hp.
  cbv zeta in Hp. rewrite Hp.
  destruct (Z.ltb_spec ChunkSize (doff mod ChunkSize + s_len)); [|lia].
  unfold incr_ref. destruct (0 <? chunkid); simpl;
    repeat first [ rewrite decide_True by reflexivity
                 | rewrite decide_False by (intros [=]; lia) ];
    split; reflexivity.
Qed.

End CopyFileRange.

Lemma CopyFileRange_source_unchanged_witness :
  (exists cmds copied,
    copy_1_3 = Commit cmds copied /\
    get (pipeline cmds two_files) (inodeKey 7) = get two_files (inodeKey 7) /\
    get (pipeline cmds two_files) (chunkKey 7 0) = get two_files (chunkKey 7 0) /\
    (forall v, v ∈ default [] (chunks (pipeline cmds two_files) !! (8, 0)) ->
               r_chunkid v = 101 /\ r_size v = 8 * MiB) /\
    slicerefs (pipeline cmds two_files) !! (101, 8 * MiB) = Some 1) /\
  (exists cmds copied,
    copy_1_7 = Commit cmds copied /\
    copied = 7 * MiB /\
    get (pipeline cmds two_files) (chunkKey 7 0) = get two_files (chunkKey 7 0) /\
    source_slices (C := juicefs_consts) two_files 7 MiB copied
    = [(0, mkSlice 101 (8 * MiB) 0 (8 * MiB)); (8 * MiB, mkSlice 0 0 (8 * MiB) (56 * MiB))] /\
    default [] (chunks (pipeline cmds two_files) !! (8, 0))
    = [mkSrec 0 101 (8 * MiB) MiB (7 * MiB)] /\
    slicerefs (pipeline cmds two_files) !! (101, 8 * MiB) = Some 1).
Proof.
  split.
  {
    destruct copy_1_3 as [err|cmds copied] eqn:Hrun; [vm_compute in Hrun; discriminate|].
    exists cmds, copied. split; [reflexivity|].
    destruct (CopyFileRange_source_unchanged (C := juicefs_consts) _ _ _ _ _ _ _ _ _ _ _ Hrun)
      as (_ & Hframe & Hlogs & _ & Hrefs & _ & _).
    assert (Hcmds : pushed_to (8, 0) cmds = [mkSrec 0 101 (8 * MiB) MiB (11 * MiB)]
                    /\ pushed_refs 101 (8 * MiB) cmds = 1).
    { vm_compute in Hrun. injection Hrun as <- _. split; reflexivity. }
    destruct Hcmds as [Hpushed Hcount].
    split; [apply Hframe; [lia|reflexivity]|].
    split; [apply Hframe; [lia|reflexivity]|].
    split.
    - intros v Hv. rewrite Hlogs, Hpushed in Hv.
      change (chunks two_files !! (8, 0)) with
        (({[ (7, 0) := [mkSrec 0 101 (8 * MiB) 0 (8 * MiB)] ]} : gmap (Z * Z) (list srec)) !! (8, 0))
        in Hv.
      rewrite lookup_singleton_ne in Hv by (intros [=]).
      apply list_elem_of_singleton in Hv. subst v. split; reflexivity.
    - rewrite Hrefs, Hcount. reflexivity.
  }
  destruct copy_1_7 as [err|cmds copied] eqn:Hrun; [vm_compute in Hrun; discriminate|].
  exists cmds, copied. split; [reflexivity|].
  assert (Hcopied : copied = 7 * MiB).
  { vm_compute in Hrun. injection Hrun as _ <-. reflexivity. }
  split; [exact Hcopied|].
  destruct (CopyFileRange_source_unchanged (C := juicefs_consts) _ _ _ _ _ _ _ _ _ _ _ Hrun)
    as (_ & Hframe & Hlogs & _ & Hrefs & _ & Hre).
  split; [apply Hframe; [lia|reflexivity]|].
  assert (Hin : forall i, Forall (in_chunk (C := juicefs_consts))
                   (default [] (chunks two_files !! (7, i)))).
  { intros i.
    change (chunks two_files) with
      ({[ (7, 0) := [mkSrec 0 101 (8 * MiB) 0 (8 * MiB)] ]} : gmap (Z * Z) (list srec)).
    destruct (decide (i = 0)) as [->|Hne].
    - rewrite lookup_singleton_eq. repeat constructor; vm_compute; congruence.
    - rewrite lookup_singleton_ne by congruence. constructor. }
  destruct (Hre ltac:(vm_compute; split; reflexivity) ltac:(unfold MiB; lia) ltac:(lia)
              ltac:(unfold MiB; lia) ltac:(unfold MiB; lia)
              ltac:(vm_compute; reflexivity) Hin)
    as (_ & pieces & tail & Hcmds & Htail & HF).
  subst copied.
  assert (Hsl : source_slices (C := juicefs_consts) two_files 7 MiB (7 * MiB)
                = [(0, mkSlice 101 (8 * MiB) 0 (8 * MiB));
                   (8 * MiB, mkSlice 0 0 (8 * MiB) (56 * MiB))])
    by (vm_compute; reflexivity).
  split; [exact Hsl|].
  rewrite Hsl in HF.
  apply Forall2_cons_inv_l in HF as (p1 & ps1 & H1 & HF & ->).
  apply Forall2_cons_inv_l in HF as (p2 & ps2 & H2 & HF & ->).
  apply Forall2_nil_inv_l in HF as ->.
  rewrite (H1 ltac:(left; vm_compute; discriminate)) in Hcmds.
  rewrite (H2 ltac:(right; vm_compute; discriminate)) in Hcmds.
  assert (Hpushed : pushed_to (8, 0) cmds = [mkSrec 0 101 (8 * MiB) MiB (7 * MiB)]).
  { rewrite Hcmds, pushed_to_app, Htail. vm_compute. reflexivity. }
  assert (Hcount : pushed_refs 101 (8 * MiB) cmds = 1).
  { vm_compute in Hrun. injection Hrun as <-. reflexivity. }
  split.
  - rewrite Hlogs, Hpushed.
    change (chunks two_files !! (8, 0)) with
      (({[ (7, 0) := [mkSrec 0 101 (8 * MiB) 0 (8 * MiB)] ]} : gmap (Z * Z) (list srec))
         !! (8, 0)).
    rewrite lookup_singleton_ne by (intros [=]). reflexivity.
  - rewrite Hrefs, Hcount. reflexivity.
Defined.

(** C6, the claim as stated fails when source and destination are the same
    file: 1 MiB is copied from offset 0 to offset 16 MiB of file 7; the
    chunk log and the attribute of file 7, the source, are both changed. *)
Lemma CopyFileRange_same_file_changes_source :
  exists cmds copied,
    CopyFileRange_txf (C := juicefs_consts) (mkCtx 0 0 false) (mkTime 1600000000 0)
      two_files 7 0 7 (16 * MiB) MiB 0 = Commit cmds copied /\
    key_inode (chunkKey 7 0) = Some 7 /\
    get (pipeline cmds two_files) (chunkKey 7 0) <> get two_files (chunkKey 7 0) /\
    key_inode (inodeKey 7) = Some 7 /\
    get (pipeline cmds two_files) (inodeKey 7) <> get two_files (inodeKey 7).
Proof.
  destruct (CopyFileRange_txf (C := juicefs_consts) (mkCtx 0 0 false) (mkTime 1600000000 0)
              two_files 7 0 7 (16 * MiB) MiB 0) as [err|cmds copied] eqn:Hrun;
    [vm_compute in Hrun; discriminate|].
  exists cmds, copied. split; [reflexivity|].
  vm_compute in Hrun. injection Hrun as <- _.
  split; [reflexivity|]. split; [|split; [reflexivity|]].
  - intros H. vm_compute in H. discriminate.
  - intros H. vm_compute in H. discriminate.
Qed.

(** What the copy of the scenario appends to file 8: one record of chunk
    101 starting 1 MiB into the data, of length 11 MiB for the 3 MiB copied
    (the second adjustment of [clip] adds the excess it means to take off). *)
Lemma CopyFileRange_scenario_record :
  exists cmds, copy_1_3 = Commit cmds (3 * MiB) /\
    pushed_to (8, 0) cmds = [mkSrec 0 101 (8 * MiB) MiB (11 * MiB)].
Proof.
  destruct copy_1_3 as [err|cmds copied] eqn:Hrun; [vm_compute in Hrun; discriminate|].
  vm_compute in Hrun. injection Hrun as <- <-.
  eexists. split; reflexivity.
Qed.

(* --------------------------------------------------------------------- *)
(** ** Compaction: the double-check after the transaction *)

(** No command removes a reference count. *)
Lemma slicerefs_exec_some (s : Store) (c : cmd) (k : Z * Z) :
  is_Some (slicerefs s !! k) -> is_Some (slicerefs (exec s c) !! k).
Proof.
  intros Hk. destruct c; simpl; try exact Hk.
  - destruct (chunks s !! (inode, indx)); exact Hk.
  - destruct (decide ((chunkid, size) = k)) as [->|Hne].
    + rewrite lookup_insert_eq. eauto.
    + rewrite lookup_insert_ne by exact Hne. exact Hk.
Qed.

Lemma slicerefs_pipeline_some (cmds : list cmd) (s : Store) (k : Z * Z) :
  is_Some (slicerefs s !! k) -> is_Some (slicerefs (pipeline cmds s) !! k).
Proof.
  revert s. induction cmds as [|c cmds IH]; intros s Hk; [exact Hk|].
  rewrite pipeline_cons. apply IH, slicerefs_exec_some, Hk.
Qed.

Section Compaction.

(** The pipeline of a compaction creates the reference count of the new
    chunk, whatever the server held before. *)
Lemma compact_cmds_tracks (s : Store) (inode indx : Z) (vals ss : list srec)
    (chunkid size : Z) :
  is_Some (slicerefs (pipeline (compact_cmds inode indx vals ss chunkid size) s)
             !! (chunkid, size)).
Proof.
  unfold compact_cmds.
  rewrite pipeline_app. apply slicerefs_pipeline_some.
  rewrite !pipeline_cons. simpl. rewrite lookup_insert_eq. eauto.
Qed.

(** [deleteSlice] reads no key. *)
Lemma deleteSlice_events (net : Net) (deleted : Z -> Z -> bool) (s s' : Store) (chunkid size : Z)
    (ev : list event) :
  deleteSlice net deleted s chunkid size = (s', ev) ->
  no_Get ev /\ EvDeleteChunk chunkid size ∈ ev.
Proof.
  unfold deleteSlice. intros H.
  destruct (deleted chunkid size); injection H as <- <-; split;
    try (intros k Hk; repeat (apply elem_of_cons in Hk as [Hk|Hk]; [discriminate|]);
         inversion Hk);
    apply elem_of_cons; left; reflexivity.
Qed.

Lemma no_Get_app (ev1 ev2 : list event) : no_Get ev1 -> no_Get ev2 -> no_Get (ev1 ++ ev2).
Proof.
  intros H1 H2 k Hk. apply elem_of_app in Hk as [Hk|Hk]; [exact (H1 k Hk)|exact (H2 k Hk)].
Qed.

Lemma no_Get_nil : no_Get [].
Proof. intros k Hk. inversion Hk. Qed.

(** The loop after a commit: it reads no key, and it asks for the deletion
    of every slice whose [Decr] returned, without error, a negative
    count. *)
Lemma delete_garbage_events (net : Net) (deleted : Z -> Z -> bool) (rs : list IntCmd)
    (ss : list srec) :
  forall (s s' : Store) (i : nat) (ev : list event),
    delete_garbage net deleted s rs i ss = Some (s', ev) ->
    no_Get ev /\
    forall (j : nat) (x : srec) (n : Z),
      ss !! j = Some x -> rs !! (i + j)%nat = Some (None, n) -> n < 0 ->
      EvDeleteChunk (r_chunkid x) (r_size x) ∈ ev.
Proof.
  induction ss as [|y ss IH]; intros s s' i ev H; simpl in H.
  - injection H as <- <-. split; [apply no_Get_nil|]. intros j x n Hj. inversion Hj.
  - destruct (rs !! i) as [[err val]|] eqn:Hi; [|discriminate].
    destruct (if match err with None => val <? 0 | Some _ => false end
              then deleteSlice net deleted s (r_chunkid y) (r_size y)
              else (s, [])) as [s1 ev1] eqn:Hstep.
    destruct (delete_garbage net deleted s1 rs (S i) ss) as [[s2 ev2]|] eqn:Hrest; [|discriminate].
    injection H as <- <-.
    destruct (IH _ _ _ _ Hrest) as [Hno Hdel].
    split.
    + apply no_Get_app; [|exact Hno].
      destruct (match err with None => val <? 0 | Some _ => false end).
      * apply (deleteSlice_events _ _ _ _ _ _ _ Hstep).
      * injection Hstep as <- <-. apply no_Get_nil.
    + intros [|j] x n Hj Hr Hn.
      * injection Hj as <-. rewrite Nat.add_0_r, Hi in Hr. injection Hr as -> ->.
        apply elem_of_app. left.
        replace (n <? 0) with true in Hstep by (symmetry; apply Z.ltb_lt; exact Hn).
        apply (deleteSlice_events _ _ _ _ _ _ _ Hstep).
      * apply elem_of_app. right. apply (Hdel j x n); [exact Hj| |exact Hn].
        replace (S i + j)%nat with (i + S j)%nat by lia. exact Hr.
Qed.

(** The loop does not go out of range when there is a result for every
    slice. *)
Lemma delete_garbage_total (net : Net) (deleted : Z -> Z -> bool) (rs : list IntCmd)
    (ss : list srec) :
  forall (s : Store) (i : nat),
    (i + length ss <= length rs)%nat ->
    is_Some (delete_garbage net deleted s rs i ss).
Proof.
  induction ss as [|y ss IH]; intros s i Hlen; cbn [delete_garbage]; [eauto|].
  cbn [length] in Hlen.
  destruct (lookup_lt_is_Some_2 rs i ltac:(lia)) as [[err val] Hi].
  unfold IntCmd in *. rewrite Hi.
  destruct (if match err with None => val <? 0 | Some _ => false end
            then deleteSlice net deleted s (r_chunkid y) (r_size y)
            else (s, [])) as [s1 ev1].
  destruct (IH s1 (S i) ltac:(lia)) as [[s2 ev2] Hrest]. rewrite Hrest. eauto.
Qed.

(** After [EINVAL] nothing is read: the count of the new chunk is
    decremented and the chunk deleted. *)
Lemma compact_finish_EINVAL (net : Net) (deleted : Z -> Z -> bool) (s : Store)
    (rs : list IntCmd) (inode indx : Z) (ss : list srec) (chunkid size : Z) :
  compact_finish net deleted s EINVAL rs inode indx ss chunkid size =
  let '(s', ev) :=
    deleteSlice net deleted
      (match net None with Some _ => s | None => exec s (DecrSlice chunkid size) end)
      chunkid size in
  (Failed, s', EvDecr (sliceKey chunkid size) :: ev).
Proof.
  unfold compact_finish. change (EINVAL =? 0) with false. rewrite Z.eqb_refl. simpl.
  destruct (deleteSlice net deleted _ chunkid size). reflexivity.
Qed.

(** With the result of the transaction taken as [0], [compactChunk] reads
    nothing and does not treat the compaction as failed. *)
Lemma compact_finish_0 (net : Net) (deleted : Z -> Z -> bool) (s : Store)
    (rs : list IntCmd) (inode indx : Z) (ss : list srec) (chunkid size : Z)
    (v : verdict) (s' : Store) (ev : list event) :
  compact_finish net deleted s 0 rs inode indx ss chunkid size = (v, s', ev) ->
  no_Get ev /\
  (v = Succeeded \/ v = Panicked /\ (length rs < length ss)%nat) /\
  (v = Succeeded ->
   forall (j : nat) (x : srec) (n : Z),
     ss !! j = Some x -> rs !! j = Some (None, n) -> n < 0 ->
     EvDeleteChunk (r_chunkid x) (r_size x) ∈ ev).
Proof.
  unfold compact_finish. change (0 =? 0) with true. change (0 =? EINVAL) with false.
  cbn [negb andb]. intros Hrun.
  destruct (delete_garbage net deleted s rs 0 ss) as [[s1 ev1]|] eqn:Hloop.
  - injection Hrun as <- <- <-.
    destruct (delete_garbage_events _ _ _ _ _ _ _ _ Hloop) as [Hno Hdel].
    split; [|split; [left; reflexivity|]].
    + cbn [app]. apply no_Get_app; [exact Hno|].
      intros k Hk. apply elem_of_cons in Hk as [Hk|Hk]; [discriminate|].
      destruct (5 <? _); [apply elem_of_cons in Hk as [Hk|Hk]; [discriminate|]|];
        inversion Hk.
    + intros _ j x n Hj Hr Hn. cbn [app]. apply elem_of_app. left.
      apply (Hdel j x n Hj Hr Hn).
  - injection Hrun as <- <- <-.
    split; [apply no_Get_nil|]. split; [|discriminate].
    right. split; [reflexivity|].
    destruct (Nat.lt_ge_cases (length rs) (length ss)) as [Hlt|Hge]; [exact Hlt|].
    destruct (delete_garbage_total net deleted rs ss s 0 Hge) as [r Hr]. congruence.
Qed.

(** The double-check: after an error that is neither [0] nor [EINVAL] the
    reference count of the new chunk is read, and the compaction goes on as
    after [0] when the key exists, as after [EINVAL] when it does not. *)
Lemma compact_finish_recheck (net : Net) (deleted : Z -> Z -> bool) (s : Store)
    (errno : Z) (rs : list IntCmd) (inode indx : Z) (ss : list srec)
    (chunkid size : Z) :
  errno <> 0 -> errno <> EINVAL -> net None = None ->
  compact_finish net deleted s errno rs inode indx ss chunkid size =
  let '(v, s', ev) :=
    compact_finish net deleted s
      (match slicerefs s !! (chunkid, size) with Some _ => 0 | None => EINVAL end)
      rs inode indx ss chunkid size in
  (v, s', EvGet (sliceKey chunkid size) :: ev).
Proof.
  intros H0 H22 Hnet. unfold compact_finish.
  rewrite (proj2 (Z.eqb_neq _ _) H0), (proj2 (Z.eqb_neq _ _) H22), Hnet.
  cbn [negb andb].
  destruct (slicerefs s !! (chunkid, size)) as [n|].
  - change (0 =? 0) with true. change (0 =? EINVAL) with false. cbn [negb andb].
    cbv beta iota zeta. change (0 =? 0) with true. change (0 =? EINVAL) with false.
    cbv iota.
    destruct (delete_garbage net deleted s rs 0 ss) as [[s1 ev1]|]; reflexivity.
  - change (EINVAL =? 0) with false. rewrite Z.eqb_refl. cbn [negb andb].
    cbv beta iota zeta. rewrite Z.eqb_refl.
    destruct (deleteSlice net deleted _ chunkid size); reflexivity.
Qed.

(** C2, amended.  The double-check is made when the transaction of a
    compaction returned an error other than [EINVAL]: the reference count
    of the new chunk is then read first.  If the key exists the compaction
    ends as it does after a commit (the slices whose decrement returned a
    negative count are deleted); if the key is absent it ends as it does
    after [EINVAL] (the new chunk is deleted); and if the read itself fails
    there is only a warning.  After [EINVAL], and after a commit, nothing is
    read: [EINVAL] alone makes the compaction fail and the new chunk be
    deleted. *)
Theorem compact_double_check (net : Net) (deleted : Z -> Z -> bool) (s : Store)
    (errno : Z) (rs : list IntCmd) (inode indx : Z) (ss : list srec)
    (chunkid size : Z) (v : verdict) (s' : Store) (ev : list event) :
  compact_finish net deleted s errno rs inode indx ss chunkid size = (v, s', ev) ->
  (errno = EINVAL ->
     v = Failed /\ no_Get ev /\ EvDeleteChunk chunkid size ∈ ev) /\
  (errno = 0 -> v <> Failed /\ v <> Undecided /\ no_Get ev) /\
  (errno <> 0 -> errno <> EINVAL ->
     head ev = Some (EvGet (sliceKey chunkid size)) /\
     match net None, slicerefs s !! (chunkid, size) with
     | Some _, _ =>
         v = Undecided /\ s' = s /\ ev = [EvGet (sliceKey chunkid size); EvWarn]
     | None, Some _ =>
         compact_finish net deleted s 0 rs inode indx ss chunkid size = (v, s', tail ev)
     | None, None =>
         compact_finish net deleted s EINVAL rs inode indx ss chunkid size = (v, s', tail ev)
         /\ v = Failed /\ EvDeleteChunk chunkid size ∈ ev
     end) /\
  (v = Succeeded ->
     forall (j : nat) (x : srec) (n : Z),
       ss !! j = Some x -> rs !! j = Some (None, n) -> n < 0 ->
       EvDeleteChunk (r_chunkid x) (r_size x) ∈ ev).
Proof.
  intros Hrun.
  assert (HE : forall v s' ev,
             compact_finish net deleted s EINVAL rs inode indx ss chunkid size = (v, s', ev) ->
             v = Failed /\ no_Get ev /\ EvDeleteChunk chunkid size ∈ ev).
  { intros v1 s1 ev1 H. rewrite compact_finish_EINVAL in H.
    destruct (deleteSlice net deleted _ chunkid size) as [s2 ev2] eqn:Hdel.
    injection H as <- <- <-.
    destruct (deleteSlice_events _ _ _ _ _ _ _ Hdel) as [Hno Hin].
    split; [reflexivity|]. split.
    - intros k Hk. apply elem_of_cons in Hk as [Hk|Hk]; [discriminate|exact (Hno k Hk)].
    - apply elem_of_cons. right. exact Hin. }
  destruct (Z.eqb_spec errno 0) as [H0|H0];
    [|destruct (Z.eqb_spec errno EINVAL) as [H22|H22]].
  - (* the transaction committed *)
    subst errno. destruct (compact_finish_0 _ _ _ _ _ _ _ _ _ _ _ _ Hrun) as (Hno & Hv & Hdel).
    split; [discriminate|]. split; [|split; [congruence|exact Hdel]].
    intros _. split; [|split; [|exact Hno]];
      destruct Hv as [->|[-> _]]; discriminate.
  - (* EINVAL *)
    subst errno. destruct (HE _ _ _ Hrun) as (-> & Hno & Hin).
    split; [intros _; auto|]. split; [discriminate|]. split; [congruence|discriminate].
  - (* another error: the double-check *)
    split; [congruence|]. split; [congruence|].
    assert (Hguard : negb (errno =? 0) && negb (errno =? EINVAL) = true).
    { rewrite (proj2 (Z.eqb_neq _ _) H0), (proj2 (Z.eqb_neq _ _) H22). reflexivity. }
    pose proof Hrun as Hrun'.
    unfold compact_finish in Hrun. rewrite Hguard in Hrun.
    destruct (net None) as [msg|] eqn:Hnet.
    + rewrite (proj2 (Z.eqb_neq _ _) H0), (proj2 (Z.eqb_neq _ _) H22) in Hrun.
      injection Hrun as <- <- <-.
      split; [intros _ _; split; [reflexivity|repeat split]|discriminate].
    + clear Hrun. pose proof (compact_finish_recheck net deleted s errno rs inode indx ss
                    chunkid size H0 H22 Hnet) as Hre.
      rewrite Hrun' in Hre.
      destruct (slicerefs s !! (chunkid, size)) as [n|] eqn:Hkey.
      * destruct (compact_finish net deleted s 0 rs inode indx ss chunkid size)
          as [[v1 s1] ev1] eqn:Hfin.
        injection Hre as -> -> ->.
        destruct (compact_finish_0 _ _ _ _ _ _ _ _ _ _ _ _ Hfin) as (_ & _ & Hdel).
        split; [intros _ _; split; reflexivity|].
        intros Hv j x n0 Hj Hr Hn. apply elem_of_cons. right. exact (Hdel Hv j x n0 Hj Hr Hn).
      * destruct (compact_finish net deleted s EINVAL rs inode indx ss chunkid size)
          as [[v1 s1] ev1] eqn:Hfin.
        injection Hre as -> -> ->.
        destruct (HE _ _ _ eq_refl) as (-> & _ & Hin).
        split; [|discriminate].
        intros _ _. split; [reflexivity|]. split; [reflexivity|]. split; [reflexivity|].
        apply elem_of_cons. right. exact Hin.
Qed.

Lemma decr_results_length (ss : list srec) :
  forall s : Store, length (decr_results s ss) = length ss.
Proof.
  induction ss as [|x ss IH]; intros s; simpl; [reflexivity|]. now rewrite IH.
Qed.

(** The transaction was applied but the client lost its connection: the
    double-check finds the reference count of the new chunk and the
    compaction ends as a success. *)
Lemma compact_commit_applied_but_lost (net : Net) (deleted : Z -> Z -> bool)
    (msg : string) (s : Store) (inode indx : Z) (vals : list srec) (chunkid : Z) :
  net None = None ->
  lrange (default [] (chunks s !! (inode, indx))) 0 (Z.of_nat (length vals) - 1) = vals ->
  exists s' ev,
    compact_commit net deleted (AppliedButLost msg) s inode indx vals chunkid
    = (Succeeded, s',
       EvGet (sliceKey chunkid (total_size (buildSlice (readSlices vals)))) :: ev).
Proof.
  intros Hnet Hsame. unfold compact_commit, compact_txf.
  rewrite decide_True by exact Hsame. cbn [run_compact_txn].
  change (errno (Some (OtherErr msg))) with EIO.
  rewrite compact_finish_recheck by (exact Hnet || discriminate).
  destruct (compact_cmds_tracks s inode indx vals (readSlices vals) chunkid
              (total_size (buildSlice (readSlices vals)))) as [n Hn].
  rewrite Hn.
  destruct (compact_finish net deleted _ 0 _ inode indx (readSlices vals) chunkid _)
    as [[v s1] ev] eqn:Hfin.
  destruct (compact_finish_0 _ _ _ _ _ _ _ _ _ _ _ _ Hfin) as (_ & [->|[_ Hlen]] & _).
  - eauto.
  - rewrite length_map, decr_results_length in Hlen. lia.
Qed.

(** The transaction was not applied: the double-check finds no reference
    count for the new chunk, which no one else names, and the new chunk is
    deleted. *)
Lemma compact_commit_not_applied (net : Net) (deleted : Z -> Z -> bool)
    (msg : string) (s : Store) (inode indx : Z) (vals : list srec) (chunkid : Z) :
  net None = None ->
  lrange (default [] (chunks s !! (inode, indx))) 0 (Z.of_nat (length vals) - 1) = vals ->
  slicerefs s !! (chunkid, total_size (buildSlice (readSlices vals))) = None ->
  exists s' ev,
    compact_commit net deleted (NotApplied msg) s inode indx vals chunkid
    = (Failed, s',
       EvGet (sliceKey chunkid (total_size (buildSlice (readSlices vals)))) :: ev)
    /\ EvDeleteChunk chunkid (total_size (buildSlice (readSlices vals))) ∈ ev.
Proof.
  intros Hnet Hsame Hfresh. unfold compact_commit, compact_txf.
  rewrite decide_True by exact Hsame. cbn [run_compact_txn].
  change (errno (Some (OtherErr msg))) with EIO.
  rewrite compact_finish_recheck by (exact Hnet || discriminate).
  rewrite Hfresh, compact_finish_EINVAL.
  destruct (deleteSlice net deleted _ chunkid _) as [s1 ev] eqn:Hdel.
  destruct (deleteSlice_events _ _ _ _ _ _ _ Hdel) as [_ Hin].
  eexists _, _. split; [reflexivity|]. apply elem_of_cons. right. exact Hin.
Qed.

(** The log no longer starts with the values read: the transaction function
    returns [EINVAL], nothing is read afterwards, and the new chunk is
    deleted. *)
Lemma compact_commit_conflict (net : Net) (deleted : Z -> Z -> bool) (d : delivery)
    (s : Store) (inode indx : Z) (vals : list srec) (chunkid : Z) :
  lrange (default [] (chunks s !! (inode, indx))) 0 (Z.of_nat (length vals) - 1) <> vals ->
  exists s' ev,
    compact_commit net deleted d s inode indx vals chunkid = (Failed, s', ev)
    /\ no_Get ev
    /\ EvDeleteChunk chunkid (total_size (buildSlice (readSlices vals))) ∈ ev.
Proof.
  intros Hdiff. unfold compact_commit, compact_txf.
  rewrite decide_False by exact Hdiff. cbn [run_compact_txn].
  change (errno (Some (Errno EINVAL))) with EINVAL.
  rewrite compact_finish_EINVAL.
  destruct (deleteSlice net deleted _ chunkid _) as [s1 ev] eqn:Hdel.
  destruct (deleteSlice_events _ _ _ _ _ _ _ Hdel) as [Hno Hin].
  eexists _, _. split; [reflexivity|]. split.
  - intros k Hk. apply elem_of_cons in Hk as [Hk|Hk]; [discriminate|exact (Hno k Hk)].
  - apply elem_of_cons. right. exact Hin.
Qed.

End Compaction.

(** C2, the amended claim on the scenario: the transaction was applied but
    the client was told [EIO]; the reference count of chunk 104 is read,
    it exists, and the compaction ends as a success. *)
Lemma compact_double_check_witness :
  exists s' ev,
    compact_finish (fun _ => None) (fun _ _ => true) compacted EIO
      [(Some (OtherErr "EOF"), 0); (Some (OtherErr "EOF"), 0)]
      7 0 (readSlices two_slices) 104 150
    = (Succeeded, s', ev)
    /\ head ev = Some (EvGet (sliceKey 104 150)).
Proof.
  destruct (compact_finish (fun _ => None) (fun _ _ => true) compacted EIO
              [(Some (OtherErr "EOF"), 0); (Some (OtherErr "EOF"), 0)]
              7 0 (readSlices two_slices) 104 150) as [[v s'] ev] eqn:Hrun.
  destruct (compact_double_check _ _ _ _ _ _ _ _ _ _ _ _ _ Hrun)
    as (_ & _ & Hcheck & _).
  destruct (Hcheck ltac:(discriminate) ltac:(discriminate)) as [Hhead Hthen].
  assert (Hkey : slicerefs compacted !! (104, 150) = Some 0) by (vm_compute; reflexivity).
  cbv beta in Hthen. rewrite Hkey in Hthen.
  assert (Hv : v = Succeeded).
  { vm_compute in Hthen. injection Hthen as <- _ _. reflexivity. }
  subst v. exists s', ev. split; [reflexivity|exact Hhead].
Defined.

(** C2, the claim as stated fails: after [EINVAL] no key is read.  On the
    scenario, with the log rewritten by another client, the transaction
    function returns [EINVAL] and the compaction ends as failed after a
    [Decr] and the deletion of chunk 104 only; and [EINVAL] ends as failed
    also where the reference count of the new chunk exists. *)
Lemma compact_EINVAL_skips_double_check :
  (exists s',
     compact_commit (fun _ => None) (fun _ _ => true) Delivered
       compacted_by_other 7 0 two_slices 104
     = (Failed, s',
        [EvDecr (sliceKey 104 150); EvDeleteChunk 104 150; EvDel (sliceKey 104 150)]))
  /\ is_Some (slicerefs compacted !! (104, 150))
  /\ (exists s',
        compact_finish (fun _ => None) (fun _ _ => true) compacted EINVAL
          [] 7 0 (readSlices two_slices) 104 150
        = (Failed, s',
           [EvDecr (sliceKey 104 150); EvDeleteChunk 104 150; EvDel (sliceKey 104 150)])).
Proof.
  split; [|split].
  - destruct (compact_commit (fun _ => None) (fun _ _ => true) Delivered
                compacted_by_other 7 0 two_slices 104) as [[v s'] ev] eqn:Hrun.
    vm_compute in Hrun. injection Hrun as <- _ <-. exists s'. reflexivity.
  - exists 0. vm_compute. reflexivity.
  - destruct (compact_finish (fun _ => None) (fun _ _ => true) compacted EINVAL
                [] 7 0 (readSlices two_slices) 104 150) as [[v s'] ev] eqn:Hrun.
    vm_compute in Hrun. injection Hrun as <- _ <-. exists s'. reflexivity.
Qed.

(* --------------------------------------------------------------------- *)
(** ** Directories: the link count *)

(** Counting the entries that satisfy [P] when one entry is added under a
    new name, and when one entry is removed. *)
Lemma size_filter_insert_fresh {A : Type} (P : string * A -> Prop)
    `{!forall x, Decision (P x)} (h : gmap string A) (i : string) (x : A) :
  h !! i = None ->
  size (filter P (<[i := x]> h))
  = if decide (P (i, x)) then S (size (filter P h)) else size (filter P h).
Proof.
  intros Hi. rewrite map_filter_insert. destruct (decide (P (i, x))).
  - rewrite map_size_insert_None; [reflexivity|].
    apply map_lookup_filter_None. left. exact Hi.
  - rewrite delete_id by exact Hi. reflexivity.
Qed.

Lemma size_filter_delete {A : Type} (P : string * A -> Prop)
    `{!forall x, Decision (P x)} (h : gmap string A) (i : string) (x : A) :
  h !! i = Some x ->
  size (filter P (delete i h))
  = if decide (P (i, x)) then Nat.pred (size (filter P h)) else size (filter P h).
Proof.
  intros Hi. rewrite map_filter_delete. destruct (decide (P (i, x))) as [HP|HP].
  - apply map_size_delete_Some. exists x. apply map_lookup_filter_Some. auto.
  - apply map_size_delete_None. apply map_lookup_filter_None. right.
    intros y Hy. rewrite Hi in Hy. injection Hy as <-. exact HP.
Qed.

Lemma size_filter_pos {A : Type} (P : string * A -> Prop)
    `{!forall x, Decision (P x)} (h : gmap string A) (i : string) (x : A) :
  h !! i = Some x -> P (i, x) -> (0 < size (filter P h))%nat.
Proof.
  intros Hi HP.
  destruct (size (filter P h)) eqn:Hsz; [|lia].
  apply map_size_empty_iff in Hsz.
  assert (Hin : filter P h !! i = Some x) by (apply map_lookup_filter_Some; auto).
  rewrite Hsz, lookup_empty in Hin. discriminate.
Qed.

(** The type of an attribute survives [marshal] and [parseAttr] when it
    fits the four bits it is packed in. *)
Lemma Typ_marshal (t x : Attr) :
  0 <= Typ t < 16 -> Typ (parseAttr (marshal t) x) = Typ t.
Proof.
  intros Ht. unfold parseAttr, marshal. cbn [Typ b_typmode].
  rewrite Z.shiftr_lor, Z.shiftr_land.
  change (Z.shiftr 4095 12) with 0. rewrite Z.land_0_r, Z.lor_0_r.
  unfold u16, u8. rewrite Z.shiftl_mul_pow2 by lia.
  rewrite (Z.mod_small (Typ t * 2 ^ 12)) by lia.
  rewrite Z.shiftr_div_pow2 by lia. rewrite Z.div_mul by lia.
  apply Z.mod_small. lia.
Qed.

(** The entries of a directory after one command. *)
Lemma entries_SetInode (s : Store) (i : Z) (v : blob) :
  entries (exec s (SetInode i v)) = entries s.
Proof. reflexivity. Qed.

Lemma entries_DelInode (s : Store) (i : Z) : entries (exec s (DelInode i)) = entries s.
Proof. reflexivity. Qed.

Lemma entries_DelXattr (s : Store) (i : Z) : entries (exec s (DelXattr i)) = entries s.
Proof. reflexivity. Qed.

Lemma entries_IncrByTotalInodes (s : Store) (n : Z) :
  entries (exec s (IncrByTotalInodes n)) = entries s.
Proof. reflexivity. Qed.

Lemma dir_HSetEntry (s : Store) (P : Z) (name : string) (typ ino : Z) :
  default ∅ (entries (exec s (HSetEntry P name typ ino)) !! P)
  = <[name := (typ, ino)]> (default ∅ (entries s !! P)).
Proof. cbn [exec entries set_entries]. now rewrite lookup_insert_eq. Qed.

Lemma dir_HDelEntry (s : Store) (P : Z) (name : string) :
  default ∅ (entries (exec s (HDelEntry P name)) !! P)
  = delete name (default ∅ (entries s !! P)).
Proof. cbn [exec entries set_entries]. apply lookup_put_hash. Qed.

Lemma entries_HSetEntry_ne (s : Store) (P D : Z) (name : string) (typ ino : Z) :
  D <> P -> entries (exec s (HSetEntry P name typ ino)) !! D = entries s !! D.
Proof. intros Hne. cbn [exec entries set_entries]. now rewrite lookup_insert_ne. Qed.

Lemma entries_HDelEntry_ne (s : Store) (P D : Z) (name : string) :
  D <> P -> entries (exec s (HDelEntry P name)) !! D = entries s !! D.
Proof. intros Hne. cbn [exec entries set_entries]. now rewrite lookup_put_hash_ne. Qed.

Section NlinkInvariant.
Context {C : Consts}.
Hypothesis TypeDirectory_fits : 0 <= TypeDirectory < 16.

Lemma mknod_attr_Typ (ctx : Ctx) (parent _type mode cumask rdev : Z) (path : string)
    (attr : Attr) :
  Typ (mknod_attr ctx parent _type mode cumask rdev path attr) = _type.
Proof.
  unfold mknod_attr.
  destruct (_type =? TypeDirectory); [|destruct (_type =? TypeSymlink)]; reflexivity.
Qed.

Lemma mknod_attr_Nlink (ctx : Ctx) (parent _type mode cumask rdev : Z) (path : string)
    (attr : Attr) :
  Nlink (mknod_attr ctx parent _type mode cumask rdev path attr)
  = if _type =? TypeDirectory then 2 else 1.
Proof.
  unfold mknod_attr.
  destruct (_type =? TypeDirectory); [|destruct (_type =? TypeSymlink)]; reflexivity.
Qed.

(** What the pipeline of [mknod] leaves under the inode keys and the entry
    keys. *)
Lemma mknod_pipeline (s : Store) (parent : Z) (name : string) (_type : Z)
    (path : string) (ino : Z) (pattr attr : blob) :
  let s' :=
    pipeline
      ([HSetEntry parent name _type ino; SetInode parent pattr; SetInode ino attr]
       ++ (if _type =? TypeSymlink then [SetSym ino path]
           else if _type =? TypeFile then [IncrByUsedSpace (align4K 0)]
           else [])
       ++ [IncrByTotalInodes 1]) s in
  inodes s' = <[ino := attr]> (<[parent := pattr]> (inodes s)) /\
  entries s'
  = <[parent := <[name := (_type, ino)]> (default ∅ (entries s !! parent))]> (entries s).
Proof.
  destruct (_type =? TypeSymlink); [|destruct (_type =? TypeFile)]; split; reflexivity.
Qed.

(** X9.  [mknod] keeps the link counts right: the parent gains a link exactly
    when the new entry is a directory, and a new directory has 2 links and
    no entry.  [ino] is new, as [nextInode] makes it. *)
Lemma mknod_preserves_nlink (ctx : Ctx) (now : Time) (s : Store) (parent : Z)
    (name : string) (_type mode cumask rdev : Z) (path : string) (ino : Z) (attr : Attr) :
  0 <= _type < 16 ->
  inodes s !! ino = None -> entries s !! ino = None ->
  (forall a, inodes s !! parent = Some a -> 0 <= b_nlink a < 2 ^ 32 - 1) ->
  (forall D, nlink_ok s D) ->
  forall D,
    nlink_ok (mknod_ino ctx now s parent name _type mode cumask rdev path ino attr).2 D.
Proof.
  intros Htype Hnew Hempty Hroom Hinv D.
  unfold mknod_ino, mknod_txf, tx_Get_inode.
  destruct (inodes s !! parent) as [a|] eqn:Hp; [|exact (Hinv D)].
  destruct (Typ (parseAttr a Attr0) =? TypeDirectory) eqn:Hdir; [|exact (Hinv D)].
  apply Z.eqb_eq in Hdir. cbn [negb].
  unfold tx_HGet_entry.
  destruct (default ∅ (entries s !! parent) !! name) as [e|] eqn:Hname; [exact (Hinv D)|].
  cbn [committed snd].
  match goal with |- nlink_ok (pipeline ?cmds s) D =>
    destruct (mknod_pipeline s parent name _type path ino
                (marshal (touch_mc now
                   (if _type =? TypeDirectory
                    then set_Nlink (parseAttr a Attr0) (u32 (Nlink (parseAttr a Attr0) + 1))
                    else parseAttr a Attr0)))
                (marshal (if ctx_hadoop ctx
                          then set_Gid (touch_amc now
                                 (mknod_attr ctx parent _type mode cumask rdev path attr))
                                 (Gid (touch_mc now
                                   (if _type =? TypeDirectory
                                    then set_Nlink (parseAttr a Attr0)
                                           (u32 (Nlink (parseAttr a Attr0) + 1))
                                    else parseAttr a Attr0)))
                          else touch_amc now
                                 (mknod_attr ctx parent _type mode cumask rdev path attr))))
      as [Hi He]
  end.
  cbv zeta in Hi, He.
  assert (Hne : parent <> ino) by (intros ->; congruence).
  intros b Hb Hbt. unfold subdirs. rewrite Hi in Hb. rewrite He.
  destruct (decide (D = ino)) as [->|HDi].
  - (* the new inode *)
    rewrite lookup_insert_eq in Hb. injection Hb as <-.
    rewrite lookup_insert_ne by exact Hne. rewrite Hempty. cbn [default from_option id].
    rewrite map_filter_empty, map_size_empty.
    assert (Ht : _type = TypeDirectory).
    { rewrite Typ_marshal in Hbt.
      - destruct (ctx_hadoop ctx);
          unfold touch_amc, touch_mc, set_Gid, set_Ctime, set_Mtime, set_Atime in Hbt;
          cbn [Typ] in Hbt; rewrite mknod_attr_Typ in Hbt; exact Hbt.
      - destruct (ctx_hadoop ctx);
          unfold touch_amc, touch_mc, set_Gid, set_Ctime, set_Mtime, set_Atime;
          cbn [Typ]; rewrite mknod_attr_Typ; exact Htype. }
    destruct (ctx_hadoop ctx);
      unfold marshal, touch_amc, touch_mc, set_Gid, set_Ctime, set_Mtime, set_Atime;
      cbn [b_nlink Nlink]; rewrite mknod_attr_Nlink;
      rewrite (proj2 (Z.eqb_eq _ _) Ht); reflexivity.
  - rewrite lookup_insert_ne in Hb by congruence.
    destruct (decide (D = parent)) as [->|HDp].
    + (* the parent *)
      rewrite lookup_insert_eq in Hb. injection Hb as <-.
      rewrite lookup_insert_eq. cbn [default from_option id].
      rewrite size_filter_insert_fresh by exact Hname.
      pose proof (Hinv parent a Hp Hdir) as Hpar. unfold subdirs in Hpar.
      pose proof (Hroom a eq_refl) as Hr.
      cbn [snd fst].
      destruct (Z.eqb_spec _type TypeDirectory) as [Ht|Ht].
      * rewrite decide_True by exact Ht. cbn.
        rewrite u32_small by lia. lia.
      * rewrite decide_False by exact Ht. cbn. exact Hpar.
    + rewrite lookup_insert_ne in Hb by congruence.
      rewrite lookup_insert_ne by congruence.
      exact (Hinv D b Hb Hbt).
Qed.

(** What the pipeline of [Rmdir] leaves under the inode keys and the entry
    keys. *)
Lemma Rmdir_pipeline (s : Store) (parent : Z) (name : string) (inode : Z) (pattr : blob) :
  let s' :=
    pipeline
      [HDelEntry parent name; SetInode parent pattr; DelInode inode; DelXattr inode;
       IncrByTotalInodes (-1)] s in
  inodes s' = delete inode (<[parent := pattr]> (inodes s)) /\
  entries s'
  = put_hash parent (delete name (default ∅ (entries s !! parent))) (entries s).
Proof. split; reflexivity. Qed.

(** X10.  [Rmdir] keeps the link counts right: the parent loses the link of
    the directory removed. *)
Lemma Rmdir_preserves_nlink (net : Net) (now : Time) (s : Store) (parent : Z)
    (name : string) :
  (forall a, inodes s !! parent = Some a -> b_nlink a < 2 ^ 32) ->
  (forall D, nlink_ok s D) ->
  forall D, nlink_ok (Rmdir net now s parent name).2 D.
Proof.
  intros Hroom Hinv D. unfold Rmdir.
  destruct (decide (name = ".")); [exact (Hinv D)|].
  destruct (decide (name = "..")); [exact (Hinv D)|].
  unfold rdb_HGet_entry. destruct (net None); [exact (Hinv D)|].
  unfold tx_HGet_entry at 1.
  destruct (default ∅ (entries s !! parent) !! name) as [[typ inode]|] eqn:Hname;
    [|exact (Hinv D)].
  destruct (typ =? TypeDirectory) eqn:Htyp; [|exact (Hinv D)].
  cbn [negb]. unfold Rmdir_txf, tx_Get_inode.
  destruct (inodes s !! parent) as [a|] eqn:Hp; [|exact (Hinv D)].
  destruct (Typ (parseAttr a Attr0) =? TypeDirectory) eqn:Hdir; [|exact (Hinv D)].
  cbn [negb]. unfold tx_HGet_entry. rewrite Hname, Htyp. cbn [negb].
  destruct (tx_HLen s inode >? 0) eqn:Hlen; [exact (Hinv D)|].
  cbn [committed snd].
  apply Z.eqb_eq in Htyp, Hdir.
  assert (Hchild : default ∅ (entries s !! inode) = ∅).
  { apply map_size_empty_iff. unfold tx_HLen in Hlen.
    destruct (Z.gtb_spec (Z.of_nat (size (default ∅ (entries s !! inode)))) 0);
      [discriminate|lia]. }
  assert (Hne : inode <> parent).
  { intros ->. rewrite Hchild, lookup_empty in Hname. discriminate. }
  destruct (Rmdir_pipeline s parent name inode
              (marshal (touch_mc now (set_Nlink (parseAttr a Attr0)
                                        (u32 (Nlink (parseAttr a Attr0) - 1))))))
    as [Hi He].
  cbv zeta in Hi, He.
  intros b Hb Hbt. unfold subdirs. rewrite Hi in Hb. rewrite He.
  destruct (decide (D = inode)) as [->|HDi].
  - rewrite lookup_delete_eq in Hb. discriminate.
  - rewrite lookup_delete_ne in Hb by congruence.
    destruct (decide (D = parent)) as [->|HDp].
    + rewrite lookup_insert_eq in Hb. injection Hb as <-.
      rewrite lookup_put_hash.
      rewrite (size_filter_delete _ _ _ _ Hname). cbn [snd fst].
      rewrite decide_True by exact Htyp.
      pose proof (Hinv parent a Hp Hdir) as Hpar. unfold subdirs in Hpar.
      pose proof (Hroom a eq_refl) as Hr.
      pose proof (size_filter_pos (fun e : string * (Z * Z) => e.2.1 = TypeDirectory)
                    _ _ _ Hname Htyp) as Hpos.
      cbn. rewrite u32_small by lia. lia.
    + rewrite lookup_insert_ne in Hb by congruence.
      rewrite lookup_put_hash_ne by congruence.
      exact (Hinv D b Hb Hbt).
Qed.

(** A rename inside one directory onto an entry that is a directory: the
    parent keeps its link count although it loses one entry that is a
    directory. *)
Lemma Rename_same_parent_over_directory (ctx : Ctx) (now : Time) (r : redisMeta)
    (s : Store) (P : Z) (nameSrc nameDst : string) (typ ino dino : Z)
    (cmds : list cmd) (out : Attr * cleanup) (a : blob) :
  nameSrc <> nameDst -> ino <> P -> 0 < dino ->
  default ∅ (entries s !! P) !! nameSrc = Some (typ, ino) ->
  default ∅ (entries s !! P) !! nameDst = Some (TypeDirectory, dino) ->
  inodes s !! P = Some a ->
  Rename_txf ctx now r s P nameSrc P nameDst typ ino TypeDirectory dino = Commit cmds out ->
  (b_nlink <$> inodes (pipeline cmds s) !! P) = Some (b_nlink a) /\
  subdirs (pipeline cmds s) P = subdirs s P - 1.
Proof.
  intros Hnames HinoP Hdino Hsrc Hdst Ha Hrun.
  unfold Rename_txf, Rename_target, tx_HGet_entry, tx_MGet_inode in Hrun.
  rewrite Hdst, Hsrc, Ha in Hrun.
  destruct (ctx_hadoop ctx); [discriminate|].
  rewrite !Z.eqb_refl in Hrun. cbn [negb orb] in Hrun.
  destruct (tx_HLen s dino =? 0) eqn:Hlen; [|discriminate]. cbn [negb] in Hrun.
  destruct (inodes s !! ino) as [ia|] eqn:Hia; [|discriminate].
  destruct (Typ (parseAttr a Attr0) =? TypeDirectory) eqn:Hdir; [|discriminate].
  cbn [negb andb] in Hrun. rewrite andb_false_r in Hrun.
  unfold Rename_replace in Hrun.
  rewrite (proj2 (Z.gtb_lt _ _) Hdino) in Hrun.
  rewrite Z.eqb_refl in Hrun. cbn [negb andb app] in Hrun.
  injection Hrun as <- _.
  assert (HdP : dino <> P).
  { intros ->. unfold tx_HLen in Hlen. apply Z.eqb_eq in Hlen.
    assert (Hsz : size (default ∅ (entries s !! P)) = 0%nat) by lia.
    apply map_size_empty_iff in Hsz. rewrite Hsz, lookup_empty in Hsrc. discriminate. }
  split.
  - match goal with |- _ <$> inodes (pipeline ?l s) !! P = _ =>
      assert (Hi : inodes (pipeline l s)
                   = <[ino := marshal (set_Ctime (set_Parent (parseAttr ia Attr0) P)
                                         (Unix now) (u32 (Nanosecond now)))]>
                       (delete dino
                          (<[P := marshal (touch_mc now (parseAttr a Attr0))]> (inodes s))))
        by reflexivity
    end.
    rewrite Hi, lookup_insert_ne by exact HinoP.
    rewrite lookup_delete_ne by exact HdP. rewrite lookup_insert_eq. reflexivity.
  - unfold subdirs, pipeline. cbn [foldl].
    rewrite entries_SetInode, dir_HSetEntry, dir_HDelEntry.
    rewrite entries_DelXattr, entries_IncrByTotalInodes, entries_DelInode, entries_SetInode.
    rewrite dir_HDelEntry.
    assert (Hdst' : delete nameSrc (default ∅ (entries s !! P)) !! nameDst
                    = Some (TypeDirectory, dino)).
    { rewrite lookup_delete_ne by exact Hnames. exact Hdst. }
    rewrite size_filter_insert_fresh by apply lookup_delete_eq.
    rewrite (size_filter_delete _ _ _ _ Hdst'), (size_filter_delete _ _ _ _ Hsrc).
    cbn [fst snd]. rewrite (decide_True (P := TypeDirectory = TypeDirectory)) by reflexivity.
    pose proof (size_filter_pos (fun e : string * (Z * Z) => e.2.1 = TypeDirectory)
                  _ _ _ Hdst' eq_refl) as Hpos.
    rewrite (size_filter_delete _ _ _ _ Hsrc) in Hpos. cbn [fst snd] in Hpos.
    destruct (decide (typ = TypeDirectory)); lia.
Qed.

(** Hence such a rename breaks the link count of the parent wherever it
    was right. *)
Lemma Rename_same_parent_over_directory_breaks (ctx : Ctx) (now : Time) (r : redisMeta)
    (s : Store) (P : Z) (nameSrc nameDst : string) (typ ino dino : Z)
    (cmds : list cmd) (out : Attr * cleanup) (a : blob) :
  nameSrc <> nameDst -> ino <> P -> 0 < dino ->
  default ∅ (entries s !! P) !! nameSrc = Some (typ, ino) ->
  default ∅ (entries s !! P) !! nameDst = Some (TypeDirectory, dino) ->
  inodes s !! P = Some a ->
  Rename_txf ctx now r s P nameSrc P nameDst typ ino TypeDirectory dino = Commit cmds out ->
  nlink_ok s P ->
  ~ nlink_ok (pipeline cmds s) P.
Proof.
  intros Hnames HinoP Hdino Hsrc Hdst Ha Hrun Hok Hbad.
  destruct (Rename_same_parent_over_directory _ _ _ _ _ _ _ _ _ _ _ _ _
              Hnames HinoP Hdino Hsrc Hdst Ha Hrun) as [Hlink Hsub].
  assert (Hdir : Typ (parseAttr a Attr0) = TypeDirectory).
  { unfold Rename_txf, Rename_target, tx_HGet_entry, tx_MGet_inode in Hrun.
    rewrite Hdst, Hsrc, Ha in Hrun.
    destruct (ctx_hadoop ctx); [discriminate|].
    rewrite !Z.eqb_refl in Hrun. cbn [negb orb] in Hrun.
    destruct (tx_HLen s dino =? 0); [|discriminate]. cbn [negb] in Hrun.
    destruct (inodes s !! ino); [|discriminate].
    destruct (Z.eqb_spec (Typ (parseAttr a Attr0)) TypeDirectory); [assumption|discriminate]. }
  destruct (inodes (pipeline cmds s) !! P) as [a'|] eqn:Ha'; [|discriminate].
  injection Hlink as Hlink.
  assert (Hdir' : Typ (parseAttr a' Attr0) = TypeDirectory).
  { unfold Rename_txf, Rename_target, tx_HGet_entry, tx_MGet_inode in Hrun.
    rewrite Hdst, Hsrc, Ha in Hrun.
    destruct (ctx_hadoop ctx); [discriminate|].
    rewrite !Z.eqb_refl in Hrun. cbn [negb orb] in Hrun.
    destruct (tx_HLen s dino =? 0) eqn:Hlen; [|discriminate]. cbn [negb] in Hrun.
    destruct (inodes s !! ino) as [ia|]; [|discriminate].
    rewrite (proj2 (Z.eqb_eq _ _) Hdir) in Hrun.
    cbn [negb andb] in Hrun. rewrite andb_false_r in Hrun.
    unfold Rename_replace in Hrun.
    rewrite (proj2 (Z.gtb_lt _ _) Hdino) in Hrun.
    rewrite Z.eqb_refl in Hrun. cbn [negb andb app] in Hrun.
    injection Hrun as <- _.
    assert (HdP : dino <> P).
    { intros ->. unfold tx_HLen in Hlen. apply Z.eqb_eq in Hlen.
      assert (Hsz : size (default ∅ (entries s !! P)) = 0%nat) by lia.
      apply map_size_empty_iff in Hsz. rewrite Hsz, lookup_empty in Hsrc. discriminate. }
    match type of Ha' with inodes (pipeline ?l s) !! P = _ =>
      assert (Hi : inodes (pipeline l s)
                   = <[ino := marshal (set_Ctime (set_Parent (parseAttr ia Attr0) P)
                                         (Unix now) (u32 (Nanosecond now)))]>
                       (delete dino
                          (<[P := marshal (touch_mc now (parseAttr a Attr0))]> (inodes s))))
        by reflexivity
    end.
    rewrite Hi, lookup_insert_ne in Ha' by exact HinoP.
    rewrite lookup_delete_ne in Ha' by exact HdP. rewrite lookup_insert_eq in Ha'.
    injection Ha' as <-. rewrite Typ_marshal; [exact Hdir|].
    change (Typ (touch_mc now (parseAttr a Attr0))) with (Typ (parseAttr a Attr0)).
    rewrite Hdir. exact TypeDirectory_fits. }
  pose proof (Hok a Ha Hdir) as H1. pose proof (Hbad a' Ha' Hdir') as H2. lia.
Qed.

(** X11.  A rename onto a name that does not exist keeps the link counts
    right, inside one directory and from one directory to another. *)
Lemma Rename_no_target_preserves_nlink (ctx : Ctx) (now : Time) (r : redisMeta)
    (s : Store) (parentSrc : Z) (nameSrc : string) (parentDst : Z) (nameDst : string)
    (typ ino dtyp dino : Z) (cmds : list cmd) (out : Attr * cleanup) :
  default ∅ (entries s !! parentSrc) !! nameSrc = Some (typ, ino) ->
  default ∅ (entries s !! parentDst) !! nameDst = None ->
  ino <> parentSrc -> ino <> parentDst ->
  (forall a, inodes s !! ino = Some a -> Typ (parseAttr a Attr0) < 16) ->
  (forall a, inodes s !! parentSrc = Some a -> b_nlink a < 2 ^ 32) ->
  (forall a, inodes s !! parentDst = Some a -> 0 <= b_nlink a < 2 ^ 32 - 1) ->
  Rename_txf ctx now r s parentSrc nameSrc parentDst nameDst typ ino dtyp dino
  = Commit cmds out ->
  (forall D, nlink_ok s D) ->
  forall D, nlink_ok (pipeline cmds s) D.
Proof.
  intros Hsrc Hdst HinoS HinoD Hityp HroomS HroomD Hrun Hinv D.
  unfold Rename_txf, Rename_target, tx_HGet_entry, tx_MGet_inode in Hrun.
  rewrite Hdst, Hsrc in Hrun. rewrite Z.eqb_refl in Hrun. cbn [negb] in Hrun.
  destruct (inodes s !! parentSrc) as [sa|] eqn:Hsa; [|discriminate].
  destruct (inodes s !! parentDst) as [da|] eqn:Hda; [|discriminate].
  destruct (inodes s !! ino) as [ia|] eqn:Hia; [|discriminate].
  destruct (Z.eqb_spec (Typ (parseAttr sa Attr0)) TypeDirectory) as [Hsdir|]; [|discriminate].
  destruct (Z.eqb_spec (Typ (parseAttr da Attr0)) TypeDirectory) as [Hddir|]; [|discriminate].
  cbn [negb] in Hrun. unfold Rename_replace in Hrun.
  change (0 >? 0) with false in Hrun. cbn [andb app] in Hrun.
  injection Hrun as <- _.
  set (iattr := set_Ctime (set_Parent (parseAttr ia Attr0) parentDst)
                  (Unix now) (u32 (Nanosecond now))).
  assert (Hit : Typ (parseAttr (marshal iattr) Attr0) = Typ (parseAttr ia Attr0)).
  { rewrite Typ_marshal; [reflexivity|].
    change (Typ iattr) with (Typ (parseAttr ia Attr0)).
    split; [|exact (Hityp ia eq_refl)].
    cbn [Typ parseAttr]. unfold u8. apply Z.mod_pos_bound. lia. }
  assert (Hst : Typ (parseAttr (marshal (touch_mc now (parseAttr sa Attr0))) Attr0)
                = TypeDirectory).
  { rewrite Typ_marshal; [exact Hsdir|].
    change (Typ (touch_mc now (parseAttr sa Attr0))) with (Typ (parseAttr sa Attr0)).
    rewrite Hsdir. exact TypeDirectory_fits. }
  pose proof (Hinv parentSrc sa Hsa Hsdir) as HokS.
  pose proof (Hinv parentDst da Hda Hddir) as HokD.
  pose proof (HroomS sa eq_refl) as HrS. pose proof (HroomD da eq_refl) as HrD.
  unfold subdirs in HokS, HokD.
  destruct (Z.eqb_spec parentSrc parentDst) as [Heq|Hneq].
  - (* inside one directory *)
    subst parentDst. rewrite Z.eqb_refl, andb_false_r.
    cbn [negb app]. intros b Hb Hbt. unfold subdirs.
    assert (Hnames : nameSrc <> nameDst) by (intros ->; congruence).
    match type of Hb with inodes (pipeline ?l s) !! D = _ =>
      assert (Hi : inodes (pipeline l s)
                   = <[ino := marshal iattr]>
                       (<[parentSrc := marshal (touch_mc now (parseAttr sa Attr0))]>
                          (inodes s)))
        by reflexivity
    end.
    rewrite Hi in Hb. unfold pipeline. cbn [foldl].
    rewrite entries_SetInode.
    destruct (decide (D = ino)) as [->|HDi].
    + rewrite lookup_insert_eq in Hb. injection Hb as <-.
      rewrite entries_HSetEntry_ne, entries_SetInode, entries_HDelEntry_ne by congruence.
      rewrite Hit in Hbt. exact (Hinv ino ia Hia Hbt).
    + rewrite lookup_insert_ne in Hb by congruence.
      destruct (decide (D = parentSrc)) as [->|HDs].
      * rewrite lookup_insert_eq in Hb. injection Hb as <-.
        rewrite dir_HSetEntry, entries_SetInode, dir_HDelEntry.
        rewrite size_filter_insert_fresh
          by (rewrite lookup_delete_ne by exact Hnames; exact Hdst).
        rewrite (size_filter_delete _ _ _ _ Hsrc). cbn [fst snd].
        pose proof (size_filter_pos (fun e : string * (Z * Z) => e.2.1 = TypeDirectory)
                      _ _ _ Hsrc) as Hpos. cbn [fst snd] in Hpos.
        cbn [b_nlink marshal Nlink touch_mc set_Ctime set_Mtime parseAttr].
        destruct (decide (typ = TypeDirectory)) as [Ht|Ht]; [specialize (Hpos Ht)|]; lia.
      * rewrite lookup_insert_ne in Hb by congruence.
        rewrite entries_HSetEntry_ne, entries_SetInode, entries_HDelEntry_ne by congruence.
        exact (Hinv D b Hb Hbt).
  - (* from one directory to another *)
    assert (Hneq' : parentDst <> parentSrc) by congruence.
    rewrite (proj2 (Z.eqb_neq _ _) Hneq').
    rewrite andb_true_r. cbn [negb app]. intros b Hb Hbt. unfold subdirs.
    match type of Hb with inodes (pipeline (_ :: SetInode _ ?sb :: _ :: SetInode _ ?db :: _) s) !! D = _ =>
      assert (Hi : inodes (pipeline
                             [HDelEntry parentSrc nameSrc; SetInode parentSrc sb;
                              HSetEntry parentDst nameDst typ ino; SetInode parentDst db;
                              SetInode ino (marshal iattr)] s)
                   = <[ino := marshal iattr]>
                       (<[parentDst := db]> (<[parentSrc := sb]> (inodes s))))
        by reflexivity
    end.
    rewrite Hi in Hb. unfold pipeline. cbn [foldl].
    rewrite !entries_SetInode.
    destruct (decide (D = ino)) as [->|HDi].
    + rewrite lookup_insert_eq in Hb. injection Hb as <-.
      rewrite entries_HSetEntry_ne, entries_SetInode, entries_HDelEntry_ne by congruence.
      rewrite Hit in Hbt. exact (Hinv ino ia Hia Hbt).
    + rewrite lookup_insert_ne in Hb by congruence.
      destruct (decide (D = parentDst)) as [->|HDd].
      * rewrite lookup_insert_eq in Hb. injection Hb as <-.
        rewrite dir_HSetEntry, entries_SetInode, entries_HDelEntry_ne by congruence.
        rewrite size_filter_insert_fresh by exact Hdst. cbn [fst snd].
        destruct (Z.eqb_spec typ TypeDirectory) as [Ht|Ht].
        -- rewrite decide_True by exact Ht.
           cbn [b_nlink marshal Nlink set_Nlink].
           rewrite u32_small by lia. lia.
        -- rewrite decide_False by exact Ht.
           cbn [b_nlink marshal Nlink touch_mc set_Ctime set_Mtime parseAttr].
           exact HokD.
      * rewrite lookup_insert_ne in Hb by congruence.
        destruct (decide (D = parentSrc)) as [->|HDs].
        -- rewrite lookup_insert_eq in Hb. injection Hb as <-.
           rewrite entries_HSetEntry_ne, entries_SetInode, dir_HDelEntry by congruence.
           rewrite (size_filter_delete _ _ _ _ Hsrc). cbn [fst snd].
           pose proof (size_filter_pos (fun e : string * (Z * Z) => e.2.1 = TypeDirectory)
                         _ _ _ Hsrc) as Hpos. cbn [fst snd] in Hpos.
           destruct (Z.eqb_spec typ TypeDirectory) as [Ht|Ht].
           ++ rewrite decide_True by exact Ht. specialize (Hpos Ht).
              cbn [b_nlink marshal Nlink set_Nlink].
              rewrite u32_small by lia. lia.
           ++ rewrite decide_False by exact Ht.
              cbn [b_nlink marshal Nlink touch_mc set_Ctime set_Mtime parseAttr].
              exact HokS.
        -- rewrite lookup_insert_ne in Hb by congruence.
           rewrite entries_HSetEntry_ne, entries_SetInode, entries_HDelEntry_ne by congruence.
           exact (Hinv D b Hb Hbt).
Qed.

End NlinkInvariant.


(** Before the rename the link counts are right: the root has 4 links and
    two entries that are directories. *)
Lemma two_dirs_nlink_ok (D : Z) : nlink_ok (C := juicefs_consts) two_dirs D.
Proof.
  intros a Ha _. unfold two_dirs in Ha. cbn [inodes set_entries set_inodes] in Ha.
  apply lookup_insert_Some in Ha as [[<- <-]|[_ Ha]]; [vm_compute; reflexivity|].
  apply lookup_insert_Some in Ha as [[<- <-]|[_ Ha]]; [vm_compute; reflexivity|].
  apply lookup_singleton_Some in Ha as [<- <-]. vm_compute; reflexivity.
Qed.

(** C3, where the code departs from the claim: [Rename(1, "a", 1, "b")] on
    the root with the two empty directories [a] and [b].  The rename
    succeeds, [b] now names inode 2 and inode 3 is gone, so the root has one
    entry that is a directory; but its link count is still 4, not 3.  The
    decrement for the replaced directory is made on [dattr], which is
    written only when the two parents differ. *)
Theorem Rename_over_directory_keeps_nlink :
  (forall D, nlink_ok (C := juicefs_consts) two_dirs D) /\
  exists (s' : Store) (r' : redisMeta) (iattr : Attr),
    Rename (C := juicefs_consts) (fun _ => None) (mkCtx 0 0 false)
      (mkTime 1600000000 0) engine0 two_dirs 1 "a" 1 "b"
    = (0, s', r', None, Some iattr, NoCleanup) /\
    default ∅ (entries s' !! 1) = {[ "b" := (2, 2) ]} /\
    inodes s' !! 3 = None /\
    b_nlink <$> inodes s' !! 1 = Some 4 /\
    subdirs (C := juicefs_consts) s' 1 = 1 /\
    ~ nlink_ok (C := juicefs_consts) s' 1.
Proof.
  split; [exact two_dirs_nlink_ok|].
  destruct (Rename (C := juicefs_consts) (fun _ => None) (mkCtx 0 0 false)
              (mkTime 1600000000 0) engine0 two_dirs 1 "a" 1 "b")
    as [[[[[e s'] r'] ino'] [iattr|]] after] eqn:Hrun;
    [|vm_compute in Hrun; discriminate].
  assert (Hres : e = 0 /\ ino' = None /\ after = NoCleanup
                 /\ default ∅ (entries s' !! 1) = {[ "b" := (2, 2) ]}
                 /\ inodes s' !! 3 = None
                 /\ b_nlink <$> inodes s' !! 1 = Some 4
                 /\ Typ <$> (flip parseAttr Attr0 <$> inodes s' !! 1) = Some 2
                 /\ subdirs (C := juicefs_consts) s' 1 = 1).
  { vm_compute in Hrun. injection Hrun as <- <- _ <- _ <-.
    repeat split; vm_compute; reflexivity. }
  destruct Hres as (-> & -> & -> & Hent & Hgone & Hlink & Htyp & Hsub).
  exists s', r', iattr. repeat split; try assumption.
  intros Hok. destruct (inodes s' !! 1) as [a|] eqn:Ha; [|discriminate].
  injection Hlink as Hlink. injection Htyp as Htyp.
  pose proof (Hok a Ha Htyp) as Hbad. rewrite Hlink, Hsub in Hbad. discriminate.
Qed.

(* --------------------------------------------------------------------- *)
(** ** The attribute blob: [marshal] and [parseAttr] *)

Lemma i64_u64 (x : Z) : - 2 ^ 63 <= x < 2 ^ 63 -> i64 (u64 x) = x.
Proof.
  intros Hx. unfold i64, u64.
  destruct (Z.neg_nonneg_cases x) as [Hneg|Hpos].
  - replace (x mod 2 ^ 64) with (x + 2 ^ 64).
    + replace (x + 2 ^ 64 + 2 ^ 63) with (x + 2 ^ 63 + 1 * 2 ^ 64) by lia.
      rewrite Z.mod_add by lia. rewrite Z.mod_small by lia. lia.
    + symmetry. replace x with (x + 2 ^ 64 + (-1) * 2 ^ 64) at 1 by lia.
      rewrite Z.mod_add by lia. apply Z.mod_small. lia.
  - rewrite (Z.mod_small x) by lia. rewrite Z.mod_small by lia. lia.
Qed.

Lemma Mode_marshal (t x : Attr) :
  0 <= Typ t < 16 -> 0 <= Mode t < 4096 -> Mode (parseAttr (marshal t) x) = Mode t.
Proof.
  intros Ht Hm. unfold parseAttr, marshal. cbn [Mode b_typmode].
  rewrite Z.land_lor_distr_l.
  assert (H1 : Z.land (u16 (Z.shiftl (Typ t) 12)) 4095 = 0).
  { unfold u16. rewrite Z.shiftl_mul_pow2 by lia.
    rewrite (Z.mod_small (Typ t * 2 ^ 12)) by lia.
    change 4095 with (Z.ones 12). rewrite Z.land_ones by lia.
    apply Z.mod_mul. lia. }
  rewrite H1, Z.lor_0_l. rewrite <- Z.land_assoc, Z.land_diag.
  change 4095 with (Z.ones 12). rewrite Z.land_ones by lia.
  apply Z.mod_small. change (2 ^ 12) with 4096. lia.
Qed.

(** X1.  An attribute survives [marshal] followed by [parseAttr], whatever
    the attribute parsed into held before, when its type fits 4 bits, its
    mode 12 bits and its times 64 bits signed; the result is marked [Full]. *)
Theorem parseAttr_marshal_roundtrip (a x : Attr) :
  packable a ->
  parseAttr (marshal a) x
  = mkAttr (Flags a) (Typ a) (Mode a) (Uid a) (Gid a) (Atime a) (Mtime a) (Ctime a)
      (Atimensec a) (Mtimensec a) (Ctimensec a) (Nlink a) (Length a) (Rdev a)
      (Parent a) true.
Proof.
  intros (Ht & Hm & Hat & Hmt & Hct).
  pose proof (Typ_marshal a x Ht) as HT. pose proof (Mode_marshal a x Ht Hm) as HM.
  unfold parseAttr in *. cbn [Typ Mode] in HT, HM. rewrite HT, HM.
  unfold marshal. cbn [b_flags b_uid b_gid b_atime b_mtime b_ctime b_atimensec
                       b_mtimensec b_ctimensec b_nlink b_length b_rdev b_parent].
  rewrite !i64_u64 by assumption. reflexivity.
Qed.

Lemma parseAttr_marshal_roundtrip_witness :
  parseAttr (marshal (set_Length empty_file 4096)) Attr0
  = mkAttr 0 1 0x1A4 0 0 0 0 0 0 0 0 1 4096 0 0 true.
Proof.
  apply (parseAttr_marshal_roundtrip (set_Length empty_file 4096) Attr0).
  unfold packable. cbn. lia.
Defined.

(** ** The size accounted for a length *)

(** X2.  [align4K] accounts whole pages of 4 KiB: for a length up to
    2^63 - 4096 the result is the least multiple of 4096 that is not below
    the length; it is 0 for the length 0 only, and it grows with the
    length. *)
Theorem align4K_pages (x y : Z) :
  0 <= x <= y -> y <= 2 ^ 63 - 4096 ->
  align4K x mod 4096 = 0 /\ x <= align4K x < x + 4096 /\
  (align4K x = 0 <-> x = 0) /\ align4K x <= align4K y.
Proof.
  intros Hxy Hy.
  assert (Hr : forall z, 0 <= z <= 2 ^ 63 - 4096 -> align4K z = 4096 * ((z + 4095) / 4096)).
  { intros z Hz. unfold align4K.
    destruct (Z.eqb_spec z 0) as [->|Hne]; [reflexivity|].
    assert (Hdiv : (z + 4095) / 4096 = (z - 1) / 4096 + 1).
    { replace (z + 4095) with (z - 1 + 1 * 4096) by lia.
      now rewrite Z.div_add by lia. }
    assert (Hq : 0 <= (z - 1) / 4096 < 2 ^ 51).
    { split; [apply Z.div_pos; lia|]. apply Z.div_lt_upper_bound; lia. }
    pose proof (Z.div_mod (z - 1) 4096 ltac:(lia)) as Hdm.
    pose proof (Z.mod_pos_bound (z - 1) 4096 ltac:(lia)) as Hmb.
    rewrite (u64_small (z - 1)) by lia.
    rewrite Z.shiftr_div_pow2 by lia. change (2 ^ 12) with 4096.
    rewrite (u64_small ((z - 1) / 4096 + 1)) by lia.
    rewrite Z.shiftl_mul_pow2 by lia. change (2 ^ 12) with 4096.
    rewrite u64_small by lia. rewrite i64_small by lia. lia. }
  rewrite !Hr by lia.
  pose proof (Z.div_mod (x + 4095) 4096 ltac:(lia)) as Hdx.
  pose proof (Z.mod_pos_bound (x + 4095) 4096 ltac:(lia)) as Hbx.
  repeat split.
  - rewrite Z.mul_comm. apply Z.mod_mul. lia.
  - lia.
  - lia.
  - lia.
  - intros ->. reflexivity.
  - apply Z.mul_le_mono_nonneg_l; [lia|]. apply Z.div_le_mono; lia.
Qed.

Lemma align4K_pages_witness :
  align4K 5000 mod 4096 = 0 /\ 5000 <= align4K 5000 < 5000 + 4096 /\
  (align4K 5000 = 0 <-> 5000 = 0) /\ align4K 5000 <= align4K 10000.
Proof. apply (align4K_pages 5000 10000); lia. Defined.

(** ** Permissions *)

Section Permissions.
Context {C : Consts}.

Lemma accessMode_range (attr : Attr) (uid gid : Z) :
  Z.land (accessMode attr uid gid) 7 = accessMode attr uid gid.
Proof.
  unfold accessMode. destruct (uid =? 0); [reflexivity|].
  destruct (uid =? Uid attr); [now rewrite <- Z.land_assoc|].
  destruct (gid =? Gid attr); [now rewrite <- Z.land_assoc|].
  unfold u8. change (2 ^ 8) with (2 ^ 8). 
  rewrite <- (Z.land_ones _ 8) by lia.
  rewrite <- !Z.land_assoc. reflexivity.
Qed.

(** X3.  [Access] lets root through without looking at anything.  For any
    other caller, with the attribute at hand, a request that is granted
    stays granted when bits are taken out of it, and a request with a bit
    outside read, write and execute is refused with EACCES. *)
Theorem Access_submask (net : Net) (ctx : Ctx) (s : Store) (inode mmask mmask' : Z)
    (attr : Attr) :
  Full attr = true ->
  (ctx_uid ctx = 0 -> Access net ctx s inode mmask (Some attr) = 0) /\
  (Access net ctx s inode mmask (Some attr) = 0 ->
   Z.land mmask' mmask = mmask' ->
   Access net ctx s inode mmask' (Some attr) = 0) /\
  (ctx_uid ctx <> 0 -> Z.land mmask 7 <> mmask ->
   Access net ctx s inode mmask (Some attr) = EACCES).
Proof.
  intros Hfull. unfold Access. rewrite Hfull.
  destruct (Z.eqb_spec (ctx_uid ctx) 0) as [Hroot|Hroot].
  { repeat split; try reflexivity. intros Hne. contradiction. }
  cbn [negb Z.eqb]. change (0 =? 0) with true. cbn [negb].
  pose proof (accessMode_range attr (ctx_uid ctx) (ctx_gid ctx)) as Hrange.
  set (mode := accessMode attr (ctx_uid ctx) (ctx_gid ctx)) in *.
  repeat split.
  - intros Hc. contradiction.
  - destruct (Z.eqb_spec (Z.land mode mmask) mmask) as [Hm|Hm]; [|discriminate].
    intros _ Hsub.
    assert (H : Z.land mode mmask' = mmask').
    { rewrite <- Hsub at 1. rewrite (Z.land_comm mmask' mmask), Z.land_assoc, Hm.
      rewrite Z.land_comm. exact Hsub. }
    rewrite H, Z.eqb_refl. reflexivity.
  - intros _ Hbits.
    destruct (Z.eqb_spec (Z.land mode mmask) mmask) as [Hm|Hm]; [|reflexivity].
    exfalso. apply Hbits.
    transitivity (Z.land (Z.land mode mmask) 7); [now rewrite Hm|].
    rewrite <- Z.land_assoc, (Z.land_comm mmask 7), Z.land_assoc, Hrange. exact Hm.
Qed.

End Permissions.

Lemma Access_submask_witness :
  Access (C := juicefs_consts) (fun _ => None) (mkCtx 1000 1000 false) empty_store 1 4
    (Some private_dir) = 0.
Proof.
  destruct (Access_submask (C := juicefs_consts) (fun _ => None) (mkCtx 1000 1000 false)
              empty_store 1 5 4 private_dir eq_refl) as (_ & Hsub & _).
  apply Hsub; reflexivity.
Defined.

(** ** File-system statistics *)

(** X4.  [StatFS] returns 0 whether the connection works or not, with a
    total of 2^50 bytes and 10 * 2^20 free inodes.  On a working connection
    with between 0 and 2^50 - 2^16 bytes used, the space reported available
    is 2^50 minus the used space rounded up to the next multiple of 64 KiB
    strictly above it; when the counters cannot be read, 64 KiB count as
    used and no inode. *)
Theorem StatFS_never_fails (net : Net) (s : Store) :
  let '(e, (totalspace, availspace, iused, iavail)) := StatFS net s in
  e = 0 /\ totalspace = 2 ^ 50 /\ iavail = 10 * 2 ^ 20 /\
  (net (Some (Millisecond * 300)) = None ->
   0 <= usedSpace s <= 2 ^ 50 - 2 ^ 16 -> 0 <= totalInodes s < 2 ^ 64 ->
   exists used,
     availspace = 2 ^ 50 - used /\ used mod 2 ^ 16 = 0 /\
     (usedSpace s < used <= usedSpace s + 2 ^ 16) /\
     iused = totalInodes s) /\
  (net (Some (Millisecond * 300)) <> None ->
   availspace = 2 ^ 50 - 2 ^ 16 /\ iused = 0).
Proof.
  unfold StatFS. cbv zeta. repeat split.
  - intros Hnet Hused Hino. rewrite Hnet.
    exists (2 ^ 16 * (usedSpace s / 2 ^ 16 + 1)).
    pose proof (Z.div_mod (usedSpace s) (2 ^ 16) ltac:(lia)) as Hdm.
    pose proof (Z.mod_pos_bound (usedSpace s) (2 ^ 16) ltac:(lia)) as Hmb.
    assert (Hq : 0 <= usedSpace s / 2 ^ 16 < 2 ^ 34).
    { split; [apply Z.div_pos; lia|]. apply Z.div_lt_upper_bound; lia. }
    rewrite Z.shiftr_div_pow2 by lia.
    rewrite (i64_small (usedSpace s / 2 ^ 16 + 1)) by lia.
    change (Z.shiftl 1 50) with (2 ^ 50).
    rewrite Z.shiftl_mul_pow2 by lia.
    change (2 ^ 16) with 65536 in *. change (2 ^ 34) with 17179869184 in *.
    change (2 ^ 50) with 1125899906842624 in *.
    rewrite i64_small by lia. rewrite (u64_small ((_ + 1) * _)) by lia.
    rewrite u64_small by lia. rewrite u64_small by lia.
    repeat split; try lia.
    rewrite Z.mul_comm. apply Z.mod_mul. lia.
  - destruct (net (Some (Millisecond * 300))); [reflexivity|contradiction].
  - destruct (net (Some (Millisecond * 300))); [reflexivity|contradiction].
Qed.

(* --------------------------------------------------------------------- *)
(** ** Symbolic links *)

Section Symlinks.
Context {C : Consts}.

(** X5.  A symbolic link made by [Symlink] in a directory that has no entry
    of that name reads back through [ReadLink] as the path given, on a
    working connection; the target is then served from the engine's cache
    whatever the connection and the server have become.  [ino] is the
    number [nextInode] returned to [Symlink]. *)
Theorem Symlink_ReadLink_roundtrip (ctx : Ctx) (now : Time) (s : Store) (parent : Z)
    (name path : string) (ino : Z) (attr : Attr) (net : Net) (cache : gmap Z string)
    (pa : blob) :
  inodes s !! parent = Some pa ->
  Typ (parseAttr pa Attr0) = TypeDirectory ->
  default ∅ (entries s !! parent) !! name = None ->
  net None = None -> cache !! ino = None ->
  (Symlink_ino ctx now s parent name path ino attr).1 = 0 /\
  ReadLink net cache (Symlink_ino ctx now s parent name path ino attr).2 ino
  = (0, Some path, <[ino := path]> cache) /\
  forall (net' : Net) (s' : Store),
    ReadLink net' (<[ino := path]> cache) s' ino = (0, Some path, <[ino := path]> cache).
Proof.
  intros Hp Hdir Hname Hnet Hcache.
  unfold Symlink_ino, mknod_ino, mknod_txf, tx_Get_inode, tx_HGet_entry.
  rewrite Hp, Hdir, Z.eqb_refl, Hname. cbn [negb committed fst snd].
  rewrite Z.eqb_refl.
  split; [reflexivity|]. split.
  - unfold ReadLink. rewrite Hcache, Hnet.
    match goal with |- context [symlinks (pipeline ?l s) !! ino] =>
      assert (Hs : symlinks (pipeline l s) = <[ino := path]> (symlinks s)) by reflexivity
    end.
    rewrite Hs, lookup_insert_eq. reflexivity.
  - intros net' s'. unfold ReadLink. rewrite lookup_insert_eq. reflexivity.
Qed.

End Symlinks.

(** X5 on a new volume: the link [/l] (inode 2) to [/etc/hosts]. *)
Lemma Symlink_ReadLink_roundtrip_witness :
  ReadLink (fun _ => None) ∅
    (Symlink_ino (C := juicefs_consts) (mkCtx 0 0 false) (mkTime 1600000000 0) fresh_volume
       1 "l" "/etc/hosts" 2 Attr0).2 2
  = (0, Some "/etc/hosts"%string, {[ 2 := "/etc/hosts"%string ]}).
Proof.
  refine (proj1 (proj2 (Symlink_ReadLink_roundtrip (C := juicefs_consts) (mkCtx 0 0 false)
            (mkTime 1600000000 0) fresh_volume 1 "l" "/etc/hosts" 2 Attr0
            (fun _ => None) ∅ (dir_blob 1 2) _ _ _ _ _))); reflexivity.
Defined.

(* --------------------------------------------------------------------- *)
(** ** Creating and removing names *)

Section CreateRemove.
Context {C : Consts}.

(** [mknod] from the return of [nextInode] on. *)
Lemma mknod_ino_outcome (ctx : Ctx) (now : Time) (s : Store) (parent : Z) (name : string)
    (_type mode cumask rdev : Z) (path : string) (ino : Z) (attr : Attr) :
  let '(err, s') := mknod_ino ctx now s parent name _type mode cumask rdev path ino attr in
  match inodes s !! parent with
  | None => err = ENOENT /\ s' = s
  | Some pa =>
      if negb (Typ (parseAttr pa Attr0) =? TypeDirectory) then err = ENOTDIR /\ s' = s
      else
        match default ∅ (entries s !! parent) !! name with
        | Some _ => err = EEXIST /\ s' = s
        | None =>
            err = 0 /\
            default ∅ (entries s' !! parent)
            = <[name := (_type, ino)]> (default ∅ (entries s !! parent)) /\
            (forall D, D <> parent -> entries s' !! D = entries s !! D) /\
            (exists a,
               inodes s' !! ino = Some (marshal a) /\
               Typ a = _type /\ Mode a = Z.land mode (u16 (Z.lnot cumask)) /\
               Uid a = ctx_uid ctx /\
               Gid a = (if ctx_hadoop ctx then Gid (parseAttr pa Attr0) else ctx_gid ctx) /\
               Nlink a = (if _type =? TypeDirectory then 2 else 1) /\
               Parent a = parent) /\
            totalInodes s' = totalInodes s + 1 /\
            usedSpace s' = usedSpace s /\
            (_type = TypeSymlink -> symlinks s' !! ino = Some path)
        end
  end.
Proof.
  unfold mknod_ino, mknod_txf, tx_Get_inode, tx_HGet_entry.
  destruct (inodes s !! parent) as [pa|]; [|split; reflexivity].
  destruct (Typ (parseAttr pa Attr0) =? TypeDirectory); [|split; reflexivity].
  cbn [negb].
  destruct (default ∅ (entries s !! parent) !! name); [split; reflexivity|].
  cbn [committed].
  match goal with |- context [pipeline ([_; SetInode parent ?pb; SetInode ino ?ib] ++ _) s] =>
    destruct (mknod_pipeline s parent name _type path ino pb ib) as [Hi He];
    set (inew := ib) in *
  end.
  cbv zeta in Hi, He.
  split; [reflexivity|].
  split; [rewrite He, lookup_insert_eq; reflexivity|].
  split; [intros D HD; rewrite He; apply lookup_insert_ne; congruence|].
  split.
  - subst inew. eexists. split; [rewrite Hi; apply lookup_insert_eq|].
    destruct (ctx_hadoop ctx);
      unfold touch_amc, touch_mc, set_Gid, set_Ctime, set_Mtime, set_Atime;
      cbn [Typ Mode Uid Gid Nlink Parent];
      rewrite mknod_attr_Typ, mknod_attr_Nlink;
      unfold mknod_attr;
      (destruct (_type =? TypeDirectory); [|destruct (_type =? TypeSymlink)]);
      repeat split; reflexivity.
  - destruct (Z.eqb_spec _type TypeSymlink) as [Hsym|Hsym];
      [|destruct (_type =? TypeFile)].
    + split; [reflexivity|]. split; [reflexivity|]. intros _.
      match goal with |- symlinks (pipeline ?l s) !! ino = _ =>
        assert (Hs : symlinks (pipeline l s) = <[ino := path]> (symlinks s)) by reflexivity
      end.
      rewrite Hs. apply lookup_insert_eq.
    + split; [reflexivity|]. split; [|contradiction].
      unfold pipeline. cbn [foldl app exec usedSpace set_usedSpace set_totalInodes
                              set_inodes set_entries].
      change (align4K 0) with 0. lia.
    + split; [reflexivity|]. split; [reflexivity|contradiction].
Qed.

(** X6.  What [mknod] returns and leaves.  When the connection fails it
    returns EIO, assigns no inode number and leaves the server, the counter
    [nextinode] included.  On a working connection it takes a number from
    the counter first, which advances by one, and by two when the first
    number is 1, the root's; that number is assigned to [*inode] and the
    counter stays advanced whatever follows.  Then it returns ENOENT
    without the parent, ENOTDIR under a parent that is no directory, EEXIST
    for a name that exists, the store untouched in the three cases;
    otherwise 0, the entry (type, inode) added under the name and no other
    entry touched, the new inode written with the type, the mode without
    the bits of the mask, the caller's uid, the caller's gid or (Hadoop)
    the parent's, 2 links for a directory and 1 otherwise, and the parent;
    one more inode counted, no more space used, and the target stored for a
    symlink. *)
Theorem mknod_outcome (net : Net) (ctx : Ctx) (now : Time) (s : Store) (nextinode : Z)
    (parent : Z) (name : string) (_type mode cumask rdev : Z) (path : string)
    (attr : Attr) :
  let '(err, inode, s', nextinode') :=
    mknod net ctx now s nextinode parent name _type mode cumask rdev path attr in
  match net None with
  | Some _ => err = EIO /\ inode = None /\ s' = s /\ nextinode' = nextinode
  | None =>
      nextinode' = nextinode + (if u64 (nextinode + 1) =? 1 then 2 else 1) /\
      inode = Some (u64 nextinode') /\
      match inodes s !! parent with
      | None => err = ENOENT /\ s' = s
      | Some pa =>
          if negb (Typ (parseAttr pa Attr0) =? TypeDirectory) then err = ENOTDIR /\ s' = s
          else
            match default ∅ (entries s !! parent) !! name with
            | Some _ => err = EEXIST /\ s' = s
            | None =>
                err = 0 /\
                default ∅ (entries s' !! parent)
                = <[name := (_type, u64 nextinode')]> (default ∅ (entries s !! parent)) /\
                (forall D, D <> parent -> entries s' !! D = entries s !! D) /\
                (exists a,
                   inodes s' !! u64 nextinode' = Some (marshal a) /\
                   Typ a = _type /\ Mode a = Z.land mode (u16 (Z.lnot cumask)) /\
                   Uid a = ctx_uid ctx /\
                   Gid a = (if ctx_hadoop ctx then Gid (parseAttr pa Attr0)
                            else ctx_gid ctx) /\
                   Nlink a = (if _type =? TypeDirectory then 2 else 1) /\
                   Parent a = parent) /\
                totalInodes s' = totalInodes s + 1 /\
                usedSpace s' = usedSpace s /\
                (_type = TypeSymlink -> symlinks s' !! u64 nextinode' = Some path)
            end
      end
  end.
Proof.
  unfold mknod, nextInode, Incr_nextinode.
  destruct (net None) as [msg|]; [repeat split; reflexivity|].
  destruct (Z.eqb_spec (u64 (nextinode + 1)) 1) as [H1|H1].
  - pose proof (mknod_ino_outcome ctx now s parent name _type mode cumask rdev path
                  (u64 (nextinode + 1 + 1)) attr) as Hout.
    cbv beta iota zeta.
    destruct (mknod_ino _ _ _ _ _ _ _ _ _ _ _ _) as [e s0].
    replace (nextinode + 2) with (nextinode + 1 + 1) by lia.
    split; [reflexivity|]. split; [reflexivity|]. exact Hout.
  - pose proof (mknod_ino_outcome ctx now s parent name _type mode cumask rdev path
                  (u64 (nextinode + 1)) attr) as Hout.
    cbv beta iota zeta.
    destruct (mknod_ino _ _ _ _ _ _ _ _ _ _ _ _) as [e s0].
    split; [reflexivity|]. split; [reflexivity|]. exact Hout.
Qed.

(** X7.  What [Rmdir] returns and leaves.  A call that returns an error
    leaves the server untouched.  A call that returns 0 has found a
    directory entry under the name whose directory had no entry; the entry,
    the inode and its extended attributes are gone and one inode less is
    counted.  The names [.] and [..] give EINVAL and ENOTEMPTY; on a working
    connection a missing name gives ENOENT, an entry that is no directory
    ENOTDIR, and a directory that has an entry ENOTEMPTY. *)
Theorem Rmdir_outcome (net : Net) (now : Time) (s : Store) (parent : Z) (name : string) :
  let '(err, s') := Rmdir net now s parent name in
  (err <> 0 -> s' = s) /\
  (err = 0 ->
   exists inode,
     default ∅ (entries s !! parent) !! name = Some (TypeDirectory, inode) /\
     default ∅ (entries s !! inode) = ∅ /\
     default ∅ (entries s' !! parent) = delete name (default ∅ (entries s !! parent)) /\
     inodes s' !! inode = None /\ xattrs s' !! inode = None /\
     totalInodes s' = totalInodes s - 1) /\
  (name = "." -> err = EINVAL) /\
  (name = ".." -> err = ENOTEMPTY) /\
  (name <> "." -> name <> ".." -> net None = None ->
   match default ∅ (entries s !! parent) !! name with
   | None => err = ENOENT
   | Some (typ, inode) =>
       (typ <> TypeDirectory -> err = ENOTDIR) /\
       (typ = TypeDirectory -> default ∅ (entries s !! inode) <> ∅ ->
        forall pa, inodes s !! parent = Some pa ->
                   Typ (parseAttr pa Attr0) = TypeDirectory -> err = ENOTEMPTY)
   end).
Proof.
  unfold Rmdir.
  destruct (decide (name = ".")) as [Hdot|Hdot].
  { repeat split; try discriminate; try reflexivity; intros; subst; try discriminate;
      contradiction. }
  destruct (decide (name = "..")) as [Hdd|Hdd].
  { repeat split; try discriminate; try reflexivity; intros; subst; try discriminate;
      contradiction. }
  unfold rdb_HGet_entry. destruct (net None) as [msg|] eqn:Hnet.
  { repeat split; try discriminate; try reflexivity; intros; try contradiction;
      discriminate. }
  unfold tx_HGet_entry at 1.
  destruct (default ∅ (entries s !! parent) !! name) as [[typ inode]|] eqn:Hname.
  2:{ repeat split; try discriminate; try reflexivity; intros; contradiction. }
  destruct (Z.eqb_spec typ TypeDirectory) as [Htyp|Htyp]; cbn [negb].
  2:{ repeat split; try discriminate; try reflexivity; intros; contradiction. }
  subst typ. unfold Rmdir_txf, tx_Get_inode, tx_HGet_entry.
  destruct (inodes s !! parent) as [pa|] eqn:Hp.
  2:{ repeat split; try discriminate; try reflexivity; intros; try contradiction;
        discriminate. }
  destruct (Z.eqb_spec (Typ (parseAttr pa Attr0)) TypeDirectory) as [Hdir|Hdir];
    cbn [negb].
  2:{ cbn [committed]. repeat split; intros; try discriminate; try reflexivity;
        try contradiction; congruence. }
  rewrite Hname, Z.eqb_refl. cbn [negb].
  unfold tx_HLen.
  destruct (Z.gtb_spec (Z.of_nat (size (default ∅ (entries s !! inode)))) 0) as [Hlen|Hlen].
  { cbn [committed]. repeat split; try discriminate; try reflexivity; intros;
      contradiction. }
  assert (Hempty : default ∅ (entries s !! inode) = ∅).
  { apply map_size_empty_iff. lia. }
  cbn [committed].
  destruct (Rmdir_pipeline s parent name inode
              (marshal (touch_mc now (set_Nlink (parseAttr pa Attr0)
                                        (u32 (Nlink (parseAttr pa Attr0) - 1))))))
    as [Hi He].
  cbv zeta in Hi, He.
  split; [intros H; contradiction|].
  split.
  - intros _. exists inode. split; [reflexivity|]. split; [exact Hempty|].
    split; [rewrite He; apply lookup_put_hash|].
    split; [rewrite Hi; apply lookup_delete_eq|].
    split; [|reflexivity].
    match goal with |- xattrs (pipeline ?l s) !! inode = None =>
      assert (Hx : xattrs (pipeline l s) = delete inode (xattrs s)) by reflexivity
    end.
    rewrite Hx. apply lookup_delete_eq.
  - repeat split; intros; try contradiction.
Qed.

(** X8.  [Mkdir] followed by [Rmdir] of the same name gives the parent back
    its entries and its link count: both calls return 0, every directory
    has the entries it had, the new inode is gone, no other inode than the
    parent has changed, the parent is a directory with the link count it
    had, and as many inodes are counted as before.  [ino] is the number
    [nextInode] returned to [Mkdir], a new one. *)
Theorem Mkdir_Rmdir_roundtrip (ctx : Ctx) (now now' : Time) (net : Net) (s : Store)
    (parent : Z) (name : string) (mode cumask copysgid ino : Z) (attr : Attr) (pa : blob) :
  0 <= TypeDirectory < 16 ->
  inodes s !! parent = Some pa ->
  Typ (parseAttr pa Attr0) = TypeDirectory ->
  0 <= b_nlink pa < 2 ^ 32 - 1 ->
  default ∅ (entries s !! parent) !! name = None ->
  inodes s !! ino = None -> entries s !! ino = None ->
  name <> "." -> name <> ".." -> net None = None ->
  let '(err1, s1) := Mkdir_ino ctx now s parent name mode cumask copysgid ino attr in
  let '(err2, s2) := Rmdir net now' s1 parent name in
  err1 = 0 /\ err2 = 0 /\
  (forall D, default ∅ (entries s2 !! D) = default ∅ (entries s !! D)) /\
  inodes s2 !! ino = None /\
  (forall D, D <> parent -> inodes s2 !! D = inodes s !! D) /\
  (exists pa2, inodes s2 !! parent = Some pa2 /\ b_nlink pa2 = b_nlink pa /\
               Typ (parseAttr pa2 Attr0) = TypeDirectory) /\
  totalInodes s2 = totalInodes s.
Proof.
  intros Hfits Hp Hdir Hroom Hname Hnew Hnoent Hdot Hdd Hnet.
  assert (Hne : parent <> ino) by congruence.
  unfold Mkdir_ino, Mknod_ino, mknod_ino, mknod_txf, tx_Get_inode, tx_HGet_entry.
  rewrite Hp, Hdir, Z.eqb_refl, Hname. cbn [negb committed].
  match goal with |- context [pipeline ([_; SetInode parent ?pb; SetInode ino ?ib] ++ _) s] =>
    destruct (mknod_pipeline s parent name TypeDirectory "" ino pb ib) as [Hi1 He1];
    set (pb1 := pb) in *; set (ib1 := ib) in *
  end.
  cbv zeta in Hi1, He1.
  match type of Hi1 with inodes ?st = _ =>
    assert (Ht1 : totalInodes st = totalInodes s + 1)
      by (destruct (TypeDirectory =? TypeSymlink); [|destruct (TypeDirectory =? TypeFile)];
          reflexivity);
    set (s1 := st) in *
  end.
  clearbody s1.
  assert (Hpb : Typ (parseAttr pb1 Attr0) = TypeDirectory /\ b_nlink pb1 = b_nlink pa + 1).
  { subst pb1. split.
    - rewrite Typ_marshal; [exact Hdir|].
      change (Typ (touch_mc now (set_Nlink (parseAttr pa Attr0)
                (u32 (Nlink (parseAttr pa Attr0) + 1))))) with (Typ (parseAttr pa Attr0)).
      rewrite Hdir. exact Hfits.
    - cbn [b_nlink marshal Nlink touch_mc set_Ctime set_Mtime set_Nlink parseAttr].
      apply u32_small. lia. }
  destruct Hpb as [Hpbt Hpbn].
  assert (Hent1 : default ∅ (entries s1 !! parent) !! name = Some (TypeDirectory, ino)).
  { rewrite He1, lookup_insert_eq. apply lookup_insert_eq. }
  assert (Hp1 : inodes s1 !! parent = Some pb1).
  { rewrite Hi1, lookup_insert_ne by congruence. apply lookup_insert_eq. }
  assert (Hchild : entries s1 !! ino = None).
  { rewrite He1, lookup_insert_ne by exact Hne. exact Hnoent. }
  unfold Rmdir. rewrite decide_False by exact Hdot. rewrite decide_False by exact Hdd.
  unfold rdb_HGet_entry. rewrite Hnet. unfold tx_HGet_entry at 1.
  rewrite Hent1, Z.eqb_refl. cbn [negb].
  unfold Rmdir_txf, tx_Get_inode, tx_HGet_entry, tx_HLen.
  rewrite Hp1, Hpbt, Z.eqb_refl, Hent1, Z.eqb_refl, Hchild. cbn [negb default size].
  rewrite map_size_empty. change (Z.of_nat 0 >? 0) with false. cbn [committed].
  match goal with |- context [pipeline [_; SetInode parent ?pb; _; _; _] s1] =>
    destruct (Rmdir_pipeline s1 parent name ino pb) as [Hi2 He2];
    set (pb2 := pb) in *
  end.
  cbv zeta in Hi2, He2.
  split; [reflexivity|]. split; [reflexivity|].
  split.
  { intros D. rewrite He2. destruct (decide (D = parent)) as [->|HD].
    - rewrite lookup_put_hash, He1, lookup_insert_eq. cbn [default from_option id].
      apply delete_insert_id. exact Hname.
    - rewrite lookup_put_hash_ne by congruence. rewrite He1, lookup_insert_ne by congruence.
      reflexivity. }
  split; [rewrite Hi2; apply lookup_delete_eq|].
  split.
  { intros D HD. rewrite Hi2. destruct (decide (D = ino)) as [->|HDi].
    - rewrite lookup_delete_eq. symmetry. exact Hnew.
    - rewrite lookup_delete_ne by congruence. rewrite lookup_insert_ne by congruence.
      rewrite Hi1, lookup_insert_ne by congruence. apply lookup_insert_ne. congruence. }
  split.
  { exists pb2. split.
    - rewrite Hi2, lookup_delete_ne by congruence. apply lookup_insert_eq.
    - subst pb2. split.
      + cbn [b_nlink marshal Nlink touch_mc set_Ctime set_Mtime set_Nlink parseAttr].
        rewrite Hpbn. rewrite u32_small by lia. lia.
      + rewrite Typ_marshal; [exact Hpbt|].
        change (Typ (touch_mc now' (set_Nlink (parseAttr pb1 Attr0)
                  (u32 (Nlink (parseAttr pb1 Attr0) - 1)))))
          with (Typ (parseAttr pb1 Attr0)).
        rewrite Hpbt. exact Hfits. }
  match goal with |- totalInodes (pipeline ?l s1) = _ =>
    assert (Ht2 : totalInodes (pipeline l s1) = totalInodes s1 + -1) by reflexivity
  end.
  rewrite Ht2, Ht1. lia.
Qed.

End CreateRemove.

(** X8 on a new volume: [mkdir /d] (inode 2), then [rmdir /d]. *)
Lemma Mkdir_Rmdir_roundtrip_witness :
  exists s2,
    Rmdir (C := juicefs_consts) (fun _ => None) (mkTime 1600000001 0)
      (Mkdir_ino (C := juicefs_consts) (mkCtx 0 0 false) (mkTime 1600000000 0) fresh_volume
         1 "d" 0x1ed 0x12 0 2 Attr0).2 1 "d"
    = (0, s2)
    /\ inodes s2 !! 2 = None /\ totalInodes s2 = totalInodes fresh_volume.
Proof.
  pose proof (Mkdir_Rmdir_roundtrip (C := juicefs_consts) (mkCtx 0 0 false)
                (mkTime 1600000000 0) (mkTime 1600000001 0) (fun _ => None) fresh_volume
                1 "d" 0x1ed 0x12 0 2 Attr0 (dir_blob 1 2)) as H.
  destruct (Mkdir_ino (C := juicefs_consts) (mkCtx 0 0 false) (mkTime 1600000000 0)
              fresh_volume 1 "d" 0x1ed 0x12 0 2 Attr0) as [err1 s1].
  cbn [snd].
  destruct (Rmdir (C := juicefs_consts) (fun _ => None) (mkTime 1600000001 0) s1 1 "d")
    as [err2 s2].
  destruct H as (_ & -> & _ & Hgone & _ & _ & Htotal);
    [cbn; lia|reflexivity|reflexivity|cbn; lia|reflexivity|reflexivity|reflexivity
    |discriminate|discriminate|reflexivity|].
  exists s2. split; [reflexivity|]. split; assumption.
Defined.

(** X9 on the root with two directories: a directory [c] (inode 4) made in
    the root, which then has 5 links. *)
Lemma mknod_preserves_nlink_witness :
  nlink_ok (C := juicefs_consts)
    (mknod_ino (C := juicefs_consts) (mkCtx 0 0 false) (mkTime 1600000000 0) two_dirs
       1 "c" 2 0x1ed 0x12 0 "" 4 Attr0).2 1.
Proof.
  apply (mknod_preserves_nlink (C := juicefs_consts)); try exact two_dirs_nlink_ok.
  - lia.
  - reflexivity.
  - reflexivity.
  - intros a Ha. vm_compute in Ha. injection Ha as <-. cbn. lia.
Defined.

(** X10 on the root with two directories: [rmdir /b]. *)
Lemma Rmdir_preserves_nlink_witness :
  nlink_ok (C := juicefs_consts)
    (Rmdir (C := juicefs_consts) (fun _ => None) (mkTime 1600000000 0) two_dirs 1 "b").2 1.
Proof.
  apply (Rmdir_preserves_nlink (C := juicefs_consts)); try exact two_dirs_nlink_ok.
  intros a Ha. vm_compute in Ha. injection Ha as <-. cbn. lia.
Defined.

(** X11 on the root with two directories: [a] is renamed to [c]. *)
Lemma Rename_no_target_preserves_nlink_witness :
  exists cmds out,
    Rename_txf (C := juicefs_consts) (mkCtx 0 0 false) (mkTime 1600000000 0) engine0
      two_dirs 1 "a" 1 "c" 2 2 0 0 = Commit cmds out
    /\ nlink_ok (C := juicefs_consts) (pipeline cmds two_dirs) 1.
Proof.
  destruct (Rename_txf (C := juicefs_consts) (mkCtx 0 0 false) (mkTime 1600000000 0)
              engine0 two_dirs 1 "a" 1 "c" 2 2 0 0) as [err|cmds out] eqn:Hrun;
    [vm_compute in Hrun; discriminate|].
  exists cmds, out. split; [reflexivity|].
  apply (Rename_no_target_preserves_nlink (C := juicefs_consts) ltac:(cbn; lia)
           (mkCtx 0 0 false) (mkTime 1600000000 0) engine0 two_dirs 1 "a" 1 "c" 2 2 0 0
           cmds out);
    [reflexivity|reflexivity|lia|lia| | | |exact Hrun|exact two_dirs_nlink_ok];
    intros a Ha; vm_compute in Ha; injection Ha as <-; vm_compute;
    first [reflexivity | split; [discriminate|reflexivity]].
Defined.

(* --------------------------------------------------------------------- *)
(** ** Unlink, Link and the deferred deletion *)

Section Links.
Context {C : Consts}.

(** What the pipeline of [Unlink] leaves under the entry keys, the keys of
    the extended attributes and the counter of inodes. *)
Lemma Unlink_pipeline_frame (s : Store) (parent inode : Z) (name : string) (pb : blob)
    (rest : list cmd) :
  Forall (fun c => match c with
                   | HSetEntry _ _ _ _ | HDelEntry _ _ | DelXattr _ => False
                   | _ => True
                   end) rest ->
  let s' := pipeline ([HDelEntry parent name; SetInode parent pb; DelXattr inode] ++ rest) s in
  entries s' = put_hash parent (delete name (default ∅ (entries s !! parent))) (entries s) /\
  xattrs s' = delete inode (xattrs s).
Proof.
  intros Hrest. cbv zeta. rewrite pipeline_app.
  set (s0 := pipeline [HDelEntry parent name; SetInode parent pb; DelXattr inode] s).
  assert (H0 : entries s0
               = put_hash parent (delete name (default ∅ (entries s !! parent))) (entries s)
               /\ xattrs s0 = delete inode (xattrs s)) by (split; reflexivity).
  clearbody s0. revert s0 H0.
  induction Hrest as [|c rest Hc _ IH]; intros s0 H0; [exact H0|].
  rewrite pipeline_cons. apply IH.
  destruct H0 as [He Hx]. destruct c; try contradiction; cbn; try (split; assumption).
  match goal with |- context [chunks s0 !! ?k] => destruct (chunks s0 !! k) end;
    split; assumption.
Qed.

Lemma Unlink_last_plain (now : Time) (r : redisMeta) (_type inode : Z) (attr : Attr)
    (opened : bool) :
  Forall (fun c => match c with
                   | HSetEntry _ _ _ _ | HDelEntry _ _ | DelXattr _ => False
                   | _ => True
                   end) (Unlink_last now r _type inode attr opened).
Proof.
  unfold Unlink_last.
  destruct (_type =? TypeSymlink); [|destruct (_type =? TypeFile); [destruct opened|]];
    repeat constructor.
Qed.

(** X12.  What [Unlink] returns and leaves.  A call that returns an error
    leaves the server and the engine untouched and starts nothing.  On a
    working connection a missing name gives ENOENT and a directory entry
    EPERM.  A call that returns 0 has removed the entry and nothing else
    from the directory, and has deleted the extended attributes of the inode
    even when the inode keeps other links. *)
Theorem Unlink_outcome (net : Net) (now : Time) (r : redisMeta) (s : Store) (parent : Z)
    (name : string) :
  let '(err, s', r', after) := Unlink net now r s parent name in
  (err <> 0 -> s' = s /\ r' = r /\ after = NoCleanup) /\
  (net None = None ->
   match default ∅ (entries s !! parent) !! name with
   | None => err = ENOENT
   | Some (_type, inode) => _type = TypeDirectory -> err = EPERM
   end) /\
  (err = 0 ->
   exists _type inode,
     default ∅ (entries s !! parent) !! name = Some (_type, inode) /\
     _type <> TypeDirectory /\
     default ∅ (entries s' !! parent) = delete name (default ∅ (entries s !! parent)) /\
     (forall D, D <> parent -> entries s' !! D = entries s !! D) /\
     xattrs s' !! inode = None).
Proof.
  unfold Unlink, rdb_HGet_entry.
  destruct (net None) as [msg|] eqn:Hnet.
  { repeat split; intros; try discriminate; try reflexivity; try contradiction. }
  unfold tx_HGet_entry at 1.
  destruct (default ∅ (entries s !! parent) !! name) as [[_type inode]|] eqn:Hname.
  2:{ repeat split; intros; try discriminate; try reflexivity; try contradiction. }
  destruct (Z.eqb_spec _type TypeDirectory) as [Htyp|Htyp].
  { repeat split; intros; try discriminate; try reflexivity; try contradiction. }
  unfold Unlink_txf, tx_MGet_inode, tx_HGet_entry.
  destruct (inodes s !! parent) as [pa|];
    [|repeat split; intros; try discriminate; try reflexivity; try contradiction].
  destruct (inodes s !! inode) as [a|];
    [|repeat split; intros; try discriminate; try reflexivity; try contradiction].
  destruct (Typ (parseAttr pa Attr0) =? TypeDirectory); cbn [negb];
    [|repeat split; intros; try discriminate; try reflexivity; try contradiction].
  rewrite Hname, !Z.eqb_refl. cbn [negb orb].
  match goal with |- context [pipeline ([_; SetInode parent ?pb; _] ++ ?rest) s] =>
    destruct (Unlink_pipeline_frame s parent inode name pb rest) as [He Hx]
  end.
  { destruct (_ >? 0); [repeat constructor|apply Unlink_last_plain]. }
  cbv zeta in He, Hx.
  split; [intros H; contradiction|]. split; [intros _ H; contradiction|].
  intros _. exists _type, inode. split; [reflexivity|]. split; [exact Htyp|].
  split; [rewrite He; apply lookup_put_hash|].
  split; [intros D HD; rewrite He; apply lookup_put_hash_ne; congruence|].
  rewrite Hx. apply lookup_delete_eq.
Qed.

(** X13.  [Unlink] of the last link of a regular file, on a working
    connection.  The call returns 0 and one inode less is counted.  When
    the engine holds the file open, the inode stays with 0 links, it is
    added to the set of the engine's session, the engine marks it removed,
    and no space is given back; otherwise the inode is deleted, the file is
    queued in [delfiles] with its length and the time of the call, the used
    space drops by the length rounded to 4 KiB, and the deletion of its
    chunks is started. *)
Theorem Unlink_last_link (net : Net) (now : Time) (r : redisMeta) (s : Store)
    (parent inode : Z) (name : string) (pa a : blob) :
  net None = None ->
  TypeFile <> TypeDirectory -> TypeFile <> TypeSymlink ->
  default ∅ (entries s !! parent) !! name = Some (TypeFile, inode) ->
  inodes s !! parent = Some pa -> Typ (parseAttr pa Attr0) = TypeDirectory ->
  inodes s !! inode = Some a -> b_nlink a = 1 ->
  let '(err, s', r', after) := Unlink net now r s parent name in
  err = 0 /\ totalInodes s' = totalInodes s - 1 /\
  if default 0 (openFiles r !! inode) >? 0 then
    b_nlink <$> inodes s' !! inode = Some 0 /\
    i64 inode ∈ default ∅ (sessions s' !! sid r) /\
    removedFiles r' !! inode = Some true /\
    usedSpace s' = usedSpace s /\ delfiles s' = delfiles s /\
    after = MarkRemoved inode
  else
    inodes s' !! inode = None /\
    delfiles s' !! (inode, i64 (b_length a)) = Some (Unix now) /\
    usedSpace s' = usedSpace s + i64 (- align4K (b_length a)) /\
    sessions s' = sessions s /\ r' = r /\
    after = DeleteFile inode (b_length a).
Proof.
  intros Hnet Hfd Hfs Hname Hp Hdir Ha Hone.
  unfold Unlink, rdb_HGet_entry. rewrite Hnet. unfold tx_HGet_entry at 1.
  rewrite Hname. rewrite (proj2 (Z.eqb_neq _ _) Hfd).
  unfold Unlink_txf, tx_MGet_inode, tx_HGet_entry.
  rewrite Hp, Ha, Hdir, Z.eqb_refl, Hname, !Z.eqb_refl. cbn [negb orb].
  cbn [Nlink set_Nlink set_Ctime parseAttr Length]. rewrite Hone.
  change (u32 (1 - 1)) with 0. change (0 =? 0) with true. change (0 >? 0) with false.
  cbn [andb]. unfold Unlink_last.
  rewrite (proj2 (Z.eqb_neq _ _) Hfs), Z.eqb_refl.
  destruct (default 0 (openFiles r !! inode) >? 0).
  - split; [reflexivity|]. split; [reflexivity|].
    split.
    { match goal with |- _ <$> inodes (pipeline ?l s) !! inode = _ =>
        assert (Hi : exists b rest, inodes (pipeline l s) = <[inode := b]> rest
                                    /\ b_nlink b = 0)
          by (eexists _, _; split; reflexivity)
      end.
      destruct Hi as (b & rest & -> & Hb). rewrite lookup_insert_eq. cbn. now rewrite Hb. }
    split.
    { match goal with |- _ ∈ default ∅ (sessions (pipeline ?l s) !! sid r) =>
        assert (Hs : sessions (pipeline l s)
                     = <[sid r := {[i64 inode]} ∪ default ∅ (sessions s !! sid r)]>
                         (sessions s)) by reflexivity
      end.
      rewrite Hs, lookup_insert_eq. cbn. set_solver. }
    split; [apply lookup_insert_eq|]. repeat split; reflexivity.
  - split; [reflexivity|]. split; [reflexivity|].
    split.
    { match goal with |- inodes (pipeline ?l s) !! inode = _ =>
        assert (Hi : exists rest, inodes (pipeline l s) = delete inode rest)
          by (eexists; reflexivity)
      end.
      destruct Hi as (rest & ->). apply lookup_delete_eq. }
    split.
    { match goal with |- delfiles (pipeline ?l s) !! _ = _ =>
        assert (Hd : delfiles (pipeline l s)
                     = <[(inode, i64 (b_length a)) := Unix now]> (delfiles s)) by reflexivity
      end.
      rewrite Hd. apply lookup_insert_eq. }
    repeat split; reflexivity.
Qed.

(** X14.  A file unlinked while the engine holds it open once is deleted
    when it is closed.  [Unlink] returns 0 and keeps the inode; [Close]
    then returns 0, forgets the handle and the mark, and starts the
    deletion; what it starts deletes the inode, queues the file in
    [delfiles] with its length, gives the space back and takes the inode
    out of the set of the session. *)
Theorem Unlink_Close_deferred_delete (net : Net) (now now' : Time) (r : redisMeta)
    (s : Store) (parent inode : Z) (name : string) (pa a : blob) :
  net None = None ->
  TypeFile <> TypeDirectory -> TypeFile <> TypeSymlink ->
  default ∅ (entries s !! parent) !! name = Some (TypeFile, inode) ->
  inodes s !! parent = Some pa -> Typ (parseAttr pa Attr0) = TypeDirectory ->
  inodes s !! inode = Some a -> b_nlink a = 1 ->
  openFiles r !! inode = Some 1 ->
  let '(err, s1, r1, after) := Unlink net now r s parent name in
  let '(err', r2, started) := Close r1 inode in
  let '(s2, after') := Close_background net now' r2 s1 inode in
  err = 0 /\ is_Some (inodes s1 !! inode) /\
  err' = 0 /\ started = true /\
  openFiles r2 !! inode = None /\ removedFiles r2 !! inode = None /\
  inodes s2 !! inode = None /\
  delfiles s2 !! (inode, i64 (b_length a)) = Some (Unix now') /\
  usedSpace s2 = usedSpace s + i64 (- align4K (b_length a)) /\
  (i64 inode ∉ default ∅ (sessions s2 !! sid r)) /\
  after' = DeleteFile inode (b_length a).
Proof.
  intros Hnet Hfd Hfs Hname Hp Hdir Ha Hone Hopen.
  unfold Unlink, rdb_HGet_entry. rewrite Hnet. unfold tx_HGet_entry at 1.
  rewrite Hname. rewrite (proj2 (Z.eqb_neq _ _) Hfd).
  unfold Unlink_txf, tx_MGet_inode, tx_HGet_entry.
  rewrite Hp, Ha, Hdir, Z.eqb_refl, Hname, !Z.eqb_refl. cbn [negb orb].
  cbn [Nlink set_Nlink set_Ctime parseAttr Length]. rewrite Hone, Hopen.
  change (u32 (1 - 1)) with 0. change (0 =? 0) with true. change (0 >? 0) with false.
  cbn [andb default from_option id]. change (1 >? 0) with true. cbv iota.
  unfold Unlink_last.
  rewrite (proj2 (Z.eqb_neq _ _) Hfs), Z.eqb_refl.
  set (attr0 := set_Nlink (set_Ctime (parseAttr a Attr0) (Unix now) (u32 (Nanosecond now))) 0).
  match goal with |- context [pipeline ?l s] => set (s1 := pipeline l s) end.
  assert (Hi1 : exists rest, inodes s1 = <[inode := marshal attr0]> rest)
    by (eexists; reflexivity).
  assert (Hu1 : usedSpace s1 = usedSpace s) by reflexivity.
  assert (Hs1 : sessions s1
                = <[sid r := {[i64 inode]} ∪ default ∅ (sessions s !! sid r)]> (sessions s))
    by reflexivity.
  clearbody s1. destruct Hi1 as [rest Hi1].
  unfold Close. cbn [openFiles removedFiles sid]. rewrite Hopen.
  cbn [default from_option id]. change (1 <=? 1) with true. cbv iota.
  rewrite lookup_insert_eq. cbn [default from_option id].
  unfold Close_background, deleteInode, rdb_Get_inode. rewrite Hnet, Hi1, lookup_insert_eq.
  cbn [sid].
  change (Length (parseAttr (marshal attr0) Attr0)) with (b_length a).
  match goal with |- context [SRem (pipeline ?l s1)] => set (s2 := pipeline l s1) end.
  assert (Hi2 : inodes s2 = delete inode (inodes s1)) by reflexivity.
  assert (Hd2 : delfiles s2 = <[(inode, i64 (b_length a)) := Unix now']> (delfiles s1))
    by reflexivity.
  assert (Hu2 : usedSpace s2 = usedSpace s1 + i64 (- align4K (b_length a))) by reflexivity.
  assert (Hs2 : sessions s2 = sessions s1) by reflexivity.
  clearbody s2.
  split; [reflexivity|]. split; [eauto|].
  split; [reflexivity|]. split; [reflexivity|].
  split; [apply lookup_delete_eq|]. split; [apply lookup_delete_eq|].
  unfold SRem.
  split; [cbn; rewrite Hi2; apply lookup_delete_eq|].
  split; [cbn; rewrite Hd2; apply lookup_insert_eq|].
  split; [cbn; rewrite Hu2, Hu1; reflexivity|].
  split; [|reflexivity].
  cbn [sessions set_sessions]. rewrite Hs2.
  destruct (decide (default ∅ (sessions s1 !! sid r) ∖ {[i64 inode]} = ∅)).
  - rewrite lookup_delete_eq. cbn. set_solver.
  - rewrite lookup_insert_eq. cbn [default from_option id]. intros Hin.
    apply elem_of_difference in Hin as [_ Hn]. apply Hn, elem_of_singleton. reflexivity.
Qed.

End Links.

(** A directory (the root) holding the regular file [f] (inode 7) of 5000
    bytes, which the engine holds open once. *)
Lemma Unlink_last_link_witness :
  let '(err, s', r', after) :=
    Unlink (C := juicefs_consts) (fun _ => None) (mkTime 1600000000 0) engine0
      one_file 1 "f" in
  err = 0 /\ inodes s' !! 7 = None /\ after = DeleteFile 7 5000.
Proof.
  pose proof (Unlink_last_link (C := juicefs_consts) (fun _ => None)
                (mkTime 1600000000 0) engine0 one_file 1 7 "f" (dir_blob 1 2)
                (marshal (set_Length empty_file 5000))
                eq_refl ltac:(discriminate) ltac:(discriminate) eq_refl eq_refl eq_refl
                eq_refl eq_refl) as H.
  destruct (Unlink (C := juicefs_consts) (fun _ => None) (mkTime 1600000000 0) engine0
              one_file 1 "f") as [[[err s'] r'] after].
  change (default 0 (openFiles engine0 !! 7) >? 0) with false in H.
  destruct H as (-> & _ & Hgone & _ & _ & _ & _ & ->).
  split; [reflexivity|]. split; [exact Hgone|reflexivity].
Defined.

Lemma Unlink_Close_deferred_delete_witness :
  let '(err, s1, r1, after) :=
    Unlink (C := juicefs_consts) (fun _ => None) (mkTime 1600000000 0) engine_open
      one_file 1 "f" in
  let '(err', r2, started) := Close r1 7 in
  let '(s2, after') :=
    Close_background (fun _ => None) (mkTime 1600000060 0) r2 s1 7 in
  is_Some (inodes s1 !! 7) /\ started = true /\ inodes s2 !! 7 = None /\
  delfiles s2 !! (7, 5000) = Some 1600000060.
Proof.
  pose proof (Unlink_Close_deferred_delete (C := juicefs_consts) (fun _ => None)
                (mkTime 1600000000 0) (mkTime 1600000060 0) engine_open one_file 1 7 "f"
                (dir_blob 1 2) (marshal (set_Length empty_file 5000))
                eq_refl ltac:(discriminate) ltac:(discriminate) eq_refl eq_refl eq_refl
                eq_refl eq_refl eq_refl) as H.
  destruct (Unlink (C := juicefs_consts) (fun _ => None) (mkTime 1600000000 0) engine_open
              one_file 1 "f") as [[[err s1] r1] after].
  destruct (Close r1 7) as [[err' r2] started].
  destruct (Close_background (fun _ => None) (mkTime 1600000060 0) r2 s1 7) as [s2 after'].
  destruct H as (_ & Hkept & _ & -> & _ & _ & Hgone & Hqueued & _).
  repeat split; assumption.
Defined.

Section HardLinks.
Context {C : Consts}.

(** X15.  What [Link] returns and leaves.  A call that returns an error
    leaves the server untouched: ENOENT when the parent or the inode is
    missing, ENOTDIR under a parent that is no directory, EPERM for an
    inode that is a directory, EEXIST for a name that exists.  Otherwise
    the call returns 0, the name is added with the type of the inode, the
    inode has one link more, and no other entry and no other inode but the
    parent is touched. *)
Theorem Link_outcome (now : Time) (s : Store) (inode parent : Z) (name : string) :
  let '(err, s') := Link now s inode parent name in
  (err <> 0 -> s' = s) /\
  match inodes s !! parent, inodes s !! inode with
  | Some pa, Some a =>
      if negb (Typ (parseAttr pa Attr0) =? TypeDirectory) then err = ENOTDIR
      else if Typ (parseAttr a Attr0) =? TypeDirectory then err = EPERM
      else
        match default ∅ (entries s !! parent) !! name with
        | Some _ => err = EEXIST
        | None =>
            err = 0 /\
            default ∅ (entries s' !! parent)
            = <[name := (Typ (parseAttr a Attr0), inode)]> (default ∅ (entries s !! parent)) /\
            (forall D, D <> parent -> entries s' !! D = entries s !! D) /\
            b_nlink <$> inodes s' !! inode = Some (u32 (b_nlink a + 1)) /\
            (forall D, D <> parent -> D <> inode -> inodes s' !! D = inodes s !! D)
        end
  | _, _ => err = ENOENT
  end.
Proof.
  unfold Link, Link_txf, tx_MGet_inode, tx_HGet_entry.
  destruct (inodes s !! parent) as [pa|];
    [|split; [reflexivity|destruct (inodes s !! inode); reflexivity]].
  destruct (inodes s !! inode) as [a|]; [|split; reflexivity].
  destruct (Typ (parseAttr pa Attr0) =? TypeDirectory); cbn [negb];
    [|split; reflexivity].
  destruct (Typ (parseAttr a Attr0) =? TypeDirectory); [split; reflexivity|].
  destruct (default ∅ (entries s !! parent) !! name); [split; reflexivity|].
  cbn [committed].
  split; [intros H; contradiction|]. split; [reflexivity|].
  unfold pipeline. cbn [foldl].
  rewrite !entries_SetInode.
  split; [apply dir_HSetEntry|].
  split; [intros D HD; apply entries_HSetEntry_ne; exact HD|].
  split.
  - cbn [exec inodes set_inodes]. rewrite lookup_insert_eq. reflexivity.
  - intros D HDp HDi. cbn [exec inodes set_inodes set_entries].
    rewrite !lookup_insert_ne by congruence. reflexivity.
Qed.

(** X16.  [Link] followed by [Unlink] of the new name, on a working
    connection, for an inode that has between 1 and 2^32 - 2 links: both
    calls return 0, every directory has the entries it had, the inode has
    the links it had, nothing is queued for deletion and the counters are
    as before; but the extended attributes of the inode are gone. *)
Theorem Link_Unlink_roundtrip (net : Net) (now now' : Time) (r : redisMeta) (s : Store)
    (inode parent : Z) (name : string) (pa a : blob) :
  0 <= TypeDirectory < 16 ->
  net None = None ->
  inodes s !! parent = Some pa -> Typ (parseAttr pa Attr0) = TypeDirectory ->
  inodes s !! inode = Some a -> Typ (parseAttr a Attr0) <> TypeDirectory ->
  1 <= b_nlink a < 2 ^ 32 - 1 ->
  default ∅ (entries s !! parent) !! name = None ->
  let '(err1, s1) := Link now s inode parent name in
  let '(err2, s2, r2, after) := Unlink net now' r s1 parent name in
  err1 = 0 /\ err2 = 0 /\
  b_nlink <$> inodes s1 !! inode = Some (b_nlink a + 1) /\
  b_nlink <$> inodes s2 !! inode = Some (b_nlink a) /\
  (forall D, default ∅ (entries s2 !! D) = default ∅ (entries s !! D)) /\
  r2 = r /\ after = NoCleanup /\
  totalInodes s2 = totalInodes s /\ usedSpace s2 = usedSpace s /\
  delfiles s2 = delfiles s /\
  xattrs s2 !! inode = None.
Proof.
  intros Hfits Hnet Hp Hdir Ha Hnd Hlinks Hname.
  assert (Hne : inode <> parent) by (intros ->; congruence).
  unfold Link, Link_txf, tx_MGet_inode, tx_HGet_entry.
  rewrite Hp, Ha, Hdir, Z.eqb_refl, (proj2 (Z.eqb_neq _ _) Hnd), Hname.
  cbn [negb committed].
  set (typ := Typ (parseAttr a Attr0)).
  match goal with |- context [pipeline [_; SetInode parent ?pb; SetInode inode ?ib] s] =>
    set (pb1 := pb); set (ib1 := ib)
  end.
  match goal with |- context [pipeline ?l s] => set (s1 := pipeline l s) end.
  assert (Hi1 : inodes s1 = <[inode := ib1]> (<[parent := pb1]> (inodes s))) by reflexivity.
  assert (He1 : entries s1
                = <[parent := <[name := (typ, inode)]> (default ∅ (entries s !! parent))]>
                    (entries s)) by reflexivity.
  assert (Hrest1 : totalInodes s1 = totalInodes s /\ usedSpace s1 = usedSpace s
                   /\ delfiles s1 = delfiles s) by (repeat split; reflexivity).
  clearbody s1. destruct Hrest1 as (Ht1 & Hu1 & Hd1).
  assert (Hib : b_nlink ib1 = b_nlink a + 1).
  { subst ib1. cbn [b_nlink marshal Nlink set_Nlink set_Ctime parseAttr].
    apply u32_small. lia. }
  assert (Hpbt : Typ (parseAttr pb1 Attr0) = TypeDirectory).
  { subst pb1. rewrite Typ_marshal; [exact Hdir|].
    change (Typ (touch_mc now (parseAttr pa Attr0))) with (Typ (parseAttr pa Attr0)).
    rewrite Hdir. exact Hfits. }
  assert (Hent1 : default ∅ (entries s1 !! parent) !! name = Some (typ, inode)).
  { rewrite He1, lookup_insert_eq. apply lookup_insert_eq. }
  assert (Hp1 : inodes s1 !! parent = Some pb1).
  { rewrite Hi1, lookup_insert_ne by congruence. apply lookup_insert_eq. }
  assert (Ha1 : inodes s1 !! inode = Some ib1) by (rewrite Hi1; apply lookup_insert_eq).
  unfold Unlink, rdb_HGet_entry. rewrite Hnet. unfold tx_HGet_entry at 1.
  rewrite Hent1. fold typ in Hnd. rewrite (proj2 (Z.eqb_neq _ _) Hnd).
  unfold Unlink_txf, tx_MGet_inode, tx_HGet_entry.
  rewrite Hp1, Ha1, Hpbt, Z.eqb_refl, Hent1, !Z.eqb_refl. cbn [negb orb].
  cbn [Nlink set_Nlink set_Ctime parseAttr Length]. rewrite Hib.
  replace (u32 (b_nlink a + 1 - 1)) with (b_nlink a)
    by (rewrite u32_small by lia; lia).
  rewrite (proj2 (Z.eqb_neq (b_nlink a) 0)) by lia. rewrite andb_false_r.
  rewrite (proj2 (Z.gtb_lt (b_nlink a) 0)) by lia.
  match goal with |- context [[SetInode inode ?b]] => set (ib2 := b) in * end.
  match goal with |- context [pipeline ?l s1] => set (s2 := pipeline l s1) end.
  assert (Hi2 : exists rest, inodes s2 = <[inode := ib2]> rest) by (eexists; reflexivity).
  assert (He2 : entries s2
                = put_hash parent (delete name (default ∅ (entries s1 !! parent))) (entries s1))
    by reflexivity.
  assert (Hx2 : xattrs s2 = delete inode (xattrs s1)) by reflexivity.
  assert (Hrest2 : totalInodes s2 = totalInodes s1 /\ usedSpace s2 = usedSpace s1
                   /\ delfiles s2 = delfiles s1) by (repeat split; reflexivity).
  clearbody s2. destruct Hi2 as [rest Hi2]. destruct Hrest2 as (Ht2 & Hu2 & Hd2).
  split; [reflexivity|]. split; [reflexivity|].
  split; [change (Some (b_nlink ib1) = Some (b_nlink a + 1)); now rewrite Hib|].
  split; [rewrite Hi2, lookup_insert_eq; reflexivity|].
  split.
  { intros D. rewrite He2. destruct (decide (D = parent)) as [->|HD].
    - rewrite lookup_put_hash, He1, lookup_insert_eq. cbn [default from_option id].
      apply delete_insert_id. exact Hname.
    - rewrite lookup_put_hash_ne by congruence. rewrite He1, lookup_insert_ne by congruence.
      reflexivity. }
  split; [reflexivity|]. split; [reflexivity|].
  split; [congruence|]. split; [congruence|]. split; [congruence|].
  rewrite Hx2. apply lookup_delete_eq.
Qed.

End HardLinks.

(** X16 on the root holding the file [f]: the link [g] is made and
    removed. *)
Lemma Link_Unlink_roundtrip_witness :
  let '(err1, s1) := Link (C := juicefs_consts) (mkTime 1600000000 0) one_file 7 1 "g" in
  let '(err2, s2, r2, after) :=
    Unlink (C := juicefs_consts) (fun _ => None) (mkTime 1600000001 0) engine0 s1 1 "g" in
  err1 = 0 /\ err2 = 0 /\
  b_nlink <$> inodes s1 !! 7 = Some 2 /\ b_nlink <$> inodes s2 !! 7 = Some 1.
Proof.
  pose proof (Link_Unlink_roundtrip (C := juicefs_consts) (fun _ => None)
                (mkTime 1600000000 0) (mkTime 1600000001 0) engine0 one_file 7 1 "g"
                (dir_blob 1 2) (marshal (set_Length empty_file 5000))
                ltac:(cbn; lia) eq_refl eq_refl eq_refl eq_refl ltac:(discriminate)
                ltac:(cbn; lia) eq_refl) as H.
  destruct (Link (C := juicefs_consts) (mkTime 1600000000 0) one_file 7 1 "g") as [err1 s1].
  destruct (Unlink (C := juicefs_consts) (fun _ => None) (mkTime 1600000001 0) engine0
              s1 1 "g") as [[[err2 s2] r2] after].
  destruct H as (He1 & He2 & H1 & H2 & _).
  repeat split; assumption.
Defined.

(* --------------------------------------------------------------------- *)
(** ** Open files *)

Section OpenFiles.
Context {C : Consts}.

(** X17.  [Close] undoes [Open]: after an [Open] that counted (no attribute
    asked for, or the attribute fetched) and a [Close] of the same inode,
    both of which return 0, the inode is held open as many times as before
    and no other inode's count has changed.  The [Close] starts the deferred
    deletion exactly when the count returns to 0 for an inode marked
    removed, and then drops the mark. *)
Theorem Open_Close_roundtrip (net : Net) (s : Store) (r : redisMeta) (inode flags : Z)
    (attr : option Attr) :
  Open_fetched net s inode attr ->
  0 <= default 0 (openFiles r !! inode) < 2 ^ 63 - 1 ->
  let '(err, attr', r1) := Open net s r inode flags attr in
  let '(err', r2, started) := Close r1 inode in
  err = 0 /\ err' = 0 /\
  default 0 (openFiles r2 !! inode) = default 0 (openFiles r !! inode) /\
  (forall i, i <> inode -> openFiles r2 !! i = openFiles r !! i) /\
  started = (default 0 (openFiles r !! inode) =? 0)
            && default false (removedFiles r !! inode) /\
  (forall i, i <> inode -> removedFiles r2 !! i = removedFiles r !! i) /\
  removedFiles r2 !! inode = (if started then None else removedFiles r !! inode) /\
  sid r2 = sid r.
Proof.
  intros Hfetched Hrange.
  assert (Hopen : exists attr',
             Open net s r inode flags attr
             = (0, attr',
                mkMeta (sid r)
                  (<[inode := i64 (default 0 (openFiles r !! inode) + 1)]> (openFiles r))
                  (removedFiles r))).
  { unfold Open. destruct attr as [a|]; [|eexists; reflexivity].
    cbn [Open_fetched] in Hfetched.
    destruct (GetAttr net s inode a) as [e a']. cbn [fst] in Hfetched. subst e.
    eexists. reflexivity. }
  destruct Hopen as [attr' ->].
  unfold Close. cbn [openFiles removedFiles sid].
  rewrite lookup_insert_eq. cbn [default from_option id].
  set (n := default 0 (openFiles r !! inode)) in *.
  rewrite i64_small by lia.
  destruct (Z.leb_spec (n + 1) 1) as [Hle|Hgt].
  - assert (Hn : n = 0) by lia. rewrite Hn. change (0 =? 0) with true. cbn [andb].
    destruct (default false (removedFiles r !! inode)) eqn:Hrm.
    + cbn [openFiles removedFiles sid].
      rewrite !lookup_delete_eq. repeat split; try reflexivity.
      * intros i Hi. rewrite lookup_delete_ne, lookup_insert_ne by congruence. reflexivity.
      * intros i Hi. apply lookup_delete_ne. congruence.
    + cbn [openFiles removedFiles sid].
      rewrite !lookup_delete_eq. repeat split; try reflexivity.
      intros i Hi. rewrite lookup_delete_ne, lookup_insert_ne by congruence. reflexivity.
  - rewrite (proj2 (Z.eqb_neq n 0)) by lia. cbn [andb openFiles removedFiles sid].
    rewrite lookup_insert_eq. cbn [default from_option id].
    rewrite i64_small by lia.
    repeat split; try reflexivity; try lia.
    intros i Hi. rewrite !lookup_insert_ne by congruence. reflexivity.
Qed.

End OpenFiles.

(** X17 for inode 7, held open once: a second handle is opened and
    closed. *)
Lemma Open_Close_roundtrip_witness :
  let '(err, attr', r1) :=
    Open (C := juicefs_consts) (fun _ => None) one_file engine_open 7 0 None in
  let '(err', r2, started) := Close r1 7 in
  default 0 (openFiles r2 !! 7) = 1 /\ started = false.
Proof.
  pose proof (Open_Close_roundtrip (C := juicefs_consts) (fun _ => None) one_file
                engine_open 7 0 None I
                ltac:(vm_compute; split; [discriminate|reflexivity])) as H.
  destruct (Open (C := juicefs_consts) (fun _ => None) one_file engine_open 7 0 None)
    as [[err attr'] r1].
  destruct (Close r1 7) as [[err' r2] started].
  destruct H as (_ & _ & Hcount & _ & Hstarted & _).
  split; [exact Hcount|exact Hstarted].
Defined.

(** ** What the data path never does *)

Lemma keeps_data_refl (s : Store) : keeps_data s s.
Proof.
  repeat split; try reflexivity; try tauto.
  - intros k l H. exists []. now rewrite app_nil_r.
  - intros k n H. exists n. split; [exact H|lia].
Qed.

Lemma keeps_data_trans (s1 s2 s3 : Store) :
  keeps_data s1 s2 -> keeps_data s2 s3 -> keeps_data s1 s3.
Proof.
  intros (A1 & B1 & C1 & D1 & E1 & F1 & G1 & H1 & I1)
         (A2 & B2 & C2 & D2 & E2 & F2 & G2 & H2 & I2).
  split; [|split; [|split; [|repeat split; congruence]]].
  - intros k l H. destruct (A1 k l H) as (l1 & Hl1).
    destruct (A2 k _ Hl1) as (l2 & Hl2). exists (l1 ++ l2).
    now rewrite app_assoc.
  - intros k n H. destruct (B1 k n H) as (n1 & Hn1 & Hle1).
    destruct (B2 k n1 Hn1) as (n2 & Hn2 & Hle2). exists n2. split; [exact Hn2|lia].
  - intros i Hi. auto.
Qed.

Lemma exec_keeps_data (s : Store) (c : cmd) :
  appends_only c -> keeps_data s (exec s c).
Proof.
  intros Hc. destruct c; simpl in Hc; try contradiction.
  - (* SetInode *)
    repeat split; try reflexivity.
    + intros k l H. exists []. now rewrite app_nil_r.
    + intros k n H. exists n. split; [exact H|lia].
    + intros i Hi. simpl. destruct (decide (i = inode)) as [->|Hne].
      * rewrite lookup_insert_eq. eauto.
      * now rewrite lookup_insert_ne.
  - (* RPush *)
    repeat split; try reflexivity; try tauto.
    + intros k l H. simpl. destruct (decide (k = (inode, indx))) as [->|Hne].
      * rewrite lookup_insert_eq, H. simpl. eauto.
      * rewrite lookup_insert_ne by congruence. exists []. now rewrite app_nil_r.
    + intros k n H. exists n. split; [exact H|lia].
  - (* RPushX *)
    simpl.
    destruct (chunks s !! (inode, indx)) as [l0|] eqn:E; [|apply keeps_data_refl].
    repeat split; try reflexivity; try tauto.
    + intros k l H. simpl. destruct (decide (k = (inode, indx))) as [->|Hne].
      * rewrite lookup_insert_eq. rewrite E in H. injection H as ->. eauto.
      * rewrite lookup_insert_ne by congruence. exists []. now rewrite app_nil_r.
    + intros k n H. exists n. split; [exact H|lia].
  - (* IncrBySlice *)
    repeat split; try reflexivity; try tauto.
    + intros k l H. exists []. now rewrite app_nil_r.
    + intros k m H. simpl. destruct (decide (k = (chunkid, size))) as [->|Hne].
      * rewrite lookup_insert_eq, H. simpl. eexists. split; [reflexivity|lia].
      * rewrite lookup_insert_ne by congruence. exists m. split; [exact H|lia].
  - (* IncrByUsedSpace *)
    repeat split; try reflexivity; try tauto.
    + intros k l H. exists []. now rewrite app_nil_r.
    + intros k m H. exists m. split; [exact H|lia].
Qed.

Lemma pipeline_keeps_data (cmds : list cmd) : forall s,
  Forall appends_only cmds -> keeps_data s (pipeline cmds s).
Proof.
  induction cmds as [|c cmds IH]; intros s Hall; [apply keeps_data_refl|].
  inversion Hall; subst. rewrite pipeline_cons.
  eapply keeps_data_trans; [apply exec_keeps_data; eassumption|now apply IH].
Qed.

Lemma committed_keeps_data {A : Type} (s : Store) (t : tx A) :
  (forall cmds out, t = Commit cmds out -> Forall appends_only cmds) ->
  keeps_data s (committed s t).2.
Proof.
  intros H. destruct t as [err|cmds out]; simpl; [apply keeps_data_refl|].
  apply pipeline_keeps_data. eapply H. reflexivity.
Qed.

Section DataPath.
Context {C : Consts}.

Lemma Truncate_cmds_append (scanned : list Z) (inode old length : Z) (t : Attr) :
  Forall appends_only (Truncate_cmds scanned inode old length t).
Proof.
  unfold Truncate_cmds. repeat (apply Forall_app; split).
  - repeat constructor.
  - destruct (old <? length); [|constructor].
    repeat (apply Forall_app; split).
    + repeat constructor.
    + rewrite Forall_map. apply Forall_forall. intros; exact I.
    + destruct (_ && _); repeat constructor.
  - repeat constructor.
Qed.

Lemma dest_cmd_appends (fout : Z) (c : cmd) : dest_cmd fout c -> appends_only c.
Proof. destruct c; simpl; try tauto. lia. Qed.

(** X18.  [Truncate], [Write] and [CopyFileRange] only ever add: after a
    committed call every chunk log still has the records it had, in place,
    no slice reference count is lower, no inode is gone, and directories,
    symlinks, extended attributes, pending deletions, sessions and the inode
    count are as before.  In particular a [Truncate] to a smaller length
    releases nothing. *)
Theorem data_path_only_appends (ctx : Ctx) (now : Time) (scanned : list Z) (s : Store)
    (inode flags length indx off : Z) (slice : Slice)
    (fin offIn fout offOut size cflags : Z) :
  keeps_data s (committed s (Truncate_txf ctx now scanned s inode flags length)).2 /\
  keeps_data s (committed s (Write_txf ctx now s inode indx off slice)).2 /\
  keeps_data s
    (committed s (CopyFileRange_txf ctx now s fin offIn fout offOut size cflags)).2.
Proof.
  split; [|split]; apply committed_keeps_data; intros cmds out.
  - unfold Truncate_txf. destruct (tx_Get_inode s inode); [|discriminate].
    destruct (negb _); [discriminate|]. intros [= <- _].
    apply Truncate_cmds_append.
  - unfold Write_txf. destruct (tx_Get_inode s inode); [|discriminate].
    cbv zeta. intros [= <- _]. do 2 (constructor; [exact I|]).
    destruct (0 <? _); repeat constructor.
  - unfold CopyFileRange_txf.
    destruct (inodes s !! fin); [|discriminate].
    destruct (inodes s !! fout); [|discriminate].
    cbv zeta. destruct (negb _); [discriminate|].
    destruct (_ <=? offIn); [intros [= <- _]; constructor|].
    destruct (negb _); [discriminate|]. intros [= <- _].
    apply Forall_app; split.
    + eapply Forall_impl; [exact (proj1 (copy_chunks_dest _ _ _ _ _ _))|].
      apply dest_cmd_appends.
    + constructor; [exact I|]. destruct (0 <? _); repeat constructor.
Qed.

Lemma pipeline_log_or_ref (cmds : list cmd) : forall s,
  Forall log_or_ref cmds ->
  inodes (pipeline cmds s) = inodes s /\ usedSpace (pipeline cmds s) = usedSpace s.
Proof.
  induction cmds as [|c cmds IH]; intros s Hall; [now split|].
  inversion Hall as [|? ? Hc Hrest]; subst. rewrite pipeline_cons.
  destruct (IH (exec s c) Hrest) as [-> ->].
  destruct c; simpl in Hc; try contradiction; simpl; try (now split).
  now destruct (chunks s !! (inode, indx)).
Qed.

Lemma pipeline_no_ref (cmds : list cmd) : forall s,
  Forall (fun c => log_or_ref c /\ forall k z, cmd_key c <> sliceKey k z) cmds ->
  slicerefs (pipeline cmds s) = slicerefs s.
Proof.
  induction cmds as [|c cmds IH]; intros s Hall; [reflexivity|].
  inversion Hall as [|? ? [Hc Hk] Hrest]; subst. rewrite pipeline_cons.
  rewrite (IH (exec s c) Hrest).
  destruct c; simpl in Hc; try contradiction; simpl; try reflexivity.
  - now destruct (chunks s !! (inode, indx)).
  - now specialize (Hk chunkid size).
Qed.

Lemma Truncate_cmds_holes (scanned : list Z) (inode old length : Z) (t : Attr) :
  exists holes,
    Truncate_cmds scanned inode old length t
    = [SetInode inode (marshal t)] ++ holes
      ++ [IncrByUsedSpace (i64 (align4K length - align4K old))] /\
    Forall (fun c => log_or_ref c /\ forall k z, cmd_key c <> sliceKey k z) holes /\
    (length <= old -> holes = []).
Proof.
  unfold Truncate_cmds. eexists. split; [reflexivity|]. split.
  - destruct (old <? length); [|constructor].
    repeat (apply Forall_app; split).
    + repeat constructor. discriminate.
    + rewrite Forall_map. apply Forall_forall. intros x _. split; [exact I|discriminate].
    + destruct (_ && _); repeat constructor. discriminate.
  - intros Hle. destruct (Z.ltb_spec old length); [lia|reflexivity].
Qed.

(** X19.  What [Truncate] returns and leaves: ENOENT for a missing inode
    and EPERM for one that is not a regular file (a directory, a symlink),
    with the server untouched.  Otherwise it returns 0, stores the new
    length with the modification and change times set to now, moves
    [usedSpace] by the difference of the two lengths rounded up to 4 KiB,
    and touches no reference count; a length that is not above the old one
    leaves every chunk log exactly as it was. *)
Theorem Truncate_outcome (ctx : Ctx) (now : Time) (scanned : list Z) (s : Store)
    (inode flags length : Z) :
  let r := committed s (Truncate_txf ctx now scanned s inode flags length) in
  match inodes s !! inode with
  | None => r = (ENOENT, s)
  | Some a =>
      let old := parseAttr a Attr0 in
      if Typ old =? TypeFile then
        r.1 = 0 /\
        inodes r.2
        = <[inode := marshal (set_Ctime (set_Mtime (set_Length old length)
                                (Unix now) (u32 (Nanosecond now)))
                     (Unix now) (u32 (Nanosecond now)))]> (inodes s) /\
        usedSpace r.2 = usedSpace s + i64 (align4K length - align4K (Length old)) /\
        slicerefs r.2 = slicerefs s /\
        (length <= Length old -> chunks r.2 = chunks s)
      else r = (EPERM, s)
  end.
Proof.
  cbv zeta. unfold Truncate_txf, tx_Get_inode.
  destruct (inodes s !! inode) as [a|]; [|reflexivity].
  destruct (Typ (parseAttr a Attr0) =? TypeFile); [|reflexivity].
  cbn [negb committed fst snd].
  set (t := set_Ctime _ _ _).
  destruct (Truncate_cmds_holes scanned inode (Length (parseAttr a Attr0)) length t)
    as (holes & -> & Hholes & Hshrink).
  rewrite !pipeline_app.
  change (pipeline [SetInode inode (marshal t)] s) with (exec s (SetInode inode (marshal t))).
  set (s1 := exec s (SetInode inode (marshal t))).
  assert (Hlog : Forall log_or_ref holes).
  { eapply Forall_impl; [exact Hholes|]. now intros c [H _]. }
  destruct (pipeline_log_or_ref holes s1 Hlog) as [Hi Hu].
  pose proof (pipeline_no_ref holes s1 Hholes) as Hr.
  set (s2 := pipeline holes s1) in *.
  split; [reflexivity|]. split; [exact Hi|]. split.
  { change (usedSpace s2 + i64 (align4K length - align4K (Length (parseAttr a Attr0)))
            = usedSpace s + i64 (align4K length - align4K (Length (parseAttr a Attr0)))).
    now rewrite Hu. }
  split; [exact Hr|].
  intros Hle. unfold s2. rewrite (Hshrink Hle). reflexivity.
Qed.

Lemma set_Length_max (a : Attr) (n : Z) :
  (if Length a <? n then set_Length a n else a) = set_Length a (Z.max (Length a) n).
Proof.
  destruct (Z.ltb_spec (Length a) n).
  - now rewrite Z.max_r by lia.
  - rewrite Z.max_l by lia. now destruct a.
Qed.

(** The pages a file takes more when it grows from [old] to at least [n]:
    what [Write] and [CopyFileRange] add to [usedSpace]. *)
Lemma added_pages (old n : Z) :
  0 <= old < 2 ^ 62 -> 0 <= n < 2 ^ 62 ->
  (let added := if old <? n then i64 (align4K n - align4K old) else 0 in
   if 0 <? added then added else 0)
  = align4K (Z.max old n) - align4K old.
Proof.
  intros Ho Hn. cbv zeta.
  pose proof (align4K_bounds old Ho) as Hbo.
  pose proof (align4K_bounds n Hn) as Hbn.
  destruct (Z.ltb_spec old n) as [Hlt|Hge].
  - rewrite Z.max_r by lia. rewrite i64_small by lia.
    assert (align4K old <= align4K n).
    { rewrite !align4K_round by lia.
      apply Z.mul_le_mono_nonneg_l; [lia|]. apply Z.div_le_mono; lia. }
    destruct (Z.ltb_spec 0 (align4K n - align4K old)); lia.
  - rewrite Z.max_l by lia. simpl. lia.
Qed.

(** X20.  What [Write] returns and leaves, for a slice that ends below
    2^62: ENOENT for a missing inode, with the server untouched.  Otherwise,
    whatever the type of the inode, it returns 0, appends the record to the
    log of the chunk, never lowers the length (the new length is the greater
    of the old one and the end of the slice), sets the modification and
    change times, touches no reference count, and adds to [usedSpace] the
    4 KiB pages the file has grown by. *)
Theorem Write_outcome (ctx : Ctx) (now : Time) (s : Store) (inode indx off : Z)
    (slice : Slice) :
  0 <= indx * ChunkSize -> 0 <= off -> 0 <= Len slice ->
  indx * ChunkSize + off + Len slice < 2 ^ 62 ->
  let stop := indx * ChunkSize + off + Len slice in
  let w := committed s (Write_txf ctx now s inode indx off slice) in
  match inodes s !! inode with
  | None => w = (ENOENT, s)
  | Some a =>
      let old := parseAttr a Attr0 in
      w.1 = 0 /\
      inodes w.2
      = <[inode := marshal (set_Ctime (set_Mtime (set_Length old (Z.max (Length old) stop))
                              (Unix now) (u32 (Nanosecond now)))
                   (Unix now) (u32 (Nanosecond now)))]> (inodes s) /\
      chunks w.2
      = <[(inode, indx) := default [] (chunks s !! (inode, indx))
                           ++ [slice_record off slice]]> (chunks s) /\
      slicerefs w.2 = slicerefs s /\
      (0 <= Length old < 2 ^ 62 ->
       usedSpace w.2 = usedSpace s + (align4K (Z.max (Length old) stop) - align4K (Length old)))
  end.
Proof.
  intros Hi Ho Hl Hstop. cbv zeta. unfold Write_txf, tx_Get_inode.
  destruct (inodes s !! inode) as [a|]; [|reflexivity].
  cbv zeta. cbn [committed fst snd].
  rewrite (u64_small (indx * ChunkSize)) by lia.
  rewrite (u64_small (indx * ChunkSize + off)) by lia.
  rewrite (u64_small (indx * ChunkSize + off + Len slice)) by lia.
  rewrite set_Length_max.
  set (old := parseAttr a Attr0). set (stop := indx * ChunkSize + off + Len slice) in *.
  set (t := set_Ctime _ _ _).
  split; [reflexivity|].
  assert (Hrest : forall s0 : Store,
    let added := if Length old <? stop then i64 (align4K stop - align4K (Length old)) else 0 in
    let s' := pipeline (if 0 <? added then [IncrByUsedSpace added] else []) s0 in
    inodes s' = inodes s0 /\ chunks s' = chunks s0 /\ slicerefs s' = slicerefs s0 /\
    usedSpace s' = usedSpace s0 + (if 0 <? added then added else 0)).
  { intros s0. cbv zeta. destruct (0 <? _); simpl; repeat split; lia. }
  rewrite pipeline_app. cbv zeta in Hrest.
  match goal with
  | |- context [pipeline (if ?b then _ else _) ?s0] =>
      destruct (Hrest s0) as (H1 & H2 & H3 & H4)
  end.
  rewrite H1, H2, H3, H4. clear Hrest H1 H2 H3 H4.
  split; [reflexivity|]. split; [reflexivity|]. split; [reflexivity|].
  intros Hold. simpl usedSpace. f_equal.
  apply (added_pages (Length old) stop); [exact Hold|unfold stop; lia].
Qed.

Lemma copy_chunks_log_or_ref (fout offIn offOut size : Z) (vals : list (list srec)) :
  forall coff, Forall log_or_ref (copy_chunks fout offIn offOut size coff vals).
Proof.
  assert (Hplace : forall doff chunkid sz s_off s_len,
            Forall log_or_ref (place fout doff chunkid sz s_off s_len)).
  { intros. unfold place, incr_ref.
    destruct (_ <? _); destruct (0 <? chunkid); repeat constructor. }
  assert (Hchunk : forall cs coff tpos,
            Forall log_or_ref (copy_chunk fout offIn offOut size coff tpos cs)).
  { induction cs as [|sl cs IH]; intros coff tpos; simpl; [constructor|].
    apply Forall_app. split; [|apply IH].
    unfold copy_slice. destruct (clip _ _ _ _ _) as [[[o p] l]|]; [apply Hplace|constructor]. }
  induction vals as [|sv vals IH]; intros coff; simpl; [constructor|].
  apply Forall_app. split; [apply Hchunk|apply IH].
Qed.

(** X21.  What [CopyFileRange] returns and leaves, for offsets and a size
    below 2^62.  It returns ENOENT when either inode is missing and EINVAL
    when the source is not a regular file.  From an offset at or beyond the
    end of the source it copies 0 bytes and queues nothing, before it looks
    at the type of the destination.  Otherwise it returns EINVAL for a
    destination that is not a regular file, and else copies the smaller of
    [size] and what the source has from [offIn] on, never lowers the length
    of the destination (the new length is the greater of the old one and
    the end of the copy), sets its modification and change times, writes no
    other inode, and adds to [usedSpace] the 4 KiB pages the destination has
    grown by. *)
Theorem CopyFileRange_outcome (ctx : Ctx) (now : Time) (s : Store)
    (fin offIn fout offOut size flags : Z) :
  0 <= offIn -> 0 <= size -> offIn + size < 2 ^ 62 ->
  0 <= offOut -> offOut + size < 2 ^ 62 ->
  let t := CopyFileRange_txf ctx now s fin offIn fout offOut size flags in
  let r := committed s t in
  match inodes s !! fin, inodes s !! fout with
  | Some a_in, Some a_out =>
      let sattr := parseAttr a_in Attr0 in
      let attr := parseAttr a_out Attr0 in
      if negb (Typ sattr =? TypeFile) then r = (EINVAL, s)
      else if Length sattr <=? offIn then t = Commit [] 0
      else if negb (Typ attr =? TypeFile) then r = (EINVAL, s)
      else
        let n := Z.min size (Length sattr - offIn) in
        r.1 = 0 /\ (exists cmds, t = Commit cmds n) /\
        inodes r.2
        = <[fout := marshal (set_Ctime (set_Mtime
                               (set_Length attr (Z.max (Length attr) (offOut + n)))
                               (Unix now) (u32 (Nanosecond now)))
                    (Unix now) (u32 (Nanosecond now)))]> (inodes s) /\
        (0 <= Length attr < 2 ^ 62 ->
         usedSpace r.2
         = usedSpace s + (align4K (Z.max (Length attr) (offOut + n)) - align4K (Length attr)))
  | _, _ => r = (ENOENT, s)
  end.
Proof.
  intros HoffIn Hsize Hin HoffOut Hout. cbv zeta. unfold CopyFileRange_txf.
  destruct (inodes s !! fin) as [a_in|]; [|reflexivity].
  destruct (inodes s !! fout) as [a_out|]; [|reflexivity].
  cbv zeta.
  destruct (negb (Typ (parseAttr a_in Attr0) =? TypeFile)); [reflexivity|].
  destruct (Z.leb_spec (Length (parseAttr a_in Attr0)) offIn) as [Hle|Hgt]; [reflexivity|].
  destruct (negb (Typ (parseAttr a_out Attr0) =? TypeFile)); [reflexivity|].
  set (len := Length (parseAttr a_in Attr0)) in *.
  set (attr := parseAttr a_out Attr0).
  rewrite (u64_small (offIn + size)) by lia.
  assert (Hn : (if len <? offIn + size then u64 (len - offIn) else size)
               = Z.min size (len - offIn)).
  { destruct (Z.ltb_spec len (offIn + size)).
    - rewrite u64_small by lia. lia.
    - lia. }
  rewrite Hn. set (n := Z.min size (len - offIn)).
  assert (Hnr : 0 <= n <= size) by (unfold n; lia).
  rewrite (u64_small (offOut + n)) by lia.
  rewrite set_Length_max.
  set (t := set_Ctime _ _ _).
  cbn [committed fst snd].
  split; [reflexivity|]. split; [eexists; reflexivity|].
  rewrite pipeline_app.
  match goal with
  | |- context [pipeline (copy_chunks ?a ?b ?c ?d ?e ?f) s] =>
      destruct (pipeline_log_or_ref (copy_chunks a b c d e f) s
                  (copy_chunks_log_or_ref a b c d f e)) as [Hi Hu];
      set (s1 := pipeline (copy_chunks a b c d e f) s) in *
  end.
  change (pipeline ([SetInode fout (marshal t)] ++ ?l) s1)
    with (pipeline l (exec s1 (SetInode fout (marshal t)))).
  set (s2 := exec s1 (SetInode fout (marshal t))).
  assert (Hi2 : inodes s2 = <[fout := marshal t]> (inodes s)).
  { unfold s2. simpl. now rewrite Hi. }
  assert (Hu2 : usedSpace s2 = usedSpace s) by exact Hu.
  clearbody s2.
  split.
  - destruct (0 <? _); simpl; exact Hi2.
  - intros Hold. rewrite <- (added_pages (Length attr) (offOut + n)) by lia.
    cbv zeta. destruct (0 <? _); simpl; lia.
Qed.

End DataPath.

Lemma Write_outcome_witness :
  let w := committed two_writes
             (Write_txf (C := juicefs_consts) (mkCtx 0 0 false) (mkTime 1600000000 0)
                two_writes 7 0 4000 (mkSlice 103 200 0 200)) in
  w.1 = 0 /\
  chunks w.2 !! (7, 0)
  = Some [mkSrec 0 101 10 0 10; mkSrec 20 102 5 0 5; mkSrec 4000 103 200 0 200] /\
  usedSpace w.2 = 8192.
Proof.
  pose proof (Write_outcome (C := juicefs_consts) (mkCtx 0 0 false) (mkTime 1600000000 0)
                two_writes 7 0 4000 (mkSlice 103 200 0 200)
                ltac:(cbn; lia) ltac:(lia) ltac:(cbn; lia) ltac:(cbn; lia)) as H.
  cbv zeta in H.
  assert (Hget : inodes two_writes !! 7 = Some (marshal empty_file))
    by apply lookup_singleton_eq.
  rewrite Hget in H. destruct H as (H0 & _ & Hc & _ & Hu).
  cbv zeta. split; [exact H0|]. split.
  - rewrite Hc. rewrite lookup_insert_eq. reflexivity.
  - rewrite Hu; [reflexivity|]. cbn. lia.
Defined.


Lemma CopyFileRange_outcome_witness :
  let t := CopyFileRange_txf (C := juicefs_consts) (mkCtx 0 0 false) (mkTime 1600000000 0)
             two_files 7 (7 * MiB) 8 0 (3 * MiB) 0 in
  (exists cmds, t = Commit cmds MiB) /\
  usedSpace (committed two_files t).2 = MiB.
Proof.
  pose proof (CopyFileRange_outcome (C := juicefs_consts) (mkCtx 0 0 false)
                (mkTime 1600000000 0) two_files 7 (7 * MiB) 8 0 (3 * MiB) 0
                ltac:(unfold MiB; lia) ltac:(unfold MiB; lia) ltac:(unfold MiB; lia)
                ltac:(lia) ltac:(unfold MiB; lia)) as H.
  cbv zeta in H.
  destruct (inodes two_files !! 7) as [a|] eqn:E7; [|discriminate E7].
  destruct (inodes two_files !! 8) as [b|] eqn:E8; [|discriminate E8].
  vm_compute in E7. injection E7 as <-.
  vm_compute in E8. injection E8 as <-.
  cbn [negb parseAttr Typ Length b_typmode b_length] in H.
  change (negb (u8 (Z.shiftr 4516 12) =? TypeFile)) with false in H.
  change (8388608 <=? 7 * MiB) with false in H.
  cbv iota in H. destruct H as (_ & Hc & _ & Hu).
  cbv zeta. split; [exact Hc|].
  rewrite Hu; [reflexivity|lia].
Defined.

(** ** Extended attributes: errors and locality *)

Section XattrEdges.
Context {C : Consts}.

(** X22.  The extended attributes at their edges.  When the connection
    fails, [GetXattr] and [SetXattr] return EIO, but [RemoveXattr] returns
    ENOATTR, as it does for a name that is not set; none of them changes the
    server then.  [RemoveXattr] of a name that is set returns 0 and removes
    it.  [SetXattr] and [RemoveXattr] leave every other attribute, of this
    and of every other inode, as it was. *)
Theorem xattr_edges (net : Net) (s : Store) (inode : Z) (name value : string) :
  let set := SetXattr net s inode name value in
  let rm := RemoveXattr net s inode name in
  match net None with
  | Some _ =>
      GetXattr net s inode name = (EIO, None) /\ set = (EIO, s) /\ rm = (ENOATTR, s)
  | None =>
      set.1 = 0 /\ xattr_of set.2 inode name = Some value /\
      match xattr_of s inode name with
      | None => rm = (ENOATTR, s)
      | Some _ => rm.1 = 0 /\ xattr_of rm.2 inode name = None
      end
  end /\
  forall i n, (i, n) <> (inode, name) ->
    xattr_of set.2 i n = xattr_of s i n /\ xattr_of rm.2 i n = xattr_of s i n.
Proof.
  cbv zeta. unfold GetXattr, SetXattr, RemoveXattr, xattr_of.
  destruct (net None) as [msg|].
  - split; [repeat split|]. intros i n _. now split.
  - split.
    + split; [reflexivity|]. split.
      { cbn [snd xattrs set_xattrs]. rewrite lookup_insert_eq. apply lookup_insert_eq. }
      destruct (default ∅ (xattrs s !! inode) !! name) eqn:E; [|reflexivity].
      split; [reflexivity|]. cbn [snd xattrs set_xattrs].
      rewrite lookup_put_hash. apply lookup_delete_eq.
    + intros i n Hne. split.
      * cbn [snd xattrs set_xattrs].
        destruct (decide (i = inode)) as [->|Hi].
        -- rewrite lookup_insert_eq. cbn [default from_option id].
           rewrite lookup_insert_ne by congruence. reflexivity.
        -- now rewrite lookup_insert_ne.
      * destruct (default ∅ (xattrs s !! inode) !! name) eqn:E; [|reflexivity].
        cbn [snd xattrs set_xattrs].
        destruct (decide (i = inode)) as [->|Hi].
        -- rewrite lookup_put_hash. rewrite lookup_delete_ne by congruence. reflexivity.
        -- now rewrite lookup_put_hash_ne.
Qed.

End XattrEdges.

(** ** Compaction: what the transaction does to the log *)

Lemma lrange_prefix {A : Type} (vals rest : list A) :
  vals <> [] -> lrange (vals ++ rest) 0 (Z.of_nat (length vals) - 1) = vals.
Proof.
  intros Hne. unfold lrange. rewrite length_app, Nat2Z.inj_add.
  assert (0 < Z.of_nat (length vals)) by (destruct vals; [congruence|simpl; lia]).
  change (0 <? 0) with false. cbv iota.
  destruct (Z.ltb_spec (Z.of_nat (length vals) - 1) 0); [lia|].
  rewrite Z.min_l by lia.
  destruct (Z.ltb_spec (Z.of_nat (length vals) - 1) 0); [lia|].
  destruct (Z.leb_spec (Z.of_nat (length vals) + Z.of_nat (length rest)) 0); [lia|].
  cbn [orb]. change (Z.to_nat 0) with 0%nat. rewrite drop_0.
  replace (Z.to_nat (Z.of_nat (length vals) - 1 - 0 + 1)) with (length vals) by lia.
  apply take_app_length.
Qed.

Lemma lrange_suffix {A : Type} (vals rest : list A) :
  lrange (vals ++ rest) (Z.of_nat (length vals)) (-1) = rest.
Proof.
  unfold lrange. rewrite length_app, Nat2Z.inj_add.
  destruct (Z.ltb_spec (Z.of_nat (length vals)) 0); [lia|].
  change (-1 <? 0) with true. cbv iota.
  rewrite Z.min_l by lia.
  destruct rest as [|x rest].
  - change (Z.of_nat (length [])) with 0.
    destruct (Z.leb_spec (Z.of_nat (length vals) + 0) (Z.of_nat (length vals))); [|lia].
    now rewrite orb_true_r.
  - set (n := length (x :: rest)).
    assert (0 < Z.of_nat n) by (unfold n; simpl; lia).
    destruct (Z.ltb_spec (Z.of_nat (length vals) + Z.of_nat n + -1) (Z.of_nat (length vals)));
      [lia|].
    destruct (Z.leb_spec (Z.of_nat (length vals) + Z.of_nat n) (Z.of_nat (length vals)));
      [lia|].
    cbn [orb]. rewrite Nat2Z.id, drop_app_length.
    apply take_ge. fold n. lia.
Qed.

Lemma lrange_prefix_inv {A : Type} (log vals : list A) :
  vals <> [] -> lrange log 0 (Z.of_nat (length vals) - 1) = vals ->
  exists rest, log = vals ++ rest.
Proof.
  intros Hne. unfold lrange.
  assert (0 < Z.of_nat (length vals)) by (destruct vals; [congruence|simpl; lia]).
  change (0 <? 0) with false. cbv iota.
  destruct (Z.ltb_spec (Z.of_nat (length vals) - 1) 0); [lia|].
  destruct (_ || _); [congruence|].
  change (Z.to_nat 0) with 0%nat. rewrite drop_0.
  intros Htake. exists (drop (Z.to_nat (Z.min (Z.of_nat (length vals) - 1)
                                           (Z.of_nat (length log) - 1) - 0 + 1)) log).
  rewrite <- Htake at 1. now rewrite take_drop.
Qed.

Lemma lookup_put_list (k : Z * Z) (l : list srec) (m : gmap (Z * Z) (list srec)) :
  default [] (put_list k l m !! k) = l.
Proof.
  unfold put_list. destruct l.
  - now rewrite lookup_delete_eq.
  - now rewrite lookup_insert_eq.
Qed.

Lemma lookup_put_list_ne (k k' : Z * Z) (l : list srec) (m : gmap (Z * Z) (list srec)) :
  k <> k' -> put_list k l m !! k' = m !! k'.
Proof.
  intros Hne. unfold put_list. destruct l.
  - now rewrite lookup_delete_ne.
  - now rewrite lookup_insert_ne.
Qed.

(** A reference count moves by the total of the amounts addressed to it,
    whatever else the pipeline does. *)
Lemma slicerefs_pipeline_total (cmds : list cmd) : forall (s : Store) (c z : Z),
  default 0 (slicerefs (pipeline cmds s) !! (c, z))
  = default 0 (slicerefs s !! (c, z)) + incr_total c z cmds.
Proof.
  induction cmds as [|x cmds IH]; intros s c z; [simpl; lia|].
  rewrite pipeline_cons, IH.
  destruct x; simpl; try lia.
  - destruct (chunks s !! (inode, indx)); simpl; lia.
  - destruct (Z.eqb_spec chunkid c) as [->|Hc]; [destruct (Z.eqb_spec size z) as [->|Hz]|];
      cbn [andb].
    + rewrite lookup_insert_eq. simpl. lia.
    + rewrite lookup_insert_ne by congruence. lia.
    + rewrite lookup_insert_ne by congruence. lia.
Qed.

Lemma incr_total_decrs (c z : Z) (ss : list srec) :
  incr_total c z (map (fun x => DecrSlice (r_chunkid x) (r_size x)) ss) = - refs_of c z ss.
Proof.
  unfold refs_of. induction ss as [|x ss IH]; [reflexivity|].
  simpl. rewrite IH. destruct (_ && _); simpl length; lia.
Qed.

(** X23.  The transaction of a compaction, for a non-empty list [vals] of
    values read before.  When the log still starts with [vals], it commits:
    the log becomes one record for the whole of the new chunk followed by
    the records appended since, in their order; no other log, no inode and
    not [usedSpace] is touched; the reference count of the new chunk exists
    afterwards; and every reference count is lowered by the number of
    compacted records that name it.  When the log no longer starts with
    [vals], it returns EINVAL and changes nothing. *)
Theorem compact_txf_outcome (s : Store) (inode indx : Z) (vals : list srec)
    (chunkid size : Z) :
  vals <> [] ->
  let log := default [] (chunks s !! (inode, indx)) in
  let r := committed s (compact_txf s inode indx vals (readSlices vals) chunkid size) in
  (forall rest, log = vals ++ rest ->
     r.1 = 0 /\
     chunks r.2 !! (inode, indx) = Some (mkSrec 0 chunkid size 0 size :: rest) /\
     (forall k, k <> (inode, indx) -> chunks r.2 !! k = chunks s !! k) /\
     inodes r.2 = inodes s /\ usedSpace r.2 = usedSpace s /\
     is_Some (slicerefs r.2 !! (chunkid, size)) /\
     forall c z, default 0 (slicerefs r.2 !! (c, z))
                 = default 0 (slicerefs s !! (c, z)) - refs_of c z (readSlices vals)) /\
  ((forall rest, log <> vals ++ rest) -> r = (EINVAL, s)).
Proof.
  intros Hne log r. split.
  - intros rest Hlog. unfold r, compact_txf. fold log. rewrite Hlog.
    rewrite lrange_prefix by exact Hne. rewrite decide_True by reflexivity.
    cbn [committed fst snd]. unfold compact_cmds, readSlices.
    rewrite pipeline_app.
    set (decrs := map _ vals).
    set (s1 := pipeline [LTrim inode indx (Z.of_nat (length vals)) (-1);
                         LPush inode indx (mkSrec 0 chunkid size 0 size);
                         IncrBySlice chunkid size 0] s).
    assert (Hdec : Forall (fun c => exists k z, c = IncrBySlice k z (-1)) decrs).
    { unfold decrs. rewrite Forall_map. apply Forall_forall. intros x _. now eexists _, _. }
    assert (Hframe : forall s0, chunks (pipeline decrs s0) = chunks s0 /\
                                inodes (pipeline decrs s0) = inodes s0 /\
                                usedSpace (pipeline decrs s0) = usedSpace s0).
    { clear -Hdec. induction Hdec as [|c l (k & z & ->) _ IH]; intros s0; [now repeat split|].
      rewrite pipeline_cons. destruct (IH (exec s0 (IncrBySlice k z (-1)))) as (-> & -> & ->).
      now repeat split. }
    destruct (Hframe s1) as (Hc & Hi & Hu).
    assert (Hc1 : chunks s1
                  = <[(inode, indx) := mkSrec 0 chunkid size 0 size :: rest]>
                      (put_list (inode, indx) rest (chunks s))).
    { unfold s1. cbn [pipeline foldl exec chunks set_chunks set_slicerefs].
      rewrite lookup_put_list. fold log. rewrite Hlog, lrange_suffix. reflexivity. }
    split; [reflexivity|]. split; [|split; [|split; [|split; [|split]]]].
    + rewrite Hc, Hc1. apply lookup_insert_eq.
    + intros k Hk. rewrite Hc, Hc1. rewrite lookup_insert_ne by congruence.
      apply lookup_put_list_ne. congruence.
    + rewrite Hi. reflexivity.
    + rewrite Hu. reflexivity.
    + apply slicerefs_pipeline_some. unfold s1. simpl. rewrite lookup_insert_eq. eauto.
    + intros c z. rewrite slicerefs_pipeline_total. unfold decrs.
      rewrite incr_total_decrs. unfold s1.
      rewrite slicerefs_pipeline_total. simpl incr_total.
      destruct (_ && _); lia.
  - intros Hno. unfold r, compact_txf. fold log.
    destruct (decide _) as [Heq|]; [|reflexivity].
    destruct (lrange_prefix_inv _ _ Hne Heq) as (rest & Hrest).
    now destruct (Hno rest).
Qed.

Lemma compact_txf_outcome_witness :
  let r := committed uncompacted
             (compact_txf uncompacted 7 0 two_slices (readSlices two_slices) 104 150) in
  r.1 = 0 /\ chunks r.2 !! (7, 0) = Some [mkSrec 0 104 150 0 150] /\
  default 0 (slicerefs r.2 !! (101, 100)) = -1.
Proof.
  destruct (compact_txf_outcome uncompacted 7 0 two_slices 104 150 ltac:(discriminate))
    as [H _].
  destruct (H [] eq_refl) as (H0 & Hc & _ & _ & _ & _ & Hr).
  cbv zeta. split; [exact H0|]. split; [exact Hc|]. rewrite Hr. reflexivity.
Defined.

(** ** CopyFileRange: the part of a slice that is copied *)

Section Clip.
Context {C : Consts}.

(** X24.  [clip], for a slice of less than 2 GiB that lies at
    [coff + pos .. coff + pos + Len] of the source, all offsets below 2^62:
    a slice that does not meet the range [offIn .. offIn + size] is
    skipped.  Of one that does, the part before [offIn] is taken off at the
    front (the offset within the object and the position advance by it, the
    length is reduced by it), but the part beyond [offIn + size] is not
    taken off: the length is increased by it. *)
Theorem clip_spec (offIn size coff pos : Z) (s : Slice) :
  0 <= offIn -> 0 <= size -> offIn + size < 2 ^ 62 ->
  0 <= coff < 2 ^ 62 -> 0 <= pos -> 0 <= Len s -> pos + Len s < 2 ^ 31 ->
  0 <= Off s -> Off s + Len s < 2 ^ 31 ->
  let b := coff + pos in
  let e := coff + pos + Len s in
  let stop := offIn + size in
  let head := Z.max 0 (offIn - b) in
  let tail := Z.max 0 (e - stop) in
  clip offIn size coff pos s
  = if (b <? stop) && (offIn <? e)
    then Some (Off s + head, pos + head, Len s - head + tail)
    else None.
Proof.
  intros HoffIn Hsize Hstop Hcoff Hpos Hlen Hpl Hoff Hol. cbv zeta.
  change (2 ^ 31) with 2147483648 in *. change (2 ^ 62) with 4611686018427387904 in *.
  unfold clip.
  rewrite (u64_small (coff + pos)) by (change (2 ^ 64) with 18446744073709551616; lia).
  rewrite (u64_small (offIn + size)) by (change (2 ^ 64) with 18446744073709551616; lia).
  rewrite (u64_small (coff + pos + Len s)) by (change (2 ^ 64) with 18446744073709551616; lia).
  destruct (Z.ltb_spec (coff + pos) (offIn + size)) as [Hb|Hb]; [|reflexivity].
  destruct (Z.ltb_spec offIn (coff + pos + Len s)) as [He|He]; [|reflexivity].
  cbn [andb].
  destruct (Z.ltb_spec (coff + pos) offIn) as [Hh|Hh].
  - rewrite (u64_small (offIn - coff)) by (change (2 ^ 64) with 18446744073709551616; lia).
    rewrite (u64_small (offIn - coff - pos))
      by (change (2 ^ 64) with 18446744073709551616; lia).
    rewrite (u32_small (offIn - coff - pos)) by (change (2 ^ 32) with 4294967296; lia).
    rewrite (u32_small (Off s + _)) by (change (2 ^ 32) with 4294967296; lia).
    rewrite (u32_small (pos + _)) by (change (2 ^ 32) with 4294967296; lia).
    rewrite (u32_small (Len s - _)) by (change (2 ^ 32) with 4294967296; lia).
    rewrite (u64_small (coff + (pos + _)))
      by (change (2 ^ 64) with 18446744073709551616; lia).
    rewrite (u64_small (coff + (pos + _) + _))
      by (change (2 ^ 64) with 18446744073709551616; lia).
    rewrite (Z.max_r 0 (offIn - (coff + pos))) by lia.
    destruct (Z.ltb_spec (offIn + size)
                (coff + (pos + (offIn - coff - pos)) + (Len s - (offIn - coff - pos))))
      as [Ht|Ht].
    + rewrite Z.max_r by lia.
      assert (Hd : u32 (u64 (offIn + size
                             - (coff + (pos + (offIn - coff - pos))
                                + (Len s - (offIn - coff - pos)))))
                   = 2 ^ 32 - (coff + pos + Len s - (offIn + size))).
      { unfold u32, u64.
        change (2 ^ 64) with (2 ^ 32 * 2 ^ 32).
        rewrite Z.rem_mul_r by lia.
        change (2 ^ 32) with 4294967296 in *.
        rewrite Z.mul_comm, Z.mod_add by lia. rewrite Z.mod_mod by lia.
        replace (offIn + size - (coff + (pos + (offIn - coff - pos))
                                 + (Len s - (offIn - coff - pos))))
          with (4294967296 - (coff + pos + Len s - (offIn + size)) + (-1) * 4294967296)
          by lia.
        rewrite Z.mod_add by lia. apply Z.mod_small. lia. }
      rewrite Hd. f_equal. f_equal; [f_equal; lia|].
      unfold u32. change (2 ^ 32) with 4294967296.
      replace (Len s - (offIn - coff - pos)
               - (4294967296 - (coff + pos + Len s - (offIn + size))))
        with (Len s - (offIn - (coff + pos)) + (coff + pos + Len s - (offIn + size))
              + (-1) * 4294967296) by lia.
      rewrite Z.mod_add by lia. apply Z.mod_small. lia.
    + rewrite Z.max_l by lia. f_equal. f_equal; [f_equal; lia|lia].
  - rewrite (Z.max_l 0 (offIn - (coff + pos))) by lia.
    rewrite !(u64_small (coff + pos)) by (change (2 ^ 64) with 18446744073709551616; lia).
    rewrite !(u64_small (coff + pos + Len s))
      by (change (2 ^ 64) with 18446744073709551616; lia).
    destruct (Z.ltb_spec (offIn + size) (coff + pos + Len s)) as [Ht|Ht].
    + rewrite Z.max_r by lia.
      assert (Hd : u32 (u64 (offIn + size - (coff + pos + Len s)))
                   = 2 ^ 32 - (coff + pos + Len s - (offIn + size))).
      { unfold u32, u64.
        change (2 ^ 64) with (2 ^ 32 * 2 ^ 32).
        rewrite Z.rem_mul_r by lia.
        change (2 ^ 32) with 4294967296 in *.
        rewrite Z.mul_comm, Z.mod_add by lia. rewrite Z.mod_mod by lia.
        replace (offIn + size - (coff + pos + Len s))
          with (4294967296 - (coff + pos + Len s - (offIn + size)) + (-1) * 4294967296)
          by lia.
        rewrite Z.mod_add by lia. apply Z.mod_small. lia. }
      rewrite Hd. f_equal. f_equal; [f_equal; lia|].
      unfold u32. change (2 ^ 32) with 4294967296.
      replace (Len s - (4294967296 - (coff + pos + Len s - (offIn + size))))
        with (Len s - 0 + (coff + pos + Len s - (offIn + size)) + (-1) * 4294967296) by lia.
      rewrite Z.mod_add by lia. apply Z.mod_small. lia.
    + rewrite Z.max_l by lia. f_equal. f_equal; [f_equal; lia|lia].
Qed.

End Clip.

Lemma clip_spec_witness :
  clip MiB (3 * MiB) 0 0 (mkSlice 101 (8 * MiB) 0 (8 * MiB))
  = Some (MiB, MiB, 11 * MiB).
Proof.
  apply (clip_spec MiB (3 * MiB) 0 0 (mkSlice 101 (8 * MiB) 0 (8 * MiB)));
    unfold MiB; simpl; lia.
Defined.

(** ** Rename: the entry moves *)

Lemma entry_of_HSetEntry (s : Store) (P : Z) (N : string) (typ ino p : Z) (n : string) :
  entry_of (exec s (HSetEntry P N typ ino)) p n
  = if decide ((p, n) = (P, N)) then Some (typ, ino) else entry_of s p n.
Proof.
  unfold entry_of. cbn [exec entries set_entries].
  destruct (decide (p = P)) as [->|Hp].
  - rewrite lookup_insert_eq. cbn [default from_option id].
    destruct (decide (n = N)) as [->|Hn].
    + rewrite decide_True by reflexivity. apply lookup_insert_eq.
    + rewrite decide_False by congruence. now rewrite lookup_insert_ne.
  - rewrite decide_False by congruence. now rewrite lookup_insert_ne.
Qed.

Lemma entry_of_HDelEntry (s : Store) (P : Z) (N : string) (p : Z) (n : string) :
  entry_of (exec s (HDelEntry P N)) p n
  = if decide ((p, n) = (P, N)) then None else entry_of s p n.
Proof.
  unfold entry_of. cbn [exec entries set_entries].
  destruct (decide (p = P)) as [->|Hp].
  - rewrite lookup_put_hash.
    destruct (decide (n = N)) as [->|Hn].
    + rewrite decide_True by reflexivity. apply lookup_delete_eq.
    + rewrite decide_False by congruence. now rewrite lookup_delete_ne.
  - rewrite decide_False by congruence. now rewrite lookup_put_hash_ne.
Qed.

Lemma entries_pipeline_plain (cmds : list cmd) : forall s,
  Forall no_entry_cmd cmds -> entries (pipeline cmds s) = entries s.
Proof.
  induction cmds as [|c cmds IH]; intros s Hall; [reflexivity|].
  inversion Hall as [|? ? Hc Hrest]; subst. rewrite pipeline_cons, IH by exact Hrest.
  destruct c; simpl in Hc; try contradiction; try reflexivity.
  simpl. now destruct (chunks s !! (inode, indx)).
Qed.

Lemma entry_of_pipeline_plain (cmds : list cmd) (s : Store) (p : Z) (n : string) :
  Forall no_entry_cmd cmds -> entry_of (pipeline cmds s) p n = entry_of s p n.
Proof. intros H. unfold entry_of. now rewrite entries_pipeline_plain. Qed.

Section RenameEntry.
Context {C : Consts}.

Lemma Rename_replace_entries (now : Time) (r : redisMeta) (parentDst : Z)
    (nameDst : string) (dtyp dino : Z) (tattr dattr : Attr) (opened : bool)
    (s : Store) (p : Z) (n : string) :
  (p, n) <> (parentDst, nameDst) ->
  entry_of (pipeline (Rename_replace now r parentDst nameDst dtyp dino tattr dattr opened).1
              s) p n
  = entry_of s p n.
Proof.
  intros Hne. unfold Rename_replace.
  destruct (dino >? 0); [|reflexivity].
  assert (Hsplit : forall (x : list cmd * Attr), Forall no_entry_cmd x.1 ->
            entry_of (pipeline (let '(cmds, dattr) := x in
                                (cmds ++ [HDelEntry parentDst nameDst], dattr)).1 s) p n
            = entry_of s p n).
  { intros [cmds d] Hplain. cbn [fst] in *. rewrite pipeline_app.
    change (pipeline [HDelEntry parentDst nameDst] ?x)
      with (exec x (HDelEntry parentDst nameDst)).
    rewrite entry_of_HDelEntry, decide_False by exact Hne.
    now apply entry_of_pipeline_plain. }
  apply Hsplit.
  destruct (negb (dtyp =? TypeDirectory) && (Nlink tattr >? 0)); [repeat constructor|].
  destruct (dtyp =? TypeDirectory); [repeat constructor|].
  destruct (dtyp =? TypeSymlink); [repeat constructor|].
  destruct (dtyp =? TypeFile); [|repeat constructor].
  destruct opened; repeat constructor.
Qed.

(** X25.  [Rename] moves the entry.  A call either leaves the server and
    the engine as they were and starts nothing, or it returns 0 and the
    destination name holds the type and the inode the source name held, the
    source name is gone, and every other name of every directory is as
    before.  Whatever the destination held is replaced: nothing compares
    the two types.  On a working connection a source name that does not
    exist gives ENOENT. *)
Theorem Rename_moves_entry (net : Net) (ctx : Ctx) (now : Time) (r : redisMeta)
    (s : Store) (parentSrc : Z) (nameSrc : string) (parentDst : Z) (nameDst : string) :
  let '(err, s', r', inode, attr, after) :=
    Rename net ctx now r s parentSrc nameSrc parentDst nameDst in
  ((s' = s /\ r' = r /\ after = NoCleanup) \/
   (err = 0 /\ (parentSrc, nameSrc) <> (parentDst, nameDst) /\
    exists typ ino,
      entry_of s parentSrc nameSrc = Some (typ, ino) /\
      forall p n,
        entry_of s' p n
        = if decide ((p, n) = (parentDst, nameDst)) then Some (typ, ino)
          else if decide ((p, n) = (parentSrc, nameSrc)) then None
          else entry_of s p n)) /\
  (net None = None -> entry_of s parentSrc nameSrc = None -> err = ENOENT).
Proof.
  unfold Rename, rdb_HGet_entry.
  destruct (net None) as [msg|] eqn:Hnet.
  { split; [left; now repeat split|discriminate]. }
  unfold tx_HGet_entry at 1. fold (entry_of s parentSrc nameSrc).
  destruct (entry_of s parentSrc nameSrc) as [[typ ino]|] eqn:Hsrc.
  2:{ split; [left; now repeat split|reflexivity]. }
  destruct (decide (parentSrc = parentDst /\ nameSrc = nameDst)) as [Hsame|Hdiff].
  { split; [left; now repeat split|discriminate]. }
  assert (Hne : (parentSrc, nameSrc) <> (parentDst, nameDst)).
  { intros [= -> ->]. now apply Hdiff. }
  set (dst := match tx_HGet_entry s parentDst nameDst with
              | inl e => e | inr _ => (0, 0) end).
  assert (Hbody :
    let '(dtyp, dino) := dst in
    match Rename_txf ctx now r s parentSrc nameSrc parentDst nameDst typ ino dtyp dino with
    | Abort _ => True
    | Commit cmds _ =>
        forall p n,
          entry_of (pipeline cmds s) p n
          = if decide ((p, n) = (parentDst, nameDst)) then Some (typ, ino)
            else if decide ((p, n) = (parentSrc, nameSrc)) then None
            else entry_of s p n
    end).
  { destruct dst as [dtyp dino]. unfold Rename_txf.
    destruct (Rename_target _ _ _ _ _ _ _ _) as [err|[[dino' tattr] opened]]; [exact I|].
    unfold tx_HGet_entry. fold (entry_of s parentSrc nameSrc). rewrite Hsrc.
    destruct (negb (ino =? ino)); [exact I|].
    destruct (tx_MGet_inode s parentSrc) as [rs0|]; [|exact I].
    destruct (tx_MGet_inode s parentDst) as [rs1|]; [|exact I].
    destruct (tx_MGet_inode s ino) as [rs2|]; [|exact I].
    destruct (negb (Typ (parseAttr rs0 Attr0) =? TypeDirectory)); [exact I|].
    destruct (negb (Typ (parseAttr rs1 Attr0) =? TypeDirectory)); [exact I|].
    cbv zeta.
    match goal with
    | |- context [Rename_replace ?a ?b ?c ?d ?e ?f ?g ?h ?i] =>
        pose proof (fun s0 p n => Rename_replace_entries a b c d e f g h i s0 p n) as Hrep;
        destruct (Rename_replace a b c d e f g h i) as [replace dattr']
    end.
    cbn [fst] in Hrep.
    intros p n. rewrite !pipeline_app.
    rewrite entry_of_pipeline_plain by repeat constructor.
    rewrite entry_of_pipeline_plain by (destruct (negb _); repeat constructor).
    change (pipeline [HSetEntry parentDst nameDst typ ino] ?x)
      with (exec x (HSetEntry parentDst nameDst typ ino)).
    rewrite entry_of_HSetEntry.
    destruct (decide ((p, n) = (parentDst, nameDst))) as [Heq|Hpn]; [reflexivity|].
    rewrite Hrep by exact Hpn.
    change (pipeline [HDelEntry parentSrc nameSrc; ?c] s)
      with (exec (exec s (HDelEntry parentSrc nameSrc)) c).
    change (entry_of (exec ?x (SetInode ?i ?v)) p n) with (entry_of x p n).
    apply entry_of_HDelEntry. }
  unfold dst in Hbody. clear dst.
  destruct (tx_HGet_entry s parentDst nameDst) as [[dtyp dino]|derr].
  - destruct (Rename_txf _ _ _ _ _ _ _ _ _ _ _ _) as [err|cmds [iattr after]].
    + split; [left; now repeat split|discriminate].
    + split; [|discriminate]. right. split; [reflexivity|]. split; [exact Hne|].
      exists typ, ino. split; [reflexivity|exact Hbody].
  - destruct derr as [eno| | |msg];
      try (destruct (Rename_txf _ _ _ _ _ _ _ _ _ _ _ _) as [err|cmds [iattr after]];
           [split; [left; now repeat split|discriminate]
           |split; [|discriminate]; right; split; [reflexivity|]; split; [exact Hne|];
            exists typ, ino; split; [reflexivity|exact Hbody]]).
    split; [left; now repeat split|discriminate].
Qed.

End RenameEntry.

(** ** SetAttr: what it leaves alone *)

Section SetAttrFrame.
Context {C : Consts}.

Lemma keeps_refl (set : Z) (old : Attr) : SetAttr_keeps set old old.
Proof. unfold SetAttr_keeps. tauto. Qed.

Lemma keeps_Ctime (set : Z) (old cur : Attr) (sec nsec : Z) :
  SetAttr_keeps set old cur -> SetAttr_keeps set old (set_Ctime cur sec nsec).
Proof. unfold SetAttr_keeps. cbn. tauto. Qed.

Lemma keeps_if_Uid (set : Z) (old cur : Attr) (v : Z) :
  SetAttr_keeps set old cur ->
  SetAttr_keeps set old (if negb (Z.land set SetAttrUID =? 0) then set_Uid cur v else cur).
Proof.
  destruct (Z.eqb_spec (Z.land set SetAttrUID) 0); cbn [negb]; [tauto|].
  unfold SetAttr_keeps. cbn. tauto.
Qed.

Lemma keeps_if_Gid (set : Z) (old cur : Attr) (v : Z) :
  SetAttr_keeps set old cur ->
  SetAttr_keeps set old (if negb (Z.land set SetAttrGID =? 0) then set_Gid cur v else cur).
Proof.
  destruct (Z.eqb_spec (Z.land set SetAttrGID) 0); cbn [negb]; [tauto|].
  unfold SetAttr_keeps. cbn. tauto.
Qed.

Lemma keeps_if_Atime (set flag : Z) (old cur : Attr) (sec nsec : Z) :
  flag = SetAttrAtime \/ flag = SetAttrAtimeNow ->
  SetAttr_keeps set old cur ->
  SetAttr_keeps set old (if negb (Z.land set flag =? 0) then set_Atime cur sec nsec else cur).
Proof.
  intros Hflag.
  destruct (Z.eqb_spec (Z.land set flag) 0); cbn [negb]; [tauto|].
  unfold SetAttr_keeps. cbn. destruct Hflag as [-> | ->]; tauto.
Qed.

Lemma keeps_if_Mtime (set flag : Z) (old cur : Attr) (sec nsec : Z) :
  flag = SetAttrMtime \/ flag = SetAttrMtimeNow ->
  SetAttr_keeps set old cur ->
  SetAttr_keeps set old (if negb (Z.land set flag =? 0) then set_Mtime cur sec nsec else cur).
Proof.
  intros Hflag.
  destruct (Z.eqb_spec (Z.land set flag) 0); cbn [negb]; [tauto|].
  unfold SetAttr_keeps. cbn. destruct Hflag as [-> | ->]; tauto.
Qed.

Lemma keeps_Mode (set : Z) (old cur : Attr) (v : Z) :
  Z.land set SetAttrMode <> 0 \/ Z.land set (Z.lor SetAttrUID SetAttrGID) <> 0 ->
  SetAttr_keeps set old cur -> SetAttr_keeps set old (set_Mode cur v).
Proof. unfold SetAttr_keeps. cbn. tauto. Qed.

Lemma SetAttr_cur_keeps (ctx : Ctx) (now : Time) (set : Z) (old attr : Attr) :
  SetAttr_keeps set old (SetAttr_cur ctx now set old attr) /\
  Ctime (SetAttr_cur ctx now set old attr) = Unix now /\
  Ctimensec (SetAttr_cur ctx now set old attr) = u32 (Nanosecond now).
Proof.
  unfold SetAttr_cur. cbv zeta.
  destruct (Z.eqb_spec (Z.land set (Z.lor SetAttrUID SetAttrGID)) 0) as [HA|HA];
    destruct (Z.eqb_spec (Z.land set SetAttrMode) 0) as [HM|HM];
    destruct (negb (Z.land (Mode old) 3072 =? 0));
    cbn [negb andb]; cbv beta iota;
    (split; [|split; reflexivity]);
    apply keeps_Ctime;
    (apply keeps_if_Mtime; [now right|]); (apply keeps_if_Mtime; [now left|]);
    (apply keeps_if_Atime; [now right|]); (apply keeps_if_Atime; [now left|]);
    try (apply keeps_Mode; [now left|]);
    apply keeps_if_Gid; apply keeps_if_Uid;
    try (apply keeps_Mode; [now right|]);
    apply keeps_refl.
Qed.

(** X26.  [SetAttr] on a missing inode returns ENOENT and changes nothing.
    On an inode that exists it rewrites the attribute of that inode and
    nothing else on the server, sets the change time to now, and never
    changes the type, the link count, the length, the device, the parent or
    the flags, whatever [set] and the caller's [attr] hold; the owner, the
    group and the two other times change only under their flags, and the
    mode only under [SetAttrMode], [SetAttrUID] or [SetAttrGID].  The type
    read back from the stored blob is the old one even when the caller's
    mode has bits above the lowest twelve. *)
Theorem SetAttr_frame (ctx : Ctx) (now : Time) (s : Store)
    (inode set sugidclearmode : Z) (attr : Attr) :
  let r := committed s (SetAttr_txf ctx now s inode set sugidclearmode attr) in
  match inodes s !! inode with
  | None => r = (ENOENT, s)
  | Some a =>
      let old := parseAttr a Attr0 in
      exists out,
        SetAttr_txf ctx now s inode set sugidclearmode attr
          = Commit [SetInode inode (marshal out)] out /\
        r = (0, set_inodes s (<[inode := marshal out]> (inodes s))) /\
        SetAttr_keeps set old out /\
        Ctime out = Unix now /\ Ctimensec out = u32 (Nanosecond now) /\
        (0 <= Typ old < 16 -> Typ (parseAttr (marshal out) Attr0) = Typ old)
  end.
Proof.
  cbv zeta. unfold SetAttr_txf, tx_Get_inode.
  destruct (inodes s !! inode) as [a|]; [|reflexivity].
  eexists. split; [reflexivity|]. split; [reflexivity|].
  destruct (SetAttr_cur_keeps ctx now set (parseAttr a Attr0) attr) as (Hk & Hc & Hcn).
  split; [exact Hk|]. split; [exact Hc|]. split; [exact Hcn|].
  intros Ht. destruct Hk as (HT & _). rewrite Typ_marshal; [exact HT|]. now rewrite HT.
Qed.

End SetAttrFrame.

(** ** Fallocate *)

Section FallocateProps.
Context {C : Consts}.

Lemma fallocate_holes_tiles (inode : Z) (n : nat) : forall off size,
  0 < ChunkSize < 2 ^ 32 -> 0 <= off -> 0 <= size -> off + size < 2 ^ 32 * ChunkSize ->
  off + size < 2 ^ 62 ->
  off mod ChunkSize + size <= Z.of_nat n * ChunkSize ->
  tiles inode off (fallocate_holes n inode off size) (off + size).
Proof.
  induction n as [|n IH]; intros off size Hcs Hoff Hsize Hidx Hbig Hfuel.
  - assert (Hp : 0 < ChunkSize) by lia.
    pose proof (Z.mod_pos_bound off ChunkSize Hp). simpl. lia.
  - assert (Hp : 0 < ChunkSize) by lia.
    pose proof (Z.mod_pos_bound off ChunkSize Hp) as Hmod.
    assert (Hnz : ChunkSize <> 0) by lia.
    pose proof (Z.div_mod off ChunkSize Hnz) as Hdm.
    cbn [fallocate_holes].
    destruct (Z.ltb_spec 0 size) as [Hpos|Hzero]; [|simpl; lia].
    cbv zeta.
    assert (Hq : 0 <= off / ChunkSize < 2 ^ 32).
    { split; [apply Z.div_pos; lia|]. apply Z.div_lt_upper_bound; lia. }
    rewrite (u32_small (off / ChunkSize)) by lia.
    rewrite (u64_small (off mod ChunkSize + size)) by lia.
    destruct (Z.ltb_spec ChunkSize (off mod ChunkSize + size)) as [Hcross|Hfit].
    + rewrite (u64_small (ChunkSize - off mod ChunkSize)) by lia.
      rewrite (u64_small (off + _)) by lia.
      rewrite (u64_small (size - _)) by lia.
      rewrite (u32_small (off mod ChunkSize)) by lia.
      rewrite (u32_small (ChunkSize - off mod ChunkSize)) by lia.
      cbn [tiles hole r_chunkid r_pos r_len].
      repeat split; try lia.
      replace (off + size)
        with (off + (ChunkSize - off mod ChunkSize)
              + (size - (ChunkSize - off mod ChunkSize))) by lia.
      assert (Hal : (off + (ChunkSize - off mod ChunkSize)) mod ChunkSize = 0).
      { replace (off + (ChunkSize - off mod ChunkSize))
          with ((off / ChunkSize + 1) * ChunkSize) by lia.
        apply Z.mod_mul. lia. }
      apply IH; [lia|lia|lia|lia|lia|rewrite Hal; lia].
    + rewrite (u64_small (off + size)) by lia.
      rewrite Z.sub_diag. change (u64 0) with 0.
      rewrite (u32_small (off mod ChunkSize)) by lia.
      rewrite (u32_small size) by lia.
      cbn [tiles hole r_chunkid r_pos r_len].
      repeat split; try lia.
      destruct n; reflexivity.
Qed.

(** X27.  [Fallocate], for a chunk size that fits 32 bits and a range
    below 2^62.  The modes: insert-range and collapse-range alone give
    ENOTSUP, punch-hole without keep-size gives EINVAL, a size of 0 is
    refused, and a refused call changes nothing.  The transaction returns
    ENOENT for a missing inode, EPIPE for a FIFO and EPERM for anything else
    that is not a regular file.  On a regular file it never lowers the
    length: with keep-size the length stays, otherwise it becomes the
    greater of the old length and the end of the range; [usedSpace] moves by
    the difference of the lengths rounded up to 4 KiB.  Without zero-range
    and punch-hole no record is appended; with one of them, for a range that
    starts within the file, the holes appended tile the range up to the old
    end of the file, one per chunk, none crossing the end of its chunk. *)
Theorem Fallocate_outcome (ctx : Ctx) (now : Time) (s : Store)
    (inode mode off size : Z) :
  0 < ChunkSize < 2 ^ 32 -> 0 <= off -> 0 <= size ->
  off + size < 2 ^ 32 * ChunkSize -> off + size < 2 ^ 62 ->
  let r := Fallocate ctx now s inode mode off size in
  let t := Fallocate_txf ctx now s inode mode off size in
  (mode = fallocInsertRange \/ mode = fallocCollapesRange -> r = (ENOTSUP, s)) /\
  (Z.land mode fallocPunchHole <> 0 -> Z.land mode fallocKeepSize = 0 ->
   r = (EINVAL, s)) /\
  (size = 0 -> r = (EINVAL, s) \/ r = (ENOTSUP, s)) /\
  (r = (EINVAL, s) \/ r = (ENOTSUP, s) \/ r = committed s t) /\
  match inodes s !! inode with
  | None => committed s t = (ENOENT, s)
  | Some a =>
      let old := parseAttr a Attr0 in
      if Typ old =? TypeFIFO then committed s t = (EPIPE, s)
      else if negb (Typ old =? TypeFile) then committed s t = (EPERM, s)
      else
        0 <= Length old < 2 ^ 62 ->
        let new := if Z.land mode fallocKeepSize =? 0
                   then Z.max (Length old) (off + size) else Length old in
        exists holes,
          t = Commit
                ([SetInode inode
                    (marshal (set_Ctime (set_Length old new)
                                (Unix now) (u32 (Nanosecond now))))]
                 ++ holes
                 ++ [IncrByUsedSpace (align4K new - align4K (Length old))]) tt /\
          (Z.land mode (Z.lor fallocZeroRange fallocPunchHole) = 0 -> holes = []) /\
          (Z.land mode (Z.lor fallocZeroRange fallocPunchHole) <> 0 ->
           off <= Length old ->
           tiles inode off holes (Z.min (off + size) (Length old)))
  end.
Proof.
  intros Hcs Hoff Hsize Hidx Hbig. cbv zeta.
  split; [|split; [|split; [|split]]].
  - intros [-> | ->]; reflexivity.
  - intros Hpunch Hkeep. unfold Fallocate.
    destruct (_ && _); [reflexivity|].
    destruct (_ && _); [reflexivity|].
    destruct (Z.eqb_spec mode fallocInsertRange) as [->|_]; [now contradiction Hpunch|].
    destruct (Z.eqb_spec mode fallocCollapesRange) as [->|_]; [now contradiction Hpunch|].
    cbn [orb].
    destruct (Z.eqb_spec (Z.land mode fallocPunchHole) 0) as [E|_]; [contradiction|].
    rewrite Hkeep. reflexivity.
  - intros ->. unfold Fallocate.
    destruct (_ && _); [now left|].
    destruct (_ && _); [now left|].
    destruct (_ || _); [now right|].
    destruct (_ && _); now left.
  - unfold Fallocate.
    destruct (_ && _); [now left|].
    destruct (_ && _); [now left|].
    destruct (_ || _); [right; now left|].
    destruct (_ && _); [now left|].
    destruct (size =? 0); [now left|]. right. now right.
  - unfold Fallocate_txf, tx_Get_inode.
    destruct (inodes s !! inode) as [a|]; [|reflexivity].
    cbv zeta. set (old := parseAttr a Attr0).
    destruct (Typ old =? TypeFIFO); [reflexivity|].
    destruct (negb (Typ old =? TypeFile)); [reflexivity|].
    intros Hold.
    rewrite !(u64_small (off + size)) by lia.
    assert (Hnew : (if (Length old <? off + size) && (Z.land mode fallocKeepSize =? 0)
                    then off + size else Length old)
                   = if Z.land mode fallocKeepSize =? 0
                     then Z.max (Length old) (off + size) else Length old).
    { destruct (Z.ltb_spec (Length old) (off + size));
        destruct (Z.land mode fallocKeepSize =? 0); cbn [andb]; lia. }
    rewrite Hnew. set (new := if Z.land mode fallocKeepSize =? 0 then _ else _).
    assert (Hnr : 0 <= new < 2 ^ 62).
    { unfold new. destruct (Z.land mode fallocKeepSize =? 0); lia. }
    pose proof (align4K_bounds _ Hold). pose proof (align4K_bounds _ Hnr).
    rewrite i64_small by lia.
    eexists. split; [reflexivity|]. split.
    + intros ->. reflexivity.
    + intros Hm Hle.
      destruct (Z.eqb_spec (Z.land mode (Z.lor fallocZeroRange fallocPunchHole)) 0) as [E|_];
        [contradiction|].
      cbn [negb].
      assert (Hp : 0 < ChunkSize) by lia.
      assert (Hsz : (if Length old <? off + size then u64 (Length old - off) else size)
                    = Z.min (off + size) (Length old) - off).
      { destruct (Z.ltb_spec (Length old) (off + size)).
        - rewrite u64_small by lia. lia.
        - lia. }
      rewrite Hsz. set (n := Z.min (off + size) (Length old) - off).
      replace (Z.min (off + size) (Length old)) with (off + n) by (unfold n; lia).
      assert (Hn : 0 <= n <= size) by (unfold n; lia).
      pose proof (Z.mod_pos_bound off ChunkSize Hp).
      pose proof (Z.mod_pos_bound n ChunkSize Hp).
      assert (Hnz : ChunkSize <> 0) by lia.
      pose proof (Z.div_mod n ChunkSize Hnz).
      assert (0 <= n / ChunkSize) by (apply Z.div_pos; lia).
      apply fallocate_holes_tiles; lia.
Qed.

End FallocateProps.

Lemma Fallocate_outcome_witness :
  exists a holes,
    Fallocate_txf (C := consts_4MiB) (mkCtx 0 0 false) (mkTime 1600000000 0)
      two_files 7 3 (3 * MiB) (6 * MiB)
    = Commit ([SetInode 7 a] ++ holes ++ [IncrByUsedSpace 0]) tt /\
    tiles (C := consts_4MiB) 7 (3 * MiB) holes (8 * MiB).
Proof.
  pose proof (Fallocate_outcome (C := consts_4MiB) (mkCtx 0 0 false)
                (mkTime 1600000000 0) two_files 7 3 (3 * MiB) (6 * MiB)
                ltac:(vm_compute; split; reflexivity) ltac:(unfold MiB; lia)
                ltac:(unfold MiB; lia) ltac:(vm_compute; reflexivity)
                ltac:(unfold MiB; lia)) as (_ & _ & _ & _ & H).
  cbv zeta in H.
  destruct (inodes two_files !! 7) as [a|] eqn:E7; [|discriminate E7].
  vm_compute in E7. injection E7 as <-.
  change (Typ (parseAttr _ Attr0) =? TypeFIFO) with false in H.
  change (negb (Typ (parseAttr _ Attr0) =? TypeFile)) with false in H.
  cbv iota in H.
  destruct (H ltac:(vm_compute; split; [discriminate|reflexivity]))
    as (holes & Ht & _ & Hholes).
  eexists _, holes. split; [exact Ht|].
  apply Hholes; [discriminate|vm_compute; discriminate].
Defined.

(** ** Reading what a growing Truncate has added *)

Section TruncateRead.
Context {C : Consts}.

(** The log of the chunk the old end lies in, after a growing [Truncate]. *)
Lemma Truncate_grow_first_log (ctx : Ctx) (now : Time) (scanned : list Z)
    (s : Store) (inode flags length : Z) (a : blob) :
  inodes s !! inode = Some a ->
  Typ (parseAttr a Attr0) = TypeFile ->
  grow_range (b_length a) length ->
  chunks (committed s (Truncate_txf ctx now scanned s inode flags length)).2
    !! (inode, b_length a / ChunkSize)
  = Some (default [] (chunks s !! (inode, b_length a / ChunkSize))
          ++ [grow_first (b_length a) length]).
Proof.
  intros Hget Htyp Hr.
  pose proof (grow_range_facts _ _ Hr) as (H1 & H2 & H3 & H4 & H5 & H6).
  unfold Truncate_txf, tx_Get_inode. rewrite Hget, Htyp, Z.eqb_refl.
  cbn [negb committed snd].
  change (Length (parseAttr a Attr0)) with (b_length a).
  rewrite Truncate_cmds_grow by exact Hr. rewrite grow_stages.
  change (chunks (exec ?x (IncrByUsedSpace ?n))) with (chunks x).
  rewrite grow_tail_lookup. rewrite decide_False.
  2:{ intros ([= Heq] & Hlt & _). nia. }
  rewrite RPushX_notin.
  2:{ right. intros Hin. apply (zeroChunks_between _ _ _ _ Hr) in Hin. lia. }
  rewrite chunks_RPush. reflexivity.
Qed.

(** X28.  What [Read] returns after a growing [Truncate], for the chunk the
    old end of the file lies in, when its log has well-formed records and
    is fetched whole: the bytes from the old end to the new end, or to the
    end of the chunk if that comes first, read as zeros, whatever records
    the log holds there (data left behind by an earlier, shrinking
    [Truncate]); every other byte of the chunk reads as before, the bytes of
    a gap below the old end as zeros. *)
Theorem Truncate_grow_reads_zeros (ctx : Ctx) (now : Time) (scanned : list Z) (net : Net)
    (s : Store) (inode flags length : Z) (a : blob) :
  inodes s !! inode = Some a ->
  Typ (parseAttr a Attr0) = TypeFile ->
  grow_range (b_length a) length ->
  net None = None ->
  let first := b_length a / ChunkSize in
  let pos := b_length a mod ChunkSize in
  let stop := Z.min ChunkSize (length - first * ChunkSize) in
  let log := default [] (chunks s !! (inode, first)) in
  Forall wf_rec log -> Z.of_nat (List.length log) < 1000000 ->
  let r := committed s (Truncate_txf ctx now scanned s inode flags length) in
  r.1 = 0 /\
  exists before after,
    (Read net s inode first).1 = (0, Some before) /\
    (Read net r.2 inode first).1 = (0, Some after) /\
    (forall q, pos <= q < stop -> layout after q = Some Zero) /\
    (forall q, q < pos \/ stop <= q ->
       layout after q
       = match layout before q with
         | Some b => Some b
         | None => if (0 <=? q) && (q <? pos) then Some Zero else None
         end).
Proof.
  intros Hget Htyp Hr Hnet first pos stop log Hwf Hlen r.
  pose proof (grow_range_facts _ _ Hr) as (H1 & H2 & H3 & H4 & H5 & H6).
  fold first pos in H1, H3, H5.
  pose proof (Truncate_grow_first_log ctx now scanned s inode flags length a
                Hget Htyp Hr) as Hlog.
  fold first log r in Hlog.
  assert (Hcs : 0 < ChunkSize < 2 ^ 32) by (destruct Hr; assumption).
  assert (Hh : grow_first (b_length a) length = hole pos (stop - pos)).
  { unfold grow_first. fold first pos. f_equal. unfold stop.
    destruct (Z.ltb_spec ((first + 1) * ChunkSize) length); nia. }
  assert (Hstop : pos < stop <= ChunkSize).
  { unfold stop. destruct Hr as (_ & Hlt & _). nia. }
  assert (Hnew : wf_rec (hole pos (stop - pos))).
  { unfold wf_rec, hole. cbn. lia. }
  assert (Hall : Forall wf_rec (log ++ [hole pos (stop - pos)])).
  { apply Forall_app. split; [exact Hwf|]. constructor; [exact Hnew|constructor]. }
  split.
  { unfold r, Truncate_txf, tx_Get_inode. now rewrite Hget, Htyp, Z.eqb_refl. }
  exists (buildSlice log), (buildSlice (log ++ [hole pos (stop - pos)])).
  split; [|split].
  - unfold Read. rewrite Hnet. fold log. cbv zeta. unfold readSlices.
    rewrite lrange_all by lia. reflexivity.
  - unfold Read. rewrite Hnet, Hlog, Hh. cbv zeta. unfold readSlices.
    cbn [default from_option id].
    rewrite lrange_all; [reflexivity|lia|]. rewrite length_app. simpl List.length. lia.
  - destruct (buildSlice_visible _ Hall) as (_ & _ & La).
    destruct (buildSlice_visible _ Hwf) as (_ & _ & Lb).
    assert (Hlay : forall q, layout (buildSlice (log ++ [hole pos (stop - pos)])) q
                             = overlay_on (layout (buildSlice log)) (hole pos (stop - pos)) q).
    { intros q. rewrite La, visible_snoc by assumption.
      unfold overlay_on. now rewrite Lb. }
    split; intros q Hq; rewrite Hlay; unfold overlay_on, covers, hole;
      cbn [r_pos r_len].
    + destruct (Z.leb_spec pos q); [|lia].
      destruct (Z.ltb_spec q (pos + (stop - pos))); [|lia]. reflexivity.
    + destruct (Z.leb_spec pos q); destruct (Z.ltb_spec q (pos + (stop - pos)));
        cbn [andb]; try reflexivity. lia.
Qed.

End TruncateRead.

Lemma Truncate_grow_reads_zeros_witness :
  let r := committed two_writes
             (Truncate_txf (C := juicefs_consts) (mkCtx 0 0 false) (mkTime 1600000000 0) []
                two_writes 7 0 100) in
  exists after,
    (Read (fun _ => None) r.2 7 0).1 = (0, Some after) /\
    layout after 5 = Some Zero /\ layout after 22 = Some Zero /\
    layout after 99 = Some Zero /\ layout after 100 = None.
Proof.
  assert (Hget : inodes two_writes !! 7 = Some (marshal empty_file))
    by apply lookup_singleton_eq.
  assert (Hlog : default [] (chunks two_writes !! (7, 0))
                 = [mkSrec 0 101 10 0 10; mkSrec 20 102 5 0 5]).
  { unfold two_writes. simpl. now rewrite lookup_singleton_eq. }
  assert (Hr : grow_range (C := juicefs_consts) (b_length (marshal empty_file)) 100).
  { unfold grow_range. simpl. lia. }
  assert (Hwf : Forall wf_rec (default [] (chunks two_writes !! (7, 0)))).
  { rewrite Hlog. repeat constructor; simpl; lia. }
  assert (Hlen : Z.of_nat (List.length (default [] (chunks two_writes !! (7, 0)))) < 1000000).
  { rewrite Hlog. simpl. lia. }
  destruct (Truncate_grow_reads_zeros (C := juicefs_consts) (mkCtx 0 0 false)
              (mkTime 1600000000 0) [] (fun _ => None) two_writes 7 0 100
              (marshal empty_file) Hget eq_refl Hr eq_refl Hwf Hlen)
    as (_ & before & after & Hb & Ha & Hz & Ho).
  cbv zeta. exists after. split; [exact Ha|].
  split; [apply Hz; vm_compute; split; [discriminate|reflexivity]|].
  split; [apply Hz; vm_compute; split; [discriminate|reflexivity]|].
  split; [apply Hz; vm_compute; split; [discriminate|reflexivity]|].
  rewrite Ho by (right; vm_compute; discriminate).
  vm_compute in Hb. injection Hb as <-. reflexivity.
Defined.

(** ** Lookup: names that were created are found *)

Section LookupProps.
Context {C : Consts}.

Lemma Lookup_plain_found (net : Net) (s : Store) (parent : Z) (name : string)
    (inode : option Z) (attr : option Attr) :
  net None = None ->
  Lookup_plain net s parent name inode attr
  = match default ∅ (entries s !! parent) !! name with
    | None => (ENOENT, inode, attr)
    | Some (_, ino) =>
        let inode := match inode with Some _ => Some ino | None => None end in
        match attr with
        | None => (0, inode, None)
        | Some a =>
            match inodes s !! ino with
            | Some b => (0, inode, Some (parseAttr b a))
            | None => (ENOENT, inode, Some a)
            end
        end
    end.
Proof.
  intros Hnet. unfold Lookup_plain, rdb_HGet_entry, rdb_Get_inode, tx_HGet_entry.
  rewrite Hnet.
  destruct (default ∅ (entries s !! parent) !! name) as [[typ ino]|]; [|reflexivity].
  destruct attr as [a|]; [|reflexivity].
  destruct (inodes s !! ino); reflexivity.
Qed.

(** X29.  [Lookup] finds what [mknod] has created.  After a [mknod] that
    returned 0, on a working connection: a [Lookup] of the name that asks
    for no attribute returns 0 and the new inode, whether the script is
    loaded or not; one that asks for the attribute, when the script is not
    loaded or [EvalSha] fails with NOSCRIPT, returns 0, the new inode and the
    attribute [mknod] stored, and in the second case the script is given up
    for later calls.  Before the [mknod] the same [Lookup] returned ENOENT
    and left [*inode] and [*attr] alone, and the [Lookup] of any other name
    of the directory gives what it gave before.  [ino] is the number
    [nextInode] returned to [mknod]. *)
Theorem mknod_Lookup_roundtrip (ctx : Ctx) (now : Time) (s : Store) (parent : Z)
    (name : string) (_type mode cumask rdev : Z) (path : string) (ino : Z) (attr : Attr)
    (net : Net) (reply : script_reply) (sha : string) (i0 : Z) (a0 : Attr) :
  (mknod_ino ctx now s parent name _type mode cumask rdev path ino attr).1 = 0 ->
  net None = None ->
  sha = ""%string \/
  (exists msg, reply = ReplyErr msg /\ contains "NOSCRIPT" msg = true) ->
  let s' := (mknod_ino ctx now s parent name _type mode cumask rdev path ino attr).2 in
  (forall reply' sha',
     Lookup net reply' sha' s' parent name (Some i0) None = (0, Some ino, None, sha')) /\
  (exists b,
     inodes s' !! ino = Some b /\
     Lookup net reply sha s' parent name (Some i0) (Some a0)
     = (0, Some ino, Some (parseAttr b a0), ""%string)) /\
  Lookup net reply sha s parent name (Some i0) (Some a0)
  = (ENOENT, Some i0, Some a0, ""%string) /\
  (forall reply' sha' n i,
     n <> name ->
     Lookup net reply' sha' s' parent n i None = Lookup net reply' sha' s parent n i None).
Proof.
  intros Hok Hnet Hplain. cbv zeta.
  assert (Hpath : forall st i a,
            Lookup net reply sha st parent name i (Some a)
            = (Lookup_plain net st parent name i (Some a), ""%string)).
  { intros st i a. unfold Lookup.
    destruct Hplain as [-> | (msg & -> & Hc)]; [reflexivity|].
    destruct (0 <? String.length sha)%nat eqn:E.
    - rewrite Hc. reflexivity.
    - destruct sha; [reflexivity|discriminate E]. }
  revert Hok. unfold mknod_ino, mknod_txf, tx_Get_inode, tx_HGet_entry.
  destruct (inodes s !! parent) as [pa|]; [|discriminate].
  destruct (Typ (parseAttr pa Attr0) =? TypeDirectory); [|discriminate].
  cbn [negb].
  destruct (default ∅ (entries s !! parent) !! name) eqn:Hname; [discriminate|].
  intros _. cbn [committed snd].
  match goal with |- context [pipeline ([_; SetInode parent ?pb; SetInode ino ?ib] ++ _) s] =>
    destruct (mknod_pipeline s parent name _type path ino pb ib) as [Hi He];
    set (inew := ib) in *;
    set (s' := pipeline _ s) in *
  end.
  cbv zeta in Hi, He.
  assert (Hent : default ∅ (entries s' !! parent) !! name = Some (_type, ino)).
  { rewrite He, lookup_insert_eq. apply lookup_insert_eq. }
  assert (Hino : inodes s' !! ino = Some inew).
  { rewrite Hi. apply lookup_insert_eq. }
  split; [|split; [|split]].
  - intros reply' sha'. unfold Lookup. rewrite Lookup_plain_found by exact Hnet.
    now rewrite Hent.
  - exists inew. split; [exact Hino|].
    rewrite Hpath, Lookup_plain_found by exact Hnet. now rewrite Hent, Hino.
  - rewrite Hpath, Lookup_plain_found by exact Hnet. now rewrite Hname.
  - intros reply' sha' n i Hn. unfold Lookup.
    rewrite !Lookup_plain_found by exact Hnet.
    rewrite He, lookup_insert_eq. cbn [default from_option id].
    now rewrite lookup_insert_ne by congruence.
Qed.

End LookupProps.

Lemma mknod_Lookup_roundtrip_witness :
  let s' := (mknod_ino (C := juicefs_consts) (mkCtx 1000 1000 false) (mkTime 1600000000 0)
               fresh_volume 1 "f" 1 0x1A4 0x12 0 "" 2 Attr0).2 in
  exists b,
    Lookup (fun _ => None) (ReplyErr "NOSCRIPT No matching script")
      "0123abcd" s' 1 "f" (Some 0) (Some Attr0)
    = (0, Some 2, Some (parseAttr b Attr0), ""%string) /\
    Typ (parseAttr b Attr0) = 1 /\ Mode (parseAttr b Attr0) = 0x1A4 /\
    Uid (parseAttr b Attr0) = 1000.
Proof.
  destruct (mknod_Lookup_roundtrip (C := juicefs_consts) (mkCtx 1000 1000 false)
              (mkTime 1600000000 0) fresh_volume 1 "f" 1 0x1A4 0x12 0 "" 2 Attr0
              (fun _ => None) (ReplyErr "NOSCRIPT No matching script")
              "0123abcd" 0 Attr0 eq_refl eq_refl
              (or_intror (ex_intro _ _ (conj eq_refl eq_refl))))
    as (_ & (b & Hb & HL) & _ & _).
  cbv zeta. exists b. split; [exact HL|].
  vm_compute in Hb. injection Hb as <-. repeat split.
Defined.

(** ** The deletion of the chunks of a file *)

Lemma same_but_chunks_refl (s : Store) : same_but_chunks s s.
Proof. now repeat split. Qed.

Lemma same_but_chunks_trans (s1 s2 s3 : Store) :
  same_but_chunks s1 s2 -> same_but_chunks s2 s3 -> same_but_chunks s1 s3.
Proof.
  unfold same_but_chunks.
  intros (A1 & B1 & C1 & D1 & E1 & F1 & G1 & H1) (A2 & B2 & C2 & D2 & E2 & F2 & G2 & H2).
  repeat split; congruence.
Qed.

Lemma put_list_put_list (k : Z * Z) (l1 l2 : list srec) (m : gmap (Z * Z) (list srec)) :
  put_list k l2 (put_list k l1 m) = put_list k l2 m.
Proof.
  unfold put_list. destruct l1, l2.
  - apply delete_delete_eq.
  - apply insert_delete_eq.
  - apply delete_insert_eq.
  - apply insert_insert_eq.
Qed.

Lemma drop_tail {A : Type} (n : nat) (l : list A) : drop n (tail l) = drop (S n) l.
Proof. destruct l; [now destruct n|reflexivity]. Qed.

Lemma pop_decr_chunks (inode indx : Z) (vals : list srec) : forall s,
  chunks (pop_decr s inode indx vals).1
  = match vals with
    | [] => chunks s
    | _ => put_list (inode, indx)
             (drop (length vals) (default [] (chunks s !! (inode, indx)))) (chunks s)
    end /\
  same_but_chunks s (pop_decr s inode indx vals).1.
Proof.
  induction vals as [|v vals IH]; intros s; [split; [reflexivity|apply same_but_chunks_refl]|].
  cbn [pop_decr].
  set (s1 := exec (LPop s inode indx) (DecrSlice (r_chunkid v) (r_size v))).
  destruct (IH s1) as [Hc Hs].
  destruct (pop_decr s1 inode indx vals) as [s' rs]. cbn [fst] in *.
  assert (Hc1 : chunks s1
                = put_list (inode, indx)
                    (tail (default [] (chunks s !! (inode, indx)))) (chunks s))
    by reflexivity.
  split.
  - rewrite Hc. destruct vals as [|v' vals].
    + rewrite Hc1. cbn [length]. now rewrite <- drop_tail, drop_0.
    + rewrite Hc1, lookup_put_list, put_list_put_list.
      f_equal. apply drop_tail.
  - eapply same_but_chunks_trans; [|exact Hs]. now repeat split.
Qed.

Lemma delete_negative_frame (net : Net) (deleted : Z -> Z -> bool) (slices : list srec) :
  forall s rs,
    chunks (delete_negative net deleted s rs slices).1 = chunks s /\
    same_but_chunks s (delete_negative net deleted s rs slices).1.
Proof.
  induction slices as [|x slices IH]; intros s rs;
    [split; [reflexivity|apply same_but_chunks_refl]|].
  cbn [delete_negative]. destruct rs as [|[e val] rs];
    [split; [reflexivity|apply same_but_chunks_refl]|].
  assert (H1 : forall y : Store * list event,
            chunks y.1 = chunks s -> same_but_chunks s y.1 ->
            chunks (let '(s0, ev) := y in
                    let '(s', ev') := delete_negative net deleted s0 rs slices in
                    (s', ev ++ ev')).1 = chunks s /\
            same_but_chunks s (let '(s0, ev) := y in
                               let '(s', ev') := delete_negative net deleted s0 rs slices in
                               (s', ev ++ ev')).1).
  { intros [s0 ev] Hc Hs. cbn [fst] in *. destruct (IH s0 rs) as [Hc' Hs'].
    destruct (delete_negative net deleted s0 rs slices) as [s' ev']. cbn [fst] in *.
    split; [congruence|]. eapply same_but_chunks_trans; eassumption. }
  apply H1.
  - destruct (val <? 0); [|reflexivity]. unfold deleteSlice.
    destruct (deleted _ _); [destruct (net None)|]; reflexivity.
  - destruct (val <? 0); [|apply same_but_chunks_refl]. unfold deleteSlice.
    destruct (deleted _ _); [destruct (net None)|]; now repeat split.
Qed.

Lemma lrange_take {A : Type} (l : list A) (stop : Z) :
  0 <= stop -> lrange l 0 stop = take (Z.to_nat (stop + 1)) l.
Proof.
  intros Hstop. unfold lrange. change (0 <? 0) with false. cbv iota.
  destruct (Z.ltb_spec stop 0); [lia|].
  destruct l as [|x l].
  { rewrite take_nil. change (Z.of_nat (length [])) with 0.
    change (0 <=? 0) with true. now rewrite orb_true_r. }
  set (n := Z.of_nat (length (x :: l))).
  assert (0 < n) by (unfold n; simpl; lia).
  destruct (Z.ltb_spec (Z.min stop (n - 1)) 0); [lia|].
  destruct (Z.leb_spec n 0); [lia|]. cbn [orb].
  change (Z.to_nat 0) with 0%nat. rewrite drop_0.
  destruct (Z.le_gt_cases stop (n - 1)).
  - rewrite Z.min_l by lia. f_equal. lia.
  - rewrite Z.min_r by lia. rewrite !take_ge; [reflexivity|unfold n in *; lia|unfold n in *; lia].
Qed.

(** The log of one chunk is emptied and no other log is touched. *)
Lemma deleteChunk_loop_spec (net : Net) (deleted : Z -> Z -> bool) (inode indx : Z)
    (n : nat) :
  forall s,
    (length (default [] (chunks s !! (inode, indx))) < n)%nat ->
    exists s' ev,
      deleteChunk_loop n net deleted s inode indx = Some (s', ev) /\
      default [] (chunks s' !! (inode, indx)) = [] /\
      (forall k, k <> (inode, indx) -> chunks s' !! k = chunks s !! k) /\
      same_but_chunks s s'.
Proof.
  induction n as [|n IH]; intros s Hlen; [lia|].
  cbn [deleteChunk_loop].
  set (log := default [] (chunks s !! (inode, indx))) in *.
  rewrite lrange_take by lia. change (Z.to_nat (100 + 1)) with 101%nat.
  set (vals := take 101 log).
  destruct (pop_decr_chunks inode indx vals s) as [Hc1 Hs1].
  destruct (pop_decr s inode indx vals) as [s1 rs]. cbn [fst] in *.
  destruct (delete_negative_frame net deleted vals s1 rs) as [Hc2 Hs2].
  destruct (delete_negative net deleted s1 rs vals) as [s2 ev]. cbn [fst] in *.
  fold log in Hc1.
  assert (Hlog2 : default [] (chunks s2 !! (inode, indx)) = drop (length vals) log).
  { rewrite Hc2, Hc1. destruct vals eqn:E.
    - fold log. symmetry in E. unfold vals in E.
      destruct log; [reflexivity|discriminate E].
    - apply lookup_put_list. }
  assert (Hother : forall k, k <> (inode, indx) -> chunks s2 !! k = chunks s !! k).
  { intros k Hk. rewrite Hc2, Hc1. destruct vals; [reflexivity|].
    apply lookup_put_list_ne. congruence. }
  assert (Hs : same_but_chunks s s2) by (eapply same_but_chunks_trans; eassumption).
  assert (Hvl : length vals = Nat.min 101 (length log)) by apply length_take.
  destruct (Nat.ltb_spec (length vals) 100) as [Hlt|Hge].
  - exists s2, ev. split; [reflexivity|]. split; [|split; assumption].
    rewrite Hlog2. apply drop_ge. lia.
  - destruct (IH s2) as (s3 & ev' & Hrun & Hempty & Hother3 & Hs3).
    { rewrite Hlog2, length_drop. lia. }
    rewrite Hrun. exists s3, (ev ++ ev'). split; [reflexivity|].
    split; [exact Hempty|]. split.
    + intros k Hk. rewrite Hother3 by exact Hk. now apply Hother.
    + eapply same_but_chunks_trans; eassumption.
Qed.

Section DeleteFileProps.
Context {C : Consts}.

Lemma batch_keys_spec (length : Z) (n : nat) : forall indx,
  0 < ChunkSize <= 2 ^ 32 -> 0 <= length <= (2 ^ 32 - 1) * ChunkSize ->
  0 <= indx < 2 ^ 32 ->
  let '(keys, indx') := batch_keys n indx length in
  indx' = indx + Z.of_nat (List.length keys) /\
  (forall i, i ∈ keys <-> indx <= i < indx') /\
  (forall i, i ∈ keys -> i * ChunkSize < length) /\
  0 <= indx' < 2 ^ 32 /\
  (indx * ChunkSize < length -> (0 < n)%nat -> indx < indx').
Proof.
  induction n as [|n IH]; intros indx Hcs Hlen Hindx.
  - cbn [batch_keys List.length].
    split; [lia|]. split; [|split; [|split]].
    + intros i. split; [intros Hin; inversion Hin|lia].
    + intros i Hin. inversion Hin.
    + exact Hindx.
    + lia.
  - cbn [batch_keys].
    assert (Hu : u64 (indx * ChunkSize) = indx * ChunkSize).
    { apply u64_small. change (2 ^ 64) with (2 ^ 32 * 2 ^ 32). nia. }
    rewrite Hu.
    destruct (Z.ltb_spec (indx * ChunkSize) length) as [Hlt|Hge].
    + assert (Hnext : 0 <= indx + 1 < 2 ^ 32) by nia.
      rewrite (u32_small (indx + 1)) by exact Hnext.
      specialize (IH (indx + 1) Hcs Hlen Hnext).
      destruct (batch_keys n (indx + 1) length) as [keys indx'].
      destruct IH as (Hi' & Hmem & Hbelow & Hr & Hprog).
      cbn [List.length].
      split; [lia|]. split; [|split; [|split]].
      * intros i. split.
        -- intros Hin. apply elem_of_cons in Hin as [->|Hin]; [lia|].
           apply Hmem in Hin. lia.
        -- intros Hi. destruct (decide (i = indx)) as [->|Hne]; [now left|].
           right. apply Hmem. lia.
      * intros i Hin. apply elem_of_cons in Hin as [->|Hin]; [exact Hlt|now apply Hbelow].
      * lia.
      * lia.
    + cbn [List.length].
      split; [lia|]. split; [|split; [|split]].
      * intros i. split; [intros Hin; inversion Hin|lia].
      * intros i Hin. inversion Hin.
      * exact Hindx.
      * lia.
Qed.

Lemma delete_chunks_spec (net : Net) (deleted : Z -> Z -> bool) (inode : Z) (cmds : list (Z * Z)) :
  forall s,
    Forall (fun c => 0 <= c.1 < 2 ^ 32 /\
                     (c.2 = 0 -> default [] (chunks s !! (inode, c.1)) = [])) cmds ->
    exists s' ev,
      delete_chunks net deleted s inode cmds = Some (s', ev) /\
      (forall i, i ∈ cmds.*1 -> default [] (chunks s' !! (inode, i)) = []) /\
      (forall k, k.1 <> inode \/ k.2 ∉ cmds.*1 -> chunks s' !! k = chunks s !! k) /\
      same_but_chunks s s'.
Proof.
  induction cmds as [|[idx val] cmds IH]; intros s Hall.
  - exists s, []. split; [reflexivity|]. split; [|split].
    + intros i Hin. inversion Hin.
    + reflexivity.
    + apply same_but_chunks_refl.
  - inversion Hall as [|? ? [Hidx Hzero] Hrest]; subst. cbn [fst snd] in *.
    cbn [delete_chunks].
    destruct (Z.eqb_spec val 0) as [Hv|Hv].
    + destruct (IH s Hrest) as (s' & ev & Hrun & Hempty & Hother & Hs).
      exists s', ev. split; [exact Hrun|]. split; [|split; [|exact Hs]].
      * intros i Hin. cbn [fmap list_fmap fst] in Hin.
        destruct (decide (i ∈ cmds.*1)) as [Hi|Hi]; [now apply Hempty|].
        apply elem_of_cons in Hin as [->|Hin]; [|contradiction].
        rewrite Hother by (right; exact Hi). now apply Hzero.
      * intros k Hk. apply Hother. destruct Hk as [Hk|Hk]; [now left|right].
        intros Hin. apply Hk. cbn [fmap list_fmap fst]. now right.
    + rewrite (u32_small idx) by exact Hidx.
      destruct (deleteChunk_loop_spec net deleted inode idx
                  (S (List.length (default [] (chunks s !! (inode, idx))))) s ltac:(lia))
        as (s1 & ev1 & Hrun1 & Hempty1 & Hother1 & Hs1).
      unfold deleteChunk. rewrite Hrun1.
      destruct (IH s1) as (s' & ev & Hrun & Hempty & Hother & Hs).
      { eapply Forall_impl; [exact Hrest|]. intros [i v] [Hi Hz]. cbn [fst snd] in *.
        split; [exact Hi|]. intros Hv0.
        destruct (decide (i = idx)) as [->|Hne]; [exact Hempty1|].
        rewrite Hother1 by congruence. now apply Hz. }
      rewrite Hrun. exists s', (ev1 ++ ev). split; [reflexivity|].
      split; [|split].
      * intros i Hin. cbn [fmap list_fmap fst] in Hin.
        destruct (decide (i ∈ cmds.*1)) as [Hi|Hi]; [now apply Hempty|].
        apply elem_of_cons in Hin as [->|Hin]; [|contradiction].
        rewrite Hother by (right; exact Hi). exact Hempty1.
      * intros k Hk. cbn [fmap list_fmap fst] in Hk.
        rewrite Hother.
        2:{ destruct Hk as [Hk|Hk]; [now left|right]. intros Hin. apply Hk. now right. }
        apply Hother1. destruct k as [k1 k2]. cbn [fst snd] in Hk.
        intros [= -> ->]. destruct Hk as [Hk|Hk]; [now apply Hk|]. apply Hk. now left.
      * eapply same_but_chunks_trans; eassumption.
Qed.

Lemma deleteFile_loop_spec (net : Net) (deleted : Z -> Z -> bool) (inode length : Z)
    (n : nat) :
  forall s indx,
    0 < ChunkSize <= 2 ^ 32 -> 0 <= length <= (2 ^ 32 - 1) * ChunkSize ->
    0 <= indx < 2 ^ 32 ->
    Z.max 0 (length / ChunkSize + 1 - indx) < Z.of_nat n ->
    exists s' ev,
      deleteFile_loop n net deleted s inode indx length = Some (s', ev) /\
      (forall i, indx <= i -> i * ChunkSize < length ->
         default [] (chunks s' !! (inode, i)) = []) /\
      (forall ino i, ino <> inode \/ i < indx \/ length <= i * ChunkSize ->
         chunks s' !! (ino, i) = chunks s !! (ino, i)) /\
      same_but_chunks s s'.
Proof.
  induction n as [|n IH]; intros s indx Hcs Hlen Hindx Hfuel.
  - lia.
  - cbn [deleteFile_loop].
    assert (Hu : u64 (indx * ChunkSize) = indx * ChunkSize).
    { apply u64_small. change (2 ^ 64) with (2 ^ 32 * 2 ^ 32). nia. }
    rewrite Hu.
    destruct (Z.ltb_spec (indx * ChunkSize) length) as [Hlt|Hge].
    2:{ exists s, []. split; [reflexivity|]. split; [|split].
        - intros i Hi Hil. nia.
        - reflexivity.
        - apply same_but_chunks_refl. }
    pose proof (batch_keys_spec length 1000 indx Hcs Hlen Hindx) as Hb.
    destruct (batch_keys 1000 indx length) as [keys indx'].
    destruct Hb as (Hi' & Hmem & Hbelow & Hr & Hprog).
    specialize (Hprog Hlt ltac:(lia)).
    set (llens := map _ keys).
    assert (Hfst : llens.*1 = keys).
    { unfold llens. rewrite <- list_fmap_compose. apply list_fmap_id. }
    destruct (delete_chunks_spec net deleted inode llens s)
      as (s1 & ev1 & Hrun1 & Hempty1 & Hother1 & Hs1).
    { unfold llens. rewrite Forall_map. apply Forall_forall. intros i Hin.
      cbn [fst snd]. split.
      - pose proof (Hbelow i Hin). apply Hmem in Hin. nia.
      - intros Hz. destruct (default [] (chunks s !! (inode, i))); [reflexivity|].
        simpl in Hz. lia. }
    rewrite Hrun1. rewrite Hfst in Hempty1, Hother1.
    assert (Hdiv : indx' <= length / ChunkSize + 1).
    { assert (Hlast : (indx' - 1) ∈ keys) by (apply Hmem; lia).
      apply Hbelow in Hlast.
      assert (indx' - 1 <= length / ChunkSize) by (apply Z.div_le_lower_bound; nia). lia. }
    destruct (IH s1 indx' Hcs Hlen Hr ltac:(lia))
      as (s2 & ev2 & Hrun2 & Hempty2 & Hother2 & Hs2).
    rewrite Hrun2. exists s2, (ev1 ++ ev2). split; [reflexivity|].
    split; [|split].
    + intros i Hi Hil. destruct (Z.lt_ge_cases i indx') as [Hin|Hout].
      * rewrite Hother2 by (right; left; exact Hin). apply Hempty1. apply Hmem. lia.
      * now apply Hempty2.
    + intros ino i Hk. rewrite Hother2 by lia.
      apply (Hother1 (ino, i)). cbn [fst snd].
      destruct Hk as [Hk|Hk]; [now left|right].
      intros Hin. pose proof (Hbelow i Hin). apply Hmem in Hin. lia.
    + eapply same_but_chunks_trans; eassumption.
Qed.

(** X30.  [deleteFile], as [Unlink], [Rename] and [deleteInode] start it,
    for a length of at most 2^32 - 1 chunks and with no conflicting
    writer.  On a working connection it ends, leaves no record in the log
    of any chunk below the length, touches no log of another file and none
    beyond the length, takes the file out of [delfiles], and changes nothing
    else but slice reference counts.  When the connection fails it does
    nothing: the file stays in [delfiles]. *)
Theorem deleteFile_outcome (net : Net) (deleted : Z -> Z -> bool) (s : Store)
    (inode length : Z) :
  0 < ChunkSize <= 2 ^ 32 -> 0 <= length <= (2 ^ 32 - 1) * ChunkSize ->
  exists s' ev,
    deleteFile net deleted s inode length = Some (s', ev) /\
    (net None <> None -> s' = s) /\
    (net None = None ->
     (forall i, 0 <= i -> i * ChunkSize < length ->
        default [] (chunks s' !! (inode, i)) = []) /\
     (forall ino i, ino <> inode \/ i < 0 \/ length <= i * ChunkSize ->
        chunks s' !! (ino, i) = chunks s !! (ino, i)) /\
     delfiles s' = delete (inode, i64 length) (delfiles s) /\
     inodes s' = inodes s /\ entries s' = entries s /\ symlinks s' = symlinks s /\
     xattrs s' = xattrs s /\ usedSpace s' = usedSpace s /\
     totalInodes s' = totalInodes s /\ sessions s' = sessions s).
Proof.
  intros Hcs Hlen. unfold deleteFile.
  destruct (net None) as [msg|] eqn:Hnet.
  { eexists _, _. split; [reflexivity|]. split; [reflexivity|discriminate]. }
  assert (Hq : 0 <= length / ChunkSize) by (apply Z.div_pos; lia).
  destruct (deleteFile_loop_spec net deleted inode length
              (S (Z.to_nat (length / ChunkSize + 1))) s 0 Hcs Hlen ltac:(lia) ltac:(lia))
    as (s1 & ev & Hrun & Hempty & Hother & Hs).
  rewrite Hrun. eexists _, _. split; [reflexivity|]. split; [intros H; now destruct H|].
  intros _. destruct Hs as (A & B & D & E & F & G & H & I).
  cbn [chunks delfiles inodes entries symlinks xattrs usedSpace totalInodes sessions
       set_delfiles].
  split; [exact Hempty|]. split; [exact Hother|]. split; [now rewrite H|].
  repeat split; assumption.
Qed.

End DeleteFileProps.

Lemma deleteFile_outcome_witness :
  exists s' ev,
    deleteFile (C := consts_4MiB) (fun _ => None) (fun _ _ => true) two_files 7 (8 * MiB)
    = Some (s', ev) /\
    default [] (chunks s' !! (7, 0)) = [] /\ default [] (chunks s' !! (7, 1)) = [] /\
    inodes s' = inodes two_files.
Proof.
  destruct (deleteFile_outcome (C := consts_4MiB) (fun _ => None) (fun _ _ => true)
              two_files 7 (8 * MiB)
              ltac:(vm_compute; split; [reflexivity|discriminate])
              ltac:(vm_compute; split; discriminate))
    as (s' & ev & Hrun & _ & H).
  destruct (H eq_refl) as (Hempty & _ & _ & Hi & _).
  exists s', ev. split; [exact Hrun|].
  split; [apply Hempty; [lia|reflexivity]|].
  split; [apply Hempty; [lia|reflexivity]|exact Hi].
Defined.
